(** * keypoint-moseq: changepoint detection and group statistics

    A shallow embedding of the statistical core of
    [keypoint_moseq/analysis.py]:

    - [get_tie_correction], [run_manual_KW_test],
      [dunns_z_test_permute_within_group_pairs],
      [compute_pvalues_for_group_pairs] and [run_kruskal]
      (the permutation Kruskal-Wallis / Dunn pipeline);
    - the threshold scan of [changepoint_analysis] with its inner
      [get_changepoints].

    Floating point numbers are read as exact rationals ([Q], compared with
    [Qeq]); numpy arrays are lists (matrices are lists of rows); pandas
    frames are lists of records; Python exceptions are an error result;
    numpy's generators are explicit states that are threaded through the
    calls that draw from them. *)

From Stdlib Require Import List Arith ZArith QArith Qabs Qround Lia Lqa Bool String.
From Stdlib Require Import Permutation Sorted SetoidList Morphisms.
From Stdlib Require OrdersEx.
Import ListNotations.

(* ================================================================== *)
(** ** Exceptions and the error monad *)

Inductive exn : Type :=
| AssertionError (msg : string)
| ValueError
| ZeroDivisionError
| KeyError.

Inductive result (A : Type) : Type :=
| Ok (a : A)
| Raise (e : exn).

Arguments Ok {A} a.
Arguments Raise {A} e.

Definition rbind {A B} (m : result A) (k : A -> result B) : result B :=
  match m with
  | Ok a => k a
  | Raise e => Raise e
  end.

Declare Scope py_scope.
Delimit Scope py_scope with py.
Notation "x <- m ;; k" := (rbind m (fun x => k))
  (at level 61, m at next level, right associativity) : py_scope.
Notation "' pat <- m ;; k" := (rbind m (fun x => match x with pat => k end))
  (at level 61, pat pattern, m at next level, right associativity) : py_scope.

(** [mapM f l] runs [f] over [l] from left to right and stops at the first
    exception, as a list comprehension does. *)
Fixpoint mapM {A B} (f : A -> result B) (l : list A) : result (list B) :=
  match l with
  | [] => Ok []
  | a :: r =>
      match f a with
      | Raise e => Raise e
      | Ok b => match mapM f r with
                | Raise e => Raise e
                | Ok bs => Ok (b :: bs)
                end
      end
  end.

(** [foldM f l s] is the loop [for a in l: s = f(s, a)]; an exception ends
    it. *)
Fixpoint foldM {A S} (f : S -> A -> result S) (l : list A) (s : S) : result S :=
  match l with
  | [] => Ok s
  | a :: r => rbind (f s a) (foldM f r)
  end.

(* ================================================================== *)
(** ** Numbers *)

Definition Qnat (n : nat) : Q := inject_Z (Z.of_nat n).

Definition Qlt_bool (a b : Q) : bool := negb (Qle_bool b a).

(** [np.greater] *)
Definition np_greater (a b : Q) : bool := Qlt_bool b a.

Definition Qsum (l : list Q) : Q := fold_right Qplus 0%Q l.

(* ================================================================== *)
(** ** Changepoint detection: local maxima *)

(** [ndarray.take(i, mode='clip')]: an index outside the array is moved to
    the nearest end. *)
Definition take_clip (data : list Q) (i : Z) : Q :=
  nth (Z.to_nat (Z.max 0 (Z.min i (Z.of_nat (length data) - 1)))) data 0%Q.

(** [scipy.signal._peak_finding._boolrelextrema(data, comparator, order=1,
    mode='clip')]: position [i] is kept when [comparator] holds between
    [data[i]] and both [data[i+1]] and [data[i-1]], the neighbours being
    taken with clipping. *)
Definition boolrelextrema (comparator : Q -> Q -> bool) (data : list Q)
  : list bool :=
  map (fun k : nat =>
         let i := Z.of_nat k in
         let main := take_clip data i in
         comparator main (take_clip data (i + 1))
         && comparator main (take_clip data (i - 1)))
      (seq 0 (length data)).

(** [np.nonzero(mask)[0]] *)
Fixpoint nonzero_from (k : nat) (mask : list bool) : list nat :=
  match mask with
  | [] => []
  | b :: r => if b then k :: nonzero_from (S k) r else nonzero_from (S k) r
  end.

Definition np_nonzero (mask : list bool) : list nat := nonzero_from 0 mask.

(** [scipy.signal.argrelextrema(data, comparator, order=1)[0]] *)
Definition argrelextrema (data : list Q) (comparator : Q -> Q -> bool)
  : list nat :=
  np_nonzero (boolrelextrema comparator data).

(** The inner function of [changepoint_analysis]:
<<
    def get_changepoints(score, pvals, alpha):
        pts = argrelextrema(score, np.greater, order=1)[0]
        return pts[pvals[pts] < alpha]
>> *)
Definition get_changepoints (score pvals : list Q) (alpha : Q) : list nat :=
  let pts := argrelextrema score np_greater in
  filter (fun i => Qlt_bool (nth i pvals 0%Q) alpha) pts.

(* ================================================================== *)
(** ** numpy and pandas helpers *)

(** Element-wise binary operation on two arrays of the same shape. *)
Fixpoint zipWith {A B C} (f : A -> B -> C) (u : list A) (v : list B) : list C :=
  match u, v with
  | a :: u', b :: v' => f a b :: zipWith f u' v'
  | _, _ => []
  end.

Definition vadd (u v : list Q) : list Q := zipWith Qplus u v.

(** [np.zeros(n)] *)
Definition np_zeros (n : nat) : list Q := repeat 0%Q n.

(** [a[lo:hi]] for [0 <= lo], [0 <= hi] *)
Definition slice {A} (a : list A) (lo hi : nat) : list A :=
  firstn (hi - lo) (skipn lo a).

(** [rows.sum(0)] for a matrix with [ncols] columns: the vector of column
    sums (zeros when there are no rows). *)
Definition col_sums (ncols : nat) (rows : list (list Q)) : list Q :=
  fold_right vadd (np_zeros ncols) rows.

(** [rows.mean(0)] *)
Definition col_means (ncols : nat) (rows : list (list Q)) : list Q :=
  map (fun t => t / Qnat (length rows))%Q (col_sums ncols rows).

(** Column [j] of a matrix given by rows. *)
Definition column (j : nat) (m : list (list Q)) : list Q :=
  map (fun r => nth j r 0%Q) m.

(** The columns of a matrix with [ncols] columns. *)
Definition columns (ncols : nat) (m : list (list Q)) : list (list Q) :=
  map (fun j => column j m) (seq 0 ncols).

(** [np.apply_along_axis(f, 0, m)] for a length-preserving [f]: [f] is
    applied to every column, and the results are the columns of the
    answer. *)
Definition apply_along_axis0 (f : list Q -> list Q) (ncols : nat)
  (m : list (list Q)) : list (list Q) :=
  let cols := map f (columns ncols m) in
  map (fun i => map (fun c => nth i c 0%Q) cols) (seq 0 (length m)).

(** [np.cumsum] *)
Fixpoint cumsum_from (acc : nat) (l : list nat) : list nat :=
  match l with
  | [] => []
  | n :: r => (acc + n)%nat :: cumsum_from (acc + n) r
  end.

Definition np_cumsum (l : list nat) : list nat := cumsum_from 0 l.

(** [l[:-1]] *)
Definition drop_last {A} (l : list A) : list A := removelast l.

(** [np.array_split(a, indices)]: the pieces [a[0:i1]], [a[i1:i2]], ...,
    [a[ik:]]; one more piece than there are indices. *)
Fixpoint array_split_from {A} (lo : nat) (a : list A) (indices : list nat)
  : list (list A) :=
  match indices with
  | [] => [skipn lo a]
  | i :: r => slice a lo i :: array_split_from i a r
  end.

Definition np_array_split {A} (a : list A) (indices : list nat)
  : list (list A) := array_split_from 0 a indices.

(** [np.sort]: insertion into an ascending list. *)
Fixpoint insert_sorted (x : Q) (l : list Q) : list Q :=
  match l with
  | [] => [x]
  | y :: r => if Qle_bool x y then x :: l else y :: insert_sorted x r
  end.

Definition np_sort (l : list Q) : list Q := fold_right insert_sorted [] l.

(** [a.argsort()]: the indices that put [a] in ascending order; the keys are
    sorted together with their positions (equal keys keep their order). *)
Fixpoint insert_keyed (x : Q * nat) (l : list (Q * nat)) : list (Q * nat) :=
  match l with
  | [] => [x]
  | y :: r => if Qle_bool (fst x) (fst y) then x :: l else y :: insert_keyed x r
  end.

Definition argsort (a : list Q) : list nat :=
  map snd (fold_right insert_keyed [] (combine a (seq 0 (length a)))).

(** [sorted_a.searchsorted(v)] (side ['left']): the first position at which
    [v] can be inserted keeping the order, that is, the number of leading
    elements smaller than [v]. *)
Fixpoint searchsorted (sorted_a : list Q) (v : Q) : nat :=
  match sorted_a with
  | [] => 0
  | x :: r => if Qlt_bool x v then S (searchsorted r v) else 0
  end.

(** [arr[mask]] for a boolean mask of the same shape, one row. *)
Fixpoint select {A} (mask : list bool) (arr : list A) : list A :=
  match mask, arr with
  | b :: m', a :: arr' => if b then a :: select m' arr' else select m' arr'
  | _, _ => []
  end.

(** [arr[mask]] for two-dimensional [arr] and [mask]: the selected entries
    of all rows, row after row. *)
Definition boolean_index {A} (arr : list (list A)) (mask : list (list bool))
  : list A :=
  concat (zipWith (fun m a => select m a) mask arr).

(** [out = np.zeros(mask.shape); out[mask] = vals], one row ([zero] is the
    zero of the element type); returns the row and the values that were not
    consumed. *)
Fixpoint scatter {A} (zero : A) (mask : list bool) (vals : list A)
  : list A * list A :=
  match mask with
  | [] => ([], vals)
  | b :: m' =>
      if b then
        match vals with
        | v :: vals' => let (row, rest) := scatter zero m' vals' in (v :: row, rest)
        | [] => let (row, rest) := scatter zero m' [] in (zero :: row, rest)
        end
      else let (row, rest) := scatter zero m' vals in (zero :: row, rest)
  end.

Fixpoint scatter2 {A} (zero : A) (mask : list (list bool)) (vals : list A)
  : list (list A) :=
  match mask with
  | [] => []
  | m :: ms => let (row, rest) := scatter zero m vals in row :: scatter2 zero ms rest
  end.

(** A loop that maps [f] over [l] and threads a state through the calls. *)
Fixpoint map_state {A B S} (f : A -> S -> B * S) (l : list A) (s : S)
  : list B * S :=
  match l with
  | [] => ([], s)
  | a :: r => let (b, s1) := f a s in
              let (bs, s2) := map_state f r s1 in
              (b :: bs, s2)
  end.

(** [np.roll(a, k)]: element [i] moves to position [(i + k) mod n]. *)
Definition np_roll {A} (a : list A) (k : nat) : list A :=
  let n := length a in
  let c := (n - k mod n)%nat in
  skipn c a ++ firstn c a.

(** [np.argmax] of a list of counts: the first position of the greatest
    entry; an empty argument is a [ValueError]. *)
Fixpoint argmax_from (best_i : nat) (best : nat) (k : nat) (l : list nat) : nat :=
  match l with
  | [] => best_i
  | x :: r => if (best <? x)%nat then argmax_from k x (S k) r
              else argmax_from best_i best (S k) r
  end.

Definition np_argmax (l : list nat) : result nat :=
  match l with
  | [] => Raise ValueError
  | x :: r => Ok (argmax_from 0 x 1 r)
  end.

(** [itertools.combinations(l, 2)] *)
Fixpoint combinations2 {A} (l : list A) : list (A * A) :=
  match l with
  | [] => []
  | a :: r => map (fun b => (a, b)) r ++ combinations2 r
  end.

(** *** Value counts

    The functions below are generic in the element type; [eqb] is the
    equality of the elements (float equality for usages, string equality for
    group names). *)

Definition count_eq {A} (eqb : A -> A -> bool) (v : A) (x : list A) : nat :=
  length (filter (eqb v) x).

(** [Series.unique()]: the distinct values in order of first appearance. *)
Fixpoint unique {A} (eqb : A -> A -> bool) (x : list A) : list A :=
  match x with
  | [] => []
  | v :: r => v :: filter (fun w => negb (eqb v w)) (unique eqb r)
  end.

(** [Series.value_counts()]: every distinct value with the number of its
    occurrences.  pandas orders the entries by decreasing count; the
    entries are listed here in order of first appearance, which is also the
    order of [value_counts().loc[unique()]] in [run_kruskal]. *)
Definition value_counts {A} (eqb : A -> A -> bool) (x : list A)
  : list (A * nat) :=
  map (fun v => (v, count_eq eqb v x)) (unique eqb x).

(** All entries of a vector are different. *)
Fixpoint distinct_values (x : list Q) : bool :=
  match x with
  | [] => true
  | v :: r => negb (existsb (Qeq_bool v) r) && distinct_values r
  end.

(** [vc.loc[k]] *)
Fixpoint loc {A} (eqb : A -> A -> bool) (vc : list (A * nat)) (k : A)
  : result nat :=
  match vc with
  | [] => Raise KeyError
  | (k', n) :: r => if eqb k k' then Ok n else loc eqb r k
  end.

(** A Python [dict] as an association list in insertion order;
    [d[k] = v] replaces the value of an existing key. *)
Fixpoint dict_set {K V} (eqb : K -> K -> bool) (d : list (K * V)) (k : K) (v : V)
  : list (K * V) :=
  match d with
  | [] => [(k, v)]
  | (k', v') :: r => if eqb k k' then (k, v) :: r
                      else (k', v') :: dict_set eqb r k v
  end.

Fixpoint dict_get {K V} (eqb : K -> K -> bool) (d : list (K * V)) (k : K)
  : option V :=
  match d with
  | [] => None
  | (k', v) :: r => if eqb k k' then Some v else dict_get eqb r k
  end.

Definition pair_eqb (p q : string * string) : bool :=
  String.eqb (fst p) (fst q) && String.eqb (snd p) (snd q).

(** The keys of a dict after [d[k] = v]. *)
Definition add_key (ks : list (string * string)) (k : string * string)
  : list (string * string) :=
  if existsb (pair_eqb k) ks then ks else ks ++ [k].

(* ================================================================== *)
(** ** scipy.stats helpers *)

Definition count_lt (v : Q) (x : list Q) : nat :=
  length (filter (fun w => Qlt_bool w v) x).

(** [scipy.stats.rankdata(x)] (method ['average']): the rank of a value is
    the mean of the positions its tie group takes in the sorted vector:
    with [l] smaller values and [e] equal ones (itself included) it is
    [l + (e + 1) / 2]. *)
Definition rank_in (x : list Q) (v : Q) : Q :=
  (Qnat (count_lt v x) + (Qnat (count_eq Qeq_bool v x) + 1) / 2)%Q.

Definition rankdata (x : list Q) : list Q := map (rank_in x) x.

(** An array of [rows] rows and [cols] columns. *)
Definition is_matrix (rows cols : nat) (m : list (list Q)) : Prop :=
  length m = rows /\ Forall (fun r => length r = cols) m.

(** Lengths of the runs of equal neighbours of a (sorted) vector:
    [np.diff(np.nonzero(np.r_[True, arr[1:] != arr[:-1], True])[0])]. *)
Fixpoint run_lengths (arr : list Q) : list nat :=
  match arr with
  | [] => []
  | v :: r =>
      match run_lengths r with
      | [] => [1%nat]
      | c :: cs => if Qeq_bool v (hd 0%Q r) then S c :: cs else 1%nat :: c :: cs
      end
  end.

Definition Zsum (l : list Z) : Z := fold_right Z.add 0%Z l.

(** [c ** 3 - c] on integer counts *)
Definition cube_minus (c : nat) : Z :=
  (Z.of_nat c ^ 3 - Z.of_nat c)%Z.

(** [scipy.stats.tiecorrect(rankvals)]:
<<
    arr = np.sort(rankvals)
    idx = np.nonzero(np.r_[True, arr[1:] != arr[:-1], True])[0]
    cnt = np.diff(idx).astype(np.float64)
    size = np.float64(arr.size)
    return 1.0 if size < 2 else 1.0 - (cnt**3 - cnt).sum() / (size**3 - size)
>> *)
Definition tiecorrect (rankvals : list Q) : Q :=
  let arr := np_sort rankvals in
  let cnt := run_lengths arr in
  let size := length arr in
  if (size <? 2)%nat then 1%Q
  else (1 - inject_Z (Zsum (map cube_minus cnt))
            / inject_Z (cube_minus size))%Q.

(* ================================================================== *)
(** ** Random generators

    A generator ([np.random.RandomState], or numpy's process-global
    generator) is the stream of the uniform variates of [[0, 1)] it will
    produce, with the position reached so far.  Drawing advances the
    position. *)

Record RandomState : Type := mkRandomState {
  tape : nat -> Q;
  pos : nat
}.

(** The generator after [k] more draws. *)
Definition advance (g : RandomState) (k : nat) : RandomState :=
  mkRandomState (tape g) (pos g + k).



(** One uniform variate. *)
Definition random_sample (g : RandomState) : Q * RandomState :=
  (tape g (pos g), mkRandomState (tape g) (S (pos g))).

(** [rnd.rand(n)] *)
Fixpoint rand_vec (n : nat) (g : RandomState) : list Q * RandomState :=
  match n with
  | O => ([], g)
  | S k => let (u, g1) := random_sample g in
           let (us, g2) := rand_vec k g1 in
           (u :: us, g2)
  end.

(** [rnd.rand(rows, cols)] *)
Fixpoint rand_mat (rows cols : nat) (g : RandomState)
  : list (list Q) * RandomState :=
  match rows with
  | O => ([], g)
  | S k => let (r, g1) := rand_vec cols g in
           let (rs, g2) := rand_mat k cols g1 in
           (r :: rs, g2)
  end.

(** [rnd.rand(n_perm, n).argsort(-1)]: [n_perm] random orders of
    [0 .. n-1]. *)
Definition rand_perms (n_perm n : nat) (g : RandomState)
  : list (list nat) * RandomState :=
  let (m, g') := rand_mat n_perm n g in (map argsort m, g').

(** [np.random.randint(high)]: an integer of [[0, high)]; [high <= 0] is a
    [ValueError]. *)
Definition randint (high : nat) (g : RandomState) : result (nat * RandomState) :=
  if (high =? 0)%nat then Raise ValueError
  else let (u, g') := random_sample g in
       Ok ((Z.to_nat (Qfloor (u * Qnat high)) mod high)%nat, g').

(** [np.random.uniform(low, high, n)] *)
Definition uniform (low high : Q) (n : nat) (g : RandomState)
  : list Q * RandomState :=
  let (us, g') := rand_vec n g in
  (map (fun u => low + (high - low) * u)%Q us, g').

(* ================================================================== *)
(** ** Library numerics

    What the code calls in scipy, numpy, statsmodels and jax_moseq and
    that has no rational reading, or is not part of the repository, is an
    interface of the development. *)

Class Numerics : Type := {
  (** [scipy.stats.chi2.sf(x, df)] *)
  chi2_sf : Q -> Z -> Q;
  (** [statsmodels.stats.multitest.multipletests(pvals, alpha=thresh,
      method=mc_method)[1]] for the method in use *)
  multipletests : list Q -> Q -> list Q;
  (** [np.sqrt] *)
  np_sqrt : Q -> Q;
  (** The stream of variates of [np.random.RandomState(seed=seed)] *)
  seed_tape : Z -> nat -> Q;
  (** [statsmodels.stats.multitest.fdrcorrection(pvals, alpha=alpha)[1]] *)
  fdrcorrection : list Q -> Q -> list Q;
  (** [lambda ps: gaussian_filter1d(-np.log10(ps), gaussian_ksize)] *)
  smoothed_neg_log10 : list Q -> Q -> list Q;
  (** [jax_moseq.utils.unbatch(pvals, labels)]: the rows of the batch
      under the session names of [labels] (name, start, end). *)
  unbatch : list (list Q) -> list (string * nat * nat) -> list (string * list Q)
}.

Section Analysis.

Context {lib : Numerics}.

Definition RandomState_of_seed (seed : Z) : RandomState :=
  mkRandomState (seed_tape seed) 0.

(* ================================================================== *)
(** ** Group statistics *)

Local Open Scope Q_scope.

(** numpy's [int64]: the result of an operation wraps around modulo
    [2^64] into [[-2^63, 2^63)]. *)
Definition int64 (z : Z) : Z := ((z + 2 ^ 63) mod 2 ^ 64 - 2 ^ 63)%Z.

(** [vc ** 3 - vc] on an [int64] count of [value_counts] *)
Definition cube_minus_int64 (c : nat) : Z :=
  int64 (int64 (Z.of_nat c ^ 3) - Z.of_nat c).

(** [np.sum] of [int64] values *)
Definition int64_sum (l : list Z) : Z :=
  fold_left (fun acc v => int64 (acc + v)) l 0%Z.

(** [get_tie_correction(x, N_m)].  The counts of [value_counts] are
    [int64], and so are their cubes and the sum.  [tie_sum] is the Python
    integer [0] when no value is repeated, so that dividing by [12.0 * 0]
    raises [ZeroDivisionError]; otherwise it is a numpy integer and the
    division follows numpy (for [N_m = 1] that is an infinite float, which
    has no rational reading: the quotient then reads [0]). *)
Definition get_tie_correction (x : list Q) (N_m : nat) : result Q :=
  let vc := map snd (value_counts Qeq_bool x) in
  let denom := 12 * inject_Z (Z.of_nat N_m - 1) in
  if existsb (fun c => (1 <? c)%nat) vc then
    let tied := filter (fun c => negb (c =? 1)%nat) vc in
    Ok (inject_Z (int64_sum (map cube_minus_int64 tied)) / denom)
  else if Qeq_bool denom 0 then Raise ZeroDivisionError
  else Ok (0 / denom).

(** The tie term in the words of the specification: the groups of tied
    values are the values that occur more than once, [t_k] is the size of
    such a group, and the term is [sum(t_k^3 - t_k) / (12 * (N - 1))]. *)
Definition tied_group_sizes (x : list Q) : list nat :=
  filter (fun c => (1 <? c)%nat) (map snd (value_counts Qeq_bool x)).

Definition tie_term (x : list Q) (N : nat) : Q :=
  inject_Z (Zsum (map cube_minus (tied_group_sizes x))) / (12 * (Qnat N - 1)).

(** A vector with exactly one tied pair of size 2: two entries are equal,
    and without the second of them all entries are distinct. *)
Definition one_tied_pair (x : list Q) : Prop :=
  exists l1 v1 l2 v2 l3,
    x = l1 ++ v1 :: l2 ++ v2 :: l3 /\ v1 == v2 /\
    NoDupA Qeq (l1 ++ v1 :: l2 ++ l3).

(** A float that may be [nan]. *)
Definition float := option Q.

(** [a == q] for a float [a] that may be [nan] *)
Definition float_eqb (a : float) (q : Q) : bool :=
  match a with
  | Some v => Qeq_bool v q
  | None => false
  end.

(** [a != q] *)
Definition float_differs (a : float) (q : Q) : Prop :=
  match a with
  | Some v => ~ v == q
  | None => True
  end.

Record KruskalResult : Type := mkKruskalResult {
  statistic : float;
  pvalue : float
}.

Definition square_of_sums (l : list Q) : Q := Qsum l ^ 2.

(** [scipy.stats.kruskal], called on the list of samples *)
Definition stats_kruskal (samples : list (list Q)) : result KruskalResult :=
  let num_groups := length samples in
  if (num_groups <? 2)%nat then Raise ValueError
  else if existsb (fun s => (length s =? 0)%nat) samples
  then Ok (mkKruskalResult None None)
  else
    let n := map (@length Q) samples in
    let alldata := concat samples in
    let ranked := rankdata alldata in
    let ties := tiecorrect ranked in
    if Qeq_bool ties 0 then Raise ValueError
    else
      let j := 0%nat :: np_cumsum n in
      let ssbn :=
        fold_left (fun acc i =>
                     acc + square_of_sums (slice ranked (nth i j 0%nat) (nth (S i) j 0%nat))
                           / Qnat (nth i n 0%nat))
                  (seq 0 num_groups) 0 in
      let totaln := Qnat (fold_right Nat.add 0%nat n) in
      let h := 12 / (totaln * (totaln + 1)) * ssbn - 3 * (totaln + 1) in
      let df := (Z.of_nat num_groups - 1)%Z in
      let h := h / ties in
      Ok (mkKruskalResult (Some h) (Some (chi2_sf h df))).

(** [N_m, N_s = merged_usages_all.shape] *)
Definition shape (m : list (list Q)) : nat * nat :=
  (length m, length (hd [] m)).

(** [real_ranks[perm]]: for every permutation the rows of [real_ranks] in
    the permuted order. *)
Definition take_rows (real_ranks : list (list Q)) (perm : list (list nat))
  : list (list (list Q)) :=
  map (fun p => map (fun k => nth k real_ranks []) p) perm.

(** The loop of [run_manual_KW_test] that accumulates, for every
    permutation and syllable, the squared rank sum of each group divided
    by the group size. *)
Definition kw_ssbn (perm_ranks : list (list (list Q))) (N_s num_groups : nat)
  (n_per_group cum_group_idx : list nat) : list (list Q) :=
  fold_left
    (fun ssbn i =>
       zipWith vadd ssbn
         (map (fun pr =>
                 map (fun t => t ^ 2 / Qnat (nth i n_per_group 0%nat))
                     (col_sums N_s (slice pr (nth i cum_group_idx 0%nat)
                                            (nth (S i) cum_group_idx 0%nat))))
              perm_ranks))
    (seq 0 num_groups)
    (repeat (np_zeros N_s) (length perm_ranks)).

(** [h_all = 12.0 / (N_m * (N_m + 1)) * ssbn - 3 * (N_m + 1)] followed by
    [h_all /= KW_tie_correct] *)
Definition kw_h_all (ssbn : list (list Q)) (N_m : nat) (KW_tie_correct : list Q)
  : list (list Q) :=
  map (fun row =>
         zipWith Qdiv
           (map (fun t => 12 / (Qnat N_m * (Qnat N_m + 1)) * t - 3 * (Qnat N_m + 1)) row)
           KW_tie_correct)
      ssbn.

(** The statistics of [run_manual_KW_test] before its spot check. *)
Definition manual_KW (merged_usages_all : list (list Q)) (num_groups : nat)
  (n_per_group cum_group_idx : list nat) (perm : list (list nat))
  : list (list Q) * list (list Q) :=
  let '(N_m, N_s) := shape merged_usages_all in
  let real_ranks := apply_along_axis0 rankdata N_s merged_usages_all in
  let KW_tie_correct := map tiecorrect (columns N_s real_ranks) in
  let perm_ranks := take_rows real_ranks perm in
  let ssbn := kw_ssbn perm_ranks N_s num_groups n_per_group cum_group_idx in
  (kw_h_all ssbn N_m KW_tie_correct, real_ranks).

(** The H-statistic in the words of the specification, for the values [x]
    of one syllable and one order of the sessions: [R_g] is the sum of the
    ranks of the sessions that the order puts in group [g] (the positions
    [cum_group_idx[g]] to [cum_group_idx[g+1]]), [n_g] the size of the
    group, and [H = 12/(N(N+1)) * sum_g(R_g^2 / n_g) - 3(N+1)]. *)
Definition rank_sum (ranks : list Q) (order : list nat) (lo hi : nat) : Q :=
  Qsum (map (fun k => nth k ranks 0) (slice order lo hi)).

Definition kw_H (x : list Q) (order : list nat) (num_groups : nat)
  (n_per_group cum_group_idx : list nat) : Q :=
  let N := Qnat (length x) in
  let ranks := rankdata x in
  12 / (N * (N + 1))
  * Qsum (map (fun g => rank_sum ranks order (nth g cum_group_idx 0%nat)
                                 (nth (S g) cum_group_idx 0%nat) ^ 2
                        / Qnat (nth g n_per_group 0%nat))
              (seq 0 num_groups))
  - 3 * (N + 1).

(** The tie adjustment of the Kruskal-Wallis test,
    [1 - sum(t_k^3 - t_k) / (N^3 - N)], over the groups of tied values. *)
Definition kw_tie_factor (x : list Q) : Q :=
  let N := Qnat (length x) in
  1 - inject_Z (Zsum (map cube_minus (tied_group_sizes x))) / (N ^ 3 - N).

(** [run_manual_KW_test(df_usage, merged_usages_all, num_groups,
    n_per_group, cum_group_idx, n_perm, seed)]; [g] is numpy's global
    generator, from which the spot-checked pair is drawn. *)
Definition run_manual_KW_test (df_usage merged_usages_all : list (list Q))
  (num_groups : nat) (n_per_group cum_group_idx : list nat)
  (n_perm : nat) (seed : Z) (g : RandomState)
  : result (list (list Q) * list (list Q) * list Q * RandomState) :=
  (let '(N_m, N_s) := shape merged_usages_all in
   let rnd := RandomState_of_seed seed in
   let perm := fst (rand_perms n_perm N_m rnd) in
   let dof := (Z.of_nat num_groups - 1)%Z in
   let '(h_all, real_ranks) :=
     manual_KW merged_usages_all num_groups n_per_group cum_group_idx perm in
   X_ties <- mapM (fun x => get_tie_correction x N_m) (columns N_s df_usage) ;;
   let p_vals := map (map (fun h => chi2_sf h dof)) h_all in
   (* check that results agree *)
   '(p_i, g1) <- randint n_perm g ;;
   '(s_i, g2) <- randint N_s g1 ;;
   kr <- stats_kruskal
           (np_array_split
              (map (fun k => nth s_i (nth k merged_usages_all []) 0) (nth p_i perm []))
              (np_cumsum (drop_last n_per_group))) ;;
   if float_eqb (statistic kr) (nth s_i (nth p_i h_all []) 0)
      && float_eqb (pvalue kr) (nth s_i (nth p_i p_vals []) 0)
   then Ok (h_all, real_ranks, X_ties, g2)
   else Raise (AssertionError "manual KW is incorrect"))%py.

(** A row of [grouped_data], the pivoted table of [run_kruskal]: the group
    and file name of a session and its value for every syllable. *)
Record session_row : Type := mkRow {
  group : string;
  file_name : string;
  usages : list Q
}.

Definition pair_key : Type := (string * string)%type.

Definition count_true (l : list bool) : nat := length (filter (fun b => b) l).

(** [np.abs(u - v)], element-wise *)
Definition abs_diff (u v : list Q) : list Q :=
  zipWith (fun a b => Qabs (a - b)) u v.

(** Dunn's statistic in the words of the specification: the absolute
    difference of the mean ranks of two sub-groups of sessions, divided by
    [sqrt((A - tie_term) * (1/n_i + 1/n_j))] with [A = N(N+1)/12]. *)
Definition mean_rank (rows : list (list Q)) (s : nat) : Q :=
  Qsum (map (fun r => nth s r 0) rows) / Qnat (length rows).

Definition dunn_z (rows_i rows_j : list (list Q)) (N : nat) (tie_term : Q)
  (s : nat) : Q :=
  Qabs (mean_rank rows_i s - mean_rank rows_j s)
  / np_sqrt ((Qnat N * (Qnat N + 1) / 12 - tie_term)
             * (1 / Qnat (length rows_i) + 1 / Qnat (length rows_j))).

(** The rows of [real_ranks] of the sessions of group [name]. *)
Definition group_rows (df_usage : list session_row) (real_ranks : list (list Q))
  (name : string) : list (list Q) :=
  select (map (fun r => String.eqb (group r) name) df_usage) real_ranks.

(** No session of group [j_n] comes before a session of group [i_n]. *)
Fixpoint group_before (i_n j_n : string) (groups : list string) : bool :=
  match groups with
  | [] => true
  | n :: r =>
      (if String.eqb n j_n then forallb (fun m => negb (String.eqb m i_n)) r
       else true)
      && group_before i_n j_n r
  end.

(** The order of the pivoted table: the sessions of a group that comes
    earlier in [group_names] come before those of a later group. *)
Definition sorted_by_group (df_usage : list session_row)
  (group_names : list string) : bool :=
  forallb (fun p : pair_key => group_before (fst p) (snd p) (map group df_usage))
          (combinations2 group_names).

(** The [n] variates that the generator [rnd] yields from its draw number
    [start] on (counted from the state [rnd] is in). *)
Definition drawn_variates (rnd : RandomState) (start n : nat) : list Q :=
  map (fun t => tape rnd (pos rnd + start + t)) (seq 0 n).

(** The sessions [rows] in the order of a permutation, the one that puts
    the [variates] drawn for it in ascending order:
    [rows[variates.argsort()]]. *)
Definition permuted_rows (rows : list (list Q)) (variates : list Q)
  : list (list Q) :=
  map (fun k => nth k rows []) (argsort variates).

(** The number of sessions of the two groups of a pair. *)
Definition pair_sessions (df_usage : list session_row) (pair : pair_key) : nat :=
  (count_eq String.eqb (fst pair) (map group df_usage)
   + count_eq String.eqb (snd pair) (map group df_usage))%nat.

(** The body of the loop of [dunns_z_test_permute_within_group_pairs] for
    the pair [(i_n, j_n)]: the null and the real statistics of the pair,
    and the generator after the draw. *)
Definition dunns_z_pair (df_usage : list session_row) (vc : list (string * nat))
  (real_ranks : list (list Q)) (X_ties : list Q) (N_m : nat)
  (rnd : RandomState) (n_perm : nat) (i_n j_n : string)
  : result (list (list Q) * list Q * RandomState) :=
  (let A := Qnat N_m * (Qnat N_m + 1) / 12 in
   let N_s := snd (shape real_ranks) in
   let is_i := map (fun r => String.eqb (group r) i_n) df_usage in
   let is_j := map (fun r => String.eqb (group r) j_n) df_usage in
   let n_mice := (count_true is_i + count_true is_j)%nat in
   let group_ranks := select (zipWith orb is_i is_j) real_ranks in
   let '(idx, rnd') := rand_perms n_perm n_mice rnd in
   let ranks_perm := take_rows group_ranks idx in
   let diff :=
     map (fun pr => abs_diff (col_means N_s (firstn (count_true is_i) pr))
                             (col_means N_s (skipn (count_true is_i) pr)))
         ranks_perm in
   vi <- loc String.eqb vc i_n ;;
   vj <- loc String.eqb vc j_n ;;
   let B := 1 / Qnat vi + 1 / Qnat vj in
   (* also do for real data *)
   let real_diff :=
     abs_diff (col_means N_s (firstn (count_true is_i) group_ranks))
              (col_means N_s (skipn (count_true is_i) group_ranks)) in
   let scale := map (fun t => np_sqrt ((A - t) * B)) X_ties in
   Ok (map (fun d => zipWith Qdiv d scale) diff,
       zipWith Qdiv real_diff scale,
       rnd'))%py.

(** [dunns_z_test_permute_within_group_pairs(df_usage, vc, real_ranks,
    X_ties, N_m, group_names, rnd, n_perm)]; the generator [rnd] is
    returned in the state the draws leave it in. *)
Definition dunns_z_test_permute_within_group_pairs
  (df_usage : list session_row) (vc : list (string * nat))
  (real_ranks : list (list Q)) (X_ties : list Q) (N_m : nat)
  (group_names : list string) (rnd : RandomState) (n_perm : nat)
  : result (list (pair_key * list (list Q)) * list (pair_key * list Q)
            * RandomState) :=
  foldM
    (fun '(null_zs_within_group, real_zs_within_group, rnd0) (pair : pair_key) =>
       ('(null_z, real_z, rnd1) <-
          dunns_z_pair df_usage vc real_ranks X_ties N_m rnd0 n_perm
                       (fst pair) (snd pair) ;;
        Ok (dict_set pair_eqb null_zs_within_group pair null_z,
            dict_set pair_eqb real_zs_within_group pair real_z,
            rnd1))%py)
    (combinations2 group_names)
    ([], [], rnd).

(** [(null > real).sum(0)]: for every syllable the number of rows of
    [null] that exceed [real]. *)
Definition count_greater (null : list (list Q)) (real : list Q) : list nat :=
  map (fun s => length (filter (fun row => Qlt_bool (nth s real 0) (nth s row 0)) null))
      (seq 0 (length real)).

Definition dict_lookup {V} (d : list (pair_key * V)) (k : pair_key) : result V :=
  match dict_get pair_eqb d k with
  | Some v => Ok v
  | None => Raise KeyError
  end.

(** The KW results as a frame given by its columns. *)
Record KW_frame : Type := mkKW {
  k_statistic : list float;
  k_pvalue : list float;
  p_adj : list Q;
  is_sig : list bool
}.

(** [compute_pvalues_for_group_pairs(real_zs_within_group, null_zs,
    df_k_real, group_names, n_perm, thresh, mc_method)]: the frame of
    corrected p-values, a column for every pair, and for every pair the
    number of syllables that are significant for the pair among those
    significant in the KW test. *)
Definition compute_pvalues_for_group_pairs
  (real_zs_within_group : list (pair_key * list Q))
  (null_zs : list (pair_key * list (list Q)))
  (df_k_real : KW_frame) (group_names : list string) (n_perm : nat) (thresh : Q)
  : result (list (pair_key * list Q) * list (pair_key * nat)) :=
  (p_vals_allperm <-
     foldM
       (fun d (pair : pair_key) =>
          (null <- dict_lookup null_zs pair ;;
           real <- dict_lookup real_zs_within_group pair ;;
           Ok (dict_set pair_eqb d pair
                 (map (fun c => (Qnat c + 1) / Qnat n_perm) (count_greater null real))))%py)
       (combinations2 group_names) [] ;;
   (* summarize into df; correct every row *)
   let n_rows := length (snd (hd (EmptyString, EmptyString, []) p_vals_allperm)) in
   let rows :=
     map (fun s => multipletests (map (fun c => nth s (snd c) 0) p_vals_allperm) thresh)
         (seq 0 n_rows) in
   let df_pval_corrected :=
     map (fun kc => (fst (snd kc), map (fun r => nth (fst kc) r 0) rows))
         (combine (seq 0 (length p_vals_allperm)) p_vals_allperm) in
   Ok (df_pval_corrected,
       map (fun c => (fst c,
                      count_true (select (is_sig df_k_real)
                                         (map (fun p => Qlt_bool p thresh) (snd c)))))
           df_pval_corrected))%py.

(** [h_all > statistic] where the statistic may be [nan] *)
Definition exceeds (k : float) (h : Q) : bool :=
  match k with
  | Some v => Qlt_bool v h
  | None => false
  end.

(** [run_kruskal], from the pivoted table [grouped_data] on; [g] is
    numpy's global generator.  The first statement of the function, the
    pivot of [stats_df] for the column [statistic], is [pivot_table]
    below, and [run_kruskal_stats_df] is the function with it. *)
Definition run_kruskal (grouped_data : list session_row) (n_perm : nat)
  (seed : Z) (thresh : Q) (g : RandomState)
  : result (KW_frame * list (nat * pair_key * Q) * list (pair_key * list nat)
            * RandomState) :=
  (let rnd := RandomState_of_seed seed in
   (* compute KW constants *)
   let vc := value_counts String.eqb (map group grouped_data) in
   let n_per_group := map snd vc in
   let group_names := map fst vc in
   let cum_group_idx := 0%nat :: np_cumsum n_per_group in
   let num_groups := length group_names in
   (* get all syllable usage data *)
   let df_only_stats := map usages grouped_data in
   let syllable_data := map usages grouped_data in
   let '(N_m, N_s) := shape syllable_data in
   (* Run KW and return H-stats *)
   '(h_all, real_ranks, X_ties, g') <-
     run_manual_KW_test df_only_stats syllable_data num_groups n_per_group
                        cum_group_idx n_perm seed g ;;
   (* find the real k_real *)
   krs <- mapM (fun s_i => stats_kruskal
                             (np_array_split (column s_i syllable_data)
                                             (np_cumsum (drop_last n_per_group))))
               (seq 0 N_s) ;;
   (* multiple test correction *)
   let counts :=
     map (fun s => length (filter (fun row => exceeds (statistic (nth s krs (mkKruskalResult None None)))
                                                      (nth s row 0)) h_all))
         (seq 0 N_s) in
   let padj := multipletests (map (fun c => (Qnat c + 1) / Qnat n_perm) counts) thresh in
   let df_k_real :=
     mkKW (map statistic krs) (map pvalue krs) padj
          (map (fun p => Qle_bool p thresh) padj) in
   (* Run Dunn's z-test statistics *)
   '(null_zs_within_group, real_zs_within_group, _) <-
     dunns_z_test_permute_within_group_pairs
       grouped_data vc real_ranks X_ties N_m group_names rnd n_perm ;;
   (* Compute p-values from Dunn's z-score statistics *)
   '(df_pair_corrected_pvalues, _) <-
     compute_pvalues_for_group_pairs real_zs_within_group null_zs_within_group
                                     df_k_real group_names n_perm thresh ;;
   (* combine Dunn's test results into single DataFrame *)
   let dunn_results_df :=
     concat (map (fun c => map (fun sz => (fst sz, fst c, snd sz))
                               (combine (seq 0 (length (snd c))) (snd c)))
                 real_zs_within_group) in
   (* Get intersecting significant syllables between *)
   let intersect_sig_syllables :=
     fold_left
       (fun d (c : pair_key * list Q) =>
          dict_set pair_eqb d (fst c)
            (np_nonzero (zipWith andb (map (fun p => Qlt_bool p thresh) (snd c))
                                      (is_sig df_k_real))))
       df_pair_corrected_pvalues [] in
   Ok (df_k_real, dunn_results_df, intersect_sig_syllables, g'))%py.

(* ================================================================== *)
(** ** Changepoint detection: the threshold scan

    The scan starts from the z-scored derivatives [dy_zscored] (session,
    frame, feature) and the frame mask [mask] (session, frame), which
    [changepoint_analysis] computes with [format_data],
    [align_egocentric] and [filtered_derivative], from the [labels] of
    [format_data], and from the list [thresholds] that [np.linspace] makes
    of [num_thresholds] values. *)

(** The feature columns of a session given by its frames. *)
Definition feature_columns (nfeat : nat) (frames : list (list bool))
  : list (list bool) :=
  map (fun f => map (fun fr => nth f fr false) frames) (seq 0 nfeat).

Definition frames_of_columns (nframes : nat) (cols : list (list bool))
  : list (list bool) :=
  map (fun t => map (fun c => nth t c false) cols) (seq 0 nframes).

(** Modelled from the spec: [keypoint_moseq.util.permute_cyclic], of which
    only the call [permute_cyclic(dy_zscored > threshold, mask, axis=1)] is
    in the source.  The spec has the boolean crossing indicator cyclically
    permuted within each session, without mixing sessions: the valid
    entries of every feature column of a session are rolled by a shift.
    The call passes no generator, so the shift is drawn from numpy's global
    generator [g]; a column without valid frames has nothing to permute. *)
Definition permute_cyclic_1d (mask arr : list bool) (g : RandomState)
  : list bool * RandomState :=
  let valid := select mask arr in
  match randint (length valid) g with
  | Ok (shift, g') => (fst (scatter false mask (np_roll valid shift)), g')
  | Raise _ => (fst (scatter false mask valid), g)
  end.

Definition permute_cyclic_session (mf : list bool * list (list bool))
  (g : RandomState) : list (list bool) * RandomState :=
  let (mask, frames) := mf in
  let nfeat := length (hd [] frames) in
  let (cols, g') :=
    map_state (permute_cyclic_1d mask) (feature_columns nfeat frames) g in
  (frames_of_columns (length frames) cols, g').

Definition permute_cyclic (arr : list (list (list bool))) (mask : list (list bool))
  (g : RandomState) : list (list (list bool)) * RandomState :=
  map_state permute_cyclic_session (combine mask arr) g.

(** [(arr).sum(2)[mask[:, :, 0]]]: the number of crossings of every valid
    frame, the sessions one after the other. *)
Definition pooled_counts (arr : list (list (list bool))) (mask : list (list bool))
  : list nat :=
  boolean_index (map (map count_true) arr) mask.

(** [len(crossings)]: the number of valid frames of all sessions, that is,
    the number of entries that [mask] selects. *)
Definition num_valid_frames {A} (arr : list (list A)) (mask : list (list bool))
  : nat :=
  length (boolean_index arr mask).

(** [1 - (np.sort(crossings_shuff).searchsorted(crossings) - 1) / len(crossings)] *)
Definition empirical_pvalues (crossings : list nat) (crossings_shuff : list Q)
  : list Q :=
  let null := np_sort crossings_shuff in
  map (fun c => 1 - inject_Z (Z.of_nat (searchsorted null (Qnat c)) - 1)
                    / Qnat (length crossings))
      crossings.

(** The first half of an iteration of the scan: the p-values of the valid
    frames before the FDR correction. *)
Definition frame_pvalues (dy_zscored : list (list (list Q)))
  (mask : list (list bool)) (threshold : Q) (g : RandomState)
  : list Q * RandomState :=
  let above := map (map (map (fun z => Qlt_bool threshold z))) dy_zscored in
  (* permute within-session then combine across sessions *)
  let crossings := pooled_counts above mask in
  let (shuffled, g1) := permute_cyclic above mask g in
  let crossings_shuff := pooled_counts shuffled mask in
  let (jitter, g2) := uniform (-(1#10)) (1#10) (length crossings_shuff) g1 in
  let crossings_shuff := vadd (map Qnat crossings_shuff) jitter in
  (* get significance score *)
  (empirical_pvalues crossings crossings_shuff, g2).

Definition session_dict (V : Type) : Type := list (string * V).

(** One iteration of the scan: the change scores and the changepoints of
    every session for [threshold]. *)
Definition threshold_iteration (dy_zscored : list (list (list Q)))
  (mask : list (list bool)) (labels : list (string * nat * nat))
  (alpha gaussian_ksize : Q) (threshold : Q) (g : RandomState)
  : (session_dict (list Q) * session_dict (list nat)) * RandomState :=
  let (ps_combined, g') := frame_pvalues dy_zscored mask threshold g in
  let ps_combined := fdrcorrection ps_combined alpha in
  (* separate back into sessions *)
  let pvals := unbatch (scatter2 0 mask ps_combined) labels in
  let changescores :=
    map (fun kp => (fst kp, smoothed_neg_log10 (snd kp) gaussian_ksize)) pvals in
  let changepoints :=
    map (fun kp => (fst kp,
                    get_changepoints (smoothed_neg_log10 (snd kp) gaussian_ksize)
                                     (snd kp) alpha))
        pvals in
  ((changescores, changepoints), g').

(** [sum(map(len, d.values()))] *)
Definition total_changepoints (d : session_dict (list nat)) : nat :=
  fold_right Nat.add 0%nat (map (fun kv => length (snd kv)) d).

(** The candidates of the scan, one for every threshold. *)
Definition scan_candidates (dy_zscored : list (list (list Q)))
  (mask : list (list bool)) (labels : list (string * nat * nat))
  (alpha gaussian_ksize : Q) (thresholds : list Q) (g : RandomState)
  : list (session_dict (list Q) * session_dict (list nat)) * RandomState :=
  map_state (threshold_iteration dy_zscored mask labels alpha gaussian_ksize)
            thresholds g.

(** The threshold scan of [changepoint_analysis] with the choice of the
    threshold with most changepoints: the changepoints, the change scores
    and the threshold that are returned. *)
Definition changepoint_scan (dy_zscored : list (list (list Q)))
  (mask : list (list bool)) (labels : list (string * nat * nat))
  (alpha gaussian_ksize : Q) (thresholds : list Q) (g : RandomState)
  : result (session_dict (list nat) * session_dict (list Q) * Q * RandomState) :=
  (let (cands, g') :=
     scan_candidates dy_zscored mask labels alpha gaussian_ksize thresholds g in
   let all_changescores := map fst cands in
   let all_changepoints := map snd cands in
   (* pick threshold with most changepoints *)
   let num_changepoints := map total_changepoints all_changepoints in
   k <- np_argmax num_changepoints ;;
   Ok (nth k all_changepoints [], nth k all_changescores [],
       nth k thresholds 0, g'))%py.

(** The number of changepoints of a candidate in the words of the
    specification: the changepoints of all sessions, put together and
    counted. *)
Definition changepoint_count (d : session_dict (list nat)) : nat :=
  length (concat (map snd d)).




(* ================================================================== *)
(** ** Instances and sample inputs

    Computable instances of the library parameters and small inputs, on
    which the statements below are run. *)

(** [multipletests(..., method='bonferroni')[1]]: every p-value times the
    number of tests, not above 1. *)
Definition multipletests_bonferroni (pvals : list Q) (alpha : Q) : list Q :=
  map (fun p => let c := p * Qnat (length pvals) in
                if Qlt_bool 1 c then 1 else c) pvals.

Fixpoint index_of (k : nat) (l : list nat) : nat :=
  match l with
  | [] => 0
  | x :: r => if (x =? k)%nat then 0%nat else S (index_of k r)
  end.

(** [fdrcorrection(pvals, alpha)[1]] (Benjamini-Hochberg): the sorted
    p-values are divided by [rank / n], made monotone from the right by a
    running minimum, cut at 1 and put back in the order of the input. *)
Definition fdrcorrection_bh (pvals : list Q) (alpha : Q) : list Q :=
  let n := length pvals in
  let pvals_sortind := argsort pvals in
  let pvals_sorted := map (fun k => nth k pvals 0) pvals_sortind in
  let pvals_corrected_raw :=
    map (fun ip => snd ip / (Qnat (S (fst ip)) / Qnat n))
        (combine (seq 0 n) pvals_sorted) in
  let pvals_corrected :=
    fold_right (fun x acc => match acc with
                             | [] => [x]
                             | y :: _ => (if Qle_bool x y then x else y) :: acc
                             end) [] pvals_corrected_raw in
  let clipped := map (fun x => if Qlt_bool 1 x then 1 else x) pvals_corrected in
  map (fun k => nth (index_of k pvals_sortind) clipped 0) (seq 0 n).

(** A stand-in for [chi2.sf]: decreasing in the statistic. *)
Definition chi2_sf_standin (h : Q) (df : Z) : Q := 1 / (1 + Qabs h).

(** The square root where it is rational: [sqrt(n/d) = sqrt(n*d)/d], with
    the integer square root. *)
Definition sqrt_rational (q : Q) : Q :=
  inject_Z (Z.sqrt (Qnum q * QDen q)) / inject_Z (QDen q).

(** A stand-in for the smoothed score: decreasing in the p-value, not
    smoothed. *)
Definition score_standin (ps : list Q) (gaussian_ksize : Q) : list Q :=
  map (fun p => 1 - p) ps.

(** [unbatch] for sessions of one segment each: row [i] of the batch, from
    [start] to [end], under the name of label [i]. *)
Definition unbatch_sessions (rows : list (list Q))
  (labels : list (string * nat * nat)) : list (string * list Q) :=
  map (fun lr : string * nat * nat * list Q =>
         let '(name, s, e, row) := lr in (name, slice row s e))
      (combine labels rows).

Definition sample_variates : list Q :=
  [0; 9#10; 9#10; 9#10; 9#10; 0; 1#10; 1#10; 1#10; 1#10;
   3#10; 7#10; 2#10; 8#10; 4#10; 6#10; 1#10; 5#10; 9#10; 3#10].

(** The variates of the generator seeded with [seed]: the sample variates
    from position [seed] on, then [1/2]. *)
Definition sample_tape (seed : Z) (n : nat) : Q :=
  nth (Z.to_nat seed + n) sample_variates (1#2).

(** numpy's global generator at the start of a run. *)
Definition sample_global : RandomState := mkRandomState (sample_tape 0) 0.

(** Two groups of two sessions and two syllables; the second syllable has a
    tied pair. *)
Definition sample_table : list session_row :=
  [ mkRow "a" "s1" [1#10; 3#10]; mkRow "a" "s2" [2#10; 3#10];
    mkRow "b" "s3" [5#10; 1#10]; mkRow "b" "s4" [7#10; 2#10] ].

(** Four sessions of one syllable whose group [a] is not contiguous: a
    session of group [b] lies between its two sessions.  The two last
    sessions are tied. *)
Definition sample_table_unsorted : list session_row :=
  [ mkRow "a" "s1" [1#10]; mkRow "b" "s2" [3#10];
    mkRow "a" "s3" [2#10]; mkRow "c" "s4" [3#10] ].

(** One group only. *)
Definition sample_table_one_group : list session_row :=
  [ mkRow "a" "s1" [1#10; 3#10]; mkRow "a" "s2" [2#10; 3#10] ].

(** Ten values with exactly one tied pair. *)
Definition sample_usages : list Q :=
  [1#10; 2#10; 3#10; 4#10; 2#10; 5#10; 6#10; 7#10; 8#10; 9#10].

(** One session of four frames and one feature. *)
Definition sample_dy : list (list (list Q)) := [[[2]; [0]; [2]; [0]]].

Definition sample_mask : list (list bool) := [[true; true; true; true]].

Definition sample_labels : list (string * nat * nat) := [("s"%string, 0%nat, 4%nat)].

(** One session of six frames and two features; at the second and the
    fifth frame both features are high. *)
Definition sample_dy_peaks : list (list (list Q)) :=
  [[[0; 0]; [2; 2]; [0; 0]; [0; 2]; [2; 2]; [0; 0]]].

Definition sample_mask_peaks : list (list bool) :=
  [[true; true; true; true; true; true]].

Definition sample_labels_peaks : list (string * nat * nat) :=
  [("s"%string, 0%nat, 6%nat)].

(** numpy's global generator after four draws. *)
Definition sample_global_later : RandomState := mkRandomState (sample_tape 0) 4.

(** The instances together. *)
Definition sample_lib : Numerics := {|
  chi2_sf := chi2_sf_standin;
  multipletests := multipletests_bonferroni;
  np_sqrt := sqrt_rational;
  seed_tape := sample_tape;
  fdrcorrection := fdrcorrection_bh;
  smoothed_neg_log10 := score_standin;
  unbatch := unbatch_sessions
|}.

(* ================================================================== *)
(** ** Exceptions of the transition and configuration code

    The code below raises exception classes that the statistical
    pipeline never raises; [Builtin] holds the ones of the pipeline. *)

Inductive error : Type :=
| IndexError
| TypeError
| AttributeError
| UnboundLocalError
| Builtin (e : exn).

Inductive outcome (A : Type) : Type :=
| Return (a : A)
| Throw (e : error).

#[global] Arguments Return {A} a.
#[global] Arguments Throw {A} e.

Definition obind {A B} (m : outcome A) (k : A -> outcome B) : outcome B :=
  match m with
  | Return a => k a
  | Throw e => Throw e
  end.

Declare Scope out_scope.
Delimit Scope out_scope with out.
Notation "x <- m ;; k" := (obind m (fun x => k))
  (at level 61, m at next level, right associativity) : out_scope.

(** A [for] loop over [l] that updates [s]; an exception ends it. *)
Fixpoint ofold {A S} (f : S -> A -> outcome S) (l : list A) (s : S) : outcome S :=
  match l with
  | [] => Return s
  | a :: r => obind (f s a) (ofold f r)
  end.

(** A list comprehension whose element expression may raise. *)
Fixpoint omap {A B} (f : A -> outcome B) (l : list A) : outcome (list B) :=
  match l with
  | [] => Return []
  | a :: r => obind (f a) (fun b => obind (omap f r) (fun bs => Return (b :: bs)))
  end.

(* ================================================================== *)
(** ** Floats of the transition matrices

    The entries of a transition matrix are divided by sums that can be
    zero; numpy then yields [inf] or [nan] (with a warning) instead of
    raising.  A float is a rational or one of these. *)

Inductive npfloat : Type :=
| Fin (q : Q)
| PInf
| NInf
| NaN.

(** [a + b] *)
Definition fadd (a b : npfloat) : npfloat :=
  match a, b with
  | NaN, _ | _, NaN => NaN
  | Fin p, Fin q => Fin (p + q)
  | PInf, NInf | NInf, PInf => NaN
  | PInf, _ | _, PInf => PInf
  | NInf, _ | _, NInf => NInf
  end.

(** [a / b]; a zero divisor is the float [0.0]. *)
Definition fdiv (a b : npfloat) : npfloat :=
  match a, b with
  | NaN, _ | _, NaN => NaN
  | Fin p, Fin q =>
      if Qeq_bool q 0 then
        if Qeq_bool p 0 then NaN else if Qlt_bool 0 p then PInf else NInf
      else Fin (p / q)
  | Fin _, PInf | Fin _, NInf => Fin 0
  | PInf, Fin q => if Qlt_bool q 0 then NInf else PInf
  | NInf, Fin q => if Qlt_bool q 0 then PInf else NInf
  | _, _ => NaN
  end.

(** [np.sum] of a vector of floats *)
Definition fsum (l : list npfloat) : npfloat := fold_right fadd (Fin 0) l.

Definition matrix : Type := list (list npfloat).

(** [np.zeros((n, n), dtype='float')] *)
Definition zeros2 (n : nat) : matrix := repeat (repeat (Fin 0) n) n.

(** [m[i][j]] *)
Definition entry (m : matrix) (i j : nat) : npfloat := nth j (nth i m []) NaN.

(* ================================================================== *)
(** ** Transition matrices *)

(** [get_transitions(label_sequence)] for an array of integer labels: the
    positions at which the label differs from the one before, and the
    labels at these positions.
<<
    locs = np.where(arr[1:] != arr[:-1])[0] + 1
    transitions = arr[locs]
>> *)
Definition get_transitions (label_sequence : list Z) : list Z * list nat :=
  let arr := label_sequence in
  let locs :=
    map S (np_nonzero (zipWith (fun a b => negb (a =? b)%Z) (tl arr) (drop_last arr))) in
  let transitions := map (fun i => nth i arr 0%Z) locs in
  (transitions, locs).

(** [cytoolz.sliding_window(2, seq)]: the pairs of neighbours, none when
    [seq] has fewer than 2 elements. *)
Fixpoint sliding_window2 {A} (seq : list A) : list (A * A) :=
  match seq with
  | [] => []
  | a :: r => match r with
              | [] => []
              | b :: _ => (a, b) :: sliding_window2 r
              end
  end.

(** numpy's reading of an integer index into an axis of length [size]: a
    negative index counts from the end, an index outside
    [-size .. size-1] is an [IndexError]. *)
Definition np_index (size : nat) (l : Z) : outcome nat :=
  if (0 <=? l)%Z then
    if (l <? Z.of_nat size)%Z then Return (Z.to_nat l) else Throw IndexError
  else if (- Z.of_nat size <=? l)%Z then Return (Z.to_nat (l + Z.of_nat size))
  else Throw IndexError.

(** [l[i] = f(l[i])] *)
Fixpoint update_nth {A} (f : A -> A) (i : nat) (l : list A) {struct l}
  : list A :=
  match l with
  | [] => []
  | a :: r => match i with
              | O => f a :: r
              | S k => a :: update_nth f k r
              end
  end.

(** [trans_mat[(i, j)] += 1] *)
Definition incr_at (trans_mat : matrix) (i j : nat) : matrix :=
  update_nth (update_nth (fun x => fadd x (Fin 1)) j) i trans_mat.

(** [n_gram_transition_matrix(labels, n=2, max_label)], for the [n = 2]
    with which [get_transition_matrix] calls it:
<<
    trans_mat = np.zeros((max_label, ) * n, dtype='float')
    for loc in sliding_window(n, labels):
        if any(l >= max_label for l in loc):
            continue
        trans_mat[loc] += 1
    return trans_mat
>> *)
Definition n_gram_transition_matrix (labels : list Z) (max_label : nat)
  : outcome matrix :=
  ofold
    (fun trans_mat (loc : Z * Z) =>
       if (Z.of_nat max_label <=? fst loc)%Z || (Z.of_nat max_label <=? snd loc)%Z
       then Return trans_mat
       else (i <- np_index max_label (fst loc) ;;
             j <- np_index max_label (snd loc) ;;
             Return (incr_at trans_mat i j))%out)
    (sliding_window2 labels)
    (zeros2 max_label).

(** [init_matrix.sum(axis=0)]: the sums of the columns. *)
Definition fcol_sums (m : matrix) : list npfloat :=
  map (fun j => fsum (map (fun row => nth j row (Fin 0)) m))
      (seq 0 (length (hd [] m))).

(** [normalize_transition_matrix(init_matrix, normalize)]; [normalize] is
    [None] or a string.
<<
    if normalize is None or normalize not in ('bigram', 'rows', 'columns'):
        return init_matrix
    if normalize == 'bigram':
        init_matrix /= init_matrix.sum()
    elif normalize == 'rows':
        init_matrix /= init_matrix.sum(axis=1, keepdims=True)
    elif normalize == 'columns':
        init_matrix /= init_matrix.sum(axis=0, keepdims=True)
    return init_matrix
>> *)
Definition normalize_transition_matrix (init_matrix : matrix)
  (normalize : option string) : matrix :=
  match normalize with
  | None => init_matrix
  | Some s =>
      if String.eqb s "bigram" then
        let total := fsum (concat init_matrix) in
        map (map (fun x => fdiv x total)) init_matrix
      else if String.eqb s "rows" then
        map (fun row => let total := fsum row in map (fun x => fdiv x total) row)
            init_matrix
      else if String.eqb s "columns" then
        let totals := fcol_sums init_matrix in
        map (fun row => zipWith fdiv row totals) init_matrix
      else init_matrix
  end.

(** [m + smoothing], element-wise *)
Definition add_scalar (m : matrix) (smoothing : Q) : matrix :=
  map (map (fun x => fadd x (Fin smoothing))) m.

(** [a + b] for two matrices of the same shape *)
Definition madd (a b : matrix) : matrix := zipWith (zipWith fadd) a b.

(** [np.sum(mats, axis=0)] for a non-empty list of matrices of the same
    shape *)
Definition sum_matrices (mats : list matrix) : matrix :=
  match mats with
  | [] => []
  | m :: r => fold_left madd r m
  end.

(** The [labels] argument of [get_transition_matrix]: the label array of
    one session, or a list of such arrays. *)
Inductive labels_arg : Type :=
| one_session (v : list Z)
| session_list (vs : list (list Z)).

(** [get_transition_matrix(labels, max_syllable, normalize, smoothing,
    combine)].  The answer is one matrix when [combine] is set and a list
    of matrices, one for every session, otherwise.
<<
    if not isinstance(labels[0], (list, np.ndarray, pd.Series)):
        labels = [labels]
    if combine:
        init_matrix = []
        for v in labels:
            transitions = get_transitions(v)[0]
            trans_mat = n_gram_transition_matrix(
                transitions, n=2, max_label=max_syllable)
            init_matrix.append(trans_mat)
        init_matrix = np.sum(init_matrix, axis=0) + smoothing
        all_mats = normalize_transition_matrix(init_matrix, normalize)
    else:
        all_mats = []
        for v in labels:
            transitions = get_transitions(v)[0]
            trans_mat = n_gram_transition_matrix(
                transitions, n=2, max_label=max_syllable) + smoothing
            init_matrix = normalize_transition_matrix(trans_mat, normalize)
            all_mats.append(init_matrix)
    return all_mats
>> *)
Definition get_transition_matrix (labels : labels_arg) (max_syllable : nat)
  (normalize : option string) (smoothing : Q) (combine : bool)
  : outcome (matrix + list matrix) :=
  (labels <- match labels with
             | one_session [] => Throw IndexError
             | one_session v => Return [v]
             | session_list [] => Throw IndexError
             | session_list vs => Return vs
             end ;;
   if combine then
     init_matrix <-
       omap (fun v => n_gram_transition_matrix (fst (get_transitions v)) max_syllable)
            labels ;;
     let init_matrix := add_scalar (sum_matrices init_matrix) smoothing in
     Return (inl (normalize_transition_matrix init_matrix normalize))
   else
     all_mats <-
       omap (fun v =>
               trans_mat <- n_gram_transition_matrix (fst (get_transitions v))
                                                      max_syllable ;;
               Return (normalize_transition_matrix (add_scalar trans_mat smoothing)
                                                   normalize))
            labels ;;
     Return (inr all_mats))%out.

(** The labels that open a new run of [r], read after a label [prev]: a
    label is kept when it differs from the one before it. *)
Fixpoint run_starts (prev : Z) (r : list Z) : list Z :=
  match r with
  | [] => []
  | b :: r' => if (prev =? b)%Z then run_starts b r' else b :: run_starts b r'
  end.

Definition Zpair_eqb (p q : Z * Z) : bool :=
  (fst p =? fst q)%Z && (snd p =? snd q)%Z.

(** A matrix of [n] rows and [n] columns. *)
Definition is_square (n : nat) (m : matrix) : Prop :=
  length m = n /\ Forall (fun row => length row = n) m.

(** The floats of [l] are finite and their sum is [t]. *)
Definition sums_to (l : list npfloat) (t : Q) : Prop :=
  exists q, fsum l = Fin q /\ q == t.

(** The labels of a short session: the syllables 0, 1, 2 and 0 again. *)
Definition sample_session : list Z := [0; 0; 1; 1; 2; 0]%Z.

(** A session that changes its syllable once. *)
Definition sample_session_one_change : list Z := [0; 0; 1; 1]%Z.

(* ================================================================== *)
(** ** Python values

    The project configuration is a [dict] that [yaml.safe_load] returns:
    its values are [None], booleans, numbers, strings, lists and dicts
    with string keys.  A number is an exact rational; a string is its
    sequence of characters. *)

#[warnings="-register-all"] Inductive pyval : Type :=
| PNone
| PBool (b : bool)
| PNum (q : Q)
| PStr (s : string)
| PList (l : list pyval)
| PDict (d : list (string * pyval)).

(** A [dict] with string keys, in insertion order. *)
Definition dict : Type := list (string * pyval).

Definition Q_of_bool (b : bool) : Q := if b then 1 else 0.

(** [a == b]: [True] and [False] are the numbers 1 and 0; lists are equal
    element by element; dicts are equal when they have the same number of
    keys and every key of the first has an equal value in the second. *)
Fixpoint py_eqb (a b : pyval) {struct a} : bool :=
  match a, b with
  | PNone, PNone => true
  | PBool x, PBool y => Bool.eqb x y
  | PBool x, PNum q => Qeq_bool (Q_of_bool x) q
  | PNum p, PBool y => Qeq_bool p (Q_of_bool y)
  | PNum p, PNum q => Qeq_bool p q
  | PStr s, PStr t => String.eqb s t
  | PList l, PList m =>
      (fix list_eqb (l m : list pyval) {struct l} : bool :=
         match l, m with
         | [], [] => true
         | x :: l', y :: m' => py_eqb x y && list_eqb l' m'
         | _, _ => false
         end) l m
  | PDict d, PDict e =>
      (length d =? length e)%nat &&
      (fix all_in (d : list (string * pyval)) {struct d} : bool :=
         match d with
         | [] => true
         | (k, v) :: d' =>
             (fix find (e : list (string * pyval)) {struct e} : bool :=
                match e with
                | [] => false
                | (k', v') :: e' => if String.eqb k k' then py_eqb v v' else find e'
                end) e
             && all_in d'
         end) d
  | _, _ => false
  end.

(** [d[key]] *)
Definition py_getitem (d : dict) (key : string) : outcome pyval :=
  match dict_get String.eqb d key with
  | Some v => Return v
  | None => Throw (Builtin KeyError)
  end.

(** The characters of a string, each as a string of length 1. *)
Fixpoint characters (s : string) : list pyval :=
  match s with
  | EmptyString => []
  | String c r => PStr (String c EmptyString) :: characters r
  end.

(** The elements that [for x in v] visits: the elements of a list, the
    characters of a string, the keys of a dict; the other values are not
    iterable. *)
Definition py_iter (v : pyval) : outcome (list pyval) :=
  match v with
  | PList l => Return l
  | PStr s => Return (characters s)
  | PDict d => Return (map (fun kv => PStr (fst kv)) d)
  | _ => Throw TypeError
  end.

(** [x in v]: membership in a list, substring of a string, key of a dict
    (lists and dicts are not hashable). *)
Definition py_in (x v : pyval) : outcome bool :=
  match v with
  | PList l => Return (existsb (py_eqb x) l)
  | PStr s =>
      match x with
      | PStr t => Return (match String.index 0 t s with Some _ => true | None => false end)
      | _ => Throw TypeError
      end
  | PDict d =>
      match x with
      | PList _ | PDict _ => Throw TypeError
      | PStr k => Return (existsb (fun kv => String.eqb k (fst kv)) d)
      | _ => Return false
      end
  | _ => Throw TypeError
  end.

(** The first position of [l] that holds a value equal to [x]. *)
Fixpoint first_index (x : pyval) (l : list pyval) : option nat :=
  match l with
  | [] => None
  | y :: r => if py_eqb y x then Some 0%nat
              else match first_index x r with
                   | Some i => Some (S i)
                   | None => None
                   end
  end.

(** [v.index(x)]: the first position of [x] in a list or of the substring
    [x] in a string, [ValueError] when there is none; the other values
    have no method [index]. *)
Definition py_index (v x : pyval) : outcome nat :=
  match v with
  | PList l =>
      match first_index x l with
      | Some i => Return i
      | None => Throw (Builtin ValueError)
      end
  | PStr s =>
      match x with
      | PStr t => match String.index 0 t s with
                  | Some i => Return i
                  | None => Throw (Builtin ValueError)
                  end
      | _ => Throw TypeError
      end
  | _ => Throw AttributeError
  end.

(** [sum(v, [])]: the concatenation of the lists that [v] holds; adding
    anything else to a list is a [TypeError]. *)
Definition py_sum_lists (v : pyval) : outcome (list pyval) :=
  (items <- py_iter v ;;
   ofold (fun acc e => match e with
                       | PList l => Return (acc ++ l)
                       | _ => Throw TypeError
                       end)
         items [])%out.

(* ================================================================== *)
(** ** The project configuration ([keypoint_moseq/io.py]) *)

(** The inner function of [generate_config]:
<<
    def _update_dict(new, original):
        return {k:new[k] if k in new else v for k,v in original.items()}
>> *)
Definition _update_dict (new original : dict) : dict :=
  map (fun kv : string * pyval =>
         (fst kv, match dict_get String.eqb new (fst kv) with
                  | Some x => x
                  | None => snd kv
                  end))
      original.

(** [_update_dict(new, v)] for a value [v] that need not be a dict:
    anything else has no method [items]. *)
Definition update_value (new : dict) (v : pyval) : outcome pyval :=
  match v with
  | PDict original => Return (PDict (_update_dict new original))
  | _ => Throw AttributeError
  end.

Definition strs (l : list string) : pyval := PList (map PStr l).

(** The default settings of [generate_config]. *)
Definition default_hypparams : dict :=
  [("error_estimator", PDict [("slope", PNum (-(1#2))); ("intercept", PNum (1#4))]);
   ("obs_hypparams", PDict [("sigmasq_0", PNum (1#10)); ("sigmasq_C", PNum (1#10));
                            ("nu_sigma", PNum 100000); ("nu_s", PNum 5)]);
   ("ar_hypparams", PDict [("latent_dim", PNum 10); ("nlags", PNum 3);
                           ("S_0_scale", PNum (1#100)); ("K_0_scale", PNum 10)]);
   ("trans_hypparams", PDict [("num_states", PNum 100); ("gamma", PNum 1000);
                              ("alpha", PNum (57#10)); ("kappa", PNum 1000000)]);
   ("cen_hypparams", PDict [("sigmasq_loc", PNum (1#2))])]%string.

Definition default_anatomy : dict :=
  [("bodyparts", strs ["BODYPART1"; "BODYPART2"; "BODYPART3"]);
   ("use_bodyparts", strs ["BODYPART1"; "BODYPART2"; "BODYPART3"]);
   ("skeleton", PList [strs ["BODYPART1"; "BODYPART2"];
                       strs ["BODYPART2"; "BODYPART3"]]);
   ("anterior_bodyparts", strs ["BODYPART1"]);
   ("posterior_bodyparts", strs ["BODYPART3"])]%string.

Definition default_other : dict :=
  [("session_name_suffix", PStr "");
   ("verbose", PBool false);
   ("conf_pseudocount", PNum (1#1000));
   ("video_dir", PStr "");
   ("keypoint_colormap", PStr "autumn");
   ("whiten", PBool true);
   ("fix_heading", PBool false);
   ("seg_length", PNum 10000)]%string.

Definition default_fitting : dict :=
  [("added_noise_level", PNum (1#10));
   ("PCA_fitting_num_frames", PNum 1000000);
   ("conf_threshold", PNum (1#2))]%string.

(** [generate_config(project_dir, **kwargs)], up to the [sections] that
    [_build_yaml] turns into the text of [config.yml]: the titled groups
    of settings, in the order in which they are written.
<<
    hypperams = _update_dict(kwargs, {...})
    hypperams = {k : _update_dict(kwargs, v) for k,v in hypperams.items()}
    anatomy = _update_dict(kwargs, {...})
    other = _update_dict(kwargs, {...})
    fitting = _update_dict(kwargs, {...})
    sections = [('ANATOMY', anatomy), ('FITTING', fitting),
                ('HYPER PARAMS',hypperams), ('OTHER', other)]
>> *)
Definition generate_config (kwargs : dict) : outcome (list (string * dict)) :=
  (let hypperams := _update_dict kwargs default_hypparams in
   hypperams <- omap (fun kv : string * pyval =>
                        v <- update_value kwargs (snd kv) ;; Return (fst kv, v))
                     hypperams ;;
   let anatomy := _update_dict kwargs default_anatomy in
   let other := _update_dict kwargs default_other in
   let fitting := _update_dict kwargs default_fitting in
   Return [("ANATOMY"%string, anatomy);
           ("FITTING"%string, fitting);
           ("HYPER PARAMS"%string, hypperams);
           ("OTHER"%string, other)])%out.

(** The loop
<<
    for bodypart in items:
        if not bodypart in config['bodyparts']:
            error_messages.append(f'ACTION REQUIRED: `{key}` contains '
                f'{bodypart} which is not one of the options in `bodyparts`.')
>>
    of [check_config_validity]; a message is kept as the pair of [key] and
    [bodypart] that it names. *)
Definition check_bodyparts (config : dict) (key : string) (items : list pyval)
  (error_messages : list (string * pyval)) : outcome (list (string * pyval)) :=
  ofold (fun msgs bodypart =>
           (bodyparts <- py_getitem config "bodyparts" ;;
            known <- py_in bodypart bodyparts ;;
            Return (if known then msgs else msgs ++ [(key, bodypart)]))%out)
        items error_messages.

(** [check_config_validity(config)]: the answer and the messages that are
    printed. *)
Definition check_config_validity (config : dict)
  : outcome (bool * list (string * pyval)) :=
  (let error_messages := [] in
   (* check anatomy *)
   v <- py_getitem config "use_bodyparts" ;;
   items <- py_iter v ;;
   error_messages <- check_bodyparts config "use_bodyparts" items error_messages ;;
   v <- py_getitem config "skeleton" ;;
   items <- py_sum_lists v ;;
   error_messages <- check_bodyparts config "skeleton" items error_messages ;;
   v <- py_getitem config "anterior_bodyparts" ;;
   items <- py_iter v ;;
   error_messages <- check_bodyparts config "anterior_bodyparts" items error_messages ;;
   v <- py_getitem config "posterior_bodyparts" ;;
   items <- py_iter v ;;
   error_messages <- check_bodyparts config "posterior_bodyparts" items error_messages ;;
   Return (match error_messages with [] => true | _ => false end, error_messages))%out.

(** [[config['use_bodyparts'].index(bp) for bp in config[key]]] *)
Definition bodypart_indexes (config : dict) (key : string) : outcome (list nat) :=
  (v <- py_getitem config key ;;
   items <- py_iter v ;;
   omap (fun bp => (use_bodyparts <- py_getitem config "use_bodyparts" ;;
                    py_index use_bodyparts bp)%out)
        items)%out.

(** [jnp.array(idxs)], held as the list of its entries *)
Definition index_array (idxs : list nat) : pyval :=
  PList (map (fun i => PNum (Qnat i)) idxs).

(** [load_config(project_dir, check_if_valid, build_indexes)], from the
    dict [config] that [yaml.safe_load] has read from [config.yml].
<<
    if check_if_valid:
        check_config_validity(config)
    if build_indexes:
        config['anterior_idxs'] = jnp.array(
            [config['use_bodyparts'].index(bp) for bp in config['anterior_bodyparts']])
        config['posterior_idxs'] = jnp.array(
            [config['use_bodyparts'].index(bp) for bp in config['posterior_bodyparts']])
    if not 'skeleton' in config or config['skeleton'] is None:
        config['skeleton'] = []
    return config
>> *)
Definition load_config (config : dict) (check_if_valid build_indexes : bool)
  : outcome dict :=
  (_ <- (if check_if_valid then check_config_validity config
         else Return (true, [])) ;;
   config <- (if build_indexes then
                idxs <- bodypart_indexes config "anterior_bodyparts" ;;
                let config := dict_set String.eqb config "anterior_idxs"%string
                                       (index_array idxs) in
                idxs <- bodypart_indexes config "posterior_bodyparts" ;;
                Return (dict_set String.eqb config "posterior_idxs"%string
                                 (index_array idxs))
              else Return config) ;;
   Return (match dict_get String.eqb config "skeleton"%string with
           | None | Some PNone =>
               dict_set String.eqb config "skeleton"%string (PList [])
           | Some _ => config
           end))%out.

(** [x] is none of the values of [bodyparts]. *)
Definition unknown_bodypart (bodyparts : list pyval) (x : pyval) : bool :=
  negb (existsb (py_eqb x) bodyparts).

(** The names of the hyperparameter groups of [generate_config]. *)
Definition hypparam_groups : list string := map fst default_hypparams.

(** A config whose anatomy has the expected shape: [bodyparts],
    [use_bodyparts], [anterior_bodyparts] and [posterior_bodyparts] are
    lists and [skeleton] is a list of lists. *)
Definition anatomy_of (config : dict) (bodyparts use_bodyparts : list pyval)
  (skeleton : list (list pyval)) (anterior posterior : list pyval) : Prop :=
  dict_get String.eqb config "bodyparts"%string = Some (PList bodyparts) /\
  dict_get String.eqb config "use_bodyparts"%string = Some (PList use_bodyparts) /\
  dict_get String.eqb config "skeleton"%string = Some (PList (map PList skeleton)) /\
  dict_get String.eqb config "anterior_bodyparts"%string = Some (PList anterior) /\
  dict_get String.eqb config "posterior_bodyparts"%string = Some (PList posterior).

(** The messages of [check_config_validity] about the values of [key]. *)
Definition messages (key : string) (bodyparts items : list pyval)
  : list (string * pyval) :=
  map (fun x => (key, x)) (filter (unknown_bodypart bodyparts) items).

(** [i] is the first position of [l] that holds a value equal to [x]. *)
Definition first_position (l : list pyval) (x : pyval) (i : nat) : Prop :=
  (exists y, nth_error l i = Some y /\ py_eqb y x = true) /\
  forall j y, (j < i)%nat -> nth_error l j = Some y -> py_eqb y x = false.

(** A config whose anterior bodypart is one of [bodyparts] but not of
    [use_bodyparts]. *)
Definition sample_config : dict :=
  [("bodyparts", strs ["nose"; "spine"; "tail"]);
   ("use_bodyparts", strs ["spine"; "tail"]);
   ("skeleton", PList [strs ["nose"; "spine"]; strs ["spine"; "tail"]]);
   ("anterior_bodyparts", strs ["nose"]);
   ("posterior_bodyparts", strs ["tail"])]%string.

(** A config that uses all its bodyparts, with an edge to a bodypart that
    is not listed. *)
Definition sample_config_all : dict :=
  [("bodyparts", strs ["nose"; "spine"; "tail"]);
   ("use_bodyparts", strs ["nose"; "spine"; "tail"]);
   ("skeleton", PList [strs ["nose"; "spine"]; strs ["spine"; "paw"]]);
   ("anterior_bodyparts", strs ["nose"]);
   ("posterior_bodyparts", strs ["tail"])]%string.

(** A config without skeleton. *)
Definition sample_config_no_skeleton : dict :=
  [("bodyparts", strs ["nose"; "tail"]);
   ("use_bodyparts", strs ["nose"; "tail"]);
   ("anterior_bodyparts", strs ["nose"]);
   ("posterior_bodyparts", strs ["tail"])]%string.

(* ================================================================== *)
(** ** Paths and names ([keypoint_moseq/io.py])

    Paths are read as on a POSIX system: [os.path.sep] is ["/"]. *)

(** The characters ["/"] (code 47) and ["."] (code 46) *)
Definition sep : Ascii.ascii := Eval cbv in Ascii.ascii_of_nat 47.
Definition extsep : Ascii.ascii := Eval cbv in Ascii.ascii_of_nat 46.

(** [s.endswith('/')] *)
Fixpoint ends_with_sep (s : string) : bool :=
  match s with
  | EmptyString => false
  | String c EmptyString => Ascii.eqb c sep
  | String _ r => ends_with_sep r
  end.

(** One step of [os.path.join]: an absolute component replaces what came
    before; otherwise it is appended, after a separator unless the path
    is empty or ends with one. *)
Definition join_component (path b : string) : string :=
  match b with
  | String c _ =>
      if Ascii.eqb c sep then b
      else if String.eqb path "" || ends_with_sep path then String.append path b
      else String.append path (String sep b)
  | EmptyString =>
      if String.eqb path "" || ends_with_sep path then path
      else String.append path (String sep EmptyString)
  end.

(** [os.path.join(a, *p)] *)
Definition os_path_join (a : string) (p : list string) : string :=
  fold_left join_component p a.

(** [_get_path(project_dir, name, path, filename, pathname_for_error_msg)];
    the message of the assertion is the one that [textwrap.fill] lays out.
<<
    if path is None:
        assert project_dir is not None and name is not None, fill(
            f'`name` and `project_dir` are required if no `{pathname_for_error_msg}` is given.')
        path = os.path.join(project_dir, name, filename)
    return path
>> *)
Definition _get_path (project_dir name path : option string) (filename : string)
  (pathname_for_error_msg : string) : result string :=
  match path with
  | None =>
      match project_dir, name with
      | Some d, Some n => Ok (os_path_join d [n; filename])
      | _, _ =>
          Raise (AssertionError
                   (String.append "`name` and `project_dir` are required if no `"
                      (String.append pathname_for_error_msg "` is given.")))
      end
  | Some p => Ok p
  end.

(** The two paths that [save_results_as_csv(project_dir, name, h5_path,
    save_dir, ...)] works with: the file it reads and the directory it
    writes the csv files to.
<<
    h5_path = _get_path(project_dir, name, h5_path, 'results.h5', 'h5_path')
    save_dir = _get_path(project_dir, name, h5_path, 'results', 'save_dir')
>> *)
Definition save_results_as_csv_paths (project_dir name h5_path save_dir : option string)
  : result (string * string) :=
  (h5_path <- _get_path project_dir name h5_path "results.h5" "h5_path" ;;
   save_dir <- _get_path project_dir name (Some h5_path) "results" "save_dir" ;;
   Ok (h5_path, save_dir))%py.

(** [p.rfind(c)] for a character [c]: the last position of [c] in [p], or
    [-1]. *)
Fixpoint rfind_from (c : Ascii.ascii) (p : string) (i found : Z) : Z :=
  match p with
  | EmptyString => found
  | String a r => rfind_from c r (i + 1)%Z (if Ascii.eqb a c then i else found)
  end.

Definition rfind (c : Ascii.ascii) (p : string) : Z := rfind_from c p 0%Z (-1)%Z.

(** [p[i:]] and [p[:i]] for [0 <= i] *)
Fixpoint str_from (i : nat) (p : string) : string :=
  match i, p with
  | O, _ => p
  | S k, String _ r => str_from k r
  | S _, EmptyString => EmptyString
  end.

Fixpoint str_upto (i : nat) (p : string) : string :=
  match i, p with
  | O, _ => EmptyString
  | S k, String a r => String a (str_upto k r)
  | S _, EmptyString => EmptyString
  end.

(** Some character of [p] at a position from [lo] (inclusive) to [hi]
    (exclusive) is not a dot. *)
Definition has_non_dot (p : string) (lo hi : nat) : bool :=
  existsb (fun k => match String.get k p with
                    | Some a => negb (Ascii.eqb a extsep)
                    | None => true
                    end)
          (seq lo (hi - lo)).

(** [os.path.splitext(p)[0]]: [p] without its extension; the extension
    starts at the last dot of the last component, unless that component
    has only dots before it.
<<
    sepIndex = p.rfind(sep)
    dotIndex = p.rfind(extsep)
    if dotIndex > sepIndex:
        filenameIndex = sepIndex + 1
        while filenameIndex < dotIndex:
            if p[filenameIndex:filenameIndex+1] != extsep:
                return p[:dotIndex], p[dotIndex:]
            filenameIndex += 1
    return p, p[:0]
>> *)
Definition splitext_root (p : string) : string :=
  let sepIndex := rfind sep p in
  let dotIndex := rfind extsep p in
  if (sepIndex <? dotIndex)%Z
     && has_non_dot p (Z.to_nat (sepIndex + 1)) (Z.to_nat dotIndex)
  then str_upto (Z.to_nat dotIndex) p
  else p.

(** [os.path.basename(p)]: [p[p.rfind('/') + 1:]] *)
Definition os_path_basename (p : string) : string :=
  str_from (Z.to_nat (rfind sep p + 1)) p.

(** [p.replace('/', new)] *)
Fixpoint replace_sep (p new : string) : string :=
  match p with
  | EmptyString => EmptyString
  | String a r => if Ascii.eqb a sep then String.append new (replace_sep r new)
                  else String a (replace_sep r new)
  end.

(** [_name_from_path(filepath, path_in_name, path_sep, remove_extension)]
<<
    if remove_extension:
        filepath = os.path.splitext(filepath)[0]
    if path_in_name:
        return filepath.replace(os.path.sep, path_sep)
    else:
        return os.path.basename(filepath)
>> *)
Definition _name_from_path (filepath : string) (path_in_name : bool)
  (path_sep : string) (remove_extension : bool) : string :=
  let filepath := if remove_extension then splitext_root filepath else filepath in
  if path_in_name then replace_sep filepath path_sep
  else os_path_basename filepath.

(** [sep] occurs in [p]. *)
Fixpoint has_sep (p : string) : bool :=
  match p with
  | EmptyString => false
  | String a r => Ascii.eqb a sep || has_sep r
  end.

(* ================================================================== *)
(** ** Loading keypoint files *)

(** [d.update(other)] *)
Definition dict_update {V} (d other : list (string * V)) : list (string * V) :=
  fold_left (fun d kv => dict_set String.eqb d (fst kv) (snd kv)) other d.

(** [set(a.keys()) & set(b.keys())] is not empty. *)
Definition keys_intersect {V} (a b : list (string * V)) : bool :=
  existsb (fun kv => existsb (fun kv' => String.eqb (fst kv) (fst kv')) b) a.

(** The variables of the loop of [load_keypoints]; [new_coordinates] and
    [new_confidences] are unbound until a loader has returned. *)
Record load_state (A : Type) : Type := mkLoad {
  coordinates : list (string * A);
  confidences : list (string * A);
  bodyparts : option (list string);
  new_coordinates : option (list (string * A));
  new_confidences : option (list (string * A))
}.

Arguments mkLoad {A} _ _ _ _ _.
Arguments coordinates {A} _.
Arguments confidences {A} _.
Arguments bodyparts {A} _.
Arguments new_coordinates {A} _.
Arguments new_confidences {A} _.

(** The [try] block of the loop for one file: the variables after it, and
    the exception that ends it, if any. *)
Definition load_try {A} (loader : string -> string -> outcome (list (string * A) * list (string * A) * list string))
  (path_in_name : bool) (path_sep : string) (remove_extension : bool)
  (st : load_state A) (filepath : string) : load_state A * outcome unit :=
  let name := _name_from_path filepath path_in_name path_sep remove_extension in
  match loader filepath name with
  | Throw e => (st, Throw e)
  | Return (new_coords, new_confs, bps) =>
      let st' := mkLoad (coordinates st) (confidences st) (Some bps)
                        (Some new_coords) (Some new_confs) in
      if keys_intersect new_coords (coordinates st)
      then (st', Throw (Builtin ValueError))
      else (st', Return tt)
  end.

(** One round of the loop: the [try] block, whose exception is caught and
    printed, and then the two updates. *)
Definition load_file {A} (loader : string -> string -> outcome (list (string * A) * list (string * A) * list string))
  (path_in_name : bool) (path_sep : string) (remove_extension : bool)
  (st : load_state A) (filepath : string) : outcome (load_state A) :=
  let st1 := fst (load_try loader path_in_name path_sep remove_extension st filepath) in
  match new_coordinates st1, new_confidences st1 with
  | Some new_coords, Some new_confs =>
      Return (mkLoad (dict_update (coordinates st1) new_coords)
                     (dict_update (confidences st1) new_confs)
                     (bodyparts st1) (new_coordinates st1) (new_confidences st1))
  | _, _ => Throw UnboundLocalError
  end.

(** The loop of [load_keypoints] over the files that were found, with the
    assertion that follows it; [loader] reads a file.
<<
    coordinates,confidences,bodyparts = {},{},None
    for filepath in tqdm.tqdm(filepaths, desc=f'Loading keypoints'):
        try:
            name = _name_from_path(filepath, path_in_name, path_sep, remove_extension)
            new_coordinates,new_confidences,bodyparts = loader(filepath, name)
            if set(new_coordinates.keys()) & set(coordinates.keys()):
                raise ValueError(...)
        except Exception as e:
            print(fill(f'Error loading {filepath}: {e}'))
        coordinates.update(new_coordinates)
        confidences.update(new_confidences)
    assert len(coordinates)>0, fill(
        f'No valid results found for {filepath_pattern}')
>> *)
Definition load_keypoints_loop {A} (loader : string -> string -> outcome (list (string * A) * list (string * A) * list string))
  (filepath_pattern : string) (filepaths : list string) (path_sep : string)
  (path_in_name remove_extension : bool)
  : outcome (list (string * A) * list (string * A) * option (list string)) :=
  (st <- ofold (load_file loader path_in_name path_sep remove_extension) filepaths
               (mkLoad [] [] None None None) ;;
   match coordinates st with
   | [] => Throw (Builtin (AssertionError
                            (String.append "No valid results found for "
                                           filepath_pattern)))
   | _ => Return (coordinates st, confidences st, bodyparts st)
   end)%out.

(** What [loader] returns for [filepath] under the name that the file is
    given. *)
Definition load_result {A} (loader : string -> string -> outcome (list (string * A) * list (string * A) * list string))
  (path_in_name : bool) (path_sep : string) (remove_extension : bool)
  (filepath : string) :=
  loader filepath (_name_from_path filepath path_in_name path_sep remove_extension).

(** The coordinates and the confidences of a loader result, nothing for a
    failed one. *)
Definition loaded_coordinates {A}
  (r : outcome (list (string * A) * list (string * A) * list string))
  : list (string * A) :=
  match r with
  | Return (new_coords, _, _) => new_coords
  | Throw _ => []
  end.

Definition loaded_confidences {A}
  (r : outcome (list (string * A) * list (string * A) * list string))
  : list (string * A) :=
  match r with
  | Return (_, new_confs, _) => new_confs
  | Throw _ => []
  end.

(** The variables after a round of the loop that did not raise: the dicts
    of the last loaded file have been merged, and merging them again
    changes nothing. *)
Definition settled {A} (st : load_state A) : Prop :=
  match new_coordinates st, new_confidences st with
  | Some new_coords, Some new_confs =>
      NoDup (map fst new_coords) /\ NoDup (map fst new_confs) /\
      dict_update (coordinates st) new_coords = coordinates st /\
      dict_update (confidences st) new_confs = confidences st
  | _, _ => False
  end.

(** The dicts that the variables hold have no key twice. *)
Definition unique_keys {A} (st : load_state A) : Prop :=
  match new_coordinates st, new_confidences st with
  | Some new_coords, Some new_confs =>
      NoDup (map fst new_coords) /\ NoDup (map fst new_confs)
  | _, _ => True
  end.

(** The character [c] occurs in [p]. *)
Fixpoint has_char (c : Ascii.ascii) (p : string) : bool :=
  match p with
  | EmptyString => false
  | String a r => Ascii.eqb a c || has_char c r
  end.

(** [p] is empty or ends with a separator: what comes before the file
    name in a path. *)
Definition is_directory_prefix (p : string) : Prop :=
  p = EmptyString \/ exists dir, p = String.append dir (String sep EmptyString).

(** A loader for sample files: it fails on [broken.csv]; any other file
    yields one recording (the length of the path stands for the
    array). *)
Definition sample_loader (filepath name : string)
  : outcome (list (string * nat) * list (string * nat) * list string) :=
  if String.eqb filepath "broken.csv" then Throw (Builtin ValueError)
  else Return ([(name, String.length filepath)], [(name, 1%nat)],
               ["nose"; "tail"]%string).

(* ================================================================== *)
(** ** The pivot of [run_kruskal]

    [stats_df] has one row for every session and syllable: the group and
    the file name of the session, the syllable, and the statistics of the
    syllable in the session ([frequency], [duration], ...), which are read
    as rationals (none of them [nan]). *)

Record stats_row : Type := mkStats {
  stats_group : string;
  stats_file_name : string;
  syllable : Z;
  stats : list Q
}.

(** The frame: the names of its statistic columns, which are distinct, and
    its rows; entry [k] of [stats] is the value of a row in column [k]. *)
Record stats_frame : Type := mkFrame {
  statistic_columns : list string;
  frame_rows : list stats_row
}.

(** Sorting with a comparison, by insertion. *)
Fixpoint insert_by {B} (leb : B -> B -> bool) (x : B) (l : list B) : list B :=
  match l with
  | [] => [x]
  | y :: r => if leb x y then x :: l else y :: insert_by leb x r
  end.

Definition sort_by {B} (leb : B -> B -> bool) (l : list B) : list B :=
  fold_right (insert_by leb) [] l.

(** The order of the tuples [(group, file_name)] of a sorted index. *)
Definition key_leb (p q : string * string) : bool :=
  if String.eqb (fst p) (fst q) then String.leb (snd p) (snd q)
  else String.leb (fst p) (fst q).

Fixpoint column_position (name : string) (names : list string) : option nat :=
  match names with
  | [] => None
  | n :: r => if String.eqb name n then Some 0%nat
              else option_map S (column_position name r)
  end.

(** [stats_df.pivot_table(index=["group", "file_name"], columns="syllable",
    values=statistic).replace(np.nan, 0).reset_index()]: a [KeyError] when
    [statistic] is no column of the frame; otherwise one row for every
    session (group and file name), the sessions in ascending order of
    group and file name, with one value for every syllable of the frame,
    the syllables in ascending order: the mean of the statistic over the
    rows of the session and the syllable, and 0 (for [nan]) when there is
    no such row. *)
Definition pivot_table (stats_df : stats_frame) (statistic : string)
  : result (list session_row) :=
  match column_position statistic (statistic_columns stats_df) with
  | None => Raise KeyError
  | Some c =>
      let sessions :=
        sort_by key_leb
                (unique pair_eqb
                        (map (fun r => (stats_group r, stats_file_name r))
                             (frame_rows stats_df))) in
      let syllables :=
        sort_by Z.leb (unique Z.eqb (map syllable (frame_rows stats_df))) in
      Ok (map (fun key : string * string =>
                 mkRow (fst key) (snd key)
                   (map (fun s =>
                           let cell :=
                             map (fun r => nth c (stats r) 0)
                                 (filter (fun r =>
                                            pair_eqb (stats_group r, stats_file_name r) key
                                            && Z.eqb (syllable r) s)
                                         (frame_rows stats_df)) in
                           if (length cell =? 0)%nat then 0
                           else Qsum cell / Qnat (length cell))
                        syllables))
              sessions)
  end.


(** A frame of two groups of two sessions and two syllables. *)
Definition sample_stats_df : stats_frame :=
  mkFrame ["frequency"%string; "duration"%string]
    [ mkStats "b" "s4" 0 [7#10; 1]; mkStats "a" "s1" 0 [1#10; 1];
      mkStats "a" "s1" 1 [3#10; 2]; mkStats "b" "s3" 1 [1#10; 1];
      mkStats "a" "s2" 0 [2#10; 1]; mkStats "a" "s2" 1 [3#10; 1];
      mkStats "b" "s3" 0 [5#10; 2]; mkStats "b" "s4" 1 [2#10; 1] ].
(* ================================================================== *)
(** * Theorems *)

Set Default Proof Using "Type*".

Lemma Qlt_bool_iff (a b : Q) : Qlt_bool a b = true <-> (a < b)%Q.
Proof.
  unfold Qlt_bool. rewrite negb_true_iff.
  split; intro H.
  - apply Qnot_le_lt. intro L. apply Qle_bool_iff in L. congruence.
  - destruct (Qle_bool b a) eqn:E; [|reflexivity].
    apply Qle_bool_iff in E. exfalso. exact (Qlt_not_le _ _ H E).
Qed.

Lemma nonzero_from_In (mask : list bool) : forall k i,
  In i (nonzero_from k mask) <->
  (k <= i /\ nth (i - k) mask false = true)%nat.
Proof.
  induction mask as [|b r IH]; intros k i; simpl.
  - split; [tauto|]. intros [_ H]. destruct (i - k)%nat; discriminate.
  - destruct b; simpl; rewrite ?IH.
    + split.
      * intros [<-|[Hk Hn]].
        -- rewrite Nat.sub_diag. auto.
        -- split; [lia|]. replace (i - k)%nat with (S (i - S k)) by lia. exact Hn.
      * intros [Hk Hn]. destruct (Nat.eq_dec k i) as [->|Hne]; [now left|right].
        split; [lia|]. replace (i - k)%nat with (S (i - S k)) in Hn by lia. exact Hn.
    + split.
      * intros [Hk Hn]. split; [lia|].
        replace (i - k)%nat with (S (i - S k)) by lia. exact Hn.
      * intros [Hk Hn]. destruct (Nat.eq_dec k i) as [->|Hne].
        -- rewrite Nat.sub_diag in Hn. discriminate.
        -- split; [lia|]. replace (i - k)%nat with (S (i - S k)) in Hn by lia. exact Hn.
Qed.

Lemma nth_map_seq {B} (f : nat -> B) (n i : nat) (d : B) :
  (i < n)%nat -> nth i (map f (seq 0 n)) d = f i.
Proof.
  intro Hi. rewrite (nth_indep _ d (f 0%nat)) by (now rewrite length_map, length_seq).
  rewrite map_nth, seq_nth by exact Hi. reflexivity.
Qed.

Lemma argrelextrema_greater_In (data : list Q) (i : nat) :
  In i (argrelextrema data np_greater) <->
  (i < length data)%nat /\
  (take_clip data (Z.of_nat i + 1) < take_clip data (Z.of_nat i))%Q /\
  (take_clip data (Z.of_nat i - 1) < take_clip data (Z.of_nat i))%Q.
Proof.
  unfold argrelextrema, np_nonzero. rewrite nonzero_from_In, Nat.sub_0_r.
  unfold boolrelextrema.
  destruct (Nat.lt_ge_cases i (length data)) as [Hi|Hi].
  - rewrite nth_map_seq by exact Hi. cbv zeta.
    rewrite andb_true_iff. unfold np_greater. rewrite !Qlt_bool_iff.
    split; [intros [_ [H1 H2]]; auto | intros (_ & H1 & H2); split; [lia|auto]].
  - rewrite nth_overflow by (now rewrite length_map, length_seq).
    split; [intros [_ H]; discriminate | intros (H & _); lia].
Qed.

(* ------------------------------------------------------------------ *)
(** ** Local maxima are interior *)

Lemma take_clip_inside (data : list Q) (i : nat) :
  (i < length data)%nat -> take_clip data (Z.of_nat i) = nth i data 0%Q.
Proof.
  intro Hi. unfold take_clip. f_equal. lia.
Qed.

Lemma take_clip_before (data : list Q) :
  take_clip data (-1) = take_clip data 0.
Proof.
  unfold take_clip. f_equal. lia.
Qed.

Lemma take_clip_after (data : list Q) :
  take_clip data (Z.of_nat (length data)) =
  take_clip data (Z.of_nat (length data) - 1).
Proof.
  unfold take_clip. f_equal. lia.
Qed.

Lemma argrelextrema_interior (data : list Q) (i : nat) :
  In i (argrelextrema data np_greater) ->
  (0 < i < length data - 1)%nat /\
  (nth (i - 1) data 0 < nth i data 0)%Q /\
  (nth (i + 1) data 0 < nth i data 0)%Q.
Proof.
  rewrite argrelextrema_greater_In. intros (Hi & Hplus & Hminus).
  assert (H0 : (0 < i)%nat).
  { destruct i as [|i]; [|lia]. exfalso.
    change (Z.of_nat 0 - 1)%Z with (-1)%Z in Hminus.
    rewrite take_clip_before in Hminus. exact (Qlt_irrefl _ Hminus). }
  assert (H1 : (i < length data - 1)%nat).
  { destruct (Nat.eq_dec i (length data - 1)) as [E|E]; [|lia]. exfalso.
    replace (Z.of_nat i + 1)%Z with (Z.of_nat (length data)) in Hplus by lia.
    rewrite take_clip_after in Hplus.
    replace (Z.of_nat (length data) - 1)%Z with (Z.of_nat i) in Hplus by lia.
    exact (Qlt_irrefl _ Hplus). }
  split; [lia|].
  replace (Z.of_nat i - 1)%Z with (Z.of_nat (i - 1)) in Hminus by lia.
  replace (Z.of_nat i + 1)%Z with (Z.of_nat (i + 1)) in Hplus by lia.
  rewrite !take_clip_inside in Hminus, Hplus by lia.
  split; assumption.
Qed.

(** C10: every index that [get_changepoints] returns is strictly interior
    (greater than 0 and smaller than the last frame index), because the
    score there is strictly greater than at both neighbours (and the p-value
    is below [alpha]); a session with fewer than 3 frames has no
    changepoint. *)
Theorem get_changepoints_interior (score pvals : list Q) (alpha : Q) :
  (forall i, In i (get_changepoints score pvals alpha) ->
     (0 < i < length score - 1)%nat /\
     (nth (i - 1) score 0 < nth i score 0)%Q /\
     (nth (i + 1) score 0 < nth i score 0)%Q /\
     (nth i pvals 0 < alpha)%Q) /\
  ((length score < 3)%nat -> get_changepoints score pvals alpha = []).
Proof.
  assert (Hin : forall i, In i (get_changepoints score pvals alpha) ->
     (0 < i < length score - 1)%nat /\
     (nth (i - 1) score 0 < nth i score 0)%Q /\
     (nth (i + 1) score 0 < nth i score 0)%Q /\
     (nth i pvals 0 < alpha)%Q).
  { intros i Hi. unfold get_changepoints in Hi.
    apply filter_In in Hi. destruct Hi as [Hi Hp].
    apply argrelextrema_interior in Hi. apply Qlt_bool_iff in Hp. tauto. }
  split; [exact Hin|].
  intro Hlen.
  destruct (get_changepoints score pvals alpha) as [|i r] eqn:E; [reflexivity|].
  exfalso. destruct (Hin i (or_introl eq_refl)) as [Hi _]. lia.
Qed.

(* ------------------------------------------------------------------ *)
(** ** The choice of the threshold *)

Lemma argmax_from_spec (l : list nat) : forall (pre : list nat) (bi b : nat),
  (bi < length pre)%nat -> nth bi pre 0%nat = b ->
  (forall j, nth j pre 0 <= b)%nat ->
  (forall j, j < bi -> nth j pre 0 < b)%nat ->
  (argmax_from bi b (length pre) l < length (pre ++ l))%nat /\
  (forall j, nth j (pre ++ l) 0 <= nth (argmax_from bi b (length pre) l) (pre ++ l) 0)%nat /\
  (forall j, j < argmax_from bi b (length pre) l ->
     nth j (pre ++ l) 0 < nth (argmax_from bi b (length pre) l) (pre ++ l) 0)%nat.
Proof.
  induction l as [|x l IH]; intros pre bi b Hbi Hb Hmax Hfirst; simpl.
  - rewrite app_nil_r. rewrite Hb. repeat split; auto.
  - pose proof (IH (pre ++ [x])) as IH'.
    rewrite length_app in IH'. simpl in IH'.
    replace (length pre + 1)%nat with (S (length pre)) in IH' by lia.
    rewrite <- app_assoc in IH'. simpl in IH'.
    destruct (b <? x)%nat eqn:E.
    + apply Nat.ltb_lt in E.
      apply (IH' (length pre) x).
      * lia.
      * rewrite app_nth2 by lia. now rewrite Nat.sub_diag.
      * intro j. destruct (Nat.lt_ge_cases j (length pre)).
        -- rewrite app_nth1 by lia. specialize (Hmax j). lia.
        -- rewrite app_nth2 by lia. destruct (j - length pre)%nat as [|[|n]]; simpl; lia.
      * intros j Hj. rewrite app_nth1 by lia. specialize (Hmax j). lia.
    + apply Nat.ltb_ge in E.
      apply (IH' bi b).
      * lia.
      * rewrite app_nth1 by lia. exact Hb.
      * intro j. destruct (Nat.lt_ge_cases j (length pre)).
        -- rewrite app_nth1 by lia. apply Hmax.
        -- rewrite app_nth2 by lia. destruct (j - length pre)%nat as [|[|n]]; simpl; lia.
      * intros j Hj. rewrite app_nth1 by lia. apply Hfirst. exact Hj.
Qed.

Lemma np_argmax_spec (l : list nat) :
  l <> [] ->
  exists k, np_argmax l = Ok k /\ (k < length l)%nat /\
    (forall j, nth j l 0 <= nth k l 0)%nat /\
    (forall j, j < k -> nth j l 0 < nth k l 0)%nat.
Proof.
  destruct l as [|x r]; [congruence|]. intros _.
  exists (argmax_from 0 x 1 r). split; [reflexivity|].
  apply (argmax_from_spec r [x] 0%nat x).
  - simpl. lia.
  - reflexivity.
  - intros [|[|j]]; simpl; lia.
  - intros j Hj. lia.
Qed.

Lemma map_state_length {A B S} (f : A -> S -> B * S) (l : list A) : forall s,
  length (fst (map_state f l s)) = length l.
Proof.
  induction l as [|a r IH]; intro s; simpl; [reflexivity|].
  destruct (f a s) as [b s1]. specialize (IH s1).
  destruct (map_state f r s1) as [bs s2]. simpl in *. now rewrite IH.
Qed.

Lemma total_changepoints_count (d : session_dict (list nat)) :
  total_changepoints d = changepoint_count d.
Proof.
  unfold total_changepoints, changepoint_count.
  induction d as [|kv d IH]; simpl; [reflexivity|].
  now rewrite length_app, IH.
Qed.

Lemma map_state_nth {A B S} (f : A -> S -> B * S) (dA : A) (dB : B) (l : list A) :
  forall (s : S) (j : nat), (j < length l)%nat ->
  nth j (fst (map_state f l s)) dB =
  fst (f (nth j l dA) (snd (map_state f (firstn j l) s))).
Proof.
  induction l as [|a l IH]; intros s j Hj; [simpl in Hj; lia|].
  simpl map_state at 1.
  destruct j as [|j].
  - simpl. destruct (f a s) as [b s1]. now destruct (map_state f l s1).
  - simpl firstn. simpl map_state. simpl nth at 2.
    destruct (f a s) as [b s1].
    specialize (IH s1 j ltac:(simpl in Hj; lia)).
    destruct (map_state f l s1) as [bs s2].
    destruct (map_state f (firstn j l) s1) as [bs' s2']. simpl in *. exact IH.
Qed.

(** C5: the candidates of the scan are the results of the iterations,
    one for every threshold.  With no threshold at all the scan raises a
    [ValueError] ([np.argmax] of an empty list).  Otherwise it returns,
    without error, the first threshold whose number of changepoints, all
    sessions together, is the greatest among the candidates, with the
    changepoints and the change scores of that candidate; this holds
    whatever the counts are: when all of them are zero the first threshold
    is returned, with empty changepoints. *)
Theorem changepoint_scan_picks_most (dy_zscored : list (list (list Q)))
  (mask : list (list bool)) (labels : list (string * nat * nat))
  (alpha gaussian_ksize : Q) (thresholds : list Q) (g : RandomState) :
  let cands := fst (scan_candidates dy_zscored mask labels alpha gaussian_ksize thresholds g) in
  let g' := snd (scan_candidates dy_zscored mask labels alpha gaussian_ksize thresholds g) in
  let count j := changepoint_count (snd (nth j cands ([], []))) in
  length cands = length thresholds /\
  (forall j, (j < length thresholds)%nat ->
     nth j cands ([], []) =
     fst (threshold_iteration dy_zscored mask labels alpha gaussian_ksize
            (nth j thresholds 0%Q)
            (snd (scan_candidates dy_zscored mask labels alpha gaussian_ksize
                                  (firstn j thresholds) g)))) /\
  match changepoint_scan dy_zscored mask labels alpha gaussian_ksize thresholds g with
  | Ok (changepoints, changescores, threshold, g1) =>
      exists k, (k < length thresholds)%nat /\
        changepoints = snd (nth k cands ([], [])) /\
        changescores = fst (nth k cands ([], [])) /\
        threshold = nth k thresholds 0%Q /\ g1 = g' /\
        (forall j, count j <= count k)%nat /\
        (forall j, j < k -> count j < count k)%nat /\
        ((forall j, count j = 0%nat) -> k = 0%nat)
  | Raise e => thresholds = [] /\ e = ValueError
  end.
Proof.
  intros cands g' count.
  assert (Hlen : length cands = length thresholds).
  { apply map_state_length. }
  split; [exact Hlen|].
  split.
  { intros j Hj. unfold cands, scan_candidates. now apply map_state_nth. }
  assert (Hcase : thresholds = [] \/ thresholds <> []).
  { destruct thresholds; [now left|right; discriminate]. }
  destruct Hcase as [Hnil|Hne].
  { subst thresholds. unfold changepoint_scan. simpl. split; reflexivity. }
  assert (Hne' : map total_changepoints (map snd cands) <> []).
  { destruct cands; [destruct thresholds; simpl in *; congruence | discriminate]. }
  destruct (np_argmax_spec _ Hne') as (k & Hk & Hlt & Hmax & Hfirst).
  rewrite !length_map in Hlt.
  assert (Hnth : forall j, nth j (map total_changepoints (map snd cands)) 0%nat = count j).
  { intro j. unfold count. rewrite <- total_changepoints_count.
    destruct (Nat.lt_ge_cases j (length cands)) as [Hj|Hj].
    - rewrite (nth_indep _ 0%nat (total_changepoints (snd (@nil (string * list Q), @nil (string * list nat))))) by (now rewrite !length_map).
      now rewrite map_nth, map_nth.
    - rewrite !nth_overflow by (rewrite ?length_map; lia). reflexivity. }
  unfold changepoint_scan.
  fold cands.
  destruct (scan_candidates dy_zscored mask labels alpha gaussian_ksize thresholds g) as [c0 g0] eqn:E.
  simpl in cands, g'. subst cands g'.
  rewrite Hk. simpl.
  exists k. split; [lia|]. split; [|split; [|split; [|split; [|split; [|split]]]]].
  - rewrite (nth_indep (map snd c0) [] (snd (@nil (string * list Q), @nil (string * list nat)))) by (now rewrite length_map).
    now rewrite map_nth.
  - rewrite (nth_indep (map fst c0) [] (fst (@nil (string * list Q), @nil (string * list nat)))) by (now rewrite length_map).
    now rewrite map_nth.
  - reflexivity.
  - reflexivity.
  - intro j. rewrite <- !Hnth. apply Hmax.
  - intros j Hj. rewrite <- !Hnth. now apply Hfirst.
  - intro Hz. destruct k as [|k]; [reflexivity|].
    specialize (Hfirst 0%nat ltac:(lia)). rewrite !Hnth in Hfirst.
    rewrite (Hz (S k)) in Hfirst. lia.
Qed.

(* ------------------------------------------------------------------ *)
(** ** The empirical p-values of the frames *)

Lemma zipWith_length {A B C} (f : A -> B -> C) (u : list A) : forall (v : list B),
  length (zipWith f u v) = Nat.min (length u) (length v).
Proof.
  induction u as [|a u IH]; intros [|b v]; simpl; auto.
Qed.

Lemma insert_sorted_length (x : Q) (l : list Q) :
  length (insert_sorted x l) = S (length l).
Proof.
  induction l as [|y r IH]; simpl; [reflexivity|].
  destruct (Qle_bool x y); simpl; [reflexivity|now rewrite IH].
Qed.

Lemma np_sort_length (l : list Q) : length (np_sort l) = length l.
Proof.
  induction l as [|x r IH]; simpl; [reflexivity|].
  unfold np_sort in *. now rewrite insert_sorted_length, IH.
Qed.

Lemma searchsorted_le (a : list Q) (v : Q) : (searchsorted a v <= length a)%nat.
Proof.
  induction a as [|x r IH]; simpl; [lia|].
  destruct (Qlt_bool x v); lia.
Qed.

Lemma rand_vec_length (n : nat) : forall g, length (fst (rand_vec n g)) = n.
Proof.
  induction n as [|n IH]; intro g; simpl; [reflexivity|].
  specialize (IH (mkRandomState (tape g) (S (pos g)))).
  destruct (rand_vec n _) as [us g2]. simpl in *. now rewrite IH.
Qed.

Lemma uniform_length (low high : Q) (n : nat) (g : RandomState) :
  length (fst (uniform low high n g)) = n.
Proof.
  unfold uniform. pose proof (rand_vec_length n g) as H.
  destruct (rand_vec n g) as [us g']. simpl in *. now rewrite length_map.
Qed.

Lemma select_length_congr {A B} (m : list bool) : forall (u : list A) (v : list B),
  length u = length v -> length (select m u) = length (select m v).
Proof.
  induction m as [|b m IH]; intros [|a u] [|c v] H; simpl in *; try discriminate; auto.
  destruct b; simpl; auto.
Qed.

Lemma permute_cyclic_session_length (m : list bool) (frames : list (list bool))
  (g : RandomState) :
  length (fst (permute_cyclic_session (m, frames) g)) = length frames.
Proof.
  unfold permute_cyclic_session.
  destruct (map_state _ _ g) as [cols g']. simpl.
  unfold frames_of_columns. now rewrite length_map, length_seq.
Qed.

Lemma pooled_counts_cons (a : list (list bool)) (arr : list (list (list bool)))
  (m : list bool) (mask : list (list bool)) :
  pooled_counts (a :: arr) (m :: mask) =
  select m (map count_true a) ++ pooled_counts arr mask.
Proof. reflexivity. Qed.

Lemma map_state_cons {A B S} (f : A -> S -> B * S) (a : A) (l : list A) (s : S) :
  map_state f (a :: l) s =
  (let (b, s1) := f a s in
   let (bs, s2) := map_state f l s1 in (b :: bs, s2)).
Proof. reflexivity. Qed.

Lemma pooled_counts_permute_length (mask : list (list bool)) :
  forall (arr : list (list (list bool))) (g : RandomState),
  length (pooled_counts (fst (permute_cyclic arr mask g)) mask) =
  length (pooled_counts arr mask).
Proof.
  induction mask as [|m mask IH]; intros arr g.
  - reflexivity.
  - destruct arr as [|a arr]; [reflexivity|].
    unfold permute_cyclic. simpl combine. rewrite map_state_cons.
    pose proof (permute_cyclic_session_length m a g) as Hs.
    destruct (permute_cyclic_session (m, a) g) as [a' g1]. simpl in Hs.
    specialize (IH arr g1). unfold permute_cyclic in IH.
    destruct (map_state permute_cyclic_session (combine mask arr) g1) as [arr' g2].
    cbn [fst] in *. rewrite !pooled_counts_cons, !length_app, IH.
    f_equal. apply select_length_congr. now rewrite !length_map.
Qed.

Lemma pooled_counts_length (f : list (list Q) -> list (list bool))
  (mask : list (list bool)) :
  forall (dy : list (list (list Q))),
  (forall s, length (f s) = length s) ->
  length (pooled_counts (map f dy) mask) = num_valid_frames dy mask.
Proof.
  intros dy Hf. unfold pooled_counts, num_valid_frames, boolean_index.
  revert dy. induction mask as [|m mask IH]; intros [|a dy]; simpl; auto.
  rewrite !length_app, IH. f_equal.
  apply select_length_congr. now rewrite length_map, Hf.
Qed.

Lemma empirical_pvalue_bounds (n : nat) (k : nat) :
  (0 < n)%nat -> (k <= n)%nat ->
  (1 / Qnat n <= 1 - inject_Z (Z.of_nat k - 1) / Qnat n
   /\ 1 - inject_Z (Z.of_nat k - 1) / Qnat n <= 1 + 1 / Qnat n)%Q.
Proof.
  intros Hn Hk.
  assert (Hpos : (0 < Qnat n)%Q).
  { unfold Qnat. change 0%Q with (inject_Z 0). rewrite <- Zlt_Qlt. lia. }
  assert (Hk0 : (0 <= Qnat k)%Q).
  { unfold Qnat. change 0%Q with (inject_Z 0). rewrite <- Zle_Qle. lia. }
  assert (Hkn : (Qnat k <= Qnat n)%Q).
  { unfold Qnat. rewrite <- Zle_Qle. lia. }
  assert (E : (inject_Z (Z.of_nat k - 1) == Qnat k - 1)%Q).
  { unfold Qnat, Z.sub. rewrite inject_Z_plus. reflexivity. }
  rewrite E. clear E.
  assert (Hneq : ~ (Qnat n == 0)%Q) by (intro H0; rewrite H0 in Hpos; exact (Qlt_irrefl _ Hpos)).
  clear Hn Hk. revert Hpos Hk0 Hkn Hneq.
  generalize (Qnat n) (Qnat k). intros qn qk Hpos Hk0 Hkn Hneq.
  split.
  - apply Qle_shift_div_r; [exact Hpos|].
    setoid_replace ((1 - (qk - 1) / qn) * qn)%Q
      with (qn - qk + 1)%Q by (field; exact Hneq).
    lra.
  - setoid_replace (1 - (qk - 1) / qn)%Q
      with (1 + 1 / qn - qk / qn)%Q by (field; exact Hneq).
    assert (0 <= qk / qn)%Q.
    { apply Qle_shift_div_l; [exact Hpos|]. lra. }
    lra.
Qed.

(** C9: in every iteration of the scan, every p-value of a frame before the
    FDR correction lies in [1/N, 1 + 1/N], where [N] is the number of valid
    frames of all sessions; it is never zero, and it can exceed 1. *)
Theorem frame_pvalues_range :
  (forall (dy_zscored : list (list (list Q))) (mask : list (list bool))
          (threshold : Q) (g : RandomState) (p : Q),
      In p (fst (frame_pvalues dy_zscored mask threshold g)) ->
      let N := num_valid_frames dy_zscored mask in
      (1 / Qnat N <= p)%Q /\ (p <= 1 + 1 / Qnat N)%Q /\ (0 < p)%Q) /\
  (exists (dy_zscored : list (list (list Q))) (mask : list (list bool))
          (threshold : Q) (g : RandomState) (p : Q),
      In p (fst (frame_pvalues dy_zscored mask threshold g)) /\ (1 < p)%Q).
Proof.
  split.
  - intros dy mask threshold g p Hin N.
    unfold frame_pvalues in Hin.
    set (above := map (map (map (fun z => Qlt_bool threshold z))) dy) in *.
    pose proof (pooled_counts_permute_length mask above g) as Hperm.
    destruct (permute_cyclic above mask g) as [shuffled g1]. simpl fst in Hperm.
    pose proof (uniform_length (-(1#10)) (1#10) (length (pooled_counts shuffled mask)) g1) as Hu.
    destruct (uniform _ _ _ g1) as [jitter g2]. simpl fst in Hu, Hin.
    assert (HN : length (pooled_counts above mask) = N).
    { unfold above, N. rewrite <- (pooled_counts_length (map (map (fun z => Qlt_bool threshold z)))).
      - reflexivity.
      - intro fr. apply length_map. }
    unfold empirical_pvalues in Hin. apply in_map_iff in Hin.
    destruct Hin as (c & <- & Hc).
    rewrite HN.
    assert (Hnull : length (np_sort (vadd (map Qnat (pooled_counts shuffled mask)) jitter)) = N).
    { rewrite np_sort_length. unfold vadd. rewrite zipWith_length, length_map, Hu, Hperm, HN. lia. }
    assert (HNpos : (0 < N)%nat).
    { rewrite <- HN. destruct (pooled_counts above mask); [contradiction|simpl; lia]. }
    pose proof (searchsorted_le (np_sort (vadd (map Qnat (pooled_counts shuffled mask)) jitter)) (Qnat c)) as Hs.
    rewrite Hnull in Hs.
    destruct (empirical_pvalue_bounds _ _ HNpos Hs) as [H1 H2].
    split; [exact H1|]. split; [exact H2|].
    eapply Qlt_le_trans; [|exact H1].
    apply Qlt_shift_div_l.
    + unfold Qnat. change 0%Q with (inject_Z 0). rewrite <- Zlt_Qlt. lia.
    + reflexivity.
  - exists [[[1%Q]]], [[true]], 0%Q, (mkRandomState (fun _ => 1#2) 0), 2%Q.
    split; [|reflexivity].
    vm_compute. left. reflexivity.
Qed.

(* ------------------------------------------------------------------ *)
(** ** Value counts *)

Section ValueCountFacts.

Local Arguments Z.mul : simpl never.
Local Arguments Z.add : simpl never.
Local Arguments Z.sub : simpl never.
Local Arguments Z.of_nat : simpl never.

Context {A : Type} (eqb : A -> A -> bool).
Hypothesis eqb_refl : forall a, eqb a a = true.
Hypothesis eqb_comm : forall a b, eqb a b = eqb b a.
Hypothesis eqb_trans : forall a b c,
  eqb a b = true -> eqb b c = true -> eqb a c = true.

Lemma eqb_congr (a b c : A) : eqb a b = true -> eqb a c = eqb b c.
Proof.
  intro Hab.
  destruct (eqb a c) eqn:Hac, (eqb b c) eqn:Hbc; try reflexivity.
  - rewrite eqb_comm in Hab. rewrite (eqb_trans _ _ _ Hab Hac) in Hbc. discriminate.
  - rewrite (eqb_trans _ _ _ Hab Hbc) in Hac. discriminate.
Qed.

Lemma count_eq_cons (v a : A) (r : list A) :
  count_eq eqb v (a :: r) =
  ((if eqb v a then 1 else 0) + count_eq eqb v r)%nat.
Proof.
  unfold count_eq. simpl. destruct (eqb v a); reflexivity.
Qed.

Lemma count_eq_congr (a b : A) (x : list A) :
  eqb a b = true -> count_eq eqb a x = count_eq eqb b x.
Proof.
  intro Hab. induction x as [|c x IH]; [reflexivity|].
  rewrite !count_eq_cons, IH, (eqb_congr _ _ c Hab). reflexivity.
Qed.

Lemma count_eq_filter_neq (a b : A) (U : list A) :
  count_eq eqb a (filter (fun w => negb (eqb b w)) U) =
  if eqb a b then 0%nat else count_eq eqb a U.
Proof.
  induction U as [|u U IH]; simpl.
  - destruct (eqb a b); reflexivity.
  - rewrite count_eq_cons.
    destruct (eqb b u) eqn:Hbu; simpl.
    + rewrite IH. destruct (eqb a b) eqn:Hab; [reflexivity|].
      rewrite eqb_comm in Hbu. rewrite (eqb_comm a u).
      rewrite (eqb_congr _ _ a Hbu), (eqb_comm b a), Hab. reflexivity.
    + rewrite count_eq_cons, IH. destruct (eqb a b) eqn:Hab; [|reflexivity].
      rewrite (eqb_congr _ _ u Hab), Hbu. reflexivity.
Qed.

Lemma count_eq_unique (a : A) (r : list A) :
  count_eq eqb a (unique eqb r) = Nat.min 1 (count_eq eqb a r).
Proof.
  induction r as [|b r IH]; [reflexivity|].
  simpl unique. rewrite !count_eq_cons, count_eq_filter_neq, IH.
  destruct (eqb a b); simpl; lia.
Qed.

Lemma Zsum_filter_neq (G : nat -> Z) (a : A) (r U : list A) :
  Zsum (map (fun v => G (count_eq eqb v r)) (filter (fun w => negb (eqb a w)) U)) =
  (Zsum (map (fun v => G (count_eq eqb v r)) U)
   - Z.of_nat (count_eq eqb a U) * G (count_eq eqb a r))%Z.
Proof.
  induction U as [|u U IH]; simpl; [change (count_eq eqb a []) with 0%nat; lia|].
  rewrite count_eq_cons, Nat2Z.inj_add.
  destruct (eqb a u) eqn:Hau; simpl.
  - rewrite IH, <- (count_eq_congr _ _ r Hau). lia.
  - rewrite IH. lia.
Qed.

Lemma Zsum_count_cons (h : nat -> Z) (a : A) (r l : list A) :
  Zsum (map (fun w => h (count_eq eqb w (a :: r))) l) =
  (Zsum (map (fun w => h (count_eq eqb w r)) l)
   + Z.of_nat (count_eq eqb a l)
     * (h (S (count_eq eqb a r)) - h (count_eq eqb a r)))%Z.
Proof.
  induction l as [|u l IH]; simpl; [change (count_eq eqb a []) with 0%nat; lia|].
  rewrite IH, !count_eq_cons, (eqb_comm a u), !Nat2Z.inj_add.
  destruct (eqb u a) eqn:Hua; simpl.
  - rewrite (count_eq_congr _ _ r Hua). lia.
  - lia.
Qed.

(** The sum over the distinct values of [c * h c], [c] being the number of
    occurrences of the value, is the sum of [h c] over all entries. *)
Lemma Zsum_groups_positions (h : nat -> Z) (x : list A) :
  Zsum (map (fun v => Z.of_nat (count_eq eqb v x) * h (count_eq eqb v x))%Z
            (unique eqb x)) =
  Zsum (map (fun w => h (count_eq eqb w x)) x).
Proof.
  induction x as [|a r IH]; [reflexivity|].
  simpl unique. simpl map. simpl Zsum.
  rewrite (Zsum_count_cons h a r r).
  rewrite (map_ext_in
             (fun v => (Z.of_nat (count_eq eqb v (a :: r)) * h (count_eq eqb v (a :: r)))%Z)
             (fun v => (fun c => Z.of_nat c * h c)%Z (count_eq eqb v r))).
  2:{ intros v Hv. apply filter_In in Hv. destruct Hv as [_ Hv].
      rewrite count_eq_cons. rewrite eqb_comm. apply negb_true_iff in Hv.
      rewrite Hv. reflexivity. }
  rewrite (Zsum_filter_neq (fun c => (Z.of_nat c * h c)%Z)).
  rewrite count_eq_unique, IH, count_eq_cons, eqb_refl.
  destruct (count_eq eqb a r) as [|c]; simpl Nat.min; simpl Nat.add; lia.
Qed.

End ValueCountFacts.

(* ------------------------------------------------------------------ *)
(** ** The tie term *)

Lemma cube_minus_factor (c : nat) :
  cube_minus c = (Z.of_nat c * (Z.of_nat c * Z.of_nat c - 1))%Z.
Proof. unfold cube_minus. ring. Qed.

Lemma cube_minus_small (c : nat) : (c <= 1)%nat -> cube_minus c = 0%Z.
Proof.
  intro H. assert (c = 0 \/ c = 1)%nat as [-> | ->] by lia; reflexivity.
Qed.

Lemma Zsum_cube_minus_filter (p : nat -> bool) (vc : list nat) :
  (forall c, p c = false -> (c <= 1)%nat) ->
  Zsum (map cube_minus (filter p vc)) = Zsum (map cube_minus vc).
Proof.
  intro Hp. induction vc as [|c vc IH]; [reflexivity|].
  simpl. destruct (p c) eqn:E; simpl; rewrite IH; [reflexivity|].
  rewrite (cube_minus_small _ (Hp c E)). reflexivity.
Qed.

Lemma Zsum_cube_minus_none (vc : list nat) :
  existsb (fun c => (1 <? c)%nat) vc = false -> Zsum (map cube_minus vc) = 0%Z.
Proof.
  induction vc as [|c vc IH]; [reflexivity|].
  simpl. intro H. apply orb_false_iff in H. destruct H as [Hc Hr].
  apply Nat.ltb_ge in Hc. rewrite (cube_minus_small _ Hc), (IH Hr). reflexivity.
Qed.

Ltac Qeq_bool_equiv :=
  first [exact Qeq_bool_refl | exact Qeq_bool_comm | exact Qeq_bool_trans].

Lemma count_eq_congr_Q (a b : Q) (x : list Q) :
  a == b -> count_eq Qeq_bool a x = count_eq Qeq_bool b x.
Proof.
  intro H. apply count_eq_congr; try Qeq_bool_equiv. now apply Qeq_bool_iff.
Qed.

Lemma Zsum_count_cons_Q (h : nat -> Z) (a : Q) (r l : list Q) :
  Zsum (map (fun w => h (count_eq Qeq_bool w (a :: r))) l) =
  (Zsum (map (fun w => h (count_eq Qeq_bool w r)) l)
   + Z.of_nat (count_eq Qeq_bool a l)
     * (h (S (count_eq Qeq_bool a r)) - h (count_eq Qeq_bool a r)))%Z.
Proof. apply Zsum_count_cons; Qeq_bool_equiv. Qed.

Lemma Zsum_groups_positions_Q (h : nat -> Z) (x : list Q) :
  Zsum (map (fun v => Z.of_nat (count_eq Qeq_bool v x) * h (count_eq Qeq_bool v x))%Z
            (unique Qeq_bool x)) =
  Zsum (map (fun w => h (count_eq Qeq_bool w x)) x).
Proof. apply Zsum_groups_positions; Qeq_bool_equiv. Qed.

(** The sum of [c^3 - c] over the value counts of [x], entry by entry. *)
Lemma value_counts_cube_sum (x : list Q) :
  Zsum (map cube_minus (map snd (value_counts Qeq_bool x))) =
  Zsum (map (fun w => (Z.of_nat (count_eq Qeq_bool w x)
                       * Z.of_nat (count_eq Qeq_bool w x) - 1)%Z) x).
Proof.
  unfold value_counts. rewrite !map_map. simpl.
  rewrite <- (Zsum_groups_positions_Q (fun c => (Z.of_nat c * Z.of_nat c - 1)%Z) x).
  f_equal. apply map_ext. intro v. apply cube_minus_factor.
Qed.

Lemma count_eq_Q_cons (v a : Q) (r : list Q) :
  count_eq Qeq_bool v (a :: r) =
  ((if Qeq_bool v a then 1 else 0) + count_eq Qeq_bool v r)%nat.
Proof. apply count_eq_cons; Qeq_bool_equiv. Qed.

Lemma count_eq_notInA (a : Q) (r : list Q) :
  ~ InA Qeq a r -> count_eq Qeq_bool a r = 0%nat.
Proof.
  induction r as [|b r IH]; intro H; [reflexivity|].
  rewrite count_eq_Q_cons.
  destruct (Qeq_bool a b) eqn:E.
  - exfalso. apply H. left. now apply Qeq_bool_eq.
  - rewrite IH; [reflexivity|]. intro H'. apply H. now right.
Qed.

Lemma count_eq_NoDupA (y : list Q) (w : Q) :
  NoDupA Qeq y -> In w y -> count_eq Qeq_bool w y = 1%nat.
Proof.
  induction 1 as [|a r Hnot Hnd IH]; intro Hin; [contradiction|].
  rewrite count_eq_Q_cons. destruct Hin as [<- | Hin].
  - rewrite Qeq_bool_refl, (count_eq_notInA _ _ Hnot). reflexivity.
  - rewrite (IH Hin).
    destruct (Qeq_bool w a) eqn:E; [|reflexivity].
    exfalso. apply Hnot. apply Qeq_bool_eq in E.
    apply InA_alt. exists w. split; [now symmetry|exact Hin].
Qed.

Lemma distinct_values_NoDupA (x : list Q) :
  distinct_values x = true -> NoDupA Qeq x.
Proof.
  induction x as [|v r IH]; simpl; intro H; constructor.
  - apply andb_true_iff in H. destruct H as [H _].
    apply negb_true_iff in H. intro Hin. apply InA_alt in Hin.
    destruct Hin as (u & Hu & Hin).
    assert (E : existsb (Qeq_bool v) r = true).
    { apply existsb_exists. exists u. split; [exact Hin|now apply Qeq_bool_iff]. }
    congruence.
  - apply IH. apply andb_true_iff in H. tauto.
Qed.

Lemma count_eq_Permutation (v : Q) (x y : list Q) :
  Permutation x y -> count_eq Qeq_bool v x = count_eq Qeq_bool v y.
Proof.
  induction 1 as [|a x y _ IH|a b x|x y z _ IH1 _ IH2].
  - reflexivity.
  - now rewrite !count_eq_Q_cons, IH.
  - rewrite !count_eq_Q_cons. lia.
  - now rewrite IH1.
Qed.

Lemma Zsum_map_Permutation {B} (f : B -> Z) (x y : list B) :
  Permutation x y -> Zsum (map f x) = Zsum (map f y).
Proof.
  induction 1 as [|a x y _ IH|a b x|x y z _ IH1 _ IH2]; simpl.
  - reflexivity.
  - now rewrite IH.
  - lia.
  - now rewrite IH1.
Qed.

Lemma position_sum_Permutation (h : nat -> Z) (x y : list Q) :
  Permutation x y ->
  Zsum (map (fun w => h (count_eq Qeq_bool w x)) x) =
  Zsum (map (fun w => h (count_eq Qeq_bool w y)) y).
Proof.
  intro P. rewrite (Zsum_map_Permutation _ _ _ P).
  f_equal. apply map_ext. intro w. now rewrite (count_eq_Permutation w _ _ P).
Qed.

Lemma position_sum_NoDupA (h : nat -> Z) (y : list Q) :
  NoDupA Qeq y -> h 1%nat = 0%Z ->
  Zsum (map (fun w => h (count_eq Qeq_bool w y)) y) = 0%Z.
Proof.
  intros Hnd H1.
  rewrite (map_ext_in _ (fun _ => 0%Z)).
  - clear. induction y; simpl; auto.
  - intros w Hw. now rewrite (count_eq_NoDupA _ w Hnd Hw).
Qed.

Lemma cube_sum_one_tied_pair (x : list Q) :
  one_tied_pair x ->
  Zsum (map cube_minus (map snd (value_counts Qeq_bool x))) = 6%Z.
Proof.
  intros (l1 & v1 & l2 & v2 & l3 & -> & Heq & Hnd).
  rewrite value_counts_cube_sum.
  set (h := fun c : nat => (Z.of_nat c * Z.of_nat c - 1)%Z).
  set (y := l1 ++ v1 :: l2 ++ l3) in *.
  assert (P : Permutation (l1 ++ v1 :: l2 ++ v2 :: l3) (v2 :: y)).
  { unfold y. symmetry.
    change (l1 ++ v1 :: l2 ++ v2 :: l3) with (l1 ++ (v1 :: l2) ++ v2 :: l3).
    change (l1 ++ v1 :: l2 ++ l3) with (l1 ++ (v1 :: l2) ++ l3).
    rewrite !app_assoc. apply Permutation_middle. }
  change (Zsum (map (fun w => h (count_eq Qeq_bool w (l1 ++ v1 :: l2 ++ v2 :: l3)))
                    (l1 ++ v1 :: l2 ++ v2 :: l3)) = 6%Z).
  rewrite (position_sum_Permutation h _ _ P).
  simpl map. simpl Zsum.
  rewrite (Zsum_count_cons_Q h v2 y y).
  rewrite (position_sum_NoDupA h _ Hnd eq_refl).
  assert (Hc : count_eq Qeq_bool v2 y = 1%nat).
  { rewrite <- (count_eq_congr_Q _ _ y Heq).
    apply (count_eq_NoDupA _ _ Hnd). unfold y. apply in_or_app. right. now left. }
  rewrite count_eq_Q_cons, Qeq_bool_refl, Hc. reflexivity.
Qed.

Lemma tie_denominator_nonzero (N : nat) :
  N <> 1%nat -> Qeq_bool (12 * inject_Z (Z.of_nat N - 1)) 0 = false.
Proof.
  intro H. destruct (Qeq_bool _ 0) eqn:E; [|reflexivity].
  exfalso. apply Qeq_bool_eq in E.
  assert (Hz : (Z.of_nat N - 1 <> 0)%Z) by lia.
  revert E Hz. generalize (Z.of_nat N - 1)%Z. intros z E Hz.
  assert (E' : inject_Z z == 0) by lra.
  unfold Qeq in E'. simpl in E'. lia.
Qed.

Lemma int64_small (z : Z) :
  (- 2 ^ 63 <= z < 2 ^ 63)%Z -> int64 z = z.
Proof.
  intro H. unfold int64. rewrite Z.mod_small by lia. lia.
Qed.

Lemma cube_minus_nonneg (c : nat) : (0 <= cube_minus c)%Z.
Proof. rewrite cube_minus_factor. nia. Qed.

Lemma cube_minus_int64_exact (c : nat) :
  (Z.of_nat c <= 2097151)%Z -> cube_minus_int64 c = cube_minus c.
Proof.
  intro H. unfold cube_minus_int64.
  assert (Hc : (0 <= Z.of_nat c ^ 3 <= 2097151 ^ 3)%Z).
  { split; [apply Z.pow_nonneg; lia|]. apply Z.pow_le_mono_l. lia. }
  pose proof (cube_minus_nonneg c) as Hn. unfold cube_minus in Hn.
  rewrite (int64_small (Z.of_nat c ^ 3)) by lia.
  now rewrite int64_small by lia.
Qed.

Lemma int64_sum_from (l : list Z) : forall acc,
  Forall (fun v => 0 <= v)%Z l -> (0 <= acc)%Z -> (acc + Zsum l < 2 ^ 63)%Z ->
  fold_left (fun a v => int64 (a + v)) l acc = (acc + Zsum l)%Z.
Proof.
  induction l as [|v l IH]; intros acc Hl Hacc Hb; simpl in *; [lia|].
  inversion Hl as [|? ? Hv Hl']; subst.
  assert (Hs : (0 <= Zsum l)%Z).
  { clear - Hl'. induction Hl'; simpl; lia. }
  rewrite int64_small by lia.
  rewrite IH by (try assumption; lia). lia.
Qed.

Lemma int64_sum_exact (l : list Z) :
  Forall (fun v => 0 <= v)%Z l -> (Zsum l < 2 ^ 63)%Z -> int64_sum l = Zsum l.
Proof.
  intros Hl Hb. unfold int64_sum. rewrite int64_sum_from by (try assumption; lia).
  lia.
Qed.

Lemma count_eq_length {B} (eqb : B -> B -> bool) (v : B) (x : list B) :
  (count_eq eqb v x <= length x)%nat.
Proof. unfold count_eq. apply filter_length_le. Qed.

Lemma value_counts_bound (x : list Q) (c : nat) :
  In c (map snd (value_counts Qeq_bool x)) -> (c <= length x)%nat.
Proof.
  unfold value_counts. rewrite map_map. simpl. intro H.
  apply in_map_iff in H. destruct H as (v & <- & _). apply count_eq_length.
Qed.

Lemma Zsum_map_bound {B} (f : B -> Z) (b : Z) (l : list B) :
  (forall w, In w l -> f w <= b)%Z ->
  (Zsum (map f l) <= Z.of_nat (length l) * b)%Z.
Proof.
  induction l as [|a l IH]; intro H; [simpl; lia|].
  cbn [map Zsum fold_right length].
  specialize (IH (fun w Hw => H w (or_intror Hw))).
  specialize (H a (or_introl eq_refl)). unfold Zsum in IH. lia.
Qed.

(** The sum of the cubes of the counts stays within [int64] for at most
    [2097151] values. *)
Lemma value_counts_cube_sum_bound (x : list Q) :
  (Z.of_nat (length x) <= 2097151)%Z ->
  (Zsum (map cube_minus (map snd (value_counts Qeq_bool x))) < 2 ^ 63)%Z.
Proof.
  intro H. rewrite value_counts_cube_sum.
  set (N := Z.of_nat (length x)) in *.
  apply Z.le_lt_trans with (N * (N * N))%Z.
  - apply Zsum_map_bound. intros w _.
    pose proof (count_eq_length Qeq_bool w x) as Hc. fold N. nia.
  - assert (0 <= N)%Z by (unfold N; lia). nia.
Qed.

Lemma tie_sum_exact (x : list Q) :
  (Z.of_nat (length x) <= 2097151)%Z ->
  int64_sum (map cube_minus_int64
                 (filter (fun c => negb (c =? 1)%nat) (map snd (value_counts Qeq_bool x))))
  = Zsum (map cube_minus (map snd (value_counts Qeq_bool x))).
Proof.
  intro H.
  set (vc := map snd (value_counts Qeq_bool x)).
  set (tied := filter (fun c => negb (c =? 1)%nat) vc).
  assert (Hmap : map cube_minus_int64 tied = map cube_minus tied).
  { apply map_ext_in. intros c Hc. apply cube_minus_int64_exact.
    apply filter_In in Hc. destruct Hc as [Hc _].
    apply value_counts_bound in Hc. lia. }
  assert (Hfil : Zsum (map cube_minus tied) = Zsum (map cube_minus vc)).
  { unfold tied. apply Zsum_cube_minus_filter.
    intros c Hc. apply negb_false_iff, Nat.eqb_eq in Hc. lia. }
  rewrite Hmap, int64_sum_exact.
  - exact Hfil.
  - apply Forall_forall. intros v Hv. apply in_map_iff in Hv.
    destruct Hv as (c & <- & _). apply cube_minus_nonneg.
  - rewrite Hfil. now apply value_counts_cube_sum_bound.
Qed.

Lemma get_tie_correction_single (x : list Q) :
  length x = 1%nat -> get_tie_correction x (length x) = Raise ZeroDivisionError.
Proof.
  destruct x as [|v [|w r]]; try discriminate. intros _.
  unfold get_tie_correction, value_counts, count_eq. simpl.
  rewrite Qeq_bool_refl. reflexivity.
Qed.

Lemma get_tie_correction_exact (x : list Q) :
  length x <> 1%nat -> (Z.of_nat (length x) <= 2097151)%Z ->
  get_tie_correction x (length x)
  = Ok (inject_Z (Zsum (map cube_minus (map snd (value_counts Qeq_bool x))))
        / (12 * inject_Z (Z.of_nat (length x) - 1))).
Proof.
  intros HN Hb. unfold get_tie_correction.
  destruct (existsb (fun c => (1 <? c)%nat) (map snd (value_counts Qeq_bool x))) eqn:E.
  - now rewrite tie_sum_exact.
  - rewrite (tie_denominator_nonzero _ HN), (Zsum_cube_minus_none _ E). reflexivity.
Qed.

(** C3: for a vector [x] of [N] values, [N] at most [2097151] (the cubes
    of the [int64] counts then do not wrap), [get_tie_correction] raises a
    [ZeroDivisionError] when [N = 1] and returns otherwise the sum of
    [t_k^3 - t_k] over the groups of tied values, divided by
    [12 * (N - 1)]; for [N <> 1] the term is 0 when all values are
    distinct, and it is [(2^3 - 2) / (12 * 9)] for 10 values with exactly
    one tied pair. *)
Theorem get_tie_correction_formula (x : list Q) :
  (Z.of_nat (length x) <= 2097151)%Z ->
  match get_tie_correction x (length x) with
  | Ok t =>
      length x <> 1%nat /\
      t == tie_term x (length x) /\
      (NoDupA Qeq x -> t == 0) /\
      (length x = 10%nat -> one_tied_pair x -> t == (2 ^ 3 - 2) / (12 * 9))
  | Raise e => length x = 1%nat /\ e = ZeroDivisionError
  end.
Proof.
  intro Hb.
  destruct (Nat.eq_dec (length x) 1) as [H1|HN].
  { rewrite (get_tie_correction_single _ H1). split; [exact H1|reflexivity]. }
  rewrite (get_tie_correction_exact _ HN Hb).
  set (vc := map snd (value_counts Qeq_bool x)).
  split; [exact HN|]. split; [|split].
  - unfold tie_term, tied_group_sizes. fold vc.
    rewrite Zsum_cube_minus_filter.
    + unfold Qnat, Z.sub. rewrite inject_Z_plus. reflexivity.
    + intros c Hc. now apply Nat.ltb_ge in Hc.
  - intro Hnd. unfold vc. rewrite value_counts_cube_sum.
    rewrite (position_sum_NoDupA (fun c => (Z.of_nat c * Z.of_nat c - 1)%Z) _ Hnd eq_refl).
    reflexivity.
  - intros H10 Hpair. unfold vc. rewrite (cube_sum_one_tied_pair _ Hpair), H10.
    reflexivity.
Qed.

(* ------------------------------------------------------------------ *)
(** ** Fewer than two groups *)

Lemma array_split_from_length {B} (a : list B) (indices : list nat) : forall lo,
  length (array_split_from lo a indices) = S (length indices).
Proof.
  induction indices as [|i r IH]; intro lo; simpl; [reflexivity|].
  now rewrite IH.
Qed.

Lemma drop_last_short {B} (l : list B) : (length l < 2)%nat -> drop_last l = [].
Proof.
  destruct l as [|a [|b r]]; simpl; intro H; try reflexivity. lia.
Qed.

Lemma stats_kruskal_few_samples (samples : list (list Q)) :
  (length samples < 2)%nat -> stats_kruskal samples = Raise ValueError.
Proof.
  intro H. unfold stats_kruskal.
  apply Nat.ltb_lt in H. now rewrite H.
Qed.

Lemma stats_kruskal_raises (samples : list (list Q)) (e : exn) :
  stats_kruskal samples = Raise e -> e = ValueError.
Proof.
  unfold stats_kruskal.
  destruct (length samples <? 2)%nat; [congruence|].
  destruct (existsb _ samples); [discriminate|].
  destruct (Qeq_bool _ 0); [congruence|discriminate].
Qed.

Lemma get_tie_correction_raises (x : list Q) (N_m : nat) (e : exn) :
  get_tie_correction x N_m = Raise e -> e = ZeroDivisionError.
Proof.
  unfold get_tie_correction.
  destruct (existsb _ _); [discriminate|].
  destruct (Qeq_bool _ 0); [congruence|discriminate].
Qed.

Lemma randint_raises (high : nat) (g : RandomState) (e : exn) :
  randint high g = Raise e -> e = ValueError.
Proof.
  unfold randint. destruct (high =? 0)%nat; [congruence|discriminate].
Qed.

Lemma mapM_raises {B C} (f : B -> result C) (l : list B) (e : exn) :
  mapM f l = Raise e -> exists b, In b l /\ f b = Raise e.
Proof.
  induction l as [|b l IH]; simpl; [discriminate|].
  destruct (f b) as [c|e'] eqn:E.
  - destruct (mapM f l) as [cs|e'']; [discriminate|].
    intro H. injection H as ->. destruct (IH eq_refl) as (b' & Hin & Hb').
    exists b'. auto.
  - intro H. injection H as ->. exists b. auto.
Qed.

Lemma run_manual_KW_test_few_groups (df_usage merged_usages_all : list (list Q))
  (num_groups : nat) (n_per_group cum_group_idx : list nat) (n_perm : nat)
  (seed : Z) (g : RandomState) :
  (length n_per_group < 2)%nat ->
  run_manual_KW_test df_usage merged_usages_all num_groups n_per_group
                     cum_group_idx n_perm seed g = Raise ValueError
  \/ run_manual_KW_test df_usage merged_usages_all num_groups n_per_group
                        cum_group_idx n_perm seed g = Raise ZeroDivisionError.
Proof.
  intro Hlen. unfold run_manual_KW_test.
  destruct (shape merged_usages_all) as [N_m N_s].
  destruct (manual_KW _ _ _ _ _) as [h_all real_ranks].
  destruct (mapM _ _) as [X_ties|e] eqn:EX; simpl.
  2:{ right. apply mapM_raises in EX. destruct EX as (x & _ & Hx).
      now rewrite (get_tie_correction_raises _ _ _ Hx). }
  destruct (randint n_perm g) as [[p_i g1]|e] eqn:E1; simpl.
  2:{ left. now rewrite (randint_raises _ _ _ E1). }
  destruct (randint N_s g1) as [[s_i g2]|e] eqn:E2; simpl.
  2:{ left. now rewrite (randint_raises _ _ _ E2). }
  rewrite stats_kruskal_few_samples; [now left|].
  unfold np_array_split. rewrite array_split_from_length.
  rewrite (drop_last_short _ Hlen). simpl. lia.
Qed.

(** C8 (as the code has it): when the table has fewer than 2 groups,
    [run_kruskal] does not return: it raises, a [ValueError] (from the
    reference [stats.kruskal], which wants two samples, or from drawing the
    spot check) or, with a single session, a [ZeroDivisionError] from the
    tie term. *)
Theorem run_kruskal_few_groups_raises (grouped_data : list session_row)
  (n_perm : nat) (seed : Z) (thresh : Q) (g : RandomState) :
  (length (unique String.eqb (map group grouped_data)) < 2)%nat ->
  run_kruskal grouped_data n_perm seed thresh g = Raise ValueError
  \/ run_kruskal grouped_data n_perm seed thresh g = Raise ZeroDivisionError.
Proof.
  intro Hlen. unfold run_kruskal.
  destruct (shape (map usages grouped_data)) as [N_m N_s].
  set (vc := value_counts String.eqb (map group grouped_data)).
  assert (Hn : (length (map snd vc) < 2)%nat).
  { unfold vc, value_counts. now rewrite !length_map. }
  destruct (run_manual_KW_test_few_groups (map usages grouped_data)
              (map usages grouped_data) (length (map fst vc)) (map snd vc)
              (0%nat :: np_cumsum (map snd vc)) n_perm seed g Hn) as [-> | ->];
    simpl; auto.
Qed.

(* ------------------------------------------------------------------ *)
(** ** The spot check of the manual test *)

Lemma float_eqb_false (a : float) (q : Q) :
  float_eqb a q = false <-> float_differs a q.
Proof.
  destruct a as [v|]; simpl; [|tauto].
  split.
  - intros H E. apply Qeq_bool_iff in E. congruence.
  - intro H. destruct (Qeq_bool v q) eqn:E; [|reflexivity].
    exfalso. apply H. now apply Qeq_bool_iff.
Qed.

Lemma float_eqb_true (a : float) (q : Q) :
  float_eqb a q = true <-> ~ float_differs a q.
Proof.
  rewrite <- float_eqb_false. destruct (float_eqb a q); split; congruence.
Qed.

(** C2: [run_manual_KW_test] raises an [AssertionError] exactly when the
    spot check is reached (the tie terms, the two random indices and the
    reference [stats.kruskal] result were obtained) and the reference
    statistic or p-value differs from the manual one at the drawn
    (permutation, syllable) pair; when both agree it returns normally. *)
Theorem run_manual_KW_test_spot_check (df_usage merged_usages_all : list (list Q))
  (num_groups : nat) (n_per_group cum_group_idx : list nat) (n_perm : nat)
  (seed : Z) (g : RandomState) :
  let N_m := fst (shape merged_usages_all) in
  let N_s := snd (shape merged_usages_all) in
  let perm := fst (rand_perms n_perm N_m (RandomState_of_seed seed)) in
  let h_all :=
    fst (manual_KW merged_usages_all num_groups n_per_group cum_group_idx perm) in
  let real_ranks :=
    snd (manual_KW merged_usages_all num_groups n_per_group cum_group_idx perm) in
  let p_vals := map (map (fun h => chi2_sf h (Z.of_nat num_groups - 1))) h_all in
  let run := run_manual_KW_test df_usage merged_usages_all num_groups n_per_group
                                cum_group_idx n_perm seed g in
  let checked (X_ties : list Q) (p_i s_i : nat) (g2 : RandomState)
              (kr : KruskalResult) :=
    mapM (fun x => get_tie_correction x N_m) (columns N_s df_usage) = Ok X_ties /\
    (exists g1, randint n_perm g = Ok (p_i, g1) /\ randint N_s g1 = Ok (s_i, g2)) /\
    stats_kruskal
      (np_array_split
         (map (fun k => nth s_i (nth k merged_usages_all []) 0) (nth p_i perm []))
         (np_cumsum (drop_last n_per_group))) = Ok kr in
  ((exists msg, run = Raise (AssertionError msg)) <->
   (exists X_ties p_i s_i g2 kr,
       checked X_ties p_i s_i g2 kr /\
       (float_differs (statistic kr) (nth s_i (nth p_i h_all []) 0)
        \/ float_differs (pvalue kr) (nth s_i (nth p_i p_vals []) 0))))
  /\
  (forall X_ties p_i s_i g2 kr,
      checked X_ties p_i s_i g2 kr ->
      ~ float_differs (statistic kr) (nth s_i (nth p_i h_all []) 0) ->
      ~ float_differs (pvalue kr) (nth s_i (nth p_i p_vals []) 0) ->
      run = Ok (h_all, real_ranks, X_ties, g2)).
Proof.
  intros N_m N_s perm h_all real_ranks p_vals run checked.
  assert (Hrun : run =
    rbind (mapM (fun x => get_tie_correction x N_m) (columns N_s df_usage)) (fun X_ties =>
    rbind (randint n_perm g) (fun pg =>
    rbind (randint N_s (snd pg)) (fun sg =>
    rbind (stats_kruskal
             (np_array_split
                (map (fun k => nth (fst sg) (nth k merged_usages_all []) 0)
                     (nth (fst pg) perm []))
                (np_cumsum (drop_last n_per_group)))) (fun kr =>
    if float_eqb (statistic kr) (nth (fst sg) (nth (fst pg) h_all []) 0)
       && float_eqb (pvalue kr) (nth (fst sg) (nth (fst pg) p_vals []) 0)
    then Ok (h_all, real_ranks, X_ties, snd sg)
    else Raise (AssertionError "manual KW is incorrect")))))).
  { unfold run, run_manual_KW_test, h_all, real_ranks, p_vals, perm, N_m, N_s.
    unfold manual_KW, shape. cbn [fst snd].
    destruct (mapM _ _) as [X|e]; [|reflexivity]. cbn [rbind].
    destruct (randint n_perm g) as [[p_i g1]|e]; [|reflexivity]. cbn [rbind fst snd].
    destruct (randint _ g1) as [[s_i g2]|e]; reflexivity. }
  rewrite Hrun. clear Hrun. split; [split|].
  - intros [msg H].
    destruct (mapM _ _) as [X|e] eqn:EX; cbn [rbind] in H.
    2:{ apply mapM_raises in EX. destruct EX as (x & _ & Hx).
        apply get_tie_correction_raises in Hx. congruence. }
    destruct (randint n_perm g) as [[p_i g1]|e] eqn:E1; cbn [rbind fst snd] in H.
    2:{ apply randint_raises in E1. congruence. }
    destruct (randint N_s g1) as [[s_i g2]|e] eqn:E2; cbn [rbind fst snd] in H.
    2:{ apply randint_raises in E2. congruence. }
    destruct (stats_kruskal _) as [kr|e] eqn:EK; cbn [rbind] in H.
    2:{ apply stats_kruskal_raises in EK. congruence. }
    exists X, p_i, s_i, g2, kr. split.
    + split; [reflexivity|]. split; [|exact EK]. exists g1. auto.
    + destruct (float_eqb (statistic kr) _) eqn:Es; [|left; now apply float_eqb_false].
      destruct (float_eqb (pvalue kr) _) eqn:Ep; [|right; now apply float_eqb_false].
      discriminate.
  - intros (X & p_i & s_i & g2 & kr & (HX & (g1 & H1 & H2) & HK) & Hd).
    exists "manual KW is incorrect"%string.
    rewrite HX. cbn [rbind]. rewrite H1. cbn [rbind fst snd]. rewrite H2.
    cbn [rbind fst snd]. rewrite HK. cbn [rbind].
    destruct Hd as [Hd|Hd]; apply float_eqb_false in Hd; rewrite Hd.
    + reflexivity.
    + now rewrite andb_false_r.
  - intros X p_i s_i g2 kr (HX & (g1 & H1 & H2) & HK) Hs Hp.
    rewrite HX. cbn [rbind]. rewrite H1. cbn [rbind fst snd]. rewrite H2.
    cbn [rbind fst snd]. rewrite HK. cbn [rbind].
    apply float_eqb_true in Hs, Hp. now rewrite Hs, Hp.
Qed.

(* ------------------------------------------------------------------ *)
(** ** Group pairs *)

Lemma pair_eqb_eq (p q : pair_key) : pair_eqb p q = true <-> p = q.
Proof.
  destruct p as [a b], q as [c d]. unfold pair_eqb. simpl.
  rewrite andb_true_iff, !String.eqb_eq. split.
  - intros [-> ->]. reflexivity.
  - intro H. injection H as -> ->. auto.
Qed.

Lemma unique_string_NoDup (l : list string) : NoDup (unique String.eqb l).
Proof.
  induction l as [|a l IH]; simpl; constructor.
  - intro H. apply filter_In in H. destruct H as [_ H].
    rewrite String.eqb_refl in H. discriminate.
  - now apply NoDup_filter.
Qed.

Lemma combinations2_In {B} (l : list B) (a b : B) :
  In (a, b) (combinations2 l) -> In a l /\ In b l.
Proof.
  induction l as [|x r IH]; simpl; [tauto|].
  intro H. apply in_app_or in H. destruct H as [H|H].
  - apply in_map_iff in H. destruct H as (y & E & Hy). injection E as -> ->. auto.
  - destruct (IH H). auto.
Qed.

Lemma combinations2_NoDup {B} (l : list B) :
  NoDup l -> NoDup (combinations2 l).
Proof.
  induction 1 as [|x r Hx Hr IH]; simpl; [constructor|].
  apply NoDup_app.
  - apply NoDup_map_NoDup_ForallPairs; [|exact Hr].
    intros u v _ _ E. now injection E.
  - exact IH.
  - intros [a b] H1 H2. apply in_map_iff in H1. destruct H1 as (y & E & _).
    injection E as -> ->. apply combinations2_In in H2. tauto.
Qed.

Lemma combinations2_no_reverse {B} (l : list B) (a b : B) :
  NoDup l -> In (a, b) (combinations2 l) -> ~ In (b, a) (combinations2 l).
Proof.
  induction 1 as [|x r Hx Hr IH]; simpl; [tauto|].
  intros H1 H2. apply in_app_or in H1. apply in_app_or in H2.
  destruct H1 as [H1|H1], H2 as [H2|H2].
  - apply in_map_iff in H1, H2.
    destruct H1 as (y & E1 & Hy), H2 as (z & E2 & Hz).
    injection E1 as -> ->. injection E2 as -> ->. contradiction.
  - apply in_map_iff in H1. destruct H1 as (y & E1 & Hy). injection E1 as -> ->.
    apply combinations2_In in H2. tauto.
  - apply in_map_iff in H2. destruct H2 as (y & E2 & Hy). injection E2 as -> ->.
    apply combinations2_In in H1. tauto.
  - exact (IH H1 H2).
Qed.

Lemma combinations2_complete {B} (l : list B) (a b : B) :
  In a l -> In b l -> a <> b ->
  In (a, b) (combinations2 l) \/ In (b, a) (combinations2 l).
Proof.
  induction l as [|x r IH]; simpl; [tauto|].
  intros [->|Ha] [->|Hb] Hne.
  - congruence.
  - left. apply in_or_app. left. now apply in_map.
  - right. apply in_or_app. left. now apply in_map.
  - destruct (IH Ha Hb Hne); [left|right]; apply in_or_app; now right.
Qed.

Lemma dict_set_keys {V} (d : list (pair_key * V)) (k : pair_key) (v : V) :
  map fst (dict_set pair_eqb d k v) = add_key (map fst d) k.
Proof.
  unfold add_key. induction d as [|[k' v'] d IH]; simpl; [reflexivity|].
  destruct (pair_eqb k k') eqn:E; simpl.
  - apply pair_eqb_eq in E. now subst.
  - rewrite IH. destruct (existsb (pair_eqb k) (map fst d)); reflexivity.
Qed.

Lemma dict_set_In {V} (d : list (pair_key * V)) (k : pair_key) (v : V)
  (kv : pair_key * V) :
  In kv (dict_set pair_eqb d k v) -> kv = (k, v) \/ In kv d.
Proof.
  induction d as [|[k' v'] d IH]; simpl.
  - intros [H|[]]. now left.
  - destruct (pair_eqb k k'); simpl.
    + intros [H|H]; auto.
    + intros [H|H]; auto. destruct (IH H); auto.
Qed.

Lemma add_key_fresh (ks : list pair_key) (k : pair_key) :
  ~ In k ks -> add_key ks k = ks ++ [k].
Proof.
  intro H. unfold add_key.
  destruct (existsb (pair_eqb k) ks) eqn:E; [|reflexivity].
  exfalso. apply existsb_exists in E. destruct E as (k' & Hin & E).
  apply pair_eqb_eq in E. now subst.
Qed.

Lemma fold_add_key_fresh (L : list pair_key) : forall ks,
  NoDup (ks ++ L) -> fold_left add_key L ks = ks ++ L.
Proof.
  induction L as [|k L IH]; intros ks H; simpl.
  - now rewrite app_nil_r.
  - rewrite add_key_fresh.
    + rewrite IH; rewrite <- app_assoc; [reflexivity|exact H].
    + apply NoDup_remove_2 in H. intro Hin. apply H. apply in_or_app. now left.
Qed.

Lemma foldM_keys {S} (keys : S -> list pair_key)
  (f : S -> pair_key -> result S) :
  (forall s k s', f s k = Ok s' -> keys s' = add_key (keys s) k) ->
  forall L s s', foldM f L s = Ok s' -> keys s' = fold_left add_key L (keys s).
Proof.
  intros Hf L. induction L as [|k L IH]; intros s s' H; simpl in *.
  - now injection H as ->.
  - destruct (f s k) as [s1|e] eqn:E; simpl in H; [|discriminate].
    rewrite (IH _ _ H), (Hf _ _ _ E). reflexivity.
Qed.

Lemma fold_dict_set_keys {V C} (key : C -> pair_key) (val : C -> V)
  (L : list C) : forall d,
  map fst (fold_left (fun d c => dict_set pair_eqb d (key c) (val c)) L d) =
  fold_left add_key (map key L) (map fst d).
Proof.
  induction L as [|c L IH]; intro d; simpl; [reflexivity|].
  now rewrite IH, dict_set_keys.
Qed.

Lemma fold_dict_set_In {V C} (key : C -> pair_key) (val : C -> V)
  (L : list C) : forall d kv,
  In kv (fold_left (fun d c => dict_set pair_eqb d (key c) (val c)) L d) ->
  In kv d \/ exists c, In c L /\ kv = (key c, val c).
Proof.
  induction L as [|c L IH]; intros d kv H; simpl in *; [now left|].
  destruct (IH _ _ H) as [H'|(c' & Hc & E)].
  - apply dict_set_In in H'. destruct H' as [->|H']; [right|now left].
    exists c. auto.
  - right. exists c'. auto.
Qed.

Lemma map_snd_combine_seq {B C} (f : B -> C) (l : list B) : forall k,
  map (fun kc : nat * B => f (snd kc)) (combine (seq k (length l)) l) = map f l.
Proof.
  induction l as [|b l IH]; intro k; simpl; [reflexivity|]. now rewrite IH.
Qed.

Lemma nth_zipWith_andb (u v : list bool) : forall s,
  nth s (zipWith andb u v) false = nth s u false && nth s v false.
Proof.
  revert v. induction u as [|a u IH]; intros [|b v] s; simpl.
  - now destruct s.
  - destruct s; reflexivity.
  - destruct s; simpl; now rewrite ?andb_false_r.
  - destruct s; simpl; [reflexivity|apply IH].
Qed.

Lemma compute_pvalues_keys (real_zs : list (pair_key * list Q))
  (null_zs : list (pair_key * list (list Q))) (df_k_real : KW_frame)
  (group_names : list string) (n_perm : nat) (thresh : Q)
  (dfp : list (pair_key * list Q)) (cnt : list (pair_key * nat)) :
  NoDup group_names ->
  compute_pvalues_for_group_pairs real_zs null_zs df_k_real group_names
                                  n_perm thresh = Ok (dfp, cnt) ->
  map fst dfp = combinations2 group_names.
Proof.
  intros Hnd H. unfold compute_pvalues_for_group_pairs in H.
  match type of H with
  | rbind (foldM ?f ?L ?s) _ = _ => destruct (foldM f L s) as [p_vals|e] eqn:E
  end; simpl in H; [|discriminate].
  injection H as <- _.
  rewrite map_map. cbn [fst].
  transitivity (map (fun c : pair_key * list Q => fst c) p_vals);
    [apply (map_snd_combine_seq (fun c : pair_key * list Q => fst c) p_vals 0)|].
  change (map fst p_vals = combinations2 group_names).
  assert (Hk : map fst p_vals =
               fold_left add_key (combinations2 group_names)
                         (map fst (@nil (pair_key * list Q)))).
  { eapply (foldM_keys (fun d : list (pair_key * list Q) => map fst d)); [|exact E].
    intros s k s' Hs. cbv beta in Hs.
    destruct (dict_lookup null_zs k); simpl in Hs; [|discriminate].
    destruct (dict_lookup real_zs k); simpl in Hs; [|discriminate].
    injection Hs as <-. apply dict_set_keys. }
  rewrite Hk. simpl. apply (fold_add_key_fresh _ []). simpl.
  now apply combinations2_NoDup.
Qed.

(** C6: in what [run_kruskal] returns, a syllable listed for a group pair
    is flagged significant by the KW test, and the keys are the pairs of
    [combinations(group_names, 2)]: every unordered pair of distinct group
    names is there once, in one order only. *)
Theorem run_kruskal_significant_pairs (grouped_data : list session_row)
  (n_perm : nat) (seed : Z) (thresh : Q) (g g' : RandomState)
  (df_k_real : KW_frame) (dunn_results_df : list (nat * pair_key * Q))
  (intersect_sig_syllables : list (pair_key * list nat)) :
  run_kruskal grouped_data n_perm seed thresh g =
    Ok (df_k_real, dunn_results_df, intersect_sig_syllables, g') ->
  let group_names := unique String.eqb (map group grouped_data) in
  let keys := map fst intersect_sig_syllables in
  (forall pair sylls s,
      In (pair, sylls) intersect_sig_syllables -> In s sylls ->
      nth s (is_sig df_k_real) false = true) /\
  keys = combinations2 group_names /\
  NoDup keys /\
  (forall a b, In (a, b) keys -> ~ In (b, a) keys) /\
  (forall a b, In a group_names -> In b group_names -> a <> b ->
               In (a, b) keys \/ In (b, a) keys).
Proof.
  intros H group_names keys.
  unfold run_kruskal in H.
  destruct (shape (map usages grouped_data)) as [N_m N_s].
  set (vc := value_counts String.eqb (map group grouped_data)) in *.
  assert (Hnames : map fst vc = group_names).
  { unfold vc, value_counts. rewrite map_map. simpl. apply map_id. }
  rewrite Hnames in H.
  destruct (run_manual_KW_test _ _ _ _ _ _ _ _) as [[[[h_all real_ranks] X_ties] g1]|e];
    simpl in H; [|discriminate].
  destruct (mapM _ (seq 0 N_s)) as [krs|e]; simpl in H; [|discriminate].
  destruct (dunns_z_test_permute_within_group_pairs _ _ _ _ _ _ _ _)
    as [[[null_zs real_zs] rnd']|e]; simpl in H; [|discriminate].
  destruct (compute_pvalues_for_group_pairs _ _ _ _ _ _) as [[dfp cnt]|e] eqn:EC;
    simpl in H; [|discriminate].
  injection H as <- _ <- _.
  pose proof (unique_string_NoDup (map group grouped_data)) as Hnd.
  fold group_names in Hnd.
  apply compute_pvalues_keys in EC; [|exact Hnd].
  assert (Hkeys : keys = combinations2 group_names).
  { unfold keys.
    rewrite (fold_dict_set_keys (fun c : pair_key * list Q => fst c)).
    change (map (fun c : pair_key * list Q => fst c) dfp) with (map fst dfp).
    rewrite EC. apply (fold_add_key_fresh _ []). simpl.
    now apply combinations2_NoDup. }
  split; [|split; [exact Hkeys|rewrite Hkeys; split; [|split]]].
  - intros pair sylls s Hin Hs.
    apply (fold_dict_set_In (fun c : pair_key * list Q => fst c)) in Hin.
    destruct Hin as [[]|(c & _ & E)]. injection E as _ ->.
    unfold np_nonzero in Hs. apply nonzero_from_In in Hs.
    destruct Hs as [_ Hs]. rewrite Nat.sub_0_r, nth_zipWith_andb in Hs.
    apply andb_true_iff in Hs. cbn [is_sig]. tauto.
  - now apply combinations2_NoDup.
  - intros a b. now apply combinations2_no_reverse.
  - intros a b. apply combinations2_complete.
Qed.

(* ------------------------------------------------------------------ *)
(** ** Vectors and matrices *)

Lemma nth_map_in {B C} (f : B -> C) (l : list B) (i : nat) (d : C) (d' : B) :
  (i < length l)%nat -> nth i (map f l) d = f (nth i l d').
Proof.
  intro H. rewrite (nth_indep _ d (f d')) by (now rewrite length_map).
  apply map_nth.
Qed.

Lemma nth_zipWith {B C D} (f : B -> C -> D) (u : list B) : forall (v : list C)
  (s : nat) (d : D) (du : B) (dv : C),
  (s < length u)%nat -> (s < length v)%nat ->
  nth s (zipWith f u v) d = f (nth s u du) (nth s v dv).
Proof.
  induction u as [|a u IH]; intros [|b v] s d du dv Hu Hv; simpl in *; try lia.
  destruct s as [|s]; [reflexivity|]. apply IH; lia.
Qed.

Lemma map_nth_seq {B} (l : list B) (d : B) :
  map (fun i => nth i l d) (seq 0 (length l)) = l.
Proof.
  apply (nth_ext _ _ d d).
  - now rewrite length_map, length_seq.
  - intros i Hi. rewrite length_map, length_seq in Hi.
    now rewrite nth_map_seq.
Qed.

Lemma Qsum_app (l r : list Q) : Qsum (l ++ r) == Qsum l + Qsum r.
Proof.
  induction l as [|a l IH]; simpl.
  - ring.
  - rewrite IH. ring.
Qed.

Lemma np_zeros_nth (n s : nat) : nth s (np_zeros n) 0 = 0.
Proof.
  unfold np_zeros. destruct (Nat.lt_ge_cases s n).
  - now apply nth_repeat_lt.
  - apply nth_overflow. now rewrite repeat_length.
Qed.

Lemma col_sums_length (n : nat) (rows : list (list Q)) :
  Forall (fun r => length r = n) rows -> length (col_sums n rows) = n.
Proof.
  induction 1 as [|r rows Hr _ IH]; simpl.
  - apply repeat_length.
  - unfold vadd. rewrite zipWith_length. fold (col_sums n rows). lia.
Qed.

Lemma nth_col_sums (n : nat) (rows : list (list Q)) (s : nat) :
  Forall (fun r => length r = n) rows -> (s < n)%nat ->
  nth s (col_sums n rows) 0 = Qsum (map (fun r => nth s r 0) rows).
Proof.
  intros H Hs. induction H as [|r rows Hr Hrows IH]; simpl.
  - apply np_zeros_nth.
  - unfold vadd. fold (col_sums n rows).
    rewrite (nth_zipWith Qplus r (col_sums n rows) s 0 0 0).
    + now rewrite IH.
    + lia.
    + rewrite col_sums_length; assumption.
Qed.

Lemma slice_map {B C} (f : B -> C) (l : list B) (lo hi : nat) :
  slice (map f l) lo hi = map f (slice l lo hi).
Proof.
  unfold slice. now rewrite skipn_map, firstn_map.
Qed.

Lemma firstn_incl {B} (n : nat) (l : list B) (b : B) :
  In b (firstn n l) -> In b l.
Proof.
  intro H. rewrite <- (firstn_skipn n l). apply in_or_app. now left.
Qed.

Lemma skipn_incl {B} (n : nat) (l : list B) (b : B) :
  In b (skipn n l) -> In b l.
Proof.
  intro H. rewrite <- (firstn_skipn n l). apply in_or_app. now right.
Qed.

Lemma slice_incl {B} (l : list B) (lo hi : nat) (b : B) :
  In b (slice l lo hi) -> In b l.
Proof.
  unfold slice. intro H. apply firstn_incl in H. now apply skipn_incl in H.
Qed.

(** *** The rank matrix *)

Lemma rankdata_length (x : list Q) : length (rankdata x) = length x.
Proof. unfold rankdata. apply length_map. Qed.

Lemma apply_along_axis0_length (f : list Q -> list Q) (n : nat) (m : list (list Q)) :
  length (apply_along_axis0 f n m) = length m.
Proof. unfold apply_along_axis0. now rewrite length_map, length_seq. Qed.

Lemma apply_along_axis0_rows (f : list Q -> list Q) (n : nat) (m : list (list Q)) :
  Forall (fun r => length r = n) (apply_along_axis0 f n m).
Proof.
  unfold apply_along_axis0. apply Forall_forall. intros r H.
  apply in_map_iff in H. destruct H as (i & <- & _).
  unfold columns. now rewrite !length_map, length_seq.
Qed.

Lemma apply_along_axis0_entry (f : list Q -> list Q) (n : nat)
  (m : list (list Q)) (k s : nat) :
  (s < n)%nat ->
  (forall c, length (f c) = length c) ->
  nth s (nth k (apply_along_axis0 f n m) []) 0 = nth k (f (column s m)) 0.
Proof.
  intros Hs Hf. unfold apply_along_axis0.
  destruct (Nat.lt_ge_cases k (length m)) as [Hk|Hk].
  - rewrite nth_map_seq by exact Hk.
    rewrite (nth_map_in _ _ s 0 []) by (unfold columns; now rewrite !length_map, length_seq).
    unfold columns. rewrite (nth_map_in _ _ s [] []) by (now rewrite length_map, length_seq).
    now rewrite nth_map_seq.
  - rewrite (nth_overflow _ []) by (now rewrite length_map, length_seq).
    rewrite (nth_overflow (f _)).
    + now destruct s.
    + rewrite Hf. unfold column. now rewrite length_map.
Qed.

Lemma apply_along_axis0_column (f : list Q -> list Q) (n : nat)
  (m : list (list Q)) (s : nat) :
  (s < n)%nat ->
  (forall c, length (f c) = length c) ->
  column s (apply_along_axis0 f n m) = f (column s m).
Proof.
  intros Hs Hf.
  apply (nth_ext _ _ 0 0).
  - unfold column at 1. rewrite length_map, apply_along_axis0_length, Hf.
    unfold column. now rewrite length_map.
  - intros k Hk. unfold column at 1 in Hk.
    rewrite length_map, apply_along_axis0_length in Hk.
    unfold column at 1.
    rewrite (nth_map_in _ _ k 0 []) by (now rewrite apply_along_axis0_length).
    now apply apply_along_axis0_entry.
Qed.

(* ------------------------------------------------------------------ *)
(** ** Sorting *)

Lemma Qnat_plus (a b : nat) : Qnat (a + b) == Qnat a + Qnat b.
Proof. unfold Qnat. rewrite Nat2Z.inj_add, inject_Z_plus. reflexivity. Qed.

Lemma Qnat_le (a b : nat) : (a <= b)%nat -> Qnat a <= Qnat b.
Proof. intro H. unfold Qnat. rewrite <- Zle_Qle. lia. Qed.

Lemma Qnat_nonneg (a : nat) : 0 <= Qnat a.
Proof. apply (Qnat_le 0 a). lia. Qed.

Lemma insert_sorted_Permutation (x : Q) (l : list Q) :
  Permutation (insert_sorted x l) (x :: l).
Proof.
  induction l as [|y l IH]; simpl; [reflexivity|].
  destruct (Qle_bool x y); [reflexivity|].
  rewrite IH. apply perm_swap.
Qed.

Lemma np_sort_Permutation (l : list Q) : Permutation (np_sort l) l.
Proof.
  induction l as [|x l IH]; simpl; [reflexivity|].
  unfold np_sort in *. simpl. rewrite insert_sorted_Permutation. now constructor.
Qed.

Lemma insert_sorted_sorted (x : Q) (l : list Q) :
  StronglySorted Qle l -> StronglySorted Qle (insert_sorted x l).
Proof.
  induction 1 as [|y l Hs IH Hy]; simpl.
  - constructor; constructor.
  - destruct (Qle_bool x y) eqn:E.
    + apply Qle_bool_iff in E. constructor.
      * now constructor.
      * constructor; [exact E|].
        eapply Forall_impl; [|exact Hy]. intros z Hz. now apply (Qle_trans _ y).
    + assert (Hyx : y <= x).
      { apply Qlt_le_weak. apply Qlt_bool_iff. unfold Qlt_bool. now rewrite E. }
      constructor; [exact IH|].
      apply (Permutation_Forall (symmetry (insert_sorted_Permutation x l))).
      now constructor.
Qed.

Lemma np_sort_sorted (l : list Q) : StronglySorted Qle (np_sort l).
Proof.
  induction l as [|x l IH]; simpl; [constructor|].
  now apply insert_sorted_sorted.
Qed.

Lemma insert_keyed_Permutation (x : Q * nat) (l : list (Q * nat)) :
  Permutation (insert_keyed x l) (x :: l).
Proof.
  induction l as [|y l IH]; simpl; [reflexivity|].
  destruct (Qle_bool (fst x) (fst y)); [reflexivity|].
  rewrite IH. apply perm_swap.
Qed.

Lemma map_snd_combine {B C} (l : list B) : forall (l' : list C),
  length l = length l' -> map snd (combine l l') = l'.
Proof.
  induction l as [|a l IH]; intros [|b l'] H; simpl in *; try discriminate; auto.
  f_equal. apply IH. lia.
Qed.

(** [argsort] returns an arrangement of the positions of its argument. *)
Lemma argsort_Permutation (a : list Q) :
  Permutation (argsort a) (seq 0 (length a)).
Proof.
  unfold argsort.
  transitivity (map snd (combine a (seq 0 (length a)))).
  - apply Permutation_map.
    induction (combine a (seq 0 (length a))) as [|x l IH]; simpl; [reflexivity|].
    rewrite insert_keyed_Permutation. now constructor.
  - rewrite map_snd_combine; [reflexivity|]. now rewrite length_seq.
Qed.

Lemma rand_mat_rows (rows cols : nat) : forall g,
  length (fst (rand_mat rows cols g)) = rows /\
  Forall (fun r => length r = cols) (fst (rand_mat rows cols g)).
Proof.
  induction rows as [|rows IH]; intro g; simpl; [auto|].
  pose proof (rand_vec_length cols g) as Hv.
  destruct (rand_vec cols g) as [r g1]. simpl in Hv.
  specialize (IH g1). destruct (rand_mat rows cols g1) as [rs g2]. simpl in *.
  destruct IH as [IH1 IH2]. split; [now rewrite IH1|]. now constructor.
Qed.

Lemma rand_perms_rows (n_perm n : nat) (g : RandomState) :
  length (fst (rand_perms n_perm n g)) = n_perm /\
  Forall (fun row => Permutation row (seq 0 n)) (fst (rand_perms n_perm n g)).
Proof.
  unfold rand_perms. destruct (rand_mat_rows n_perm n g) as [H1 H2].
  destruct (rand_mat n_perm n g) as [m g']. simpl in *.
  split; [now rewrite length_map|].
  apply Forall_map. eapply Forall_impl; [|exact H2].
  intros r Hr. simpl. rewrite <- Hr. apply argsort_Permutation.
Qed.

(* ------------------------------------------------------------------ *)
(** ** Tie groups of the ranks *)

Lemma run_lengths_head (r : list Q) : forall v,
  StronglySorted Qle (v :: r) ->
  exists cs, run_lengths (v :: r) = S (count_eq Qeq_bool v r) :: cs.
Proof.
  induction r as [|w r IH]; intros v Hs.
  - exists []. reflexivity.
  - inversion Hs as [|? ? Hs' Hv]; subst.
    destruct (IH w Hs') as (cs & E).
    change (run_lengths (v :: w :: r)) with
      (match run_lengths (w :: r) with
       | [] => [1%nat]
       | c :: cs => if Qeq_bool v (hd 0 (w :: r)) then S c :: cs else 1%nat :: c :: cs
       end).
    rewrite E. simpl hd. rewrite count_eq_Q_cons.
    destruct (Qeq_bool v w) eqn:Evw.
    + exists cs. rewrite (count_eq_congr_Q v w r) by (now apply Qeq_bool_iff).
      reflexivity.
    + assert (Hc : count_eq Qeq_bool v r = 0%nat).
      { apply count_eq_notInA. intro Hin. apply InA_alt in Hin.
        destruct Hin as (u & Hu & Hin).
        inversion Hv as [|? ? Hvw Hvr]; subst.
        inversion Hs' as [|? ? _ Hw]; subst.
        rewrite Forall_forall in Hw. specialize (Hw u Hin).
        apply Qeq_bool_neq in Evw. apply Evw.
        apply Qle_antisym; [exact Hvw|]. rewrite Hu. exact Hw. }
      exists (S (count_eq Qeq_bool w r) :: cs). rewrite Hc. reflexivity.
Qed.

Lemma run_lengths_positions (h : nat -> Z) (s : list Q) :
  StronglySorted Qle s ->
  Zsum (map (fun c => (Z.of_nat c * h c)%Z) (run_lengths s)) =
  Zsum (map (fun w => h (count_eq Qeq_bool w s)) s).
Proof.
  induction s as [|v r IH]; intro Hs; [reflexivity|].
  assert (Hr : StronglySorted Qle r) by (now inversion Hs).
  specialize (IH Hr).
  cbn [map Zsum fold_right].
  change (fold_right Z.add 0%Z (map (fun w => h (count_eq Qeq_bool w (v :: r))) r))
    with (Zsum (map (fun w => h (count_eq Qeq_bool w (v :: r))) r)).
  rewrite (Zsum_count_cons_Q h v r r), <- IH.
  rewrite count_eq_Q_cons, Qeq_bool_refl.
  cbn [Nat.add].
  destruct r as [|w r'].
  - change (run_lengths [v]) with [1%nat].
    change (run_lengths []) with (@nil nat).
    change (count_eq Qeq_bool v []) with 0%nat.
    cbn [map Zsum fold_right]. lia.
  - destruct (run_lengths_head r' w Hr) as (cs & E).
    destruct (run_lengths_head (w :: r') v Hs) as (cs' & E').
    set (c := count_eq Qeq_bool v (w :: r')) in *.
    set (c1 := S (count_eq Qeq_bool w r')) in *.
    assert (Hstruct : run_lengths (v :: w :: r') =
                      if Qeq_bool v w then S c1 :: cs else 1%nat :: c1 :: cs).
    { change (run_lengths (v :: w :: r')) with
        (match run_lengths (w :: r') with
         | [] => [1%nat]
         | c :: cs => if Qeq_bool v (hd 0 (w :: r')) then S c :: cs else 1%nat :: c :: cs
         end).
      rewrite E. reflexivity. }
    rewrite Hstruct in E' |- *. rewrite E.
    destruct (Qeq_bool v w).
    + injection E' as E1 _. rewrite <- E1.
      cbn [map Zsum fold_right]. lia.
    + injection E' as E1 _. rewrite <- E1.
      cbn [map Zsum fold_right]. lia.
Qed.

Lemma count_lt_cons (v a : Q) (x : list Q) :
  count_lt v (a :: x) = ((if Qlt_bool a v then 1 else 0) + count_lt v x)%nat.
Proof. unfold count_lt. simpl. destruct (Qlt_bool a v); reflexivity. Qed.

Lemma Qlt_bool_congr_r (a u v : Q) : u == v -> Qlt_bool a u = Qlt_bool a v.
Proof.
  intro H. destruct (Qlt_bool a u) eqn:E1, (Qlt_bool a v) eqn:E2; try reflexivity.
  - apply Qlt_bool_iff in E1. rewrite H in E1. apply Qlt_bool_iff in E1. congruence.
  - apply Qlt_bool_iff in E2. rewrite <- H in E2. apply Qlt_bool_iff in E2. congruence.
Qed.

Lemma count_lt_congr (u v : Q) (x : list Q) :
  u == v -> count_lt u x = count_lt v x.
Proof.
  intro H. induction x as [|a x IH]; [reflexivity|].
  now rewrite !count_lt_cons, IH, (Qlt_bool_congr_r a u v H).
Qed.

Lemma rank_in_congr (x : list Q) (u v : Q) : u == v -> rank_in x u = rank_in x v.
Proof.
  intro H. unfold rank_in.
  now rewrite (count_lt_congr u v x H), (count_eq_congr_Q u v x H).
Qed.

Lemma count_below (u v : Q) (x : list Q) :
  u < v -> (count_lt u x + count_eq Qeq_bool u x <= count_lt v x)%nat.
Proof.
  intro H. induction x as [|a x IH]; [unfold count_lt, count_eq; simpl; lia|].
  rewrite !count_lt_cons, count_eq_Q_cons.
  destruct (Qlt_bool a u) eqn:E1, (Qeq_bool u a) eqn:E2, (Qlt_bool a v) eqn:E3;
    simpl; try lia; exfalso.
  - apply Qlt_bool_iff in E1. apply Qeq_bool_iff in E2. rewrite E2 in E1.
    exact (Qlt_irrefl _ E1).
  - apply Qlt_bool_iff in E1. apply Qeq_bool_iff in E2. rewrite E2 in E1.
    exact (Qlt_irrefl _ E1).
  - apply Qlt_bool_iff in E1.
    assert (E : Qlt_bool a v = true) by (apply Qlt_bool_iff; now apply (Qlt_trans _ u)).
    congruence.
  - apply Qeq_bool_iff in E2.
    assert (E : Qlt_bool a v = true) by (apply Qlt_bool_iff; now rewrite <- E2).
    congruence.
Qed.

Lemma count_eq_pos (u : Q) (x : list Q) :
  In u x -> (1 <= count_eq Qeq_bool u x)%nat.
Proof.
  induction x as [|a x IH]; [contradiction|].
  rewrite count_eq_Q_cons. intros [->|H].
  - rewrite Qeq_bool_refl. lia.
  - specialize (IH H). lia.
Qed.

Lemma rank_in_lt (x : list Q) (u v : Q) :
  In u x -> u < v -> rank_in x u < rank_in x v.
Proof.
  intros Hu Hlt. unfold rank_in.
  pose proof (Qnat_le _ _ (count_below u v x Hlt)) as H1.
  rewrite Qnat_plus in H1.
  pose proof (Qnat_le _ _ (count_eq_pos u x Hu)) as H2.
  pose proof (Qnat_nonneg (count_eq Qeq_bool v x)) as H3.
  change (Qnat 1) with 1 in H2.
  revert H1 H2 H3.
  generalize (Qnat (count_lt u x)) (Qnat (count_eq Qeq_bool u x))
             (Qnat (count_lt v x)) (Qnat (count_eq Qeq_bool v x)).
  intros lu eu lv ev H1 H2 H3.
  apply Qlt_minus_iff.
  setoid_replace (lv + (ev + 1) / 2 + - (lu + (eu + 1) / 2))
    with ((lv - lu - eu) + (eu + ev) / 2) by field.
  assert (0 < (eu + ev) / 2) by (apply Qlt_shift_div_l; lra).
  lra.
Qed.

Lemma rank_in_eq_iff (x : list Q) (u v : Q) :
  In u x -> In v x -> (rank_in x u == rank_in x v <-> u == v).
Proof.
  intros Hu Hv. split.
  - intro E. destruct (Q_dec u v) as [[H|H]|H]; [| |exact H]; exfalso.
    + apply (rank_in_lt x u v Hu) in H. rewrite E in H. exact (Qlt_irrefl _ H).
    + apply (rank_in_lt x v u Hv) in H. rewrite E in H. exact (Qlt_irrefl _ H).
  - intro E. now rewrite (rank_in_congr x u v E).
Qed.

Lemma count_eq_map {B} (f : B -> Q) (a : Q) (p : B -> bool) (l : list B) :
  (forall u, In u l -> Qeq_bool a (f u) = p u) ->
  count_eq Qeq_bool a (map f l) = length (filter p l).
Proof.
  induction l as [|u l IH]; intro H; [reflexivity|].
  simpl map. rewrite count_eq_Q_cons. simpl filter.
  rewrite (H u (or_introl eq_refl)), IH by (intros; apply H; now right).
  destruct (p u); reflexivity.
Qed.

Lemma count_eq_rankdata (x : list Q) (v : Q) :
  In v x ->
  count_eq Qeq_bool (rank_in x v) (rankdata x) = count_eq Qeq_bool v x.
Proof.
  intro Hv. unfold rankdata. apply count_eq_map.
  intros u Hu.
  destruct (Qeq_bool v u) eqn:E.
  - apply Qeq_bool_iff. apply rank_in_eq_iff; auto. now apply Qeq_bool_iff.
  - destruct (Qeq_bool (rank_in x v) (rank_in x u)) eqn:E'; [|reflexivity].
    apply Qeq_bool_iff, rank_in_eq_iff in E'; auto.
    apply Qeq_bool_iff in E'. congruence.
Qed.

(** The tie groups of the ranks are those of the values. *)
Lemma tie_sum_ranks (x : list Q) :
  Zsum (map cube_minus (run_lengths (np_sort (rankdata x)))) =
  Zsum (map cube_minus (map snd (value_counts Qeq_bool x))).
Proof.
  rewrite value_counts_cube_sum.
  set (h := fun c : nat => (Z.of_nat c * Z.of_nat c - 1)%Z).
  rewrite (map_ext cube_minus (fun c => (Z.of_nat c * h c)%Z))
    by (intro c; apply cube_minus_factor).
  rewrite (run_lengths_positions h _ (np_sort_sorted _)).
  rewrite (position_sum_Permutation h _ _ (np_sort_Permutation _)).
  unfold rankdata at 2. rewrite map_map.
  f_equal. apply map_ext_in. intros v Hv.
  now rewrite count_eq_rankdata.
Qed.

Lemma value_counts_small (x : list Q) :
  (length x < 2)%nat ->
  Zsum (map cube_minus (map snd (value_counts Qeq_bool x))) = 0%Z.
Proof.
  destruct x as [|a [|b x]]; simpl; intro H; try lia; try reflexivity.
  unfold value_counts, count_eq. simpl. now rewrite Qeq_bool_refl.
Qed.

Lemma tied_group_sizes_sum (x : list Q) :
  Zsum (map cube_minus (tied_group_sizes x)) =
  Zsum (map cube_minus (map snd (value_counts Qeq_bool x))).
Proof.
  unfold tied_group_sizes. apply Zsum_cube_minus_filter.
  intros c Hc. now apply Nat.ltb_ge in Hc.
Qed.

Lemma inject_Z_cube_minus (n : nat) :
  inject_Z (cube_minus n) == Qnat n ^ 3 - Qnat n.
Proof.
  unfold cube_minus, Qnat.
  replace (Z.of_nat n ^ 3 - Z.of_nat n)%Z
    with (Z.of_nat n * Z.of_nat n * Z.of_nat n + - Z.of_nat n)%Z by ring.
  rewrite inject_Z_plus, inject_Z_opp, !inject_Z_mult.
  generalize (inject_Z (Z.of_nat n)). intro q.
  simpl. ring.
Qed.

(** [stats.tiecorrect] of the ranks is the tie factor of the values. *)
Lemma tiecorrect_rankdata (x : list Q) :
  tiecorrect (rankdata x) == kw_tie_factor x.
Proof.
  unfold tiecorrect, kw_tie_factor.
  rewrite np_sort_length, rankdata_length, tied_group_sizes_sum.
  destruct (length x <? 2)%nat eqn:E.
  - apply Nat.ltb_lt in E. rewrite (value_counts_small x E).
    unfold Qdiv. change (inject_Z 0) with 0. ring.
  - now rewrite tie_sum_ranks, inject_Z_cube_minus.
Qed.

(* ------------------------------------------------------------------ *)
(** ** The permuted H-statistic *)

Lemma is_matrix_nth (P n : nat) (m : list (list Q)) (p : nat) :
  is_matrix P n m -> (p < P)%nat -> length (nth p m []) = n.
Proof.
  intros [Hl Hr] Hp. rewrite Forall_forall in Hr. apply Hr.
  apply nth_In. lia.
Qed.

Lemma zipWith_vadd_matrix (P n : nat) (a b : list (list Q)) :
  is_matrix P n a -> is_matrix P n b -> is_matrix P n (zipWith vadd a b).
Proof.
  intros Ha Hb. split.
  - rewrite zipWith_length. destruct Ha, Hb. lia.
  - apply Forall_forall. intros r Hr.
    apply (In_nth _ _ []) in Hr. destruct Hr as (p & Hp & <-).
    rewrite zipWith_length in Hp.
    rewrite (nth_zipWith vadd a b p [] [] []) by lia.
    unfold vadd. rewrite zipWith_length.
    rewrite (is_matrix_nth P n a p Ha), (is_matrix_nth P n b p Hb);
      destruct Ha, Hb; lia.
Qed.

Lemma zipWith_vadd_entry (P n : nat) (a b : list (list Q)) (p s : nat) :
  is_matrix P n a -> is_matrix P n b -> (p < P)%nat -> (s < n)%nat ->
  nth s (nth p (zipWith vadd a b) []) 0 =
  nth s (nth p a []) 0 + nth s (nth p b []) 0.
Proof.
  intros Ha Hb Hp Hs.
  rewrite (nth_zipWith vadd a b p [] [] []) by (destruct Ha, Hb; lia).
  unfold vadd. apply nth_zipWith.
  - now rewrite (is_matrix_nth P n a p Ha).
  - now rewrite (is_matrix_nth P n b p Hb).
Qed.

Lemma fold_vadd_entry (M : nat -> list (list Q)) (P n : nat) :
  (forall g, is_matrix P n (M g)) ->
  forall (G : nat) (Z0 : list (list Q)),
  is_matrix P n Z0 ->
  is_matrix P n (fold_left (fun acc i => zipWith vadd acc (M i)) (seq 0 G) Z0) /\
  forall p s, (p < P)%nat -> (s < n)%nat ->
    nth s (nth p (fold_left (fun acc i => zipWith vadd acc (M i)) (seq 0 G) Z0) []) 0
    == nth s (nth p Z0 []) 0
       + Qsum (map (fun g => nth s (nth p (M g) []) 0) (seq 0 G)).
Proof.
  intros HM G Z0 HZ. induction G as [|G [IHm IHe]].
  - split; [exact HZ|]. intros p s _ _. simpl. ring.
  - rewrite seq_S, fold_left_app. simpl fold_left. split.
    + apply zipWith_vadd_matrix; [exact IHm|apply HM].
    + intros p s Hp Hs.
      rewrite (zipWith_vadd_entry P n _ _ p s IHm (HM G) Hp Hs).
      rewrite (IHe p s Hp Hs), map_app, Qsum_app. simpl. ring.
Qed.

Lemma zeros_matrix (P n : nat) : is_matrix P n (repeat (np_zeros n) P).
Proof.
  split; [apply repeat_length|].
  apply Forall_forall. intros r Hr. apply repeat_spec in Hr. subst.
  apply repeat_length.
Qed.

Lemma zeros_entry (P n p s : nat) : nth s (nth p (repeat (np_zeros n) P) []) 0 = 0.
Proof.
  destruct (Nat.lt_ge_cases p P).
  - rewrite (nth_repeat_lt (np_zeros n)) by assumption. apply np_zeros_nth.
  - rewrite (nth_overflow (repeat (np_zeros n) P) []) by (now rewrite repeat_length).
    now destruct s.
Qed.

Lemma take_rows_shape (rr : list (list Q)) (n : nat) (perm : list (list nat)) :
  Forall (fun r => length r = n) rr ->
  Forall (Forall (fun k => (k < length rr)%nat)) perm ->
  Forall (Forall (fun r => length r = n)) (take_rows rr perm).
Proof.
  intros Hrr Hperm. unfold take_rows. apply Forall_map.
  eapply Forall_impl; [|exact Hperm]. intros row Hrow. simpl.
  apply Forall_map. eapply Forall_impl; [|exact Hrow]. intros k Hk. simpl.
  rewrite Forall_forall in Hrr. apply Hrr. now apply nth_In.
Qed.

Lemma slice_Forall {B} (Pr : B -> Prop) (l : list B) (lo hi : nat) :
  Forall Pr l -> Forall Pr (slice l lo hi).
Proof.
  intro H. apply Forall_forall. intros b Hb. apply slice_incl in Hb.
  rewrite Forall_forall in H. now apply H.
Qed.

(** An entry of the accumulated [ssbn]. *)
Lemma kw_ssbn_entry (perm_ranks : list (list (list Q))) (N_s num_groups : nat)
  (n_per_group cum_group_idx : list nat) (p s : nat) :
  Forall (Forall (fun r => length r = N_s)) perm_ranks ->
  (p < length perm_ranks)%nat -> (s < N_s)%nat ->
  is_matrix (length perm_ranks) N_s
            (kw_ssbn perm_ranks N_s num_groups n_per_group cum_group_idx) /\
  nth s (nth p (kw_ssbn perm_ranks N_s num_groups n_per_group cum_group_idx) []) 0
  == Qsum (map (fun g =>
                  Qsum (map (fun r => nth s r 0)
                            (slice (nth p perm_ranks [])
                                   (nth g cum_group_idx 0%nat)
                                   (nth (S g) cum_group_idx 0%nat))) ^ 2
                  / Qnat (nth g n_per_group 0%nat))
               (seq 0 num_groups)).
Proof.
  intros Hshape Hp Hs.
  set (M := fun i : nat =>
              map (fun pr => map (fun t => t ^ 2 / Qnat (nth i n_per_group 0%nat))
                                 (col_sums N_s (slice pr (nth i cum_group_idx 0%nat)
                                                      (nth (S i) cum_group_idx 0%nat))))
                  perm_ranks).
  change (kw_ssbn perm_ranks N_s num_groups n_per_group cum_group_idx)
    with (fold_left (fun acc i => zipWith vadd acc (M i)) (seq 0 num_groups)
                    (repeat (np_zeros N_s) (length perm_ranks))).
  assert (Hrows : forall g pr, In pr perm_ranks ->
            Forall (fun r => length r = N_s)
                   (slice pr (nth g cum_group_idx 0%nat) (nth (S g) cum_group_idx 0%nat))).
  { intros g pr Hpr. apply slice_Forall.
    rewrite Forall_forall in Hshape. now apply Hshape. }
  assert (HM : forall g, is_matrix (length perm_ranks) N_s (M g)).
  { intro g. unfold M. split; [apply length_map|].
    apply Forall_map. apply Forall_forall. intros pr Hpr.
    rewrite length_map. apply col_sums_length. now apply Hrows. }
  destruct (fold_vadd_entry M (length perm_ranks) N_s HM num_groups
              (repeat (np_zeros N_s) (length perm_ranks)) (zeros_matrix _ _))
    as [Hm He].
  split; [exact Hm|].
  rewrite (He p s Hp Hs), zeros_entry.
  rewrite Qplus_0_l.
  assert (E : forall g, nth s (nth p (M g) []) 0 =
            Qsum (map (fun r => nth s r 0)
                      (slice (nth p perm_ranks [])
                             (nth g cum_group_idx 0%nat)
                             (nth (S g) cum_group_idx 0%nat))) ^ 2
            / Qnat (nth g n_per_group 0%nat)).
  { intro g. unfold M.
    rewrite (nth_map_in _ perm_ranks p [] []) by exact Hp.
    rewrite (nth_map_in _ _ s 0 0)
      by (rewrite col_sums_length; [exact Hs|apply Hrows; now apply nth_In]).
    rewrite nth_col_sums; [reflexivity| |exact Hs].
    apply Hrows. now apply nth_In. }
  rewrite (map_ext _ _ E). reflexivity.
Qed.

Lemma kw_h_all_entry (ssbn : list (list Q)) (N_m : nat) (KW : list Q)
  (P n p s : nat) :
  is_matrix P n ssbn -> length KW = n -> (p < P)%nat -> (s < n)%nat ->
  nth s (nth p (kw_h_all ssbn N_m KW) []) 0 =
  (12 / (Qnat N_m * (Qnat N_m + 1)) * nth s (nth p ssbn []) 0 - 3 * (Qnat N_m + 1))
  / nth s KW 0.
Proof.
  intros Hm HK Hp Hs. unfold kw_h_all.
  rewrite (nth_map_in _ ssbn p [] []) by (destruct Hm; lia).
  rewrite (nth_zipWith Qdiv _ KW s 0 0 0).
  - f_equal. rewrite (nth_map_in _ _ s 0 0); [reflexivity|].
    now rewrite (is_matrix_nth P n ssbn p Hm Hp).
  - now rewrite length_map, (is_matrix_nth P n ssbn p Hm Hp).
  - lia.
Qed.

Lemma kw_tie_factor_tie_term (x : list Q) :
  (2 <= length x)%nat ->
  kw_tie_factor x ==
  1 - tie_term x (length x) / (Qnat (length x) * (Qnat (length x) + 1) / 12).
Proof.
  intro H. unfold kw_tie_factor, tie_term.
  pose proof (Qnat_le _ _ H) as HN. change (Qnat 2) with 2 in HN.
  revert HN. generalize (Qnat (length x)). intros N HN.
  generalize (inject_Z (Zsum (map cube_minus (tied_group_sizes x)))). intro z.
  assert (H1 : ~ N - 1 == 0) by lra.
  assert (H2 : ~ N == 0) by lra.
  assert (H3 : ~ N + 1 == 0) by lra.
  assert (H4 : ~ N ^ 3 - N == 0).
  { setoid_replace (N ^ 3 - N) with (N * ((N - 1) * (N + 1))) by (simpl; ring).
    intro E. apply Qmult_integral in E. destruct E as [E|E]; [lra|].
    apply Qmult_integral in E. destruct E; lra. }
  field. repeat split; assumption.
Qed.

Lemma column_length (s : nat) (m : list (list Q)) : length (column s m) = length m.
Proof. unfold column. apply length_map. Qed.

(** C1 (as the code has it): for every permutation and syllable, the
    permuted H-statistic of [run_manual_KW_test] is
    [12/(N(N+1)) * sum_g(R_g^2 / n_g) - 3(N+1)] divided by the
    Kruskal-Wallis tie factor [1 - sum(t_k^3 - t_k)/(N^3 - N)] (what
    [stats.tiecorrect] computes from the ranks), which for [N >= 2] is
    [1 - tie_term / (N(N+1)/12)], the tie term being the one of
    [get_tie_correction]. *)
Theorem manual_KW_H_statistic (merged_usages_all : list (list Q))
  (num_groups : nat) (n_per_group cum_group_idx : list nat) (n_perm : nat)
  (seed : Z) :
  let N_m := length merged_usages_all in
  let N_s := snd (shape merged_usages_all) in
  let perm := fst (rand_perms n_perm N_m (RandomState_of_seed seed)) in
  let h_all :=
    fst (manual_KW merged_usages_all num_groups n_per_group cum_group_idx perm) in
  forall p s, (p < n_perm)%nat -> (s < N_s)%nat ->
    let x := column s merged_usages_all in
    nth s (nth p h_all []) 0
    == kw_H x (nth p perm []) num_groups n_per_group cum_group_idx
       / kw_tie_factor x
    /\ ((2 <= N_m)%nat ->
        kw_tie_factor x == 1 - tie_term x N_m / (Qnat N_m * (Qnat N_m + 1) / 12)).
Proof.
  intros N_m N_s perm h_all p s Hp Hs x.
  split.
  2:{ intro HN. unfold N_m in *.
      rewrite <- (column_length s merged_usages_all) in *.
      now apply kw_tie_factor_tie_term. }
  subst x. unfold h_all, manual_KW, shape. cbn [fst snd].
  fold N_m. change (length (hd [] merged_usages_all)) with N_s.
  set (rr := apply_along_axis0 rankdata N_s merged_usages_all).
  destruct (rand_perms_rows n_perm N_m (RandomState_of_seed seed)) as [Hlen Hrows].
  fold perm in Hlen, Hrows.
  assert (Hrr_len : length rr = N_m) by apply apply_along_axis0_length.
  assert (Hrange : Forall (Forall (fun k => (k < length rr)%nat)) perm).
  { eapply Forall_impl; [|exact Hrows]. intros row Hrow. simpl.
    apply Forall_forall. intros k Hk.
    apply (Permutation_in _ Hrow) in Hk. apply in_seq in Hk. lia. }
  pose proof (take_rows_shape rr N_s perm (apply_along_axis0_rows _ _ _) Hrange)
    as Hshape.
  assert (Hp' : (p < length (take_rows rr perm))%nat).
  { unfold take_rows. rewrite length_map, Hlen. exact Hp. }
  destruct (kw_ssbn_entry (take_rows rr perm) N_s num_groups n_per_group
              cum_group_idx p s Hshape Hp' Hs) as [Hm He].
  assert (HKlen : length (map tiecorrect (columns N_s rr)) = N_s).
  { unfold columns. rewrite !length_map. apply length_seq. }
  rewrite (kw_h_all_entry _ N_m (map tiecorrect (columns N_s rr))
             (length (take_rows rr perm)) N_s p s Hm HKlen Hp' Hs).
  rewrite He. clear He Hm.
  assert (HK : nth s (map tiecorrect (columns N_s rr)) 0 == kw_tie_factor (column s merged_usages_all)).
  { rewrite (nth_map_in _ _ s 0 []) by (unfold columns; now rewrite length_map, length_seq).
    unfold columns. rewrite nth_map_seq by exact Hs.
    unfold rr. rewrite apply_along_axis0_column; [|exact Hs|apply rankdata_length].
    apply tiecorrect_rankdata. }
  rewrite HK. clear HK.
  unfold kw_H. rewrite column_length. fold N_m.
  apply Qdiv_comp; [|reflexivity].
  apply Qplus_comp; [|reflexivity].
  apply Qmult_comp; [reflexivity|].
  assert (E : forall g,
    Qsum (map (fun r => nth s r 0)
              (slice (nth p (take_rows rr perm) [])
                     (nth g cum_group_idx 0%nat) (nth (S g) cum_group_idx 0%nat))) ^ 2
    / Qnat (nth g n_per_group 0%nat)
    = rank_sum (rankdata (column s merged_usages_all)) (nth p perm [])
               (nth g cum_group_idx 0%nat) (nth (S g) cum_group_idx 0%nat) ^ 2
      / Qnat (nth g n_per_group 0%nat)).
  { intro g. unfold rank_sum, take_rows.
    rewrite (nth_map_in _ perm p [] []) by (now rewrite Hlen).
    rewrite slice_map, map_map.
    do 3 f_equal. apply map_ext. intro k.
    unfold rr. apply apply_along_axis0_entry; [exact Hs|apply rankdata_length]. }
  rewrite (map_ext _ _ E). reflexivity.
Qed.

(* ------------------------------------------------------------------ *)
(** ** Dunn's statistics *)

Lemma dict_get_set {V} (d : list (pair_key * V)) (k k' : pair_key) (v : V) :
  dict_get pair_eqb (dict_set pair_eqb d k v) k' =
  if pair_eqb k' k then Some v else dict_get pair_eqb d k'.
Proof.
  induction d as [|[k0 v0] d IH]; simpl.
  - reflexivity.
  - destruct (pair_eqb k k0) eqn:E; simpl.
    + apply pair_eqb_eq in E. subst k0.
      destruct (pair_eqb k' k); reflexivity.
    + rewrite IH. destruct (pair_eqb k' k0) eqn:E0; [|reflexivity].
      apply pair_eqb_eq in E0. subst k0.
      destruct (pair_eqb k' k) eqn:E1; [|reflexivity].
      apply pair_eqb_eq in E1. subst k'.
      assert (pair_eqb k k = true) by (now apply pair_eqb_eq). congruence.
Qed.

Lemma pair_eqb_refl (k : pair_key) : pair_eqb k k = true.
Proof. now apply pair_eqb_eq. Qed.

Lemma pair_eqb_neq (k k' : pair_key) : k <> k' -> pair_eqb k k' = false.
Proof.
  intro H. destruct (pair_eqb k k') eqn:E; [|reflexivity].
  apply pair_eqb_eq in E. contradiction.
Qed.

Lemma count_true_cons (b : bool) (l : list bool) :
  count_true (b :: l) = ((if b then 1 else 0) + count_true l)%nat.
Proof. unfold count_true. simpl. destruct b; reflexivity. Qed.

Lemma select_length {B} (m : list bool) : forall (l : list B),
  length l = length m -> length (select m l) = count_true m.
Proof.
  induction m as [|b m IH]; intros [|a l] H; simpl in *; try discriminate; auto.
  rewrite count_true_cons. destruct b; simpl; rewrite IH by lia; reflexivity.
Qed.

Lemma select_incl {B} (m : list bool) : forall (l : list B) (b : B),
  In b (select m l) -> In b l.
Proof.
  induction m as [|c m IH]; intros [|a l] b H; simpl in *; try contradiction.
  destruct c; simpl in H; [destruct H as [->|H]; auto|]; right; now apply IH.
Qed.

Lemma select_group_split (i_n j_n : string) (df : list session_row) :
  forall (rr : list (list Q)),
  i_n <> j_n ->
  group_before i_n j_n (map group df) = true ->
  select (zipWith orb (map (fun r => String.eqb (group r) i_n) df)
                      (map (fun r => String.eqb (group r) j_n) df)) rr =
  group_rows df rr i_n ++ group_rows df rr j_n.
Proof.
  unfold group_rows.
  induction df as [|row df IH]; intros rr Hne Hb; [reflexivity|].
  destruct rr as [|r rr]; [reflexivity|].
  simpl in Hb. apply andb_true_iff in Hb. destruct Hb as [Hhd Htl].
  simpl map. simpl zipWith.
  destruct (String.eqb (group row) i_n) eqn:Ei.
  - apply String.eqb_eq in Ei.
    assert (Ej : String.eqb (group row) j_n = false).
    { apply String.eqb_neq. congruence. }
    rewrite Ej. simpl. f_equal. now apply IH.
  - destruct (String.eqb (group row) j_n) eqn:Ej; simpl.
    + rewrite (IH rr Hne Htl).
      assert (Hnone : forall rr' : list (list Q),
                select (map (fun r => String.eqb (group r) i_n) df) rr' = []).
      { clear -Hhd. rewrite forallb_forall in Hhd.
        induction df as [|row' df IH']; intro rr'; [reflexivity|].
        destruct rr' as [|r' rr']; [reflexivity|]. simpl.
        rewrite (proj1 (negb_true_iff _) (Hhd (group row') (or_introl eq_refl))).
        apply IH'. intros x Hx. apply Hhd. now right. }
      now rewrite !Hnone.
    + now apply IH.
Qed.

Lemma loc_value_counts (groups : list string) (name : string) :
  In name (unique String.eqb groups) ->
  loc String.eqb (value_counts String.eqb groups) name =
  Ok (count_eq String.eqb name groups).
Proof.
  unfold value_counts. generalize (unique String.eqb groups) as U.
  induction U as [|u U IH]; intro H; [contradiction|].
  simpl. destruct (String.eqb name u) eqn:E.
  - apply String.eqb_eq in E. now subst.
  - apply IH. destruct H as [->|H]; [|exact H].
    rewrite String.eqb_refl in E. discriminate.
Qed.

Lemma count_eq_group (df : list session_row) (name : string) :
  count_eq String.eqb name (map group df) =
  count_true (map (fun r => String.eqb (group r) name) df).
Proof.
  induction df as [|row df IH]; [reflexivity|].
  simpl map. rewrite count_true_cons, <- IH.
  unfold count_eq. simpl. rewrite (String.eqb_sym name (group row)).
  destruct (String.eqb (group row) name); reflexivity.
Qed.

Lemma nth_col_means (n : nat) (rows : list (list Q)) (s : nat) :
  Forall (fun r => length r = n) rows -> (s < n)%nat ->
  nth s (col_means n rows) 0 = mean_rank rows s.
Proof.
  intros H Hs. unfold col_means, mean_rank.
  rewrite (nth_map_in _ _ s 0 0) by (now rewrite col_sums_length).
  now rewrite nth_col_sums.
Qed.

Lemma col_means_length (n : nat) (rows : list (list Q)) :
  Forall (fun r => length r = n) rows -> length (col_means n rows) = n.
Proof.
  intro H. unfold col_means. rewrite length_map. now apply col_sums_length.
Qed.

Lemma firstn_Forall {B} (Pr : B -> Prop) (n : nat) (l : list B) :
  Forall Pr l -> Forall Pr (firstn n l).
Proof.
  intro H. apply Forall_forall. intros b Hb. apply firstn_incl in Hb.
  rewrite Forall_forall in H. now apply H.
Qed.

Lemma skipn_Forall {B} (Pr : B -> Prop) (n : nat) (l : list B) :
  Forall Pr l -> Forall Pr (skipn n l).
Proof.
  intro H. apply Forall_forall. intros b Hb. apply skipn_incl in Hb.
  rewrite Forall_forall in H. now apply H.
Qed.

(** An entry of the quotient that both statistics are. *)
Lemma dunn_entry (rows : list (list Q)) (n_i n_j N_s N_m : nat) (X_ties : list Q)
  (s : nat) :
  Forall (fun r => length r = N_s) rows ->
  length rows = (n_i + n_j)%nat -> length X_ties = N_s -> (s < N_s)%nat ->
  nth s (zipWith Qdiv
           (abs_diff (col_means N_s (firstn n_i rows)) (col_means N_s (skipn n_i rows)))
           (map (fun t => np_sqrt ((Qnat N_m * (Qnat N_m + 1) / 12 - t)
                                   * (1 / Qnat n_i + 1 / Qnat n_j))) X_ties)) 0
  = dunn_z (firstn n_i rows) (skipn n_i rows) N_m (nth s X_ties 0) s.
Proof.
  intros Hrows Hlen HX Hs.
  pose proof (firstn_Forall _ n_i rows Hrows) as H1.
  pose proof (skipn_Forall _ n_i rows Hrows) as H2.
  rewrite (nth_zipWith Qdiv _ _ s 0 0 0).
  - unfold dunn_z, abs_diff.
    rewrite (nth_zipWith (fun a b => Qabs (a - b)) _ _ s 0 0 0)
      by (rewrite col_means_length; assumption).
    rewrite !nth_col_means by assumption.
    rewrite (nth_map_in _ X_ties s 0 0) by lia.
    rewrite length_firstn, length_skipn, Hlen.
    replace (Nat.min n_i (n_i + n_j)) with n_i by lia.
    replace (n_i + n_j - n_i)%nat with n_j by lia.
    reflexivity.
  - unfold abs_diff. rewrite zipWith_length, !col_means_length by assumption. lia.
  - rewrite length_map. lia.
Qed.

Lemma advance_0 (g : RandomState) : advance g 0 = g.
Proof. destruct g as [t p]. unfold advance. simpl. now rewrite Nat.add_0_r. Qed.

Lemma advance_advance (g : RandomState) (a b : nat) :
  advance (advance g a) b = advance g (a + b).
Proof. unfold advance. simpl. now rewrite Nat.add_assoc. Qed.



Lemma random_sample_draws (g : RandomState) :
  snd (random_sample g) = advance g 1.
Proof. unfold random_sample, advance. simpl. now rewrite Nat.add_1_r. Qed.


Lemma rand_vec_draws (n : nat) : forall g,
  snd (rand_vec n g) = advance g n.
Proof.
  induction n as [|n IH]; intro g; simpl.
  - symmetry. apply advance_0.
  - pose proof (random_sample_draws g) as H1. unfold random_sample in H1.
    simpl in H1. specialize (IH (mkRandomState (tape g) (S (pos g)))).
    destruct (rand_vec n (mkRandomState (tape g) (S (pos g)))) as [us g2].
    simpl in *. rewrite IH, H1, advance_advance. reflexivity.
Qed.


Lemma dunns_z_pair_spec (df_usage : list session_row) (real_ranks : list (list Q))
  (X_ties : list Q) (N_m : nat) (rnd : RandomState) (n_perm : nat)
  (i_n j_n : string) :
  let vc := value_counts String.eqb (map group df_usage) in
  let N_s := snd (shape real_ranks) in
  let rows_i := group_rows df_usage real_ranks i_n in
  let rows_j := group_rows df_usage real_ranks j_n in
  let perms :=
    take_rows (rows_i ++ rows_j)
              (fst (rand_perms n_perm (length rows_i + length rows_j) rnd)) in
  In i_n (map fst vc) -> In j_n (map fst vc) -> i_n <> j_n ->
  length real_ranks = length df_usage ->
  Forall (fun r => length r = N_s) real_ranks ->
  length X_ties = N_s ->
  group_before i_n j_n (map group df_usage) = true ->
  exists null_z real_z rnd',
    dunns_z_pair df_usage vc real_ranks X_ties N_m rnd n_perm i_n j_n
      = Ok (null_z, real_z, rnd') /\
    length perms = n_perm /\
    (forall p s, (p < n_perm)%nat -> (s < N_s)%nat ->
       Permutation (nth p perms []) (rows_i ++ rows_j) /\
       nth s (nth p null_z []) 0 =
       dunn_z (firstn (length rows_i) (nth p perms []))
              (skipn (length rows_i) (nth p perms [])) N_m (nth s X_ties 0) s) /\
    (forall s, (s < N_s)%nat ->
       nth s real_z 0 = dunn_z rows_i rows_j N_m (nth s X_ties 0) s).
Proof.
  intros vc N_s rows_i rows_j perms Hi Hj Hne Hlen Hrows HX Hord.
  assert (Hnames : map fst vc = unique String.eqb (map group df_usage)).
  { unfold vc, value_counts. rewrite map_map. apply map_id. }
  rewrite Hnames in Hi, Hj.
  unfold dunns_z_pair. fold N_s.
  set (is_i := map (fun r => String.eqb (group r) i_n) df_usage).
  set (is_j := map (fun r => String.eqb (group r) j_n) df_usage).
  assert (Hni : length rows_i = count_true is_i).
  { unfold rows_i, group_rows. apply select_length. unfold is_i.
    now rewrite length_map. }
  assert (Hnj : length rows_j = count_true is_j).
  { unfold rows_j, group_rows. apply select_length. unfold is_j.
    now rewrite length_map. }
  assert (Hsel : select (zipWith orb is_i is_j) real_ranks = rows_i ++ rows_j).
  { now apply select_group_split. }
  rewrite Hsel, <- Hni, <- Hnj.
  destruct (rand_perms_rows n_perm (length rows_i + length rows_j) rnd) as [Hpl Hpr].
  unfold perms.
  destruct (rand_perms n_perm (length rows_i + length rows_j) rnd) as [idx rnd'].
  cbn [fst] in *.
  unfold vc. rewrite !loc_value_counts by assumption. cbn [rbind].
  rewrite !count_eq_group. fold is_i is_j. rewrite <- Hni, <- Hnj.
  assert (Hsel_rows : Forall (fun r => length r = N_s) (rows_i ++ rows_j)).
  { rewrite <- Hsel. apply Forall_forall. intros r Hr. apply select_incl in Hr.
    rewrite Forall_forall in Hrows. now apply Hrows. }
  eexists _, _, _. split; [reflexivity|].
  split; [unfold take_rows; now rewrite length_map|].
  split.
  - intros p s Hp Hs.
    assert (Hrow : Permutation (nth p idx []) (seq 0 (length (rows_i ++ rows_j)))).
    { rewrite length_app. rewrite Forall_forall in Hpr. apply Hpr.
      apply nth_In. lia. }
    assert (Hpp : nth p (take_rows (rows_i ++ rows_j) idx) [] =
                  map (fun k => nth k (rows_i ++ rows_j) []) (nth p idx [])).
    { unfold take_rows. apply nth_map_in. lia. }
    split.
    + rewrite Hpp. rewrite (Permutation_map _ Hrow). now rewrite map_nth_seq.
    + rewrite (nth_map_in _ _ p [] []) by (rewrite length_map; unfold take_rows; rewrite length_map; lia).
      rewrite (nth_map_in _ _ p _ []) by (unfold take_rows; rewrite length_map; lia).
      apply dunn_entry; try assumption.
      * rewrite Hpp. apply Forall_map.
        apply Forall_forall. intros k Hk. simpl.
        apply (Permutation_in _ Hrow) in Hk. apply in_seq in Hk.
        rewrite Forall_forall in Hsel_rows. apply Hsel_rows. apply nth_In. lia.
      * rewrite Hpp, length_map, (Permutation_length Hrow), length_seq.
        apply length_app.
  - intros s Hs.
    rewrite (dunn_entry (rows_i ++ rows_j) (length rows_i) (length rows_j) N_s N_m
               X_ties s Hsel_rows (length_app _ _) HX Hs).
    rewrite firstn_app, Nat.sub_diag, firstn_all. simpl firstn. rewrite app_nil_r.
    rewrite skipn_app, Nat.sub_diag, skipn_all. reflexivity.
Qed.


Lemma drawn_variates_advance (g : RandomState) (a start n : nat) :
  drawn_variates (advance g a) start n = drawn_variates g (a + start) n.
Proof.
  unfold drawn_variates, advance. simpl. apply map_ext. intro t.
  f_equal. lia.
Qed.

Lemma rand_vec_values (n : nat) : forall (g : RandomState) (start : nat),
  fst (rand_vec n (advance g start)) = drawn_variates g start n.
Proof.
  induction n as [|n IH]; intros g start; [reflexivity|].
  cbn [rand_vec]. unfold random_sample.
  assert (E : mkRandomState (tape (advance g start)) (S (pos (advance g start)))
              = advance g (S start)).
  { unfold advance. simpl. f_equal. lia. }
  rewrite E. specialize (IH g (S start)).
  destruct (rand_vec n (advance g (S start))) as [us g2]. simpl in IH. subst us.
  unfold drawn_variates. cbn [fst seq map]. f_equal.
  - unfold advance. simpl. f_equal. lia.
  - rewrite <- seq_shift, map_map. apply map_ext. intro t. f_equal. lia.
Qed.

Lemma rand_mat_draws (rows cols : nat) : forall g,
  snd (rand_mat rows cols g) = advance g (rows * cols).
Proof.
  induction rows as [|rows IH]; intro g; simpl.
  - symmetry. apply advance_0.
  - pose proof (rand_vec_draws cols g) as H1.
    destruct (rand_vec cols g) as [r g1]. simpl in H1. subst g1.
    specialize (IH (advance g cols)).
    destruct (rand_mat rows cols (advance g cols)) as [rs g2]. simpl in *.
    now rewrite IH, advance_advance.
Qed.

Lemma rand_mat_nth (rows cols : nat) : forall (g : RandomState) (p : nat),
  (p < rows)%nat ->
  nth p (fst (rand_mat rows cols g)) [] = drawn_variates g (p * cols) cols.
Proof.
  induction rows as [|rows IH]; intros g p Hp; [lia|].
  cbn [rand_mat].
  pose proof (rand_vec_draws cols g) as H1.
  pose proof (rand_vec_values cols g 0) as H2. rewrite advance_0 in H2.
  destruct (rand_vec cols g) as [r g1]. simpl in H1, H2. subst g1 r.
  specialize (IH (advance g cols)).
  destruct (rand_mat rows cols (advance g cols)) as [rs g2]. cbn [fst] in *.
  destruct p as [|p]; [reflexivity|].
  cbn [nth]. rewrite IH by lia. rewrite drawn_variates_advance.
  f_equal.
Qed.

Lemma rand_perms_draws (n_perm n : nat) (g : RandomState) :
  snd (rand_perms n_perm n g) = advance g (n_perm * n).
Proof.
  unfold rand_perms. pose proof (rand_mat_draws n_perm n g) as H.
  destruct (rand_mat n_perm n g) as [m g']. exact H.
Qed.

Lemma rand_perms_nth (n_perm n : nat) (g : RandomState) (p : nat) :
  (p < n_perm)%nat ->
  nth p (fst (rand_perms n_perm n g)) [] = argsort (drawn_variates g (p * n) n).
Proof.
  intro Hp. unfold rand_perms.
  pose proof (rand_mat_nth n_perm n g p Hp) as H.
  pose proof (proj1 (rand_mat_rows n_perm n g)) as Hl.
  destruct (rand_mat n_perm n g) as [m g']. cbn [fst] in *.
  rewrite (nth_map_in argsort m p [] []) by lia. now rewrite H.
Qed.

Lemma pair_sessions_rows (df_usage : list session_row) (real_ranks : list (list Q))
  (i_n j_n : string) :
  length real_ranks = length df_usage ->
  pair_sessions df_usage (i_n, j_n)
  = (length (group_rows df_usage real_ranks i_n)
     + length (group_rows df_usage real_ranks j_n))%nat.
Proof.
  intro H. unfold pair_sessions, group_rows. cbn [fst snd].
  rewrite !count_eq_group, !select_length by (now rewrite length_map).
  reflexivity.
Qed.

(** The loop body leaves the generator [n_perm] rows of variates further,
    one variate for every session of the pair. *)
Lemma dunns_z_pair_draws (df_usage : list session_row) (vc : list (string * nat))
  (real_ranks : list (list Q)) (X_ties : list Q) (N_m : nat) (rnd : RandomState)
  (n_perm : nat) (i_n j_n : string) (null_z : list (list Q)) (real_z : list Q)
  (rnd' : RandomState) :
  dunns_z_pair df_usage vc real_ranks X_ties N_m rnd n_perm i_n j_n
  = Ok (null_z, real_z, rnd') ->
  rnd' = advance rnd (n_perm * pair_sessions df_usage (i_n, j_n)).
Proof.
  unfold dunns_z_pair. intro H.
  pose proof (rand_perms_draws n_perm
                (count_true (map (fun r => String.eqb (group r) i_n) df_usage)
                 + count_true (map (fun r => String.eqb (group r) j_n) df_usage))
                rnd) as Hd.
  destruct (rand_perms n_perm _ rnd) as [idx g1]. cbn [snd] in Hd.
  destruct (loc String.eqb vc i_n) as [vi|e]; [|discriminate H].
  destruct (loc String.eqb vc j_n) as [vj|e]; [|discriminate H].
  cbn [rbind] in H. injection H as _ _ <-.
  rewrite Hd. unfold pair_sessions. cbn [fst snd]. now rewrite !count_eq_group.
Qed.

(** The loop over the pairs: every pair is reached with the generator in
    the state that the draws of the pairs before it leave. *)
Lemma dunns_fold_draws (df_usage : list session_row) (vc : list (string * nat))
  (real_ranks : list (list Q)) (X_ties : list Q) (N_m n_perm : nat)
  (L : list pair_key) :
  NoDup L ->
  (forall pair rnd, In pair L ->
     exists r, dunns_z_pair df_usage vc real_ranks X_ties N_m rnd n_perm
                            (fst pair) (snd pair) = Ok r) ->
  forall null0 real0 rnd0,
  exists null real,
    foldM
      (fun '(null_zs_within_group, real_zs_within_group, rnd0) (pair : pair_key) =>
         ('(null_z, real_z, rnd1) <-
            dunns_z_pair df_usage vc real_ranks X_ties N_m rnd0 n_perm
                         (fst pair) (snd pair) ;;
          Ok (dict_set pair_eqb null_zs_within_group pair null_z,
              dict_set pair_eqb real_zs_within_group pair real_z,
              rnd1))%py)
      L (null0, real0, rnd0)
    = Ok (null, real,
          advance rnd0 (n_perm * list_sum (map (pair_sessions df_usage) L))) /\
    (forall pair, ~ In pair L ->
       dict_get pair_eqb null pair = dict_get pair_eqb null0 pair /\
       dict_get pair_eqb real pair = dict_get pair_eqb real0 pair) /\
    (forall earlier pair later, L = earlier ++ pair :: later ->
       exists null_z real_z rnd_k',
         dunns_z_pair df_usage vc real_ranks X_ties N_m
           (advance rnd0 (n_perm * list_sum (map (pair_sessions df_usage) earlier)))
           n_perm (fst pair) (snd pair) = Ok (null_z, real_z, rnd_k') /\
         dict_get pair_eqb null pair = Some null_z /\
         dict_get pair_eqb real pair = Some real_z).
Proof.
  induction 1 as [|k L Hk Hnd IH]; intros Hok null0 real0 rnd0.
  - exists null0, real0. cbn [foldM map list_sum fold_right].
    rewrite Nat.mul_0_r, advance_0. split; [reflexivity|]. split; [auto|].
    intros [|? ?] pair later E; discriminate E.
  - destruct (Hok k rnd0 (or_introl eq_refl)) as ([[nz rz] rnd1] & Ek).
    pose proof (dunns_z_pair_draws _ _ _ _ _ _ _ _ _ _ _ _ Ek) as Hr.
    destruct (IH (fun pair rnd H => Hok pair rnd (or_intror H))
                 (dict_set pair_eqb null0 k nz) (dict_set pair_eqb real0 k rz) rnd1)
      as (null & real & Hfold & Hout & Hin).
    assert (Hk' : pair_sessions df_usage (fst k, snd k) = pair_sessions df_usage k).
    { now destruct k. }
    rewrite Hk' in Hr.
    exists null, real. split; [|split].
    + cbn [foldM]. rewrite Ek. cbn [rbind]. rewrite Hfold. subst rnd1.
      rewrite advance_advance. cbn [map list_sum fold_right].
      now rewrite Nat.mul_add_distr_l.
    + intros pair Hnot.
      destruct (Hout pair (fun H => Hnot (or_intror H))) as [H1 H2].
      rewrite H1, H2, !dict_get_set.
      rewrite (pair_eqb_neq pair k) by (intro E; apply Hnot; now left).
      auto.
    + intros [|k' earlier] pair later E.
      * cbn [app] in E. injection E as <- <-.
        cbn [map list_sum fold_right]. rewrite Nat.mul_0_r, advance_0.
        exists nz, rz, rnd1. split; [exact Ek|].
        destruct (Hout k Hk) as [H1 H2].
        now rewrite H1, H2, !dict_get_set, pair_eqb_refl.
      * cbn [app] in E. injection E as <- E.
        destruct (Hin earlier pair later E) as (nz' & rz' & g' & E1 & E2 & E3).
        exists nz', rz', g'. split; [|split; assumption].
        cbn [map list_sum fold_right].
        rewrite Nat.mul_add_distr_l, <- advance_advance, <- Hr. exact E1.
Qed.

(** C4: for a table whose sessions are in the order of their groups (the
    order of the pivot), and for every pair of groups of
    [combinations(group_names, 2)]: the real statistics are, for every
    syllable, the absolute difference of the mean ranks of the two
    groups, divided by [sqrt((A - tie_term) * (1/n_i + 1/n_j))] with
    [A = N(N+1)/12]; the null statistics of permutation [p] are the same
    quotient for the two sub-groups (the first [n_i] sessions and the
    others) of the sessions of the pair put in the order of the variates
    that [rnd] yields for this permutation, which are those after the
    draws of the pairs before and of the permutations before.  The ranks
    and tie terms are the ones passed in. *)
Theorem dunns_z_statistics (df_usage : list session_row)
  (real_ranks : list (list Q)) (X_ties : list Q) (N_m : nat)
  (rnd : RandomState) (n_perm : nat) :
  let vc := value_counts String.eqb (map group df_usage) in
  let group_names := map fst vc in
  let N_s := snd (shape real_ranks) in
  length real_ranks = length df_usage ->
  Forall (fun r => length r = N_s) real_ranks ->
  length X_ties = N_s ->
  sorted_by_group df_usage group_names = true ->
  exists null_zs real_zs,
    dunns_z_test_permute_within_group_pairs
      df_usage vc real_ranks X_ties N_m group_names rnd n_perm
    = Ok (null_zs, real_zs,
          advance rnd (n_perm * list_sum (map (pair_sessions df_usage)
                                              (combinations2 group_names)))) /\
    forall earlier i_n j_n later,
      combinations2 group_names = earlier ++ (i_n, j_n) :: later ->
      let rows_i := group_rows df_usage real_ranks i_n in
      let rows_j := group_rows df_usage real_ranks j_n in
      let n_mice := pair_sessions df_usage (i_n, j_n) in
      let before := (n_perm * list_sum (map (pair_sessions df_usage) earlier))%nat in
      exists null_z real_z,
        dict_get pair_eqb null_zs (i_n, j_n) = Some null_z /\
        dict_get pair_eqb real_zs (i_n, j_n) = Some real_z /\
        length null_z = n_perm /\
        (forall p s, (p < n_perm)%nat -> (s < N_s)%nat ->
           let permuted :=
             permuted_rows (rows_i ++ rows_j)
                           (drawn_variates rnd (before + p * n_mice) n_mice) in
           Permutation permuted (rows_i ++ rows_j) /\
           nth s (nth p null_z []) 0 =
           dunn_z (firstn (length rows_i) permuted)
                  (skipn (length rows_i) permuted) N_m (nth s X_ties 0) s) /\
        (forall s, (s < N_s)%nat ->
           nth s real_z 0 = dunn_z rows_i rows_j N_m (nth s X_ties 0) s).
Proof.
  intros vc group_names N_s Hlen Hrows HX Hsorted.
  assert (Hnames : group_names = unique String.eqb (map group df_usage)).
  { unfold group_names, vc, value_counts. rewrite map_map. apply map_id. }
  assert (Hnd : NoDup group_names).
  { rewrite Hnames. apply unique_string_NoDup. }
  assert (Hpairs : forall i_n j_n, In (i_n, j_n) (combinations2 group_names) ->
            In i_n (map fst vc) /\ In j_n (map fst vc) /\ i_n <> j_n /\
            group_before i_n j_n (map group df_usage) = true).
  { intros i_n j_n Hin.
    destruct (combinations2_In _ _ _ Hin) as [Hi Hj].
    repeat split; try assumption.
    - intros ->. exact (combinations2_no_reverse _ _ _ Hnd Hin Hin).
    - unfold sorted_by_group in Hsorted. rewrite forallb_forall in Hsorted.
      exact (Hsorted _ Hin). }
  destruct (dunns_fold_draws df_usage vc real_ranks X_ties N_m n_perm
              (combinations2 group_names) (combinations2_NoDup _ Hnd)) with
    (null0 := @nil (pair_key * list (list Q))) (real0 := @nil (pair_key * list Q))
    (rnd0 := rnd) as (null_zs & real_zs & Hfold & _ & Hin).
  { intros [i_n j_n] rnd0 Hp.
    destruct (Hpairs _ _ Hp) as (Hi & Hj & Hne & Hord).
    destruct (dunns_z_pair_spec df_usage real_ranks X_ties N_m rnd0 n_perm i_n j_n
                Hi Hj Hne Hlen Hrows HX Hord) as (nz & rz & g1 & E & _).
    eexists. exact E. }
  exists null_zs, real_zs. split; [exact Hfold|].
  intros earlier i_n j_n later Hdec rows_i rows_j n_mice before.
  assert (Hp : In (i_n, j_n) (combinations2 group_names)).
  { rewrite Hdec. apply in_or_app. right. now left. }
  destruct (Hin _ _ _ Hdec) as (nz & rz & rnd_k' & Ek & Hn & Hr).
  destruct (Hpairs _ _ Hp) as (Hi & Hj & Hne & Hord).
  fold before in Ek. cbn [fst snd] in Ek.
  destruct (dunns_z_pair_spec df_usage real_ranks X_ties N_m (advance rnd before)
              n_perm i_n j_n Hi Hj Hne Hlen Hrows HX Hord)
    as (nz' & rz' & g1 & E & Hpl & Hnull & Hreal).
  fold vc in E. rewrite Ek in E. injection E as <- <- <-.
  fold rows_i rows_j in Hpl, Hnull, Hreal.
  assert (Hmice : n_mice = (length rows_i + length rows_j)%nat).
  { unfold n_mice, rows_i, rows_j. now apply pair_sessions_rows. }
  assert (Hperm : forall p, (p < n_perm)%nat ->
            nth p (take_rows (rows_i ++ rows_j)
                     (fst (rand_perms n_perm (length rows_i + length rows_j)
                                      (advance rnd before)))) []
            = permuted_rows (rows_i ++ rows_j)
                (drawn_variates rnd (before + p * n_mice) n_mice)).
  { intros p Hlt. unfold take_rows.
    rewrite (nth_map_in _ _ p [] [])
      by (rewrite (proj1 (rand_perms_rows _ _ _)); exact Hlt).
    rewrite rand_perms_nth by exact Hlt.
    rewrite drawn_variates_advance, <- Hmice. reflexivity. }
  exists nz, rz. split; [exact Hn|]. split; [exact Hr|].
  split.
  { destruct n_perm as [|n]; [|].
    - clear - Ek. unfold dunns_z_pair in Ek. cbn [rand_perms rand_mat] in Ek.
      destruct (loc String.eqb vc i_n); [|discriminate Ek].
      destruct (loc String.eqb vc j_n); [|discriminate Ek].
      cbn in Ek. injection Ek as <- _ _. reflexivity.
    - clear - Ek. unfold dunns_z_pair in Ek.
      pose proof (proj1 (rand_perms_rows (S n)
                    (count_true (map (fun r => String.eqb (group r) i_n) df_usage)
                     + count_true (map (fun r => String.eqb (group r) j_n) df_usage))
                    (advance rnd before))) as Hl.
      destruct (rand_perms (S n) _ (advance rnd before)) as [idx g1].
      destruct (loc String.eqb vc i_n); [|discriminate Ek].
      destruct (loc String.eqb vc j_n); [|discriminate Ek].
      cbn [rbind] in Ek. injection Ek as <- _ _.
      cbn [fst] in Hl. unfold take_rows. now rewrite !length_map. }
  split; [|exact Hreal].
  intros p s Hlt Hs permuted.
  destruct (Hnull p s Hlt Hs) as [HP Hz].
  rewrite (Hperm p Hlt) in HP, Hz. fold permuted in HP, Hz.
  split; [exact HP|exact Hz].
Qed.
(* ------------------------------------------------------------------ *)
(** ** The scan and numpy's global generator *)













(* ------------------------------------------------------------------ *)
(** ** Syllable transitions *)

Lemma changes_nth (arr : list Z) : forall k,
  nth k (zipWith (fun a b => negb (a =? b)%Z) (tl arr) (drop_last arr)) false = true <->
  (S k < length arr)%nat /\ nth (S k) arr 0%Z <> nth k arr 0%Z.
Proof.
  unfold drop_last.
  induction arr as [|a r IH]; intro k.
  - simpl. destruct k; split; try discriminate; intros [H _]; simpl in H; lia.
  - destruct r as [|b r'].
    + simpl. destruct k; split; try discriminate; intros [H _]; simpl in H; lia.
    + change (tl (a :: b :: r')) with (b :: r').
      change (removelast (a :: b :: r')) with (a :: removelast (b :: r')).
      change (zipWith (fun a0 b0 => negb (a0 =? b0)%Z) (b :: r') (a :: removelast (b :: r')))
        with (negb (b =? a)%Z
              :: zipWith (fun a0 b0 => negb (a0 =? b0)%Z) (tl (b :: r')) (removelast (b :: r'))).
      destruct k as [|k].
      * cbn [nth length]. rewrite negb_true_iff, Z.eqb_neq. split.
        -- intro H. split; [lia|exact H].
        -- intros [_ H]. exact H.
      * cbn [nth]. rewrite IH. cbn [length]. split; intros [H1 H2]; (split; [lia|exact H2]).
Qed.

Lemma nonzero_from_sorted (mask : list bool) : forall k,
  StronglySorted lt (nonzero_from k mask).
Proof.
  induction mask as [|b r IH]; intro k; simpl; [constructor|].
  destruct b; [|apply IH].
  constructor; [apply IH|].
  apply Forall_forall. intros i Hi. apply nonzero_from_In in Hi. lia.
Qed.

Lemma StronglySorted_map_S (l : list nat) :
  StronglySorted lt l -> StronglySorted lt (map S l).
Proof.
  induction 1 as [|a l Hs IH Ha]; simpl; constructor; [exact IH|].
  apply Forall_map. eapply Forall_impl; [|exact Ha]. intros b Hb. simpl. lia.
Qed.

(** X1: the positions [locs] that [get_transitions] returns are in
    increasing order, and they are exactly the positions [i >= 1] of the
    label array whose label differs from the label at position [i - 1]. *)
Theorem get_transitions_locs (arr : list Z) :
  StronglySorted lt (snd (get_transitions arr)) /\
  forall i, In i (snd (get_transitions arr)) <->
            (0 < i < length arr)%nat /\ nth i arr 0%Z <> nth (i - 1) arr 0%Z.
Proof.
  unfold get_transitions. cbn [snd]. split.
  - apply StronglySorted_map_S. apply nonzero_from_sorted.
  - intro i. rewrite in_map_iff. split.
    + intros (k & <- & Hk). unfold np_nonzero in Hk.
      apply nonzero_from_In in Hk. destruct Hk as [_ Hk].
      rewrite Nat.sub_0_r in Hk. apply changes_nth in Hk.
      replace (S k - 1)%nat with k by lia. split; [lia|tauto].
    + intros [Hi Hne]. exists (i - 1)%nat. split; [lia|].
      unfold np_nonzero. apply nonzero_from_In. split; [lia|].
      rewrite Nat.sub_0_r. apply changes_nth.
      replace (S (i - 1)) with i by lia. split; [lia|exact Hne].
Qed.

Lemma transitions_run_starts (r : list Z) : forall (a : Z) (p : list Z),
  map (fun i => nth i (p ++ a :: r) 0%Z)
      (map S (nonzero_from (length p)
                (zipWith (fun x y => negb (x =? y)%Z) r (removelast (a :: r)))))
  = run_starts a r.
Proof.
  induction r as [|b r' IH]; intros a p; [reflexivity|].
  change (removelast (a :: b :: r')) with (a :: removelast (b :: r')).
  cbn [zipWith nonzero_from run_starts].
  specialize (IH b (p ++ [a])).
  rewrite <- app_assoc, length_app in IH. cbn [app length] in IH.
  rewrite Nat.add_1_r in IH.
  rewrite (Z.eqb_sym b a).
  destruct (a =? b)%Z; cbn [negb].
  - exact IH.
  - cbn [map]. rewrite IH. f_equal.
    rewrite app_nth2 by lia.
    replace (S (length p) - length p)%nat with 1%nat by lia. reflexivity.
Qed.

Lemma get_transitions_run_starts (a : Z) (r : list Z) :
  fst (get_transitions (a :: r)) = run_starts a r.
Proof.
  unfold get_transitions, np_nonzero, drop_last. cbn [fst tl].
  exact (transitions_run_starts r a []).
Qed.

Lemma run_starts_no_repeat (r : list Z) : forall a k,
  (S k < length (a :: run_starts a r))%nat ->
  nth k (a :: run_starts a r) 0%Z <> nth (S k) (a :: run_starts a r) 0%Z.
Proof.
  induction r as [|b r' IH]; intros a k Hk.
  - simpl in Hk. lia.
  - cbn [run_starts] in *. destruct (a =? b)%Z eqn:E.
    + apply Z.eqb_eq in E. subst b. apply IH. exact Hk.
    + apply Z.eqb_neq in E. destruct k as [|k]; [exact E|].
      cbn [length] in Hk.
      change (nth (S k) (a :: b :: run_starts b r') 0%Z)
        with (nth k (b :: run_starts b r') 0%Z).
      change (nth (S (S k)) (a :: b :: run_starts b r') 0%Z)
        with (nth (S k) (b :: run_starts b r') 0%Z).
      apply IH. cbn [length]. lia.
Qed.

(** X2: the label sequence that [get_transitions] returns, read after the
    first label of the array, never repeats a label: no two neighbours of
    [arr[0], transitions[0], transitions[1], ...] are equal. *)
Theorem get_transitions_no_repeat (arr : list Z) (k : nat) :
  let labels := firstn 1 arr ++ fst (get_transitions arr) in
  (S k < length labels)%nat ->
  nth k labels 0%Z <> nth (S k) labels 0%Z.
Proof.
  destruct arr as [|a r].
  - simpl. lia.
  - cbn zeta. rewrite get_transitions_run_starts.
    change (firstn 1 (a :: r) ++ run_starts a r) with (a :: run_starts a r).
    apply run_starts_no_repeat.
Qed.

(* ------------------------------------------------------------------ *)
(** ** Counting transitions *)

Lemma update_nth_length {B} (f : B -> B) (l : list B) : forall i,
  length (update_nth f i l) = length l.
Proof.
  induction l as [|a r IH]; intros [|i]; simpl; auto.
Qed.

Lemma update_nth_same {B} (f : B -> B) (l : list B) (d : B) : forall i,
  (i < length l)%nat -> nth i (update_nth f i l) d = f (nth i l d).
Proof.
  induction l as [|a r IH]; intros [|i] H; simpl in *; try lia; auto.
  apply IH. lia.
Qed.

Lemma update_nth_other {B} (f : B -> B) (l : list B) (d : B) : forall i j,
  i <> j -> nth j (update_nth f i l) d = nth j l d.
Proof.
  induction l as [|a r IH]; intros [|i] [|j] H; simpl; auto; try congruence.
Qed.

Lemma update_nth_Forall {B} (P : B -> Prop) (f : B -> B) (l : list B) : forall i,
  (forall a, P a -> P (f a)) -> Forall P l -> Forall P (update_nth f i l).
Proof.
  induction l as [|a r IH]; intros i Hf Hl; [simpl; constructor|].
  inversion Hl; subst. destruct i; simpl; constructor; auto.
Qed.

Lemma incr_at_square (n : nat) (m : matrix) (i j : nat) :
  is_square n m -> is_square n (incr_at m i j).
Proof.
  intros [Hl Hr]. unfold incr_at. split.
  - now rewrite update_nth_length.
  - apply update_nth_Forall; [|exact Hr].
    intros row Hrow. now rewrite update_nth_length.
Qed.

Lemma zeros2_square (n : nat) : is_square n (zeros2 n).
Proof.
  unfold zeros2. split; [apply repeat_length|].
  apply Forall_forall. intros row Hrow. apply repeat_spec in Hrow. subst.
  apply repeat_length.
Qed.

Lemma square_row (n : nat) (m : matrix) (i : nat) :
  is_square n m -> (i < n)%nat -> length (nth i m []) = n.
Proof.
  intros [Hl Hr] Hi. rewrite Forall_forall in Hr. apply Hr. apply nth_In. lia.
Qed.

Lemma zeros2_entry (n i j : nat) :
  (i < n)%nat -> (j < n)%nat -> entry (zeros2 n) i j = Fin 0.
Proof.
  intros Hi Hj. unfold entry, zeros2.
  rewrite (nth_indep _ [] (repeat (Fin 0) n)) by (now rewrite repeat_length).
  rewrite nth_repeat.
  rewrite (nth_indep _ NaN (Fin 0)) by (now rewrite repeat_length).
  apply nth_repeat.
Qed.

Lemma incr_at_entry (n : nat) (m : matrix) (i j i' j' : nat) :
  is_square n m -> (i < n)%nat -> (j < n)%nat ->
  entry (incr_at m i j) i' j' =
  if ((i =? i') && (j =? j'))%nat then fadd (entry m i' j') (Fin 1)
  else entry m i' j'.
Proof.
  intros Hm Hi Hj. unfold entry, incr_at.
  destruct (Nat.eqb_spec i i') as [<-|Hne]; cbn [andb].
  - rewrite update_nth_same by (destruct Hm; lia).
    destruct (Nat.eqb_spec j j') as [<-|Hne].
    + rewrite (update_nth_same (fun x => fadd x (Fin 1)))
        by (now rewrite (square_row n)).
      reflexivity.
    + now apply update_nth_other.
  - now rewrite update_nth_other.
Qed.

Lemma np_index_inside (size : nat) (l : Z) :
  (0 <= l < Z.of_nat size)%Z -> np_index size l = Return (Z.to_nat l).
Proof.
  intro H. unfold np_index.
  destruct (Z.leb_spec 0 l); [|lia]. destruct (Z.ltb_spec l (Z.of_nat size)); [reflexivity|lia].
Qed.

Lemma Qnat_succ (n : nat) : (Qnat n + 1)%Q = Qnat (S n).
Proof.
  unfold Qnat, inject_Z, Qplus. cbn [Qnum Qden].
  f_equal. lia.
Qed.

Lemma sliding_window2_In {B} (l : list B) (a b : B) :
  In (a, b) (sliding_window2 l) -> In a l /\ In b l.
Proof.
  induction l as [|x r IH]; [contradiction|].
  destruct r as [|y r']; [contradiction|].
  change (sliding_window2 (x :: y :: r')) with ((x, y) :: sliding_window2 (y :: r')).
  intros [E|H].
  - injection E as <- <-. split; [now left|right; now left].
  - destruct (IH H) as [Ha Hb]. split; now right.
Qed.

(** The loop of [n_gram_transition_matrix] over windows of non-negative
    labels: every window below [max_label] adds 1 to its cell. *)
Lemma n_gram_loop (max_label : nat) (ws : list (Z * Z)) : forall (m0 : matrix),
  is_square max_label m0 ->
  Forall (fun w => 0 <= fst w /\ 0 <= snd w)%Z ws ->
  exists m,
    ofold
      (fun trans_mat (loc : Z * Z) =>
         if (Z.of_nat max_label <=? fst loc)%Z || (Z.of_nat max_label <=? snd loc)%Z
         then Return trans_mat
         else (i <- np_index max_label (fst loc) ;;
               j <- np_index max_label (snd loc) ;;
               Return (incr_at trans_mat i j))%out)
      ws m0 = Return m /\
    is_square max_label m /\
    forall i j c, (i < max_label)%nat -> (j < max_label)%nat ->
      entry m0 i j = Fin (Qnat c) ->
      entry m i j =
      Fin (Qnat (c + count_eq Zpair_eqb (Z.of_nat i, Z.of_nat j) ws)).
Proof.
  induction ws as [|[a b] ws IH]; intros m0 Hm0 Hws.
  - exists m0. split; [reflexivity|]. split; [exact Hm0|].
    intros i j c _ _ H. unfold count_eq. cbn [filter length].
    now rewrite Nat.add_0_r.
  - inversion Hws as [|? ? [Ha Hb] Hws']; subst. cbn [fst snd] in Ha, Hb.
    cbn [ofold fst snd].
    destruct ((Z.of_nat max_label <=? a)%Z || (Z.of_nat max_label <=? b)%Z) eqn:E.
    + cbn [obind]. destruct (IH m0 Hm0 Hws') as (m & Hm & Hsq & Hent).
      exists m. split; [exact Hm|]. split; [exact Hsq|].
      intros i j c Hi Hj H0. rewrite (Hent i j c Hi Hj H0).
      unfold count_eq. cbn [filter].
      assert (Hno : Zpair_eqb (Z.of_nat i, Z.of_nat j) (a, b) = false).
      { unfold Zpair_eqb. cbn [fst snd]. apply andb_false_iff.
        apply orb_true_iff in E. destruct E as [E|E]; apply Z.leb_le in E.
        - left. apply Z.eqb_neq. lia.
        - right. apply Z.eqb_neq. lia. }
      now rewrite Hno.
    + apply orb_false_iff in E. destruct E as [Ea Eb].
      apply Z.leb_gt in Ea, Eb.
      rewrite (np_index_inside max_label a) by lia.
      rewrite (np_index_inside max_label b) by lia.
      cbn [obind].
      assert (Hia : (Z.to_nat a < max_label)%nat) by lia.
      assert (Hib : (Z.to_nat b < max_label)%nat) by lia.
      destruct (IH (incr_at m0 (Z.to_nat a) (Z.to_nat b))
                   (incr_at_square _ _ _ _ Hm0) Hws') as (m & Hm & Hsq & Hent).
      exists m. split; [exact Hm|]. split; [exact Hsq|].
      intros i j c Hi Hj H0.
      pose proof (incr_at_entry max_label m0 (Z.to_nat a) (Z.to_nat b) i j Hm0 Hia Hib) as Hincr.
      unfold count_eq. cbn [filter]. unfold Zpair_eqb at 1. cbn [fst snd].
      destruct (Nat.eqb_spec (Z.to_nat a) i) as [Eai|Eai];
        destruct (Nat.eqb_spec (Z.to_nat b) j) as [Ebj|Ebj]; cbn [andb] in Hincr.
      * rewrite H0 in Hincr. cbn [fadd] in Hincr. rewrite Qnat_succ in Hincr.
        rewrite (Hent i j (S c) Hi Hj Hincr).
        replace (Z.of_nat i =? a)%Z with true by (symmetry; apply Z.eqb_eq; lia).
        replace (Z.of_nat j =? b)%Z with true by (symmetry; apply Z.eqb_eq; lia).
        cbn [andb length]. do 2 f_equal. unfold count_eq. lia.
      * rewrite H0 in Hincr. rewrite (Hent i j c Hi Hj Hincr).
        replace (Z.of_nat j =? b)%Z with false by (symmetry; apply Z.eqb_neq; lia).
        rewrite andb_false_r. reflexivity.
      * rewrite H0 in Hincr. rewrite (Hent i j c Hi Hj Hincr).
        replace (Z.of_nat i =? a)%Z with false by (symmetry; apply Z.eqb_neq; lia).
        reflexivity.
      * rewrite H0 in Hincr. rewrite (Hent i j c Hi Hj Hincr).
        replace (Z.of_nat i =? a)%Z with false by (symmetry; apply Z.eqb_neq; lia).
        reflexivity.
Qed.

Lemma sliding_window2_nonneg (labels : list Z) :
  Forall (fun l => 0 <= l)%Z labels ->
  Forall (fun w => 0 <= fst w /\ 0 <= snd w)%Z (sliding_window2 labels).
Proof.
  intro H. apply Forall_forall. intros [a b] Hin.
  apply sliding_window2_In in Hin. rewrite Forall_forall in H.
  cbn [fst snd]. split; apply H; tauto.
Qed.

(** X3: for non-negative labels [n_gram_transition_matrix] returns a
    [max_label] by [max_label] matrix whose entry [(i, j)] is the number of
    positions at which label [i] is directly followed by label [j]; pairs
    with a label of [max_label] or more are not counted. *)
Theorem n_gram_transition_matrix_counts (labels : list Z) (max_label : nat) :
  Forall (fun l => 0 <= l)%Z labels ->
  exists m,
    n_gram_transition_matrix labels max_label = Return m /\
    is_square max_label m /\
    forall i j, (i < max_label)%nat -> (j < max_label)%nat ->
      entry m i j =
      Fin (Qnat (count_eq Zpair_eqb (Z.of_nat i, Z.of_nat j) (sliding_window2 labels))).
Proof.
  intro Hl.
  destruct (n_gram_loop max_label (sliding_window2 labels) (zeros2 max_label)
              (zeros2_square max_label) (sliding_window2_nonneg labels Hl))
    as (m & Hm & Hsq & Hent).
  exists m. split; [exact Hm|]. split; [exact Hsq|].
  intros i j Hi Hj.
  apply (Hent i j 0%nat Hi Hj). now apply zeros2_entry.
Qed.

(* ------------------------------------------------------------------ *)
(** ** Sums of finite floats *)

Lemma fadd_Fin_inv (a b : npfloat) (t : Q) :
  fadd a b = Fin t -> exists p s, a = Fin p /\ b = Fin s /\ t = p + s.
Proof.
  destruct a as [p| | |], b as [s| | |]; simpl; try discriminate.
  intro H. injection H as <-. now exists p, s.
Qed.

Lemma sums_to_nil : sums_to [] 0.
Proof. exists 0. split; reflexivity. Qed.

Lemma sums_to_cons (p : Q) (l : list npfloat) (t : Q) :
  sums_to l t -> sums_to (Fin p :: l) (p + t).
Proof.
  intros (q & Hq & E). exists (p + q). split.
  - unfold fsum in *. cbn [fold_right]. rewrite Hq. reflexivity.
  - now rewrite E.
Qed.

Lemma sums_to_cons_inv (x : npfloat) (l : list npfloat) (t : Q) :
  sums_to (x :: l) t -> exists p s, x = Fin p /\ sums_to l s /\ t == p + s.
Proof.
  intros (q & Hq & E). unfold fsum in Hq. cbn [fold_right] in Hq.
  apply fadd_Fin_inv in Hq.
  destruct Hq as (p & s & Hx & Hs & ->).
  exists p, s. split; [exact Hx|]. split; [|now rewrite E].
  exists s. split; [exact Hs|reflexivity].
Qed.

Lemma sums_to_congr (l : list npfloat) (t t' : Q) :
  t == t' -> sums_to l t -> sums_to l t'.
Proof.
  intros E (q & Hq & E'). exists q. split; [exact Hq|]. now rewrite E'.
Qed.

Lemma sums_to_app (l1 l2 : list npfloat) (t1 t2 : Q) :
  sums_to l1 t1 -> sums_to l2 t2 -> sums_to (l1 ++ l2) (t1 + t2).
Proof.
  revert t1. induction l1 as [|x l1 IH]; intros t1 H1 H2.
  - destruct H1 as (q & Hq & E). simpl in Hq. injection Hq as <-.
    apply (sums_to_congr l2 t2); [rewrite <- E; ring|exact H2].
  - apply sums_to_cons_inv in H1. destruct H1 as (p & s & -> & Hs & E).
    apply (sums_to_congr _ (p + (s + t2))); [rewrite E; ring|].
    change ((Fin p :: l1) ++ l2) with (Fin p :: (l1 ++ l2)).
    apply sums_to_cons. now apply IH.
Qed.

Lemma sums_to_app_inv (l1 l2 : list npfloat) (t : Q) :
  sums_to (l1 ++ l2) t ->
  exists t1 t2, sums_to l1 t1 /\ sums_to l2 t2 /\ t == t1 + t2.
Proof.
  revert t. induction l1 as [|x l1 IH]; intros t H.
  - exists 0, t. split; [apply sums_to_nil|]. split; [exact H|ring].
  - change ((x :: l1) ++ l2) with (x :: (l1 ++ l2)) in H.
    apply sums_to_cons_inv in H. destruct H as (p & s & -> & Hs & E).
    destruct (IH s Hs) as (t1 & t2 & H1 & H2 & E').
    exists (p + t1), t2. split; [now apply sums_to_cons|]. split; [exact H2|].
    rewrite E, E'. ring.
Qed.

Lemma sums_to_unique (l : list npfloat) (t t' : Q) :
  sums_to l t -> sums_to l t' -> t == t'.
Proof.
  intros (q & Hq & E) (q' & Hq' & E'). rewrite Hq in Hq'. injection Hq' as <-.
  now rewrite <- E, <- E'.
Qed.

Lemma sums_to_incr (l : list npfloat) : forall (j : nat) (t : Q),
  (j < length l)%nat -> sums_to l t ->
  sums_to (update_nth (fun x => fadd x (Fin 1)) j l) (t + 1).
Proof.
  induction l as [|x l IH]; intros j t Hj H; [simpl in Hj; lia|].
  apply sums_to_cons_inv in H. destruct H as (p & s & -> & Hs & E).
  destruct j as [|j]; cbn [update_nth fadd].
  - apply (sums_to_congr _ ((p + 1) + s)); [rewrite E; ring|].
    now apply sums_to_cons.
  - apply (sums_to_congr _ (p + (s + 1))); [rewrite E; ring|].
    apply sums_to_cons. apply IH; [simpl in Hj; lia|exact Hs].
Qed.

Lemma total_incr (n : nat) (m : matrix) : forall (i j : nat) (t : Q),
  Forall (fun row => length row = n) m ->
  (i < length m)%nat -> (j < n)%nat ->
  sums_to (concat m) t -> sums_to (concat (incr_at m i j)) (t + 1).
Proof.
  unfold incr_at.
  induction m as [|row m IH]; intros i j t Hr Hi Hj H; [simpl in Hi; lia|].
  inversion Hr as [|? ? Hrow Hr']; subst.
  cbn [concat] in H. apply sums_to_app_inv in H.
  destruct H as (t1 & t2 & H1 & H2 & E).
  destruct i as [|i]; cbn [update_nth concat].
  - apply (sums_to_congr _ ((t1 + 1) + t2)); [rewrite E; ring|].
    apply sums_to_app; [|exact H2]. apply sums_to_incr; [lia|exact H1].
  - apply (sums_to_congr _ (t1 + (t2 + 1))); [rewrite E; ring|].
    apply sums_to_app; [exact H1|].
    apply IH; [exact Hr'| simpl in Hi; lia | exact Hj | exact H2].
Qed.

Lemma sums_to_zeros (n : nat) : sums_to (repeat (Fin 0) n) 0.
Proof.
  induction n as [|n IH]; [apply sums_to_nil|].
  apply (sums_to_congr _ (0 + 0)); [ring|]. cbn [repeat]. now apply sums_to_cons.
Qed.

Lemma total_zeros2 (n : nat) : sums_to (concat (zeros2 n)) 0.
Proof.
  unfold zeros2. generalize n at 2. intro k.
  induction k as [|k IH]; [apply sums_to_nil|].
  cbn [repeat concat]. apply (sums_to_congr _ (0 + 0)); [ring|].
  apply sums_to_app; [apply sums_to_zeros|exact IH].
Qed.

(** The loop of [n_gram_transition_matrix] over windows of labels below
    [max_label]: every window adds 1 to the sum of the matrix. *)
Lemma n_gram_loop_total (max_label : nat) (ws : list (Z * Z)) :
  forall (m0 : matrix) (t0 : Q),
  is_square max_label m0 ->
  Forall (fun w => 0 <= fst w < Z.of_nat max_label
                   /\ 0 <= snd w < Z.of_nat max_label)%Z ws ->
  sums_to (concat m0) t0 ->
  exists m,
    ofold
      (fun trans_mat (loc : Z * Z) =>
         if (Z.of_nat max_label <=? fst loc)%Z || (Z.of_nat max_label <=? snd loc)%Z
         then Return trans_mat
         else (i <- np_index max_label (fst loc) ;;
               j <- np_index max_label (snd loc) ;;
               Return (incr_at trans_mat i j))%out)
      ws m0 = Return m /\
    sums_to (concat m) (t0 + Qnat (length ws)).
Proof.
  induction ws as [|[a b] ws IH]; intros m0 t0 Hm0 Hws H0.
  - exists m0. split; [reflexivity|].
    apply (sums_to_congr _ t0); [unfold Qnat; simpl; ring|exact H0].
  - inversion Hws as [|? ? [Ha Hb] Hws']; subst. cbn [fst snd] in Ha, Hb.
    cbn [ofold fst snd].
    replace (Z.of_nat max_label <=? a)%Z with false by (symmetry; apply Z.leb_gt; lia).
    replace (Z.of_nat max_label <=? b)%Z with false by (symmetry; apply Z.leb_gt; lia).
    cbn [orb].
    rewrite (np_index_inside max_label a) by lia.
    rewrite (np_index_inside max_label b) by lia.
    cbn [obind].
    destruct (IH (incr_at m0 (Z.to_nat a) (Z.to_nat b)) (t0 + 1)
                 (incr_at_square _ _ _ _ Hm0) Hws') as (m & Hm & Ht).
    { destruct Hm0 as [Hl Hr]. apply (total_incr max_label); try assumption; lia. }
    exists m. split; [exact Hm|].
    apply (sums_to_congr _ (t0 + 1 + Qnat (length ws))); [|exact Ht].
    cbn [length]. rewrite <- Qnat_succ. ring.
Qed.

(* ------------------------------------------------------------------ *)
(** ** Transition counts of a session *)

Lemma run_starts_Forall (P : Z -> Prop) (r : list Z) : forall a,
  Forall P r -> Forall P (run_starts a r).
Proof.
  induction r as [|b r IH]; intros a H; [constructor|].
  inversion H; subst. cbn [run_starts].
  destruct (a =? b)%Z; [now apply IH|constructor; [assumption|now apply IH]].
Qed.

Lemma get_transitions_Forall (P : Z -> Prop) (v : list Z) :
  Forall P v -> Forall P (fst (get_transitions v)).
Proof.
  destruct v as [|a r]; intro H; [constructor|].
  rewrite get_transitions_run_starts. inversion H; subst.
  now apply run_starts_Forall.
Qed.

Lemma get_transitions_lengths (v : list Z) :
  length (fst (get_transitions v)) = length (snd (get_transitions v)).
Proof. unfold get_transitions. cbn [fst snd]. now rewrite length_map. Qed.

Lemma sliding_window2_length {B} (l : list B) :
  length (sliding_window2 l) = (length l - 1)%nat.
Proof.
  induction l as [|a r IH]; [reflexivity|].
  destruct r as [|b r']; [reflexivity|].
  change (sliding_window2 (a :: b :: r')) with ((a, b) :: sliding_window2 (b :: r')).
  cbn [length] in *. lia.
Qed.

Lemma sliding_window2_cons {B} (a : B) (l : list B) :
  sliding_window2 (a :: l) =
  match l with
  | [] => []
  | b :: _ => (a, b) :: sliding_window2 l
  end.
Proof. destruct l; reflexivity. Qed.

Lemma run_starts_windows (r : list Z) : forall a,
  Forall (fun w : Z * Z => fst w <> snd w) (sliding_window2 (a :: run_starts a r)).
Proof.
  induction r as [|b r IH]; intro a; [constructor|].
  cbn [run_starts]. destruct (a =? b)%Z eqn:E.
  - apply Z.eqb_eq in E. subst b. apply IH.
  - apply Z.eqb_neq in E. rewrite sliding_window2_cons.
    constructor; [exact E|apply IH].
Qed.

Lemma get_transitions_windows (v : list Z) :
  Forall (fun w : Z * Z => fst w <> snd w)
         (sliding_window2 (fst (get_transitions v))).
Proof.
  destruct v as [|a r]; [constructor|].
  rewrite get_transitions_run_starts.
  pose proof (run_starts_windows r a) as H.
  rewrite sliding_window2_cons in H.
  destruct (run_starts a r) as [|t T]; [constructor|].
  now inversion H.
Qed.

Lemma count_eq_diagonal (i : Z) (ws : list (Z * Z)) :
  Forall (fun w : Z * Z => fst w <> snd w) ws ->
  count_eq Zpair_eqb (i, i) ws = 0%nat.
Proof.
  unfold count_eq.
  induction 1 as [|[a b] ws Hab Hws IH]; [reflexivity|].
  cbn [filter]. unfold Zpair_eqb at 1. cbn [fst snd] in *.
  destruct (Z.eqb_spec i a) as [->|_]; cbn [andb]; [|exact IH].
  destruct (Z.eqb_spec a b) as [->|_]; [contradiction|exact IH].
Qed.

(** X4: the matrix that counts the transitions of a session of
    non-negative labels has a zero diagonal: [get_transitions] never
    yields a label twice in a row, so no transition of a syllable to itself
    is counted. *)
Theorem transition_counts_zero_diagonal (v : list Z) (max_label : nat) :
  Forall (fun l => 0 <= l)%Z v ->
  exists m,
    n_gram_transition_matrix (fst (get_transitions v)) max_label = Return m /\
    forall i, (i < max_label)%nat -> entry m i i = Fin 0.
Proof.
  intro Hv.
  destruct (n_gram_loop max_label (sliding_window2 (fst (get_transitions v)))
              (zeros2 max_label) (zeros2_square max_label)
              (sliding_window2_nonneg _ (get_transitions_Forall _ v Hv)))
    as (m & Hm & _ & Hent).
  exists m. split; [exact Hm|].
  intros i Hi. rewrite (Hent i i 0%nat Hi Hi (zeros2_entry _ _ _ Hi Hi)).
  now rewrite (count_eq_diagonal _ _ (get_transitions_windows v)).
Qed.

(** X5: for a session whose labels are all below [max_label], the counts
    of the transition matrix add up to the number of label changes minus
    one (zero when the label never changes): the change that leaves the
    first syllable of the session is not counted. *)
Theorem transition_counts_total (v : list Z) (max_label : nat) :
  Forall (fun l => 0 <= l < Z.of_nat max_label)%Z v ->
  exists m,
    n_gram_transition_matrix (fst (get_transitions v)) max_label = Return m /\
    sums_to (concat m) (Qnat (length (snd (get_transitions v)) - 1)).
Proof.
  intro Hv.
  assert (Hws : Forall (fun w => 0 <= fst w < Z.of_nat max_label
                                 /\ 0 <= snd w < Z.of_nat max_label)%Z
                       (sliding_window2 (fst (get_transitions v)))).
  { apply Forall_forall. intros [a b] Hin. apply sliding_window2_In in Hin.
    pose proof (get_transitions_Forall _ v Hv) as HT.
    rewrite Forall_forall in HT. cbn [fst snd]. split; apply HT; tauto. }
  destruct (n_gram_loop_total max_label _ (zeros2 max_label) 0
              (zeros2_square max_label) Hws (total_zeros2 max_label))
    as (m & Hm & Ht).
  exists m. split; [exact Hm|].
  apply (sums_to_congr _ (0 + Qnat (length (sliding_window2 (fst (get_transitions v))))));
    [|exact Ht].
  rewrite sliding_window2_length, get_transitions_lengths. ring.
Qed.

(* ------------------------------------------------------------------ *)
(** ** Normalisation *)

Lemma Qeq_bool_false (q : Q) : ~ q == 0 -> Qeq_bool q 0 = false.
Proof.
  intro H. destruct (Qeq_bool q 0) eqn:E; [|reflexivity].
  apply Qeq_bool_iff in E. contradiction.
Qed.

Lemma sums_to_fdiv (l : list npfloat) (q : Q) : forall (s : Q),
  ~ q == 0 -> sums_to l s ->
  sums_to (map (fun x => fdiv x (Fin q)) l) (s / q).
Proof.
  intros s Hq. revert s.
  induction l as [|x l IH]; intros s H.
  - destruct H as (z & Hz & E). simpl in Hz. injection Hz as <-.
    apply (sums_to_congr _ 0); [rewrite <- E; field; exact Hq|apply sums_to_nil].
  - apply sums_to_cons_inv in H. destruct H as (p & s' & -> & Hs & E).
    cbn [map fdiv]. rewrite (Qeq_bool_false q Hq).
    apply (sums_to_congr _ (p / q + s' / q)); [rewrite E; field; exact Hq|].
    apply sums_to_cons. now apply IH.
Qed.

Lemma sums_to_normalized (l : list npfloat) (t : Q) :
  sums_to l t -> ~ t == 0 ->
  sums_to (map (fun x => fdiv x (fsum l)) l) 1.
Proof.
  intros H Ht. destruct H as (q & Hq & E).
  rewrite Hq.
  assert (Hq0 : ~ q == 0) by (now rewrite E).
  apply (sums_to_congr _ (q / q)); [field; exact Hq0|].
  apply sums_to_fdiv; [exact Hq0|]. exists q. split; [exact Hq|reflexivity].
Qed.

(** X6: with ['bigram'] normalisation the entries of a matrix of finite
    floats whose sum is not zero add up to 1 afterwards. *)
Theorem normalize_bigram_total (init_matrix : matrix) (t : Q) :
  sums_to (concat init_matrix) t -> ~ t == 0 ->
  sums_to (concat (normalize_transition_matrix init_matrix (Some "bigram"%string))) 1.
Proof.
  intros H Ht. cbn [normalize_transition_matrix String.eqb Ascii.eqb Bool.eqb].
  cbv iota beta. rewrite <- concat_map.
  exact (sums_to_normalized (concat init_matrix) t H Ht).
Qed.

Lemma fdiv_zero_zero (x t : npfloat) :
  (exists p, x = Fin p /\ p == 0) -> (exists q, t = Fin q /\ q == 0) ->
  fdiv x t = NaN.
Proof.
  intros (p & -> & Hp) (q & -> & Hq). cbn [fdiv].
  apply Qeq_bool_iff in Hp, Hq. now rewrite Hp, Hq.
Qed.

Lemma sums_to_all_zero (l : list npfloat) :
  Forall (fun x => exists p, x = Fin p /\ p == 0) l -> sums_to l 0.
Proof.
  induction 1 as [|x l (p & -> & Hp) Hl IH]; [apply sums_to_nil|].
  apply (sums_to_congr _ (p + 0)); [rewrite Hp; ring|]. now apply sums_to_cons.
Qed.

(** X7: with ['rows'] normalisation every row of finite floats whose sum
    is not zero adds up to 1 afterwards, and a row of zeros (a syllable
    that no counted transition leaves) becomes a row of [nan]. *)
Theorem normalize_rows (init_matrix : matrix) (i : nat) :
  (i < length init_matrix)%nat ->
  let row := nth i init_matrix [] in
  let out := nth i (normalize_transition_matrix init_matrix (Some "rows"%string)) [] in
  (forall t, sums_to row t -> ~ t == 0 -> sums_to out 1) /\
  (Forall (fun x => exists p, x = Fin p /\ p == 0) row ->
   length out = length row /\ Forall (fun x => x = NaN) out).
Proof.
  intros Hi row out.
  assert (Hout : out = map (fun x => fdiv x (fsum row)) row).
  { unfold out, row. cbn [normalize_transition_matrix String.eqb Ascii.eqb Bool.eqb].
    cbv iota beta.
    rewrite (nth_map_in _ init_matrix i [] []) by exact Hi. reflexivity. }
  rewrite Hout. split.
  - intros t H Ht. exact (sums_to_normalized row t H Ht).
  - intro Hz. split; [apply length_map|].
    apply Forall_map. pose proof (sums_to_all_zero row Hz) as Hsum.
    eapply Forall_impl; [|exact Hz]. intros x Hx. cbv beta.
    apply fdiv_zero_zero; [exact Hx|exact Hsum].
Qed.

Lemma fcol_sums_nth (m : matrix) (c j : nat) :
  length (hd [] m) = c -> (j < c)%nat ->
  nth j (fcol_sums m) NaN = fsum (map (fun row => nth j row (Fin 0)) m).
Proof.
  intros Hc Hj. unfold fcol_sums. rewrite Hc.
  now rewrite (nth_map_seq (fun j => fsum (map (fun row => nth j row (Fin 0)) m)) c j NaN).
Qed.

Lemma fcol_sums_length (m : matrix) : length (fcol_sums m) = length (hd [] m).
Proof. unfold fcol_sums. now rewrite length_map, length_seq. Qed.

(** X8: with ['columns'] normalisation every column of finite floats
    whose sum is not zero adds up to 1 afterwards. *)
Theorem normalize_columns (init_matrix : matrix) (c j : nat) (t : Q) :
  Forall (fun row => length row = c) init_matrix -> (j < c)%nat ->
  sums_to (map (fun row => nth j row (Fin 0)) init_matrix) t -> ~ t == 0 ->
  sums_to (map (fun row => nth j row (Fin 0))
               (normalize_transition_matrix init_matrix (Some "columns"%string))) 1.
Proof.
  intros Hr Hj H Ht.
  assert (Hc : length (hd [] init_matrix) = c).
  { destruct init_matrix as [|row m].
    - exfalso. destruct H as (q & Hq & E). simpl in Hq. injection Hq as <-.
      apply Ht. now rewrite <- E.
    - now inversion Hr. }
  cbn [normalize_transition_matrix String.eqb Ascii.eqb Bool.eqb]. cbv iota beta.
  rewrite map_map.
  assert (E : map (fun row => nth j (zipWith fdiv row (fcol_sums init_matrix)) (Fin 0))
                  init_matrix
              = map (fun x => fdiv x (fsum (map (fun row => nth j row (Fin 0)) init_matrix)))
                    (map (fun row => nth j row (Fin 0)) init_matrix)).
  { rewrite map_map. apply map_ext_in. intros row Hin.
    rewrite Forall_forall in Hr.
    rewrite (nth_zipWith fdiv row (fcol_sums init_matrix) j (Fin 0) (Fin 0) NaN)
      by (rewrite ?fcol_sums_length, ?Hc, ?(Hr row Hin); exact Hj).
    now rewrite (fcol_sums_nth init_matrix c j Hc Hj). }
  rewrite E. exact (sums_to_normalized _ t H Ht).
Qed.

(* ------------------------------------------------------------------ *)
(** ** The matrices of [get_transition_matrix] *)

Lemma map_square (n : nat) (f : npfloat -> npfloat) (m : matrix) :
  is_square n m -> is_square n (map (map f) m).
Proof.
  intros [Hl Hr]. split; [now rewrite length_map|].
  apply Forall_map. eapply Forall_impl; [|exact Hr].
  intros row H. cbv beta. now rewrite length_map.
Qed.

Lemma add_scalar_square (n : nat) (m : matrix) (s : Q) :
  is_square n m -> is_square n (add_scalar m s).
Proof. apply map_square. Qed.

Lemma square_hd (n : nat) (m : matrix) :
  is_square n m -> length (hd [] m) = n.
Proof.
  intros [Hl Hr]. destruct m as [|row m]; [exact Hl|now inversion Hr].
Qed.

Lemma normalize_square (n : nat) (m : matrix) (normalize : option string) :
  is_square n m -> is_square n (normalize_transition_matrix m normalize).
Proof.
  intro Hm. unfold normalize_transition_matrix.
  destruct normalize as [s|]; [|exact Hm].
  destruct (String.eqb s "bigram"); [now apply map_square|].
  destruct (String.eqb s "rows").
  - destruct Hm as [Hl Hr]. split; [now rewrite length_map|].
    apply Forall_map. eapply Forall_impl; [|exact Hr].
    intros row H. cbv beta zeta. now rewrite length_map.
  - destruct (String.eqb s "columns"); [|exact Hm].
    pose proof (square_hd n m Hm) as Hc. destruct Hm as [Hl Hr].
    split; [now rewrite length_map|].
    apply Forall_map. eapply Forall_impl; [|exact Hr].
    intros row H. cbv beta. rewrite zipWith_length, fcol_sums_length, Hc, H.
    apply Nat.min_id.
Qed.

Lemma omap_Return {B C} (f : B -> outcome C) (g : B -> C) (l : list B) :
  (forall b, In b l -> f b = Return (g b)) -> omap f l = Return (map g l).
Proof.
  induction l as [|a r IH]; intro H; [reflexivity|].
  cbn [omap map]. rewrite (H a (or_introl eq_refl)). cbn [obind].
  rewrite IH by (intros b Hb; apply H; now right). reflexivity.
Qed.

(** The count matrix of a session. *)
Lemma session_counts (v : list Z) (max_label : nat) :
  Forall (fun l => 0 <= l)%Z v ->
  exists m,
    n_gram_transition_matrix (fst (get_transitions v)) max_label = Return m /\
    is_square max_label m /\
    forall i j, (i < max_label)%nat -> (j < max_label)%nat ->
      entry m i j =
      Fin (Qnat (count_eq Zpair_eqb (Z.of_nat i, Z.of_nat j)
                          (sliding_window2 (fst (get_transitions v))))).
Proof.
  intro Hv.
  destruct (n_gram_loop max_label (sliding_window2 (fst (get_transitions v)))
              (zeros2 max_label) (zeros2_square max_label)
              (sliding_window2_nonneg _ (get_transitions_Forall _ v Hv)))
    as (m & Hm & Hsq & Hent).
  exists m. split; [exact Hm|]. split; [exact Hsq|].
  intros i j Hi Hj. apply (Hent i j 0%nat Hi Hj). now apply zeros2_entry.
Qed.

(** X9: called with a list of sessions and [combine=False],
    [get_transition_matrix] raises [IndexError] when the list is empty;
    for non-negative labels it returns otherwise one matrix of
    [max_syllable] rows and columns for every session, whatever the
    normalisation and the smoothing. *)
Theorem get_transition_matrix_sessions (vs : list (list Z)) (max_syllable : nat)
  (normalize : option string) (smoothing : Q) :
  Forall (Forall (fun l => 0 <= l)%Z) vs ->
  match get_transition_matrix (session_list vs) max_syllable normalize smoothing false with
  | Return (inr all_mats) =>
      vs <> [] /\ length all_mats = length vs /\
      Forall (is_square max_syllable) all_mats
  | Return (inl _) => False
  | Throw e => vs = [] /\ e = IndexError
  end.
Proof.
  intro Hvs. destruct vs as [|v0 vs']; [split; reflexivity|].
  set (vs := v0 :: vs') in *.
  set (F := fun v =>
              match n_gram_transition_matrix (fst (get_transitions v)) max_syllable with
              | Return m => normalize_transition_matrix (add_scalar m smoothing) normalize
              | Throw _ => []
              end).
  assert (HF : forall v, In v vs ->
             (trans_mat <- n_gram_transition_matrix (fst (get_transitions v)) max_syllable ;;
              Return (normalize_transition_matrix (add_scalar trans_mat smoothing) normalize))%out
             = Return (F v) /\ is_square max_syllable (F v)).
  { intros v Hin. rewrite Forall_forall in Hvs.
    destruct (session_counts v max_syllable (Hvs v Hin)) as (m & Hm & Hsq & _).
    unfold F. rewrite Hm. cbn [obind]. split; [reflexivity|].
    apply normalize_square. now apply add_scalar_square. }
  unfold get_transition_matrix. cbn [obind].
  change (match vs with [] => Throw IndexError | _ :: _ => Return vs end)
    with (@Return (list (list Z)) vs).
  cbn [obind].
  rewrite (omap_Return _ F vs) by (intros v Hin; apply HF; exact Hin).
  cbn [obind]. split; [discriminate|]. split; [apply length_map|].
  apply Forall_map. apply Forall_forall. intros v Hin. now apply HF.
Qed.

Lemma madd_square (n : nat) (a b : matrix) :
  is_square n a -> is_square n b -> is_square n (madd a b).
Proof.
  intros [Hla Hra] [Hlb Hrb]. unfold madd. split.
  - rewrite zipWith_length, Hla, Hlb. apply Nat.min_id.
  - apply Forall_forall. intros row Hin.
    apply (In_nth _ _ []) in Hin. destruct Hin as (i & Hi & <-).
    rewrite zipWith_length, Hla, Hlb, Nat.min_id in Hi.
    rewrite (nth_zipWith (zipWith fadd) a b i [] [] []) by lia.
    rewrite zipWith_length.
    rewrite (square_row n a i (conj Hla Hra) Hi), (square_row n b i (conj Hlb Hrb) Hi).
    apply Nat.min_id.
Qed.

Lemma madd_entry (n : nat) (a b : matrix) (i j : nat) :
  is_square n a -> is_square n b -> (i < n)%nat -> (j < n)%nat ->
  entry (madd a b) i j = fadd (entry a i j) (entry b i j).
Proof.
  intros Ha Hb Hi Hj. unfold entry, madd.
  rewrite (nth_zipWith (zipWith fadd) a b i [] [] [])
    by (destruct Ha, Hb; lia).
  apply nth_zipWith; now rewrite (square_row n).
Qed.

Lemma fold_madd_square (n : nat) (r : list matrix) : forall m0,
  is_square n m0 -> Forall (is_square n) r -> is_square n (fold_left madd r m0).
Proof.
  induction r as [|m r IH]; intros m0 H0 Hr; [exact H0|].
  inversion Hr; subst. cbn [fold_left]. apply IH; [now apply madd_square|assumption].
Qed.

Lemma fold_madd_entry (n i j : nat) (g : matrix -> Q) (r : list matrix) :
  forall (m0 : matrix) (q0 : Q),
  (i < n)%nat -> (j < n)%nat ->
  is_square n m0 -> entry m0 i j = Fin q0 ->
  Forall (fun m => is_square n m /\ entry m i j = Fin (g m)) r ->
  exists q, entry (fold_left madd r m0) i j = Fin q /\ q == q0 + Qsum (map g r).
Proof.
  induction r as [|m r IH]; intros m0 q0 Hi Hj H0 E0 Hr.
  - exists q0. split; [exact E0|]. unfold Qsum. cbn [map fold_right]. ring.
  - inversion Hr as [|? ? [Hm Em] Hr']; subst. cbn [fold_left].
    destruct (IH (madd m0 m) (q0 + g m) Hi Hj (madd_square n m0 m H0 Hm)) as (q & Hq & E).
    + rewrite (madd_entry n m0 m i j H0 Hm Hi Hj), E0, Em. reflexivity.
    + exact Hr'.
    + exists q. split; [exact Hq|]. rewrite E. unfold Qsum. cbn [map fold_right]. ring.
Qed.

Lemma add_scalar_entry (n : nat) (m : matrix) (s : Q) (i j : nat) :
  is_square n m -> (i < n)%nat -> (j < n)%nat ->
  entry (add_scalar m s) i j = fadd (entry m i j) (Fin s).
Proof.
  intros Hm Hi Hj. unfold entry, add_scalar.
  rewrite (nth_map_in _ m i [] []) by (destruct Hm; lia).
  rewrite (nth_map_in (fun x => fadd x (Fin s)) (nth i m []) j NaN NaN)
    by (now rewrite (square_row n)).
  reflexivity.
Qed.

(** X10: called with a non-empty list of sessions of non-negative labels,
    [combine=True] and no normalisation, [get_transition_matrix] returns
    one matrix whose entry [(i, j)] is the number of counted transitions
    from [i] to [j] of all sessions together, plus [smoothing] (added once,
    not once for every session). *)
Theorem get_transition_matrix_combined (vs : list (list Z)) (max_syllable : nat)
  (smoothing : Q) :
  vs <> [] ->
  Forall (Forall (fun l => 0 <= l)%Z) vs ->
  exists m,
    get_transition_matrix (session_list vs) max_syllable None smoothing true
    = Return (inl m) /\
    is_square max_syllable m /\
    forall i j, (i < max_syllable)%nat -> (j < max_syllable)%nat ->
      exists q, entry m i j = Fin q /\
        q == Qsum (map (fun v => Qnat (count_eq Zpair_eqb (Z.of_nat i, Z.of_nat j)
                                         (sliding_window2 (fst (get_transitions v)))))
                       vs)
             + smoothing.
Proof.
  intros Hne Hvs. destruct vs as [|v0 vs']; [congruence|]. clear Hne.
  set (vs := v0 :: vs') in *.
  set (F := fun v =>
              match n_gram_transition_matrix (fst (get_transitions v)) max_syllable with
              | Return m => m
              | Throw _ => []
              end).
  assert (HF : forall v, In v vs ->
             n_gram_transition_matrix (fst (get_transitions v)) max_syllable
             = Return (F v) /\
             is_square max_syllable (F v) /\
             forall i j, (i < max_syllable)%nat -> (j < max_syllable)%nat ->
               entry (F v) i j =
               Fin (Qnat (count_eq Zpair_eqb (Z.of_nat i, Z.of_nat j)
                                   (sliding_window2 (fst (get_transitions v)))))).
  { intros v Hin. rewrite Forall_forall in Hvs.
    destruct (session_counts v max_syllable (Hvs v Hin)) as (m & Hm & Hsq & Hent).
    unfold F. rewrite Hm. auto. }
  assert (Hsq : is_square max_syllable (sum_matrices (map F vs))).
  { unfold vs. cbn [map sum_matrices]. apply fold_madd_square.
    - apply HF. now left.
    - apply Forall_map. apply Forall_forall. intros v Hin. apply HF. now right. }
  exists (add_scalar (sum_matrices (map F vs)) smoothing).
  split; [|split].
  - unfold get_transition_matrix. cbn [obind].
    change (match vs with [] => Throw IndexError | _ :: _ => Return vs end)
      with (@Return (list (list Z)) vs).
    cbn [obind].
    rewrite (omap_Return _ F vs) by (intros v Hin; apply HF; exact Hin).
    reflexivity.
  - now apply add_scalar_square.
  - intros i j Hi Hj.
    rewrite (add_scalar_entry max_syllable _ smoothing i j Hsq Hi Hj).
    set (c := fun v => Qnat (count_eq Zpair_eqb (Z.of_nat i, Z.of_nat j)
                                      (sliding_window2 (fst (get_transitions v))))).
    assert (Hsum : exists q, entry (sum_matrices (map F vs)) i j = Fin q /\
                             q == Qsum (map c vs)).
    { unfold vs. cbn [map sum_matrices].
      destruct (fold_madd_entry max_syllable i j
                  (fun m => match entry m i j with Fin q => q | _ => 0 end)
                  (map F vs') (F v0) (c v0) Hi Hj) as (q & Hq & E).
      - apply HF. now left.
      - apply HF; [now left|exact Hi|exact Hj].
      - apply Forall_map. apply Forall_forall. intros v Hin.
        assert (Hv : In v vs) by (now right).
        split; [now apply HF|].
        destruct (HF v Hv) as (_ & _ & Hent). now rewrite (Hent i j Hi Hj).
      - exists q. split; [exact Hq|]. rewrite E. cbn [Qsum fold_right].
        rewrite map_map. f_equal.
        assert (Hm : map (fun x => match entry (F x) i j with Fin q1 => q1 | _ => 0 end) vs'
                     = map c vs').
        { apply map_ext_in. intros v Hin.
          assert (Hv : In v vs) by (now right).
          destruct (HF v Hv) as (_ & _ & Hent). now rewrite (Hent i j Hi Hj). }
        rewrite Hm. reflexivity. }
    destruct Hsum as (q & Hq & E). rewrite Hq. cbn [fadd].
    exists (q + smoothing). split; [reflexivity|]. now rewrite E.
Qed.

Lemma sliding_window2_short {B} (l : list B) :
  (length l <= 1)%nat -> sliding_window2 l = [].
Proof.
  destruct l as [|a [|b r]]; simpl; intro H; try reflexivity; lia.
Qed.

Lemma Forall_concat {B} (P : B -> Prop) (ll : list (list B)) :
  Forall (Forall P) ll -> Forall P (concat ll).
Proof.
  induction 1 as [|l ll Hl Hll IH]; [constructor|].
  cbn [concat]. apply Forall_app. now split.
Qed.

(** A matrix of zeros has only [nan] after each of the three
    normalisations. *)
Lemma normalize_zero_matrix (n : nat) (m : matrix) (s : string) (i j : nat) :
  is_square n m ->
  Forall (Forall (fun x => exists p, x = Fin p /\ p == 0)) m ->
  In s ["bigram"; "rows"; "columns"]%string ->
  (i < n)%nat -> (j < n)%nat ->
  entry (normalize_transition_matrix m (Some s)) i j = NaN.
Proof.
  intros Hm Hz Hs Hi Hj.
  assert (Hrow : Forall (fun x => exists p, x = Fin p /\ p == 0) (nth i m [])).
  { rewrite Forall_forall in Hz. apply Hz. apply nth_In. destruct Hm; lia. }
  assert (Hx : exists p, entry m i j = Fin p /\ p == 0).
  { rewrite Forall_forall in Hrow. apply Hrow. apply nth_In.
    now rewrite (square_row n). }
  assert (Hil : (i < length m)%nat) by (destruct Hm; lia).
  assert (Hjl : (j < length (nth i m []))%nat) by (now rewrite (square_row n)).
  destruct Hs as [<-|[<-|[<-|[]]]];
    cbn [normalize_transition_matrix String.eqb Ascii.eqb Bool.eqb]; cbv iota beta;
    unfold entry.
  - rewrite (nth_map_in _ m i [] []) by exact Hil.
    rewrite (nth_map_in (fun x => fdiv x (fsum (concat m))) (nth i m []) j NaN NaN)
      by exact Hjl.
    apply fdiv_zero_zero; [exact Hx|].
    apply sums_to_all_zero. now apply Forall_concat.
  - rewrite (nth_map_in _ m i [] []) by exact Hil.
    rewrite (nth_map_in (fun x => fdiv x (fsum (nth i m []))) (nth i m []) j NaN NaN)
      by exact Hjl.
    apply fdiv_zero_zero; [exact Hx|]. now apply sums_to_all_zero.
  - rewrite (nth_map_in _ m i [] []) by exact Hil.
    rewrite (nth_zipWith fdiv (nth i m []) (fcol_sums m) j NaN NaN NaN)
      by (rewrite ?fcol_sums_length, ?(square_hd n m Hm); lia).
    apply fdiv_zero_zero; [exact Hx|].
    rewrite (fcol_sums_nth m n j (square_hd n m Hm) Hj).
    apply sums_to_all_zero. apply Forall_map.
    eapply Forall_impl; [|exact Hz]. intros row Hr. cbv beta.
    destruct (Nat.lt_ge_cases j (length row)) as [Hlt|Hge].
    + rewrite Forall_forall in Hr. apply Hr. now apply nth_In.
    + rewrite nth_overflow by exact Hge. exists 0. split; reflexivity.
Qed.

Lemma add_scalar_zeros (n : nat) :
  Forall (Forall (fun x => exists p, x = Fin p /\ p == 0)) (add_scalar (zeros2 n) 0).
Proof.
  unfold add_scalar, zeros2. apply Forall_map. apply Forall_forall.
  intros row Hrow. apply repeat_spec in Hrow. subst row.
  apply Forall_map. apply Forall_forall. intros x Hx.
  apply repeat_spec in Hx. subst x. cbn [fadd]. exists (0 + 0). split; reflexivity.
Qed.

(** X11: a session with at most one label change has no counted
    transition; with [smoothing = 0] and each of the normalisations
    ['bigram'], ['rows'] and ['columns'], [get_transition_matrix] returns
    for it a matrix whose entries are all [nan]. *)
Theorem get_transition_matrix_few_changes (v : list Z) (max_syllable : nat)
  (normalize : string) :
  v <> [] ->
  (length (snd (get_transitions v)) <= 1)%nat ->
  In normalize ["bigram"; "rows"; "columns"]%string ->
  exists m,
    get_transition_matrix (one_session v) max_syllable (Some normalize) 0 false
    = Return (inr [m]) /\
    is_square max_syllable m /\
    forall i j, (i < max_syllable)%nat -> (j < max_syllable)%nat ->
      entry m i j = NaN.
Proof.
  intros Hne Hlen Hs.
  assert (Hn : n_gram_transition_matrix (fst (get_transitions v)) max_syllable
               = Return (zeros2 max_syllable)).
  { unfold n_gram_transition_matrix.
    rewrite sliding_window2_short by (now rewrite get_transitions_lengths).
    reflexivity. }
  exists (normalize_transition_matrix (add_scalar (zeros2 max_syllable) 0) (Some normalize)).
  split; [|split].
  - unfold get_transition_matrix. destruct v as [|a r]; [congruence|].
    cbn [obind omap]. rewrite Hn. reflexivity.
  - apply normalize_square. apply add_scalar_square. apply zeros2_square.
  - intros i j Hi Hj.
    apply (normalize_zero_matrix max_syllable); try assumption.
    + apply add_scalar_square. apply zeros2_square.
    + apply add_scalar_zeros.
Qed.

Lemma sums_to_add_zero (l : list npfloat) (t : Q) :
  sums_to l t -> sums_to (map (fun x => fadd x (Fin 0)) l) t.
Proof.
  revert t. induction l as [|x l IH]; intros t H; [exact H|].
  apply sums_to_cons_inv in H. destruct H as (p & s & -> & Hs & E).
  cbn [map fadd]. apply (sums_to_congr _ ((p + 0) + s)); [rewrite E; ring|].
  apply sums_to_cons. now apply IH.
Qed.

(** X12: for a session with at least two label changes whose labels are
    all below [max_syllable], the matrix that [get_transition_matrix]
    returns with ['bigram'] normalisation and [smoothing = 0] has finite
    entries that add up to 1. *)
Theorem get_transition_matrix_bigram_total (v : list Z) (max_syllable : nat) :
  Forall (fun l => 0 <= l < Z.of_nat max_syllable)%Z v ->
  (2 <= length (snd (get_transitions v)))%nat ->
  exists m,
    get_transition_matrix (one_session v) max_syllable (Some "bigram"%string) 0 false
    = Return (inr [m]) /\
    sums_to (concat m) 1.
Proof.
  intros Hv Hlen.
  assert (Hws : Forall (fun w => 0 <= fst w < Z.of_nat max_syllable
                                 /\ 0 <= snd w < Z.of_nat max_syllable)%Z
                       (sliding_window2 (fst (get_transitions v)))).
  { apply Forall_forall. intros [a b] Hin. apply sliding_window2_In in Hin.
    pose proof (get_transitions_Forall _ v Hv) as HT.
    rewrite Forall_forall in HT. cbn [fst snd]. split; apply HT; tauto. }
  destruct (n_gram_loop_total max_syllable _ (zeros2 max_syllable) 0
              (zeros2_square max_syllable) Hws (total_zeros2 max_syllable))
    as (m0 & Hm0 & Ht).
  fold (n_gram_transition_matrix (fst (get_transitions v)) max_syllable) in Hm0.
  rewrite sliding_window2_length, get_transitions_lengths in Ht.
  set (L := length (snd (get_transitions v))) in *.
  exists (normalize_transition_matrix (add_scalar m0 0) (Some "bigram"%string)).
  split.
  - unfold get_transition_matrix. destruct v as [|a r].
    + exfalso. unfold L in Hlen. simpl in Hlen. lia.
    + cbn [obind omap]. rewrite Hm0. reflexivity.
  - cbn [normalize_transition_matrix String.eqb Ascii.eqb Bool.eqb]. cbv iota beta.
    rewrite <- concat_map.
    apply (sums_to_normalized _ (0 + Qnat (L - 1))).
    + unfold add_scalar. rewrite <- concat_map. now apply sums_to_add_zero.
    + intro E. rewrite Qplus_0_l in E. unfold Qnat, Qeq in E. simpl in E. lia.
Qed.

(* ------------------------------------------------------------------ *)
(** ** Settings of [generate_config] *)

Lemma update_dict_get (new original : dict) (k : string) :
  dict_get String.eqb (_update_dict new original) k =
  match dict_get String.eqb original k with
  | None => None
  | Some v => Some (match dict_get String.eqb new k with
                    | Some x => x
                    | None => v
                    end)
  end.
Proof.
  unfold _update_dict.
  induction original as [|[k' v'] r IH]; [reflexivity|].
  cbn [map dict_get fst snd].
  destruct (String.eqb_spec k k') as [->|Hne]; [reflexivity|exact IH].
Qed.

Lemma update_dict_keys (new original : dict) :
  map fst (_update_dict new original) = map fst original.
Proof. unfold _update_dict. rewrite map_map. reflexivity. Qed.

(** X13: [_update_dict(new, original)] has exactly the keys of
    [original], in the same order, and never a key that only [new] has;
    the value of a key is the one of [new] when [new] has the key and the
    one of [original] otherwise. *)
Theorem update_dict_lookup (new original : dict) (k : string) :
  map fst (_update_dict new original) = map fst original /\
  dict_get String.eqb (_update_dict new original) k =
  match dict_get String.eqb original k with
  | None => None
  | Some v => Some (match dict_get String.eqb new k with
                    | Some x => x
                    | None => v
                    end)
  end.
Proof.
  split; [apply update_dict_keys|apply update_dict_get].
Qed.

Lemma dict_get_set_string (d : dict) (k k' : string) (v : pyval) :
  dict_get String.eqb (dict_set String.eqb d k v) k' =
  if String.eqb k' k then Some v else dict_get String.eqb d k'.
Proof.
  induction d as [|[k0 v0] r IH]; cbn [dict_set dict_get].
  - reflexivity.
  - destruct (String.eqb_spec k k0) as [->|Hne]; cbn [dict_get].
    + destruct (String.eqb_spec k' k0); reflexivity.
    + rewrite IH. destruct (String.eqb_spec k' k0) as [->|Hne'].
      * destruct (String.eqb_spec k0 k) as [->|]; [congruence|reflexivity].
      * reflexivity.
Qed.

Lemma update_dict_ext (new1 new2 original : dict) :
  (forall k, In k (map fst original) ->
             dict_get String.eqb new1 k = dict_get String.eqb new2 k) ->
  _update_dict new1 original = _update_dict new2 original.
Proof.
  intro H. unfold _update_dict. apply map_ext_in. intros [k v] Hin.
  cbn [fst snd]. rewrite (H k); [reflexivity|].
  apply in_map_iff. exists (k, v). auto.
Qed.

Lemma omap_ext {B C} (f g : B -> outcome C) (l : list B) :
  (forall b, In b l -> f b = g b) -> omap f l = omap g l.
Proof.
  induction l as [|a r IH]; intro H; [reflexivity|].
  cbn [omap]. rewrite (H a (or_introl eq_refl)).
  rewrite IH by (intros b Hb; apply H; now right). reflexivity.
Qed.

Lemma dict_get_In (d : dict) (k : string) (v : pyval) :
  dict_get String.eqb d k = Some v -> In (k, v) d.
Proof.
  induction d as [|[k' v'] r IH]; cbn [dict_get]; [discriminate|].
  destruct (String.eqb_spec k k') as [->|Hne].
  - intro H. injection H as ->. now left.
  - intro H. right. now apply IH.
Qed.

Lemma dict_get_None (d : dict) (k : string) :
  dict_get String.eqb d k = None <-> ~ In k (map fst d).
Proof.
  induction d as [|[k' v'] r IH]; cbn [dict_get map fst In]; [tauto|].
  destruct (String.eqb_spec k k') as [->|Hne].
  - split; [discriminate|]. intro H. exfalso. apply H. now left.
  - rewrite IH. split; intro H; [intros [E|Hin]; [congruence|contradiction]|tauto].
Qed.

Lemma update_dict_In (new original : dict) (k : string) (v : pyval) :
  In (k, v) (_update_dict new original) ->
  (dict_get String.eqb new k = Some v) \/
  (dict_get String.eqb new k = None /\ In (k, v) original).
Proof.
  unfold _update_dict. intro H. apply in_map_iff in H.
  destruct H as ([k' v'] & E & Hin). cbn [fst snd] in E.
  injection E as -> E.
  destruct (dict_get String.eqb new k) as [x|]; [left; now subst|right].
  subst. auto.
Qed.

(** X14: a keyword of [generate_config] that is no setting (it is not a
    key of the default settings, of a default hyperparameter group or of a
    group passed as keyword) has no effect at all: the sections are the
    same with and without it, so that no new setting can be added. *)
Theorem generate_config_unknown_keyword (kwargs : dict) (k : string) (v : pyval) :
  ~ In k (map fst default_anatomy ++ map fst default_fitting
          ++ map fst default_other ++ hypparam_groups) ->
  (forall g d, In (g, PDict d) default_hypparams -> ~ In k (map fst d)) ->
  (forall g d, In g hypparam_groups ->
               dict_get String.eqb kwargs g = Some (PDict d) -> ~ In k (map fst d)) ->
  generate_config (dict_set String.eqb kwargs k v) = generate_config kwargs.
Proof.
  intros Hk Hdef Hgiven.
  assert (Hget : forall k', k' <> k ->
            dict_get String.eqb (dict_set String.eqb kwargs k v) k'
            = dict_get String.eqb kwargs k').
  { intros k' Hne. rewrite dict_get_set_string.
    destruct (String.eqb_spec k' k); [contradiction|reflexivity]. }
  assert (Hupd : forall original, ~ In k (map fst original) ->
            _update_dict (dict_set String.eqb kwargs k v) original
            = _update_dict kwargs original).
  { intros original Hno. apply update_dict_ext. intros k' Hin.
    apply Hget. intro E. subst. contradiction. }
  unfold generate_config.
  rewrite (Hupd default_hypparams)
    by (intro H; apply Hk; rewrite !in_app_iff; auto).
  rewrite (Hupd default_anatomy)
    by (intro H; apply Hk; rewrite !in_app_iff; auto).
  rewrite (Hupd default_other)
    by (intro H; apply Hk; rewrite !in_app_iff; auto).
  rewrite (Hupd default_fitting)
    by (intro H; apply Hk; rewrite !in_app_iff; auto).
  rewrite (omap_ext
             (fun kv : string * pyval =>
                (x <- update_value (dict_set String.eqb kwargs k v) (snd kv) ;;
                 Return (fst kv, x))%out)
             (fun kv : string * pyval =>
                (x <- update_value kwargs (snd kv) ;; Return (fst kv, x))%out));
    [reflexivity|].
  intros [g x] Hin. cbn [fst snd].
  destruct x as [| | | | |d]; try reflexivity.
  cbn [update_value]. rewrite (Hupd d); [reflexivity|].
  assert (Hg : In g hypparam_groups).
  { unfold hypparam_groups.
    rewrite <- (update_dict_keys kwargs default_hypparams).
    apply in_map_iff. exists (g, PDict d). auto. }
  apply update_dict_In in Hin. destruct Hin as [Hnew|[_ Hin]].
  - exact (Hgiven g d Hg Hnew).
  - exact (Hdef g d Hin).
Qed.

Lemma hypparams_loop_get (kwargs : dict) (l : dict) : forall (l' : dict) (g : string) (d : dict),
  omap (fun kv : string * pyval =>
          (x <- update_value kwargs (snd kv) ;; Return (fst kv, x))%out) l
  = Return l' ->
  dict_get String.eqb l g = Some (PDict d) ->
  dict_get String.eqb l' g = Some (PDict (_update_dict kwargs d)).
Proof.
  induction l as [|[k0 v0] r IH]; intros l' g d Hl Hg; [discriminate|].
  cbn [omap fst snd] in Hl.
  destruct (update_value kwargs v0) as [x|e] eqn:Ex; [|discriminate].
  cbn [obind] in Hl.
  destruct (omap _ r) as [r'|e] eqn:Er; [|discriminate].
  cbn [obind] in Hl. injection Hl as <-.
  cbn [dict_get] in *. destruct (String.eqb g k0).
  - injection Hg as ->. cbn [update_value] in Ex. now injection Ex as <-.
  - now apply (IH r').
Qed.

Lemma hypparams_loop_outcome (kwargs : dict) (l : dict) :
  match omap (fun kv : string * pyval =>
                (x <- update_value kwargs (snd kv) ;; Return (fst kv, x))%out) l with
  | Return l' => forall g v, In (g, v) l -> exists d, v = PDict d
  | Throw e => e = AttributeError /\
               exists g v, In (g, v) l /\ forall d, v <> PDict d
  end.
Proof.
  induction l as [|[k0 v0] r IH]; [intros g v []|].
  cbn [omap fst snd].
  destruct v0 as [| | | | |d0];
    try (cbn [update_value obind]; split; [reflexivity|];
         eexists _, _; split; [now left|discriminate]).
  cbn [update_value obind].
  destruct (omap _ r) as [r'|e]; cbn [obind].
  - intros g v [E|Hin]; [injection E as <- <-; now exists d0|now apply (IH g v)].
  - destruct IH as (-> & g & v & Hin & Hv). split; [reflexivity|].
    exists g, v. split; [now right|exact Hv].
Qed.

Lemma default_hypparams_dicts (g : string) (v : pyval) :
  In (g, v) default_hypparams -> exists d, v = PDict d.
Proof.
  unfold default_hypparams. cbn [In].
  intros [E|[E|[E|[E|[E|[]]]]]]; injection E as <- <-; eexists; reflexivity.
Qed.

(** X15: [generate_config] raises (an [AttributeError]) exactly when a
    keyword that has the name of a hyperparameter group holds something
    that is not a dict; otherwise it returns the four sections ANATOMY,
    FITTING, HYPER PARAMS and OTHER, in this order, and the first, second
    and last of them have exactly the keys of the default settings. *)
Theorem generate_config_outcome (kwargs : dict) :
  match generate_config kwargs with
  | Return sections =>
      (forall g v, In g hypparam_groups ->
                   dict_get String.eqb kwargs g = Some v -> exists d, v = PDict d) /\
      exists anatomy fitting hypperams other,
        sections = [("ANATOMY"%string, anatomy); ("FITTING"%string, fitting);
                    ("HYPER PARAMS"%string, hypperams); ("OTHER"%string, other)] /\
        map fst anatomy = map fst default_anatomy /\
        map fst fitting = map fst default_fitting /\
        map fst other = map fst default_other
  | Throw e =>
      e = AttributeError /\
      exists g v, In g hypparam_groups /\
                  dict_get String.eqb kwargs g = Some v /\ forall d, v <> PDict d
  end.
Proof.
  unfold generate_config.
  pose proof (hypparams_loop_outcome kwargs (_update_dict kwargs default_hypparams)) as H.
  destruct (omap _ (_update_dict kwargs default_hypparams)) as [hyp|e]; cbn [obind].
  - split.
    + intros g v Hg Hv. apply (H g v).
      apply dict_get_In. rewrite update_dict_get.
      unfold hypparam_groups in Hg.
      destruct (dict_get String.eqb default_hypparams g) as [v0|] eqn:E.
      * now rewrite Hv.
      * apply dict_get_None in E. contradiction.
    + eexists _, _, _, _. split; [reflexivity|].
      now rewrite !update_dict_keys.
  - destruct H as (-> & g & v & Hin & Hv). split; [reflexivity|].
    exists g, v.
    assert (Hg : In g hypparam_groups).
    { unfold hypparam_groups. rewrite <- (update_dict_keys kwargs default_hypparams).
      apply in_map_iff. exists (g, v). auto. }
    split; [exact Hg|].
    apply update_dict_In in Hin. destruct Hin as [Hnew|[_ Hin]].
    + split; [exact Hnew|exact Hv].
    + exfalso. destruct (default_hypparams_dicts g v Hin) as (d & ->).
      exact (Hv d eq_refl).
Qed.

(** X16: in the HYPER PARAMS section that [generate_config] writes, the
    value of a hyperparameter [k] of a group [g] (the group that is passed
    as keyword [g], or the default group when there is no such keyword) is
    the value of the keyword [k] when there is one, and the value that
    the group holds otherwise: a hyperparameter is set by its bare name. *)
Theorem generate_config_hyperparameter (kwargs : dict)
  (sections : list (string * dict)) (g k : string) (d : dict) (v0 : pyval) :
  generate_config kwargs = Return sections ->
  In g hypparam_groups ->
  match dict_get String.eqb kwargs g with
  | Some v => Some v
  | None => dict_get String.eqb default_hypparams g
  end = Some (PDict d) ->
  dict_get String.eqb d k = Some v0 ->
  exists hypperams group,
    dict_get String.eqb sections "HYPER PARAMS"%string = Some hypperams /\
    dict_get String.eqb hypperams g = Some (PDict group) /\
    map fst group = map fst d /\
    dict_get String.eqb group k =
    Some (match dict_get String.eqb kwargs k with
          | Some x => x
          | None => v0
          end).
Proof.
  intros Hgen Hg Hd Hk. unfold generate_config in Hgen.
  destruct (omap _ (_update_dict kwargs default_hypparams)) as [hyp|e] eqn:Eh;
    [|discriminate].
  cbn [obind] in Hgen. injection Hgen as <-.
  exists hyp, (_update_dict kwargs d). split; [reflexivity|]. split; [|split].
  - apply (hypparams_loop_get kwargs _ hyp g d Eh).
    rewrite update_dict_get.
    unfold hypparam_groups in Hg.
    destruct (dict_get String.eqb default_hypparams g) as [v1|] eqn:E.
    + destruct (dict_get String.eqb kwargs g) as [v|]; [now injection Hd as ->|exact Hd].
    + apply dict_get_None in E. contradiction.
  - apply update_dict_keys.
  - rewrite update_dict_get, Hk. reflexivity.
Qed.

(* ------------------------------------------------------------------ *)
(** ** Validity of a configuration *)

Lemma check_bodyparts_list (config : dict) (key : string) (bodyparts : list pyval)
  (items : list pyval) : forall msgs,
  dict_get String.eqb config "bodyparts"%string = Some (PList bodyparts) ->
  check_bodyparts config key items msgs
  = Return (msgs ++ messages key bodyparts items).
Proof.
  intros msgs Hb. unfold check_bodyparts, messages. revert msgs.
  induction items as [|x r IH]; intro msgs.
  - cbn [ofold filter map]. now rewrite app_nil_r.
  - cbn [ofold]. unfold py_getitem at 1. rewrite Hb. cbn [obind py_in].
    change (filter (unknown_bodypart bodyparts) (x :: r))
      with (if negb (existsb (py_eqb x) bodyparts)
            then x :: filter (unknown_bodypart bodyparts) r
            else filter (unknown_bodypart bodyparts) r).
    destruct (existsb (py_eqb x) bodyparts); cbn [negb].
    + apply IH.
    + rewrite IH. cbn [map]. now rewrite <- app_assoc.
Qed.

Lemma py_sum_lists_concat (ll : list (list pyval)) :
  py_sum_lists (PList (map PList ll)) = Return (concat ll).
Proof.
  unfold py_sum_lists. cbn [py_iter obind].
  assert (H : forall acc,
             ofold (fun acc e => match e with
                                 | PList l => Return (acc ++ l)
                                 | _ => Throw TypeError
                                 end) (map PList ll) acc
             = Return (acc ++ concat ll)).
  { induction ll as [|l r IH]; intro acc; cbn [map ofold concat obind].
    - now rewrite app_nil_r.
    - rewrite IH. now rewrite app_assoc. }
  exact (H []).
Qed.

Lemma check_config_validity_anatomy (config : dict) (bodyparts use_bodyparts : list pyval)
  (skeleton : list (list pyval)) (anterior posterior : list pyval) :
  anatomy_of config bodyparts use_bodyparts skeleton anterior posterior ->
  let msgs := messages "use_bodyparts" bodyparts use_bodyparts
              ++ messages "skeleton" bodyparts (concat skeleton)
              ++ messages "anterior_bodyparts" bodyparts anterior
              ++ messages "posterior_bodyparts" bodyparts posterior in
  check_config_validity config
  = Return (match msgs with [] => true | _ => false end, msgs).
Proof.
  intros (Hb & Hu & Hs & Ha & Hp) msgs. unfold check_config_validity.
  unfold py_getitem at 1. rewrite Hu. cbn [obind py_iter].
  rewrite (check_bodyparts_list config _ bodyparts _ _ Hb). cbn [obind].
  unfold py_getitem at 1. rewrite Hs. cbn [obind].
  rewrite py_sum_lists_concat. cbn [obind].
  rewrite (check_bodyparts_list config _ bodyparts _ _ Hb). cbn [obind].
  unfold py_getitem at 1. rewrite Ha. cbn [obind py_iter].
  rewrite (check_bodyparts_list config _ bodyparts _ _ Hb). cbn [obind].
  unfold py_getitem at 1. rewrite Hp. cbn [obind py_iter].
  rewrite (check_bodyparts_list config _ bodyparts _ _ Hb). cbn [obind].
  cbn [app]. unfold msgs. rewrite <- !app_assoc. reflexivity.
Qed.

Lemma messages_nil (key : string) (bodyparts items : list pyval) :
  messages key bodyparts items = [] <->
  Forall (fun x => existsb (py_eqb x) bodyparts = true) items.
Proof.
  unfold messages. induction items as [|x r IH]; cbn [filter map].
  - split; [constructor|reflexivity].
  - unfold unknown_bodypart at 1.
    destruct (existsb (py_eqb x) bodyparts) eqn:E; cbn [negb].
    + rewrite IH. split; [now constructor|now inversion 1].
    + cbn [map]. split; [discriminate|]. inversion 1; congruence.
Qed.

(** X17: for a config whose anatomy entries are lists (and whose
    skeleton is a list of lists), [check_config_validity] answers [True]
    exactly when every value of [use_bodyparts], of the edges of
    [skeleton], of [anterior_bodyparts] and of [posterior_bodyparts] is
    one of [bodyparts]; it prints one message for every value that is not,
    in the order use_bodyparts, skeleton, anterior, posterior. *)
Theorem check_config_validity_iff (config : dict) (bodyparts use_bodyparts : list pyval)
  (skeleton : list (list pyval)) (anterior posterior : list pyval) :
  anatomy_of config bodyparts use_bodyparts skeleton anterior posterior ->
  exists validity error_messages,
    check_config_validity config = Return (validity, error_messages) /\
    error_messages = messages "use_bodyparts" bodyparts use_bodyparts
                     ++ messages "skeleton" bodyparts (concat skeleton)
                     ++ messages "anterior_bodyparts" bodyparts anterior
                     ++ messages "posterior_bodyparts" bodyparts posterior /\
    (validity = true <->
     Forall (fun x => existsb (py_eqb x) bodyparts = true)
            (use_bodyparts ++ concat skeleton ++ anterior ++ posterior)).
Proof.
  intro H. eexists _, _. split; [exact (check_config_validity_anatomy _ _ _ _ _ _ H)|].
  split; [reflexivity|].
  rewrite !Forall_app.
  rewrite <- (messages_nil "use_bodyparts" bodyparts use_bodyparts).
  rewrite <- (messages_nil "skeleton" bodyparts (concat skeleton)).
  rewrite <- (messages_nil "anterior_bodyparts" bodyparts anterior).
  rewrite <- (messages_nil "posterior_bodyparts" bodyparts posterior).
  destruct (messages "use_bodyparts" bodyparts use_bodyparts) as [|m1 r1];
    [|cbn [app]; split; [discriminate|intros [E _]; discriminate E]].
  destruct (messages "skeleton" bodyparts (concat skeleton)) as [|m2 r2];
    [|cbn [app]; split; [discriminate|intros (_ & E & _); discriminate E]].
  destruct (messages "anterior_bodyparts" bodyparts anterior) as [|m3 r3];
    [|cbn [app]; split; [discriminate|intros (_ & _ & E & _); discriminate E]].
  destruct (messages "posterior_bodyparts" bodyparts posterior) as [|m4 r4];
    [|cbn [app]; split; [discriminate|intros (_ & _ & _ & E); discriminate E]].
  cbn [app]. tauto.
Qed.

(** X18: for such a config the answer of [check_config_validity] has no
    effect on [load_config]: with and without [check_if_valid] the same
    config is returned, or the same exception raised, also when the check
    fails. *)
Theorem load_config_ignores_validity (config : dict) (bodyparts use_bodyparts : list pyval)
  (skeleton : list (list pyval)) (anterior posterior : list pyval)
  (build_indexes : bool) :
  anatomy_of config bodyparts use_bodyparts skeleton anterior posterior ->
  load_config config true build_indexes = load_config config false build_indexes.
Proof.
  intro H. unfold load_config.
  rewrite (check_config_validity_anatomy _ _ _ _ _ _ H). reflexivity.
Qed.

(* ------------------------------------------------------------------ *)
(** ** Indexes of the anterior and posterior bodyparts *)

Lemma first_index_position (x : pyval) (l : list pyval) : forall i,
  first_index x l = Some i -> first_position l x i.
Proof.
  induction l as [|y r IH]; intros i H; [discriminate|].
  cbn [first_index] in H. destruct (py_eqb y x) eqn:E.
  - injection H as <-. split.
    + exists y. now split.
    + intros j y' Hj. lia.
  - destruct (first_index x r) as [k|] eqn:Ek; [|discriminate].
    injection H as <-. destruct (IH k eq_refl) as [(y0 & Hy0 & Ey0) Hbefore].
    split.
    + exists y0. now split.
    + intros [|j] y' Hj Hy'.
      * cbn [nth_error] in Hy'. now injection Hy' as <-.
      * cbn [nth_error] in Hy'. apply (Hbefore j y'); [lia|exact Hy'].
Qed.

Lemma first_index_None (x : pyval) (l : list pyval) :
  first_index x l = None -> forall y, In y l -> py_eqb y x = false.
Proof.
  induction l as [|y r IH]; intros H y' Hin; [contradiction|].
  cbn [first_index] in H. destruct (py_eqb y x) eqn:E; [discriminate|].
  destruct (first_index x r); [discriminate|].
  destruct Hin as [<-|Hin]; [exact E|now apply IH].
Qed.

Lemma bodypart_indexes_list (config : dict) (key : string)
  (use_bodyparts items : list pyval) :
  dict_get String.eqb config "use_bodyparts"%string = Some (PList use_bodyparts) ->
  dict_get String.eqb config key = Some (PList items) ->
  match bodypart_indexes config key with
  | Return idxs =>
      Forall2 (fun i bp => first_index bp use_bodyparts = Some i) idxs items
  | Throw e =>
      e = Builtin ValueError /\
      exists bp, In bp items /\ first_index bp use_bodyparts = None
  end.
Proof.
  intros Hu Hk. unfold bodypart_indexes, py_getitem at 1. rewrite Hk.
  cbn [obind py_iter]. clear Hk.
  induction items as [|bp r IH]; [constructor|].
  cbn [omap]. unfold py_getitem at 1. rewrite Hu. cbn [obind py_index].
  destruct (first_index bp use_bodyparts) as [i|] eqn:E; cbn [obind].
  - destruct (omap _ r) as [idxs|e]; cbn [obind].
    + now constructor.
    + destruct IH as (-> & bp' & Hin & Hbp'). split; [reflexivity|].
      exists bp'. split; [now right|exact Hbp'].
  - split; [reflexivity|]. exists bp. split; [now left|exact E].
Qed.

Lemma load_config_skeleton_step (config : dict) (k : string) :
  k <> "skeleton"%string ->
  dict_get String.eqb
    (match dict_get String.eqb config "skeleton"%string with
     | None | Some PNone => dict_set String.eqb config "skeleton"%string (PList [])
     | Some _ => config
     end) k
  = dict_get String.eqb config k.
Proof.
  intro Hne.
  assert (E : dict_get String.eqb (dict_set String.eqb config "skeleton"%string (PList [])) k
              = dict_get String.eqb config k).
  { rewrite dict_get_set_string.
    destruct (String.eqb_spec k "skeleton"); [contradiction|reflexivity]. }
  destruct (dict_get String.eqb config "skeleton"%string) as [[| | | | |]|]; auto.
Qed.

(** X19: for a config in which [use_bodyparts], [anterior_bodyparts] and
    [posterior_bodyparts] are lists, [load_config] with [build_indexes]
    raises a [ValueError] exactly when an anterior or posterior bodypart
    is not in [use_bodyparts] (being one of [bodyparts] does not help);
    otherwise [anterior_idxs] and [posterior_idxs] hold, for every such
    bodypart in order, its first position in [use_bodyparts]. *)
Theorem load_config_indexes (config : dict)
  (use_bodyparts anterior posterior : list pyval) :
  dict_get String.eqb config "use_bodyparts"%string = Some (PList use_bodyparts) ->
  dict_get String.eqb config "anterior_bodyparts"%string = Some (PList anterior) ->
  dict_get String.eqb config "posterior_bodyparts"%string = Some (PList posterior) ->
  match load_config config false true with
  | Return loaded =>
      exists a_idxs p_idxs,
        dict_get String.eqb loaded "anterior_idxs"%string = Some (index_array a_idxs) /\
        dict_get String.eqb loaded "posterior_idxs"%string = Some (index_array p_idxs) /\
        Forall2 (fun i bp => first_position use_bodyparts bp i) a_idxs anterior /\
        Forall2 (fun i bp => first_position use_bodyparts bp i) p_idxs posterior
  | Throw e =>
      e = Builtin ValueError /\
      exists bp, In bp (anterior ++ posterior) /\
                 forall y, In y use_bodyparts -> py_eqb y bp = false
  end.
Proof.
  intros Hu Ha Hp. unfold load_config. cbn [obind].
  pose proof (bodypart_indexes_list config "anterior_bodyparts" use_bodyparts anterior
                Hu Ha) as H1.
  destruct (bodypart_indexes config "anterior_bodyparts") as [a_idxs|e]; cbn [obind].
  - set (config1 := dict_set String.eqb config "anterior_idxs"%string (index_array a_idxs)).
    assert (Hu1 : dict_get String.eqb config1 "use_bodyparts"%string
                  = Some (PList use_bodyparts)).
    { unfold config1. rewrite dict_get_set_string. exact Hu. }
    assert (Hp1 : dict_get String.eqb config1 "posterior_bodyparts"%string
                  = Some (PList posterior)).
    { unfold config1. rewrite dict_get_set_string. exact Hp. }
    pose proof (bodypart_indexes_list config1 "posterior_bodyparts" use_bodyparts posterior
                  Hu1 Hp1) as H2.
    destruct (bodypart_indexes config1 "posterior_bodyparts") as [p_idxs|e]; cbn [obind].
    + exists a_idxs, p_idxs. split; [|split; [|split]].
      * rewrite load_config_skeleton_step by discriminate.
        rewrite dict_get_set_string. cbn [String.eqb Ascii.eqb Bool.eqb].
        unfold config1. rewrite dict_get_set_string. reflexivity.
      * rewrite load_config_skeleton_step by discriminate.
        rewrite dict_get_set_string. reflexivity.
      * eapply Forall2_impl; [|exact H1]. intros i bp. apply first_index_position.
      * eapply Forall2_impl; [|exact H2]. intros i bp. apply first_index_position.
    + destruct H2 as (-> & bp & Hin & Hbp). split; [reflexivity|].
      exists bp. split; [apply in_or_app; now right|now apply first_index_None].
  - destruct H1 as (-> & bp & Hin & Hbp). split; [reflexivity|].
    exists bp. split; [apply in_or_app; now left|now apply first_index_None].
Qed.

(** X20: [load_config] gives a config without [skeleton] (or with the
    skeleton [None]) the skeleton [[]] only when [check_if_valid] is off.
    With the default [check_if_valid=True], and [bodyparts] and
    [use_bodyparts] being lists, [check_config_validity] is reached first
    and raises: a [KeyError] for the missing key, a [TypeError] for
    [None]. *)
Theorem load_config_missing_skeleton (config : dict)
  (bodyparts use_bodyparts : list pyval) (build_indexes : bool) :
  dict_get String.eqb config "bodyparts"%string = Some (PList bodyparts) ->
  dict_get String.eqb config "use_bodyparts"%string = Some (PList use_bodyparts) ->
  (dict_get String.eqb config "skeleton"%string = None ->
   load_config config true build_indexes = Throw (Builtin KeyError) /\
   load_config config false false
   = Return (dict_set String.eqb config "skeleton"%string (PList []))) /\
  (dict_get String.eqb config "skeleton"%string = Some PNone ->
   load_config config true build_indexes = Throw TypeError /\
   load_config config false false
   = Return (dict_set String.eqb config "skeleton"%string (PList []))).
Proof.
  intros Hb Hu.
  split; intro Hs.
  - split.
    + unfold load_config, check_config_validity.
      unfold py_getitem at 1. rewrite Hu. cbn [obind py_iter].
      rewrite (check_bodyparts_list config _ bodyparts _ _ Hb). cbn [obind].
      unfold py_getitem at 1. rewrite Hs. reflexivity.
    + unfold load_config. cbn [obind]. now rewrite Hs.
  - split.
    + unfold load_config, check_config_validity.
      unfold py_getitem at 1. rewrite Hu. cbn [obind py_iter].
      rewrite (check_bodyparts_list config _ bodyparts _ _ Hb). cbn [obind].
      unfold py_getitem at 1. rewrite Hs. reflexivity.
    + unfold load_config. cbn [obind]. now rewrite Hs.
Qed.

(* ------------------------------------------------------------------ *)
(** ** The loop of [load_keypoints] *)

Section LoadKeypoints.

Context {A : Type}.
Variable loader : string -> string
                  -> outcome (list (string * A) * list (string * A) * list string).
Variables (path_in_name remove_extension : bool) (path_sep : string).


Lemma load_file_failed (st : load_state A) (filepath : string) (e : error) :
  load_result loader path_in_name path_sep remove_extension filepath = Throw e ->
  load_file loader path_in_name path_sep remove_extension st filepath =
  match new_coordinates st, new_confidences st with
  | Some new_coords, Some new_confs =>
      Return (mkLoad (dict_update (coordinates st) new_coords)
                     (dict_update (confidences st) new_confs)
                     (bodyparts st) (new_coordinates st) (new_confidences st))
  | _, _ => Throw UnboundLocalError
  end.
Proof.
  unfold load_result, load_file, load_try. intro H.
  rewrite H. reflexivity.
Qed.

Lemma load_file_loaded (st : load_state A) (filepath : string)
  (new_coords new_confs : list (string * A)) (bps : list string) :
  load_result loader path_in_name path_sep remove_extension filepath = Return (new_coords, new_confs, bps) ->
  load_file loader path_in_name path_sep remove_extension st filepath =
  Return (mkLoad (dict_update (coordinates st) new_coords)
                 (dict_update (confidences st) new_confs)
                 (Some bps) (Some new_coords) (Some new_confs)).
Proof.
  unfold load_result, load_file, load_try. intro H.
  rewrite H. destruct (keys_intersect new_coords (coordinates st)); reflexivity.
Qed.

Lemma ofold_app {B S} (f : S -> B -> outcome S) (l1 l2 : list B) : forall s,
  ofold f (l1 ++ l2) s = obind (ofold f l1 s) (ofold f l2).
Proof.
  induction l1 as [|a r IH]; intro s; [reflexivity|].
  cbn [app ofold]. destruct (f s a) as [s'|e]; cbn [obind]; [apply IH|reflexivity].
Qed.

(** X21: when the loader fails on the first file, the loop of
    [load_keypoints] does not skip the file: the exception is caught, but
    the update that follows reads [new_coordinates] before any loader has
    bound it, and an [UnboundLocalError] ends the call. *)
Theorem load_keypoints_first_file_fails (filepath_pattern filepath : string)
  (rest : list string) (e : error) :
  load_result loader path_in_name path_sep remove_extension filepath = Throw e ->
  load_keypoints_loop loader filepath_pattern (filepath :: rest) path_sep
                      path_in_name remove_extension
  = Throw UnboundLocalError.
Proof.
  intro H. unfold load_keypoints_loop. cbn [ofold].
  rewrite (load_file_failed _ filepath e H). reflexivity.
Qed.

(* Updating twice with the same dict *)

Lemma dict_set_same {V} (d : list (string * V)) (k : string) (v : V) :
  dict_get String.eqb d k = Some v -> dict_set String.eqb d k v = d.
Proof.
  induction d as [|[k' v'] r IH]; cbn [dict_get dict_set]; [discriminate|].
  destruct (String.eqb_spec k k') as [->|Hne].
  - intro H. now injection H as ->.
  - intro H. now rewrite IH.
Qed.

Lemma dict_get_set_V {V} (d : list (string * V)) (k k' : string) (v : V) :
  dict_get String.eqb (dict_set String.eqb d k v) k' =
  if String.eqb k' k then Some v else dict_get String.eqb d k'.
Proof.
  induction d as [|[k0 v0] r IH]; cbn [dict_set dict_get].
  - reflexivity.
  - destruct (String.eqb_spec k k0) as [->|Hne]; cbn [dict_get].
    + destruct (String.eqb_spec k' k0); reflexivity.
    + rewrite IH. destruct (String.eqb_spec k' k0) as [->|Hne'].
      * destruct (String.eqb_spec k0 k) as [->|]; [congruence|reflexivity].
      * reflexivity.
Qed.

Lemma dict_update_get {V} (other : list (string * V)) : forall (d : list (string * V)) (k : string),
  NoDup (map fst other) ->
  dict_get String.eqb (dict_update d other) k =
  match dict_get String.eqb other k with
  | Some v => Some v
  | None => dict_get String.eqb d k
  end.
Proof.
  unfold dict_update.
  induction other as [|[k0 v0] r IH]; intros d k Hnd; [reflexivity|].
  cbn [map fst] in Hnd. inversion Hnd as [|? ? Hnotin Hnd']; subst.
  cbn [fold_left fst snd dict_get]. rewrite (IH _ k Hnd').
  rewrite dict_get_set_V.
  destruct (String.eqb_spec k k0) as [->|Hne]; [|reflexivity].
  destruct (dict_get String.eqb r k0) as [v|] eqn:E; [|reflexivity].
  exfalso. apply Hnotin. clear -E.
  induction r as [|[k1 v1] r IH]; cbn [dict_get] in E; [discriminate|].
  cbn [map fst]. destruct (String.eqb_spec k0 k1) as [->|Hne]; [now left|right; auto].
Qed.

Lemma dict_update_settled {V} (other : list (string * V)) : forall (d : list (string * V)),
  (forall k v, In (k, v) other -> dict_get String.eqb d k = Some v) ->
  dict_update d other = d.
Proof.
  unfold dict_update.
  induction other as [|[k0 v0] r IH]; intros d H; [reflexivity|].
  cbn [fold_left fst snd].
  rewrite (dict_set_same d k0 v0) by (apply H; now left).
  apply IH. intros k v Hin. apply H. now right.
Qed.

Lemma dict_get_In_V {V} (d : list (string * V)) (k : string) (v : V) :
  NoDup (map fst d) -> In (k, v) d -> dict_get String.eqb d k = Some v.
Proof.
  induction d as [|[k' v'] r IH]; intros Hnd Hin; [contradiction|].
  cbn [map fst] in Hnd. inversion Hnd as [|? ? Hnotin Hnd']; subst.
  cbn [dict_get]. destruct Hin as [E|Hin].
  - injection E as -> ->. now rewrite String.eqb_refl.
  - destruct (String.eqb_spec k k') as [->|Hne]; [|now apply IH].
    exfalso. apply Hnotin. apply in_map_iff. exists (k', v). auto.
Qed.

Lemma dict_update_idem {V} (d other : list (string * V)) :
  NoDup (map fst other) ->
  dict_update (dict_update d other) other = dict_update d other.
Proof.
  intro Hnd. apply dict_update_settled. intros k v Hin.
  rewrite (dict_update_get other d k Hnd).
  now rewrite (dict_get_In_V other k v Hnd Hin).
Qed.

Hypothesis loader_dicts : forall filepath name new_coords new_confs bps,
  loader filepath name = Return (new_coords, new_confs, bps) ->
  NoDup (map fst new_coords) /\ NoDup (map fst new_confs).

Lemma step_settled (st st' : load_state A) (filepath : string) :
  unique_keys st -> load_file loader path_in_name path_sep remove_extension st filepath = Return st' -> settled st'.
Proof.
  intros Hu Hs.
  destruct (load_result loader path_in_name path_sep remove_extension filepath) as [[[nc nf] bps]|e] eqn:E.
  - rewrite (load_file_loaded st filepath nc nf bps E) in Hs. injection Hs as <-.
    destruct (loader_dicts _ _ _ _ _ E) as [H1 H2].
    unfold settled. cbn. repeat split; auto using dict_update_idem.
  - rewrite (load_file_failed st filepath e E) in Hs.
    unfold unique_keys in Hu.
    destruct (new_coordinates st) as [nc|] eqn:E1; [|discriminate].
    destruct (new_confidences st) as [nf|] eqn:E2; [|discriminate].
    injection Hs as <-. destruct Hu as [H1 H2].
    unfold settled. cbn. repeat split; auto using dict_update_idem.
Qed.

Lemma settled_unique (st : load_state A) : settled st -> unique_keys st.
Proof.
  unfold settled, unique_keys.
  destruct (new_coordinates st), (new_confidences st); tauto.
Qed.

Lemma ofold_settled (l : list string) : forall (st st' : load_state A),
  l <> [] -> unique_keys st -> ofold (load_file loader path_in_name path_sep remove_extension) l st = Return st' -> settled st'.
Proof.
  induction l as [|f r IH]; intros st st' Hne Hu H; [congruence|].
  cbn [ofold] in H. destruct (load_file loader path_in_name path_sep remove_extension st f) as [s1|e] eqn:E; [|discriminate].
  cbn [obind] in H. pose proof (step_settled st s1 f Hu E) as Hs1.
  destruct r as [|g r'].
  - cbn [ofold] in H. now injection H as <-.
  - apply (IH s1 st'); [discriminate|now apply settled_unique|exact H].
Qed.

Lemma step_failed_settled (st : load_state A) (filepath : string) (e : error) :
  settled st -> load_result loader path_in_name path_sep remove_extension filepath = Throw e -> load_file loader path_in_name path_sep remove_extension st filepath = Return st.
Proof.
  intros Hs He. rewrite (load_file_failed st filepath e He).
  unfold settled in Hs. destruct st as [c f b nc nf]. cbn in *.
  destruct nc as [nc|]; [|contradiction]. destruct nf as [nf|]; [|contradiction].
  destruct Hs as (_ & _ & -> & ->). reflexivity.
Qed.

(** X22: a file on which the loader fails is skipped when it is not the
    first one (the loaders returning dicts): the loop of
    [load_keypoints] gives the same result, or raises the same exception,
    as on the list of files without it. *)
Theorem load_keypoints_skips_failed_file (filepath_pattern filepath : string)
  (before after : list string) (e : error) :
  before <> [] ->
  load_result loader path_in_name path_sep remove_extension filepath = Throw e ->
  load_keypoints_loop loader filepath_pattern (before ++ filepath :: after) path_sep
                      path_in_name remove_extension
  = load_keypoints_loop loader filepath_pattern (before ++ after) path_sep
                        path_in_name remove_extension.
Proof.
  intros Hne He. unfold load_keypoints_loop.
  rewrite !ofold_app.
  destruct (ofold (load_file loader path_in_name path_sep remove_extension) before (mkLoad [] [] None None None)) as [st|e'] eqn:E;
    [|reflexivity].
  cbn [obind ofold].
  assert (Hs : settled st).
  { apply (ofold_settled before (mkLoad [] [] None None None) st Hne); [exact I|exact E]. }
  now rewrite (step_failed_settled st filepath e Hs He).
Qed.

Lemma ofold_loaded (l : list string) : forall (st : load_state A),
  (forall f, In f l -> exists out, load_result loader path_in_name path_sep remove_extension f = Return out) ->
  exists st',
    ofold (load_file loader path_in_name path_sep remove_extension) l st = Return st' /\
    coordinates st' =
    fold_left dict_update (map (fun f => loaded_coordinates (load_result loader path_in_name path_sep remove_extension f)) l)
              (coordinates st) /\
    confidences st' =
    fold_left dict_update (map (fun f => loaded_confidences (load_result loader path_in_name path_sep remove_extension f)) l)
              (confidences st).
Proof.
  induction l as [|f r IH]; intros st H.
  - exists st. auto.
  - destruct (H f (or_introl eq_refl)) as ([[nc nf] bps] & E).
    cbn [ofold map fold_left]. rewrite (load_file_loaded st f nc nf bps E).
    cbn [obind].
    destruct (IH (mkLoad (dict_update (coordinates st) nc)
                         (dict_update (confidences st) nf)
                         (Some bps) (Some nc) (Some nf)))
      as (st' & Hst' & Hc & Hf).
    { intros g Hg. apply H. now right. }
    exists st'. split; [exact Hst'|]. rewrite E. cbn [loaded_coordinates loaded_confidences].
    split; [exact Hc|exact Hf].
Qed.

Lemma fold_update_get {V} (ds : list (list (string * V))) : forall (d : list (string * V)) (k : string),
  Forall (fun other => NoDup (map fst other)) ds ->
  Forall (fun other => dict_get String.eqb other k = None) ds ->
  dict_get String.eqb (fold_left dict_update ds d) k = dict_get String.eqb d k.
Proof.
  induction ds as [|o r IH]; intros d k Hnd Hk; [reflexivity|].
  inversion Hnd; subst. inversion Hk as [|? ? Ho Hr]; subst.
  cbn [fold_left]. rewrite IH by assumption.
  rewrite dict_update_get by assumption. now rewrite Ho.
Qed.

(** X23: when the loader succeeds on every file, a name that several
    files yield is no error for the caller: the [ValueError] of the
    duplicate check is caught, and the name holds in the end the
    coordinates of the last file that yields it. *)
Theorem load_keypoints_last_file_wins (filepath_pattern filepath : string)
  (before after : list string) (name : string) (arr : A) :
  (forall f, In f (before ++ filepath :: after) -> exists out, load_result loader path_in_name path_sep remove_extension f = Return out) ->
  dict_get String.eqb (loaded_coordinates (load_result loader path_in_name path_sep remove_extension filepath)) name = Some arr ->
  (forall f, In f after ->
             dict_get String.eqb (loaded_coordinates (load_result loader path_in_name path_sep remove_extension f)) name = None) ->
  exists coords confs bps,
    load_keypoints_loop loader filepath_pattern (before ++ filepath :: after) path_sep
                        path_in_name remove_extension
    = Return (coords, confs, bps) /\
    dict_get String.eqb coords name = Some arr.
Proof.
  intros Hall Hname Hafter.
  destruct (ofold_loaded (before ++ filepath :: after) (mkLoad [] [] None None None) Hall)
    as (st & Hst & Hc & _).
  assert (Hget : dict_get String.eqb (coordinates st) name = Some arr).
  { rewrite Hc. cbn [coordinates]. rewrite map_app, fold_left_app.
    cbn [map fold_left].
    assert (Hnd : forall f, In f (before ++ filepath :: after) ->
                            NoDup (map fst (loaded_coordinates (load_result loader path_in_name path_sep remove_extension f)))).
    { intros f Hf. destruct (Hall f Hf) as ([[nc nf] bps] & E). rewrite E.
      cbn [loaded_coordinates]. exact (proj1 (loader_dicts _ _ _ _ _ E)). }
    rewrite fold_update_get.
    - rewrite dict_update_get by (apply Hnd; apply in_or_app; right; now left).
      now rewrite Hname.
    - apply Forall_map. apply Forall_forall. intros f Hf.
      apply Hnd. apply in_or_app. right. now right.
    - apply Forall_map. apply Forall_forall. intros f Hf. now apply Hafter. }
  unfold load_keypoints_loop. rewrite Hst. cbn [obind].
  destruct (coordinates st) as [|c cs] eqn:Ec; [discriminate Hget|].
  exists (c :: cs), (confidences st), (bodyparts st). split; [reflexivity|exact Hget].
Qed.

End LoadKeypoints.

(* ------------------------------------------------------------------ *)
(** ** Paths and names *)

(** X24: the directory to which [save_results_as_csv] writes is always
    the path of the h5 file that it reads, whatever [save_dir] is passed:
    the second call of [_get_path] is given the resolved [h5_path], which
    is never [None].  The call fails only when there is no [h5_path] and
    [project_dir] or [name] is missing. *)
Theorem save_results_as_csv_directory (project_dir name h5_path save_dir : option string) :
  match save_results_as_csv_paths project_dir name h5_path save_dir with
  | Ok (h5, dir) =>
      dir = h5 /\
      (h5_path = Some h5 \/
       (h5_path = None /\
        exists d n, project_dir = Some d /\ name = Some n /\
                    h5 = os_path_join d [n; "results.h5"%string]))
  | Raise e =>
      h5_path = None /\ (project_dir = None \/ name = None) /\
      exists msg, e = AssertionError msg
  end.
Proof.
  unfold save_results_as_csv_paths.
  destruct h5_path as [p|]; cbn [_get_path rbind].
  - split; [reflexivity|now left].
  - destruct project_dir as [d|], name as [n|]; cbn [rbind _get_path].
    + split; [reflexivity|]. right. split; [reflexivity|]. now exists d, n.
    + split; [reflexivity|]. split; [now right|]. eexists; reflexivity.
    + split; [reflexivity|]. split; [now left|]. eexists; reflexivity.
    + split; [reflexivity|]. split; [now left|]. eexists; reflexivity.
Qed.

Lemma has_sep_append (a b : string) :
  has_sep (String.append a b) = has_sep a || has_sep b.
Proof.
  induction a as [|c a IH]; [reflexivity|].
  cbn [String.append has_sep]. rewrite IH. now rewrite orb_assoc.
Qed.

Lemma replace_sep_clean (p new : string) :
  has_sep new = false -> has_sep (replace_sep p new) = false.
Proof.
  intro Hn. induction p as [|a r IH]; [reflexivity|].
  cbn [replace_sep]. destruct (Ascii.eqb a sep) eqn:E.
  - rewrite has_sep_append, Hn, IH. reflexivity.
  - cbn [has_sep]. now rewrite E, IH.
Qed.

Lemma rfind_from_last (p : string) : forall (i found : Z),
  (found < i)%Z ->
  let L := rfind_from sep p i found in
  (has_sep p = false /\ L = found) \/
  ((i <= L)%Z /\ has_sep (str_from (Z.to_nat (L - i + 1)) p) = false).
Proof.
  induction p as [|a r IH]; intros i found Hlt; cbn zeta.
  - left. split; reflexivity.
  - cbn [rfind_from has_sep].
    destruct (Ascii.eqb a sep) eqn:E; cbn [orb].
    + destruct (IH (i + 1)%Z i ltac:(lia)) as [[Hr HL]|[HL Hr]]; cbn zeta in *.
      * right. rewrite HL. split; [lia|].
        replace (Z.to_nat (i - i + 1)) with 1%nat by lia. exact Hr.
      * right. split; [lia|].
        replace (Z.to_nat (rfind_from sep r (i + 1) i - i + 1))
          with (S (Z.to_nat (rfind_from sep r (i + 1) i - (i + 1) + 1))) by lia.
        exact Hr.
    + destruct (IH (i + 1)%Z found ltac:(lia)) as [[Hr HL]|[HL Hr]]; cbn zeta in *.
      * left. split; [exact Hr|exact HL].
      * right. split; [lia|].
        replace (Z.to_nat (rfind_from sep r (i + 1) found - i + 1))
          with (S (Z.to_nat (rfind_from sep r (i + 1) found - (i + 1) + 1))) by lia.
        exact Hr.
Qed.

Lemma basename_clean (p : string) : has_sep (os_path_basename p) = false.
Proof.
  unfold os_path_basename, rfind.
  destruct (rfind_from_last p 0 (-1) ltac:(lia)) as [[Hp HL]|[HL Hp]]; cbn zeta in *.
  - rewrite HL. exact Hp.
  - now rewrite Z.sub_0_r in Hp.
Qed.

(** X25: the name that [_name_from_path] gives to a file holds no path
    separator, provided [path_sep] holds none when [path_in_name] is set:
    the file name alone has none, and in the full path every separator is
    replaced. *)
Theorem name_from_path_no_separator (filepath path_sep : string)
  (path_in_name remove_extension : bool) :
  (path_in_name = true -> has_sep path_sep = false) ->
  has_sep (_name_from_path filepath path_in_name path_sep remove_extension) = false.
Proof.
  intro H. unfold _name_from_path. destruct path_in_name.
  - apply replace_sep_clean. now apply H.
  - apply basename_clean.
Qed.

Lemma has_sep_char (p : string) : has_sep p = has_char sep p.
Proof. induction p as [|a r IH]; [reflexivity|]. cbn. now rewrite IH. Qed.

Lemma has_char_append (c : Ascii.ascii) (a b : string) :
  has_char c (String.append a b) = has_char c a || has_char c b.
Proof.
  induction a as [|x a IH]; [reflexivity|].
  cbn [String.append has_char]. rewrite IH. now rewrite orb_assoc.
Qed.

Lemma rfind_from_absent (c : Ascii.ascii) (p : string) : forall i found,
  has_char c p = false -> rfind_from c p i found = found.
Proof.
  induction p as [|a r IH]; intros i found H; [reflexivity|].
  cbn [has_char] in H. apply orb_false_iff in H. destruct H as [Ha Hr].
  cbn [rfind_from]. rewrite Ha. now apply IH.
Qed.

Lemma rfind_from_append (c : Ascii.ascii) (a b : string) : forall i found,
  has_char c b = false ->
  rfind_from c (String.append a (String c b)) i found
  = (i + Z.of_nat (String.length a))%Z.
Proof.
  induction a as [|x a IH]; intros i found Hb.
  - cbn [String.append rfind_from String.length]. rewrite Ascii.eqb_refl.
    rewrite (rfind_from_absent c b _ _ Hb). cbn. lia.
  - cbn [String.append rfind_from String.length]. rewrite (IH _ _ Hb). lia.
Qed.

Lemma append_assoc (a b c : string) :
  String.append (String.append a b) c = String.append a (String.append b c).
Proof. induction a as [|x a IH]; [reflexivity|]. cbn. now rewrite IH. Qed.

Lemma str_upto_append (a b : string) :
  str_upto (String.length a) (String.append a b) = a.
Proof. induction a as [|x a IH]; [destruct b; reflexivity|]. cbn. now rewrite IH. Qed.

Lemma str_from_append (a b : string) :
  str_from (String.length a) (String.append a b) = b.
Proof. induction a as [|x a IH]; [reflexivity|]. cbn. exact IH. Qed.

Lemma get_append_right (a b : string) (j : nat) :
  String.get (String.length a + j) (String.append a b) = String.get j b.
Proof. induction a as [|x a IH]; [reflexivity|]. cbn. exact IH. Qed.

Lemma length_append (a b : string) :
  String.length (String.append a b) = (String.length a + String.length b)%nat.
Proof. induction a as [|x a IH]; [reflexivity|]. cbn. now rewrite IH. Qed.

Lemma has_char_get (c : Ascii.ascii) (p : string) :
  (exists j x, String.get j p = Some x /\ Ascii.eqb x c = false) ->
  exists j, (j < String.length p)%nat /\
            match String.get j p with
            | Some x => negb (Ascii.eqb x c)
            | None => true
            end = true.
Proof.
  intros (j & x & Hj & Hx). exists j. split.
  - revert j Hj. induction p as [|a r IH]; intros [|j] Hj; cbn in *;
      try discriminate; try lia.
    specialize (IH j Hj). lia.
  - now rewrite Hj, Hx.
Qed.

Lemma has_non_dot_witness (p : string) (lo hi k : nat) :
  (lo <= k < hi)%nat ->
  match String.get k p with
  | Some a => negb (Ascii.eqb a extsep)
  | None => true
  end = true ->
  has_non_dot p lo hi = true.
Proof.
  intros Hk H. unfold has_non_dot. apply existsb_exists. exists k.
  split; [apply in_seq; lia|exact H].
Qed.

(** The root and the name of a path [before ++ stem ++ "." ++ ext]. *)
Lemma splitext_root_stem (before stem ext : string) :
  has_char sep stem = false ->
  has_char sep ext = false -> has_char extsep ext = false ->
  (exists j x, String.get j stem = Some x /\ Ascii.eqb x extsep = false) ->
  is_directory_prefix before ->
  splitext_root (String.append before (String.append stem (String extsep ext)))
  = String.append before stem.
Proof.
  intros Hs Hes Hed Hnd Hb.
  set (p := String.append before (String.append stem (String extsep ext))).
  assert (Hp : p = String.append (String.append before stem) (String extsep ext)).
  { unfold p. now rewrite append_assoc. }
  assert (Hdot : rfind extsep p
                 = Z.of_nat (String.length before + String.length stem)).
  { unfold rfind. rewrite Hp, (rfind_from_append extsep _ ext 0 (-1) Hed).
    rewrite length_append. lia. }
  assert (Hrest : has_char sep (String.append stem (String extsep ext)) = false).
  { rewrite has_char_append, Hs. cbn [has_char orb]. rewrite Hes.
    reflexivity. }
  assert (Hsep : (rfind sep p + 1 = Z.of_nat (String.length before))%Z).
  { unfold rfind, p. destruct Hb as [->|(dir & ->)].
    - cbn [String.append String.length]. rewrite (rfind_from_absent sep _ 0 (-1) Hrest).
      reflexivity.
    - rewrite append_assoc. cbn [String.append].
      rewrite (rfind_from_append sep dir _ 0 (-1) Hrest).
      rewrite length_append. cbn [String.length]. lia. }
  destruct (has_char_get extsep stem Hnd) as (j & Hj & Hget).
  unfold splitext_root. fold p.
  replace (rfind sep p <? rfind extsep p)%Z with true
    by (symmetry; apply Z.ltb_lt; lia).
  rewrite (has_non_dot_witness p _ _ (String.length before + j)).
  - cbn [andb]. rewrite Hdot, Nat2Z.id, Hp, <- length_append.
    apply str_upto_append.
  - rewrite Hsep, Hdot, !Nat2Z.id. lia.
  - unfold p. rewrite get_append_right.
    replace j with (0 + j)%nat by reflexivity.
    assert (Hg : String.get j (String.append stem (String extsep ext)) = String.get j stem).
    { clear -Hj. revert j Hj. induction stem as [|x s IH]; intros j Hj; cbn in Hj; [lia|].
      destruct j as [|j]; [reflexivity|]. cbn. apply IH. lia. }
    cbn [Nat.add]. rewrite Hg. exact Hget.
Qed.

Lemma basename_stem (before stem : string) :
  has_char sep stem = false -> is_directory_prefix before ->
  os_path_basename (String.append before stem) = stem.
Proof.
  intros Hs Hb. unfold os_path_basename, rfind.
  destruct Hb as [->|(dir & ->)].
  - cbn [String.append]. rewrite (rfind_from_absent sep stem 0 (-1) Hs). reflexivity.
  - rewrite append_assoc. cbn [String.append].
    rewrite (rfind_from_append sep dir stem 0 (-1) Hs).
    replace (Z.to_nat (0 + Z.of_nat (String.length dir) + 1))
      with (String.length (String.append dir (String sep EmptyString)))
      by (rewrite length_append; cbn [String.length]; lia).
    replace (String.append dir (String sep stem))
      with (String.append (String.append dir (String sep EmptyString)) stem)
      by (now rewrite append_assoc).
    apply str_from_append.
Qed.

(** X26: with the default [path_in_name=False] and
    [remove_extension=True], the file [stem.ext] is named [stem] in
    whatever directory it lies ([stem] without separator and not made of
    dots only, [ext] without separator and dot): files of the same name in
    different directories get the same name. *)
Theorem name_from_path_stem (before stem ext path_sep : string) :
  has_char sep stem = false ->
  has_char sep ext = false -> has_char extsep ext = false ->
  (exists j x, String.get j stem = Some x /\ Ascii.eqb x extsep = false) ->
  is_directory_prefix before ->
  _name_from_path (String.append before (String.append stem (String extsep ext)))
                  false path_sep true
  = stem.
Proof.
  intros Hs Hes Hed Hnd Hb. unfold _name_from_path.
  rewrite (splitext_root_stem before stem ext Hs Hes Hed Hnd Hb).
  exact (basename_stem before stem Hs Hb).
Qed.

(* ------------------------------------------------------------------ *)
(** ** The manual Kruskal-Wallis statistic and the reference *)

Lemma filter_length_Permutation {B} (f : B -> bool) (l l' : list B) :
  Permutation l l' -> length (filter f l) = length (filter f l').
Proof.
  induction 1 as [|a l l' _ IH|a b l|l l' l'' _ IH1 _ IH2]; simpl.
  - reflexivity.
  - destruct (f a); simpl; now rewrite IH.
  - destruct (f a), (f b); reflexivity.
  - now rewrite IH1.
Qed.

Lemma rank_in_Permutation (a x : list Q) (v : Q) :
  Permutation a x -> rank_in a v = rank_in x v.
Proof.
  intro H. unfold rank_in, count_lt, count_eq.
  now rewrite (filter_length_Permutation _ a x H), (filter_length_Permutation _ a x H).
Qed.

Lemma permuted_Permutation (x : list Q) (order : list nat) :
  Permutation order (seq 0 (length x)) ->
  Permutation (map (fun k => nth k x 0) order) x.
Proof.
  intro H. transitivity (map (fun k => nth k x 0) (seq 0 (length x))).
  - now apply Permutation_map.
  - now rewrite map_nth_seq.
Qed.

Lemma rankdata_permuted (x : list Q) (order : list nat) :
  Permutation order (seq 0 (length x)) ->
  rankdata (map (fun k => nth k x 0) order)
  = map (fun k => nth k (rankdata x) 0) order.
Proof.
  intro H. unfold rankdata at 1. rewrite map_map.
  apply map_ext_in. intros k Hk.
  rewrite (rank_in_Permutation _ x _ (permuted_Permutation x order H)).
  apply (Permutation_in _ H) in Hk. apply in_seq in Hk.
  unfold rankdata. now rewrite (nth_map_in (rank_in x) x k 0 0) by lia.
Qed.

Lemma kw_tie_factor_Permutation (a x : list Q) :
  Permutation a x -> kw_tie_factor a = kw_tie_factor x.
Proof.
  intro H. unfold kw_tie_factor.
  rewrite !tied_group_sizes_sum, !value_counts_cube_sum.
  rewrite (position_sum_Permutation
             (fun c => (Z.of_nat c * Z.of_nat c - 1)%Z) a x H).
  now rewrite (Permutation_length H).
Qed.

Lemma array_split_lengths (a : list Q) (n : list nat) : forall lo,
  n <> [] ->
  (lo + fold_right Nat.add 0 n = length a)%nat ->
  map (@length Q) (array_split_from lo a (cumsum_from lo (drop_last n))) = n /\
  concat (array_split_from lo a (cumsum_from lo (drop_last n))) = skipn lo a.
Proof.
  unfold drop_last.
  induction n as [|k r IH]; intros lo Hne Hsum; [congruence|].
  destruct r as [|k' r'].
  - cbn [removelast cumsum_from array_split_from map concat fold_right] in *.
    rewrite app_nil_r, length_skipn. split; [f_equal; lia|reflexivity].
  - change (removelast (k :: k' :: r')) with (k :: removelast (k' :: r')).
    cbn [cumsum_from array_split_from map concat].
    cbn [fold_right] in Hsum.
    destruct (IH (lo + k)%nat ltac:(discriminate)) as [Hl Hc].
    { cbn [fold_right]. lia. }
    rewrite Hl, Hc. unfold slice.
    replace (lo + k - lo)%nat with k by lia. split.
    + f_equal. rewrite length_firstn, length_skipn. lia.
    + rewrite <- (firstn_skipn k (skipn lo a)) at 2.
      now rewrite skipn_skipn, (Nat.add_comm k lo).
Qed.

Lemma existsb_empty_sample (samples : list (list Q)) :
  Forall (fun k => 0 < k)%nat (map (@length Q) samples) ->
  existsb (fun s => (length s =? 0)%nat) samples = false.
Proof.
  induction samples as [|s r IH]; intro H; [reflexivity|].
  cbn [map] in H. inversion H; subst. cbn [existsb].
  rewrite IH by assumption.
  destruct (Nat.eqb_spec (length s) 0); [lia|reflexivity].
Qed.

Lemma fold_left_Qsum {B} (F : B -> Q) (l : list B) : forall acc,
  fold_left (fun acc i => acc + F i) l acc == acc + Qsum (map F l).
Proof.
  induction l as [|b r IH]; intro acc.
  - unfold Qsum. simpl. ring.
  - cbn [fold_left map]. rewrite IH. unfold Qsum. cbn [fold_right]. ring.
Qed.

(** [stats.kruskal] on the samples into which the group sizes [n] split
    a vector [a]. *)
Lemma stats_kruskal_split (a : list Q) (n : list nat) :
  (2 <= length n)%nat ->
  Forall (fun k => 0 < k)%nat n ->
  fold_right Nat.add 0%nat n = length a ->
  stats_kruskal (np_array_split a (np_cumsum (drop_last n))) =
  let ranked := rankdata a in
  let ties := tiecorrect ranked in
  if Qeq_bool ties 0 then Raise ValueError
  else
    let j := 0%nat :: np_cumsum n in
    let ssbn :=
      fold_left (fun acc i =>
                   acc + square_of_sums (slice ranked (nth i j 0%nat) (nth (S i) j 0%nat))
                         / Qnat (nth i n 0%nat))
                (seq 0 (length n)) 0 in
    let totaln := Qnat (length a) in
    let h := 12 / (totaln * (totaln + 1)) * ssbn - 3 * (totaln + 1) in
    Ok (mkKruskalResult (Some (h / ties))
                        (Some (chi2_sf (h / ties) (Z.of_nat (length n) - 1)))).
Proof.
  intros Hlen Hpos Hsum.
  assert (Hne : n <> []) by (destruct n; [simpl in Hlen; lia|discriminate]).
  destruct (array_split_lengths a n 0 Hne Hsum) as [Hl Hc].
  fold (np_cumsum (drop_last n)) in Hl, Hc.
  fold (np_array_split a (np_cumsum (drop_last n))) in Hl, Hc.
  cbn [skipn] in Hc.
  set (samples := np_array_split a (np_cumsum (drop_last n))) in *.
  assert (Hsl : length samples = length n).
  { rewrite <- Hl. now rewrite length_map. }
  unfold stats_kruskal. rewrite Hsl.
  replace (length n <? 2)%nat with false by (symmetry; apply Nat.ltb_ge; lia).
  rewrite existsb_empty_sample by (now rewrite Hl).
  rewrite Hl, Hc, Hsum. reflexivity.
Qed.

Lemma nth_nil_Q (s : nat) : nth s (@nil Q) 0 = 0.
Proof. destruct s; reflexivity. Qed.

Lemma permuted_column (m : list (list Q)) (s : nat) (order : list nat) :
  map (fun k => nth s (nth k m []) 0) order
  = map (fun k => nth k (column s m) 0) order.
Proof.
  apply map_ext. intro k. unfold column.
  rewrite <- (nth_nil_Q s) at 2.
  now rewrite (map_nth (fun r => nth s r 0) m [] k).
Qed.

(** The reference statistic on a permuted vector [x] is the statistic of
    the specification. *)
Lemma stats_kruskal_kw_H (x : list Q) (order : list nat) (n : list nat) :
  (2 <= length n)%nat ->
  Forall (fun k => 0 < k)%nat n ->
  fold_right Nat.add 0%nat n = length x ->
  Permutation order (seq 0 (length x)) ->
  match stats_kruskal (np_array_split (map (fun k => nth k x 0) order)
                                      (np_cumsum (drop_last n))) with
  | Ok kr =>
      exists h, statistic kr = Some h /\
                pvalue kr = Some (chi2_sf h (Z.of_nat (length n) - 1)) /\
                h == kw_H x order (length n) n (0%nat :: np_cumsum n)
                     / kw_tie_factor x
  | Raise e => e = ValueError
  end.
Proof.
  intros Hlen Hpos Hsum Hperm.
  set (a := map (fun k => nth k x 0) order).
  assert (Hla : length a = length x).
  { unfold a. rewrite length_map, (Permutation_length Hperm). apply length_seq. }
  rewrite (stats_kruskal_split a n Hlen Hpos) by (now rewrite Hla).
  cbv zeta. destruct (Qeq_bool (tiecorrect (rankdata a)) 0); [reflexivity|].
  eexists. cbn [statistic pvalue]. split; [reflexivity|]. split; [reflexivity|].
  assert (Hties : tiecorrect (rankdata a) == kw_tie_factor x).
  { rewrite tiecorrect_rankdata.
    now rewrite (kw_tie_factor_Permutation a x (permuted_Permutation x order Hperm)). }
  rewrite Hties. apply Qdiv_comp; [|reflexivity].
  unfold kw_H. rewrite Hla.
  apply Qplus_comp; [|reflexivity].
  apply Qmult_comp; [reflexivity|].
  rewrite fold_left_Qsum, Qplus_0_l.
  assert (E : forall g,
    square_of_sums (slice (rankdata a) (nth g (0%nat :: np_cumsum n) 0%nat)
                          (nth (S g) (0%nat :: np_cumsum n) 0%nat))
    / Qnat (nth g n 0%nat)
    = rank_sum (rankdata x) order (nth g (0%nat :: np_cumsum n) 0%nat)
               (nth (S g) (0%nat :: np_cumsum n) 0%nat) ^ 2
      / Qnat (nth g n 0%nat)).
  { intro g. unfold a. rewrite (rankdata_permuted x order Hperm), slice_map.
    reflexivity. }
  rewrite (map_ext _ _ E). reflexivity.
Qed.

(** The manual statistic of a permutation and a syllable. *)
Lemma manual_KW_entry (merged_usages_all : list (list Q))
  (num_groups : nat) (n_per_group cum_group_idx : list nat) (n_perm : nat)
  (seed : Z) (p s : nat) :
  let N_m := length merged_usages_all in
  let N_s := snd (shape merged_usages_all) in
  let perm := fst (rand_perms n_perm N_m (RandomState_of_seed seed)) in
  let h_all :=
    fst (manual_KW merged_usages_all num_groups n_per_group cum_group_idx perm) in
  (p < n_perm)%nat -> (s < N_s)%nat ->
  (p < length h_all)%nat /\ (s < length (nth p h_all []))%nat /\
  nth s (nth p h_all []) 0
  == kw_H (column s merged_usages_all) (nth p perm []) num_groups n_per_group
          cum_group_idx
     / kw_tie_factor (column s merged_usages_all).
Proof.
  intros N_m N_s perm h_all Hp Hs.
  unfold h_all, manual_KW, shape. cbn [fst snd].
  fold N_m. change (length (hd [] merged_usages_all)) with N_s.
  set (rr := apply_along_axis0 rankdata N_s merged_usages_all).
  destruct (rand_perms_rows n_perm N_m (RandomState_of_seed seed)) as [Hlen Hrows].
  fold perm in Hlen, Hrows.
  assert (Hrr_len : length rr = N_m) by apply apply_along_axis0_length.
  assert (Hrange : Forall (Forall (fun k => (k < length rr)%nat)) perm).
  { eapply Forall_impl; [|exact Hrows]. intros row Hrow. simpl.
    apply Forall_forall. intros k Hk.
    apply (Permutation_in _ Hrow) in Hk. apply in_seq in Hk. lia. }
  pose proof (take_rows_shape rr N_s perm (apply_along_axis0_rows _ _ _) Hrange)
    as Hshape.
  assert (Hp' : (p < length (take_rows rr perm))%nat).
  { unfold take_rows. rewrite length_map, Hlen. exact Hp. }
  destruct (kw_ssbn_entry (take_rows rr perm) N_s num_groups n_per_group
              cum_group_idx p s Hshape Hp' Hs) as [Hm He].
  assert (HKlen : length (map tiecorrect (columns N_s rr)) = N_s).
  { unfold columns. rewrite !length_map. apply length_seq. }
  split; [|split].
  { unfold kw_h_all. rewrite length_map. destruct Hm as [Hm _]. now rewrite Hm. }
  { unfold kw_h_all.
    rewrite (nth_map_in _ _ p [] []) by (destruct Hm as [Hm _]; now rewrite Hm).
    rewrite zipWith_length, length_map, HKlen.
    rewrite (is_matrix_nth _ N_s _ p Hm Hp'). now rewrite Nat.min_id. }
  rewrite (kw_h_all_entry _ N_m (map tiecorrect (columns N_s rr))
             (length (take_rows rr perm)) N_s p s Hm HKlen Hp' Hs).
  rewrite He. clear He Hm.
  assert (HK : nth s (map tiecorrect (columns N_s rr)) 0
               == kw_tie_factor (column s merged_usages_all)).
  { rewrite (nth_map_in _ _ s 0 []) by (unfold columns; now rewrite length_map, length_seq).
    unfold columns. rewrite nth_map_seq by exact Hs.
    unfold rr. rewrite apply_along_axis0_column; [|exact Hs|apply rankdata_length].
    apply tiecorrect_rankdata. }
  rewrite HK. clear HK.
  unfold kw_H. rewrite column_length. fold N_m.
  apply Qdiv_comp; [|reflexivity].
  apply Qplus_comp; [|reflexivity].
  apply Qmult_comp; [reflexivity|].
  assert (E : forall g,
    Qsum (map (fun r => nth s r 0)
              (slice (nth p (take_rows rr perm) [])
                     (nth g cum_group_idx 0%nat) (nth (S g) cum_group_idx 0%nat))) ^ 2
    / Qnat (nth g n_per_group 0%nat)
    = rank_sum (rankdata (column s merged_usages_all)) (nth p perm [])
               (nth g cum_group_idx 0%nat) (nth (S g) cum_group_idx 0%nat) ^ 2
      / Qnat (nth g n_per_group 0%nat)).
  { intro g. unfold rank_sum, take_rows.
    rewrite (nth_map_in _ perm p [] []) by (now rewrite Hlen).
    rewrite slice_map, map_map.
    do 3 f_equal. apply map_ext. intro k.
    unfold rr. apply apply_along_axis0_entry; [exact Hs|apply rankdata_length]. }
  rewrite (map_ext _ _ E). reflexivity.
Qed.

Lemma randint_range (high : nat) (g g' : RandomState) (i : nat) :
  randint high g = Ok (i, g') -> (i < high)%nat.
Proof.
  unfold randint. destruct (Nat.eqb_spec high 0) as [|Hne]; [discriminate|].
  destruct (random_sample g) as [u g1]. intro H. injection H as <- _.
  now apply Nat.mod_upper_bound.
Qed.

(** The spot check: whenever [stats.kruskal] returns for a permutation
    and a syllable, its statistic and p-value are the manual ones. *)
Lemma spot_check_agrees (merged_usages_all : list (list Q))
  (n_per_group : list nat) (n_perm : nat) (seed : Z) (p_i s_i : nat)
  (kr : KruskalResult) :
  let num_groups := length n_per_group in
  let cum_group_idx := 0%nat :: np_cumsum n_per_group in
  let N_m := fst (shape merged_usages_all) in
  let N_s := snd (shape merged_usages_all) in
  let perm := fst (rand_perms n_perm N_m (RandomState_of_seed seed)) in
  let h_all := fst (manual_KW merged_usages_all num_groups n_per_group
                              cum_group_idx perm) in
  let p_vals := map (map (fun h => chi2_sf h (Z.of_nat num_groups - 1))) h_all in
  (forall a b df, a == b -> chi2_sf a df == chi2_sf b df) ->
  Forall (fun k => 0 < k)%nat n_per_group ->
  fold_right Nat.add 0%nat n_per_group = length merged_usages_all ->
  (p_i < n_perm)%nat -> (s_i < N_s)%nat ->
  stats_kruskal
    (np_array_split
       (map (fun k => nth s_i (nth k merged_usages_all []) 0) (nth p_i perm []))
       (np_cumsum (drop_last n_per_group))) = Ok kr ->
  float_eqb (statistic kr) (nth s_i (nth p_i h_all []) 0) = true /\
  float_eqb (pvalue kr) (nth s_i (nth p_i p_vals []) 0) = true.
Proof.
  intros num_groups cum_group_idx N_m N_s perm h_all p_vals Hchi Hpos Hsum E1 E2 H.
  destruct (Nat.lt_ge_cases (length n_per_group) 2) as [Hfew|Hmany].
  { rewrite stats_kruskal_few_samples in H; [discriminate H|].
    unfold np_array_split. rewrite array_split_from_length.
    unfold np_cumsum.
    assert (Hd : drop_last n_per_group = []) by (now apply drop_last_short).
    rewrite Hd. simpl. lia. }
  rewrite permuted_column in H.
  set (x := column s_i merged_usages_all) in *.
  assert (Hx : length x = length merged_usages_all) by apply column_length.
  assert (Hperm : Permutation (nth p_i perm []) (seq 0 (length x))).
  { rewrite Hx. destruct (rand_perms_rows n_perm N_m (RandomState_of_seed seed))
      as [Hlen Hrows].
    fold perm in Hlen, Hrows. rewrite Forall_forall in Hrows.
    apply Hrows. apply nth_In. now rewrite Hlen. }
  pose proof (stats_kruskal_kw_H x (nth p_i perm []) n_per_group Hmany Hpos
                ltac:(now rewrite Hx) Hperm) as Href.
  rewrite H in Href. destruct Href as (h & Hstat & Hpv & Hh).
  pose proof (manual_KW_entry merged_usages_all num_groups n_per_group cum_group_idx
                n_perm seed p_i s_i E1 E2) as Hman.
  cbv zeta in Hman. destruct Hman as (Hpl & Hsl & Hman).
  assert (Hagree : h == nth s_i (nth p_i h_all []) 0).
  { rewrite Hh. symmetry. exact Hman. }
  split.
  - rewrite Hstat. cbn [float_eqb]. now apply Qeq_bool_iff.
  - rewrite Hpv. cbn [float_eqb]. apply Qeq_bool_iff. unfold p_vals.
    rewrite (nth_map_in _ h_all p_i [] []) by exact Hpl.
    rewrite (nth_map_in (fun h0 => chi2_sf h0 (Z.of_nat num_groups - 1))
                        (nth p_i h_all []) s_i 0 0) by exact Hsl.
    apply Hchi. exact Hagree.
Qed.

Lemma run_manual_KW_test_raises (df_usage merged_usages_all : list (list Q))
  (n_per_group : list nat) (n_perm : nat) (seed : Z) (g : RandomState) (e : exn) :
  (forall a b df, a == b -> chi2_sf a df == chi2_sf b df) ->
  Forall (fun k => 0 < k)%nat n_per_group ->
  fold_right Nat.add 0%nat n_per_group = length merged_usages_all ->
  run_manual_KW_test df_usage merged_usages_all (length n_per_group) n_per_group
                     (0%nat :: np_cumsum n_per_group) n_perm seed g
  = Raise e ->
  e = ValueError \/ e = ZeroDivisionError.
Proof.
  intros Hchi Hpos Hsum.
  set (num_groups := length n_per_group).
  set (cum_group_idx := 0%nat :: np_cumsum n_per_group).
  set (N_m := fst (shape merged_usages_all)).
  set (N_s := snd (shape merged_usages_all)).
  set (perm := fst (rand_perms n_perm N_m (RandomState_of_seed seed))).
  set (h_all := fst (manual_KW merged_usages_all num_groups n_per_group
                               cum_group_idx perm)).
  set (real_ranks := snd (manual_KW merged_usages_all num_groups n_per_group
                                    cum_group_idx perm)).
  set (p_vals := map (map (fun h => chi2_sf h (Z.of_nat num_groups - 1))) h_all).
  assert (Hrun :
    run_manual_KW_test df_usage merged_usages_all num_groups n_per_group
                       cum_group_idx n_perm seed g =
    rbind (mapM (fun x => get_tie_correction x N_m) (columns N_s df_usage)) (fun X_ties =>
    rbind (randint n_perm g) (fun pg =>
    rbind (randint N_s (snd pg)) (fun sg =>
    rbind (stats_kruskal
             (np_array_split
                (map (fun k => nth (fst sg) (nth k merged_usages_all []) 0)
                     (nth (fst pg) perm []))
                (np_cumsum (drop_last n_per_group)))) (fun kr =>
    if float_eqb (statistic kr) (nth (fst sg) (nth (fst pg) h_all []) 0)
       && float_eqb (pvalue kr) (nth (fst sg) (nth (fst pg) p_vals []) 0)
    then Ok (h_all, real_ranks, X_ties, snd sg)
    else Raise (AssertionError "manual KW is incorrect")))))).
  { unfold run_manual_KW_test, h_all, real_ranks, p_vals, perm, N_m, N_s.
    unfold manual_KW, shape. cbn [fst snd].
    destruct (mapM _ _) as [X|e']; [|reflexivity]. cbn [rbind].
    destruct (randint n_perm g) as [[p_i g1]|e']; [|reflexivity]. cbn [rbind fst snd].
    destruct (randint _ g1) as [[s_i g2]|e']; reflexivity. }
  rewrite Hrun. clear Hrun. intro H.
  destruct (mapM _ _) as [X|e'] eqn:EX; cbn [rbind] in H.
  2:{ apply mapM_raises in EX. destruct EX as (x & _ & Hx).
      apply get_tie_correction_raises in Hx. right. congruence. }
  destruct (randint n_perm g) as [[p_i g1]|e'] eqn:E1; cbn [rbind fst snd] in H.
  2:{ apply randint_raises in E1. left. congruence. }
  destruct (randint N_s g1) as [[s_i g2]|e'] eqn:E2; cbn [rbind fst snd] in H.
  2:{ apply randint_raises in E2. left. congruence. }
  apply randint_range in E1, E2.
  destruct (stats_kruskal _) as [kr|e'] eqn:EK; cbn [rbind] in H.
  2:{ apply stats_kruskal_raises in EK. left. congruence. }
  destruct (spot_check_agrees merged_usages_all n_per_group n_perm seed p_i s_i kr
              Hchi Hpos Hsum E1 E2 EK) as [Hs Hp].
  fold num_groups cum_group_idx N_m perm h_all p_vals in Hs, Hp.
  rewrite Hs, Hp in H. discriminate H.
Qed.

(** X27: in exact arithmetic the statistic of [run_manual_KW_test] agrees
    with the reference [stats.kruskal] on every permutation and
    syllable, so that the spot check cannot fail: for group sizes that are
    positive and add up to the number of sessions (as [run_kruskal]
    passes them), and a [chi2.sf] that gives equal p-values for equal
    statistics, [run_manual_KW_test] never raises an [AssertionError]; it
    returns, or raises a [ValueError] or a [ZeroDivisionError]. *)
Theorem run_manual_KW_test_agrees (df_usage merged_usages_all : list (list Q))
  (n_per_group : list nat) (n_perm : nat) (seed : Z) (g : RandomState) :
  (forall a b df, a == b -> chi2_sf a df == chi2_sf b df) ->
  Forall (fun k => 0 < k)%nat n_per_group ->
  fold_right Nat.add 0%nat n_per_group = length merged_usages_all ->
  match run_manual_KW_test df_usage merged_usages_all (length n_per_group) n_per_group
                           (0%nat :: np_cumsum n_per_group) n_perm seed g with
  | Ok (h_all, _, _, _) =>
      forall p s, (p < n_perm)%nat -> (s < snd (shape merged_usages_all))%nat ->
        forall kr,
          stats_kruskal
            (np_array_split
               (map (fun k => nth s (nth k merged_usages_all []) 0)
                    (nth p (fst (rand_perms n_perm (length merged_usages_all)
                                            (RandomState_of_seed seed))) []))
               (np_cumsum (drop_last n_per_group))) = Ok kr ->
          float_eqb (statistic kr) (nth s (nth p h_all []) 0) = true
  | Raise e => e = ValueError \/ e = ZeroDivisionError
  end.
Proof.
  intros Hchi Hpos Hsum.
  pose proof (run_manual_KW_test_raises df_usage merged_usages_all n_per_group n_perm
                seed g) as Hraise.
  destruct (run_manual_KW_test df_usage merged_usages_all (length n_per_group)
              n_per_group (0%nat :: np_cumsum n_per_group) n_perm seed g)
    as [[[[h_all rr] X] g2]|e] eqn:E.
  - intros p s Hp Hs kr Hkr.
    assert (Hh : h_all = fst (manual_KW merged_usages_all (length n_per_group)
                                n_per_group (0%nat :: np_cumsum n_per_group)
                                (fst (rand_perms n_perm (length merged_usages_all)
                                                 (RandomState_of_seed seed))))).
    { unfold run_manual_KW_test, shape in E. cbn [fst snd] in E.
      destruct (manual_KW _ _ _ _ _) as [h r]. cbn [fst].
      destruct (mapM _ _) as [X'|e']; [|discriminate E]. cbn [rbind] in E.
      destruct (randint n_perm g) as [[p_i g1]|e']; [|discriminate E].
      cbn [rbind] in E.
      destruct (randint _ g1) as [[s_i g2']|e']; [|discriminate E].
      cbn [rbind] in E.
      destruct (stats_kruskal _) as [kr'|e']; [|discriminate E]. cbn [rbind] in E.
      destruct (_ && _); [|discriminate E]. now injection E as -> _ _ _. }
    rewrite Hh.
    exact (proj1 (spot_check_agrees merged_usages_all n_per_group n_perm seed p s kr
                    Hchi Hpos Hsum Hp Hs Hkr)).
  - exact (Hraise e Hchi Hpos Hsum eq_refl).
Qed.

(* ------------------------------------------------------------------ *)
(** ** The exceptions of [run_kruskal] *)

Lemma unique_incl_string (l : list string) (v : string) :
  In v (unique String.eqb l) -> In v l.
Proof.
  induction l as [|a l IH]; [contradiction|].
  cbn [unique]. intros [<-|H]; [now left|].
  apply filter_In in H. right. now apply IH.
Qed.









(* ------------------------------------------------------------------ *)
(** ** The pivot and the whole of [run_kruskal] *)


Lemma string_compare_refl (s : string) : String.compare s s = Eq.
Proof.
  pose proof (String.compare_antisym s s) as H.
  destruct (String.compare s s); simpl in H; congruence.
Qed.

Lemma string_leb_refl (s : string) : String.leb s s = true.
Proof. unfold String.leb. now rewrite string_compare_refl. Qed.

Lemma string_leb_trans (a b c : string) :
  String.leb a b = true -> String.leb b c = true -> String.leb a c = true.
Proof.
  unfold String.leb. intros Hab Hbc.
  destruct (String.compare a b) eqn:E1; try discriminate.
  - apply String.compare_eq_iff in E1. now subst.
  - destruct (String.compare b c) eqn:E2; try discriminate.
    + apply String.compare_eq_iff in E2. subst. now rewrite E1.
    + assert (E3 : String.compare a c = Lt).
      { exact (@RelationClasses.StrictOrder_Transitive _ _
                 OrdersEx.String_as_OT.lt_strorder a b c E1 E2). }
      now rewrite E3.
Qed.

Lemma key_leb_groups (p q : string * string) :
  key_leb p q = true -> String.leb (fst p) (fst q) = true.
Proof.
  unfold key_leb. destruct (String.eqb (fst p) (fst q)) eqn:E; [|auto].
  apply String.eqb_eq in E. rewrite E. intros _. apply string_leb_refl.
Qed.

Lemma key_leb_false_groups (p q : string * string) :
  key_leb p q = false -> String.leb (fst q) (fst p) = true.
Proof.
  unfold key_leb. destruct (String.eqb (fst p) (fst q)) eqn:E.
  - apply String.eqb_eq in E. rewrite E. intros _. apply string_leb_refl.
  - intro H. destruct (String.leb_total (fst p) (fst q)); congruence.
Qed.

Lemma insert_by_In {B} (leb : B -> B -> bool) (x y : B) (l : list B) :
  In y (insert_by leb x l) -> y = x \/ In y l.
Proof.
  induction l as [|a l IH]; simpl.
  - intros [H|[]]; auto.
  - destruct (leb x a); simpl; intros [H|H]; auto.
    destruct (IH H); auto.
Qed.

Lemma insert_by_groups_sorted (p : string * string) (l : list (string * string)) :
  StronglySorted (fun a b => String.leb a b = true) (map fst l) -> StronglySorted (fun a b => String.leb a b = true) (map fst (insert_by key_leb p l)).
Proof.
  induction l as [|y l IH]; intro H; simpl.
  - repeat constructor.
  - inversion H as [|? ? Hs Hall]; subst.
    destruct (key_leb p y) eqn:E; simpl.
    + constructor; [exact H|].
      pose proof (key_leb_groups _ _ E) as Hpy.
      constructor; [exact Hpy|].
      eapply Forall_impl; [|exact Hall]. intros z Hz. simpl in Hz.
      now apply (string_leb_trans _ (fst y)).
    + constructor; [now apply IH|].
      apply Forall_forall. intros g Hg. apply in_map_iff in Hg.
      destruct Hg as (z & <- & Hz). apply insert_by_In in Hz.
      destruct Hz as [->|Hz].
      * now apply key_leb_false_groups.
      * rewrite Forall_forall in Hall. apply Hall. now apply in_map.
Qed.

Lemma sort_by_groups_sorted (l : list (string * string)) :
  StronglySorted (fun a b => String.leb a b = true) (map fst (sort_by key_leb l)).
Proof.
  induction l as [|p l IH]; simpl; [constructor|].
  now apply insert_by_groups_sorted.
Qed.

Lemma filter_sorted {B} (R : B -> B -> Prop) (f : B -> bool) (l : list B) :
  StronglySorted R l -> StronglySorted R (filter f l).
Proof.
  induction 1 as [|a l Hs IH Hall]; simpl; [constructor|].
  destruct (f a); [|exact IH].
  constructor; [exact IH|].
  apply Forall_forall. intros b Hb. apply filter_In in Hb.
  rewrite Forall_forall in Hall. now apply Hall.
Qed.

Lemma unique_sorted (G : list string) :
  StronglySorted (fun a b => String.leb a b = true) G -> StronglySorted (fun a b => String.leb a b = true) (unique String.eqb G).
Proof.
  induction 1 as [|a G Hs IH Hall]; cbn [unique]; [constructor|].
  constructor.
  - now apply filter_sorted.
  - apply Forall_forall. intros b Hb. apply filter_In in Hb.
    destruct Hb as [Hb _]. apply unique_incl_string in Hb.
    rewrite Forall_forall in Hall. now apply Hall.
Qed.

Lemma combinations2_sorted {B} (R : B -> B -> Prop) (L : list B) (a b : B) :
  StronglySorted R L -> In (a, b) (combinations2 L) -> R a b.
Proof.
  induction 1 as [|x L Hs IH Hall]; simpl; [contradiction|].
  intro H. apply in_app_or in H. destruct H as [H|H].
  - apply in_map_iff in H. destruct H as (y & E & Hy). injection E as <- <-.
    rewrite Forall_forall in Hall. now apply Hall.
  - now apply IH.
Qed.

Lemma group_before_sorted (i_n j_n : string) (G : list string) :
  StronglySorted (fun a b => String.leb a b = true) G -> String.leb i_n j_n = true -> i_n <> j_n ->
  group_before i_n j_n G = true.
Proof.
  intros Hs Hle Hne. induction Hs as [|n G Hs IH Hall]; [reflexivity|].
  cbn [group_before]. rewrite IH, andb_true_r.
  destruct (String.eqb n j_n) eqn:E; [|reflexivity].
  apply String.eqb_eq in E. subst n.
  apply forallb_forall. intros m Hm. apply negb_true_iff.
  apply String.eqb_neq. intros ->.
  rewrite Forall_forall in Hall. specialize (Hall _ Hm).
  apply Hne. now apply String.leb_antisym.
Qed.

(** X29: the table that the pivot of [run_kruskal] yields is in the
    order of its groups: the sessions of a group are contiguous, and the
    groups come in the order of [group_names].  [run_kruskal] therefore
    never passes to Dunn's test a table on which the first [n_i] sessions
    of a pair are not the sessions of its first group. *)
Theorem pivot_table_sorted_by_group (stats_df : stats_frame) (name : string)
  (grouped_data : list session_row) :
  pivot_table stats_df name = Ok grouped_data ->
  sorted_by_group grouped_data
    (map fst (value_counts String.eqb (map group grouped_data))) = true.
Proof.
  unfold pivot_table.
  destruct (column_position name (statistic_columns stats_df)) as [c|];
    [|discriminate].
  intro H. injection H as <-.
  rewrite map_map. cbn [group].
  set (sessions := sort_by key_leb _).
  assert (Hs : StronglySorted (fun a b => String.leb a b = true) (map fst sessions)) by apply sort_by_groups_sorted.
  change (map (fun x : string * string => fst x) sessions) with (map fst sessions).
  assert (Hnames : map fst (value_counts String.eqb (map fst sessions))
                   = unique String.eqb (map fst sessions)).
  { unfold value_counts. rewrite map_map. apply map_id. }
  rewrite Hnames. unfold sorted_by_group.
  apply forallb_forall. intros [i_n j_n] Hp. cbn [fst snd].
  rewrite map_map. cbn [group].
  change (map (fun x : string * string => fst x) sessions) with (map fst sessions).
  apply group_before_sorted.
  - exact Hs.
  - exact (combinations2_sorted _ _ _ _ (unique_sorted _ Hs) Hp).
  - intros ->.
    exact (combinations2_no_reverse _ _ _ (unique_string_NoDup _) Hp Hp).
Qed.


End Analysis.

(* ================================================================== *)
(** * The statements on sample inputs *)

Local Open Scope Q_scope.

Lemma get_changepoints_interior_witness :
  In 1%nat (get_changepoints [0; 1; 0; 2; 0] [1; 0; 1; 1; 1] (1#2)) /\
  (0 < 1 < length [0; 1; 0; 2; 0] - 1)%nat /\
  get_changepoints [0; 1] [0; 0] (1#2) = [].
Proof.
  assert (H : In 1%nat (get_changepoints [0; 1; 0; 2; 0] [1; 0; 1; 1; 1] (1#2))).
  { vm_compute. left. reflexivity. }
  split; [exact H|]. split.
  - exact (proj1 (proj1 (get_changepoints_interior [0; 1; 0; 2; 0] [1; 0; 1; 1; 1] (1#2))
                        1%nat H)).
  - apply (proj2 (get_changepoints_interior [0; 1] [0; 0] (1#2))). simpl. lia.
Defined.

(** On the sample session the thresholds [-1], [0] and [3] yield 0, 2 and
    0 changepoints; the scan returns the second threshold with its two
    changepoints. *)
Lemma changepoint_scan_picks_most_witness :
  map (fun c => changepoint_count (snd c))
      (fst (scan_candidates (lib := sample_lib) sample_dy_peaks sample_mask_peaks
              sample_labels_peaks (9#10) 1 [-1; 0; 3] sample_global_later))
  = [0; 2; 0]%nat /\
  exists changescores g1 k,
    changepoint_scan (lib := sample_lib) sample_dy_peaks sample_mask_peaks
      sample_labels_peaks (9#10) 1 [-1; 0; 3] sample_global_later
    = Ok ([("s"%string, [1; 4]%nat)], changescores, 0, g1) /\
    0 = nth k [-1; 0; 3] 0 /\
    forall j,
      le (changepoint_count
            (snd (nth j (fst (scan_candidates (lib := sample_lib) sample_dy_peaks
                                sample_mask_peaks sample_labels_peaks (9#10) 1
                                [-1; 0; 3] sample_global_later)) ([], []))))
         (changepoint_count
            (snd (nth k (fst (scan_candidates (lib := sample_lib) sample_dy_peaks
                                sample_mask_peaks sample_labels_peaks (9#10) 1
                                [-1; 0; 3] sample_global_later)) ([], [])))).
Proof.
  split; [vm_compute; reflexivity|].
  pose proof (@changepoint_scan_picks_most sample_lib sample_dy_peaks
                sample_mask_peaks sample_labels_peaks (9#10) 1 [-1; 0; 3]
                sample_global_later) as H.
  cbv zeta in H. destruct H as (_ & _ & H).
  assert (E : exists changescores g1,
             changepoint_scan (lib := sample_lib) sample_dy_peaks sample_mask_peaks
               sample_labels_peaks (9#10) 1 [-1; 0; 3] sample_global_later
             = Ok ([("s"%string, [1; 4]%nat)], changescores, 0, g1)).
  { do 2 eexists. vm_compute. reflexivity. }
  destruct E as (changescores & g1 & E). rewrite E in H.
  destruct H as (k & _ & _ & _ & Hth & _ & Hmax & _).
  exists changescores, g1, k. split; [exact E|]. split; [exact Hth|exact Hmax].
Defined.

(** With no threshold to scan ([num_thresholds = 0]) there is no result:
    [np.argmax] of the empty list of counts raises. *)
Lemma changepoint_scan_no_threshold_raises :
  changepoint_scan (lib := sample_lib) sample_dy sample_mask sample_labels
                   (1#2) 1 [] sample_global
  = Raise ValueError.
Proof. vm_compute. reflexivity. Qed.

Lemma frame_pvalues_range_witness :
  In (3#4) (fst (frame_pvalues sample_dy sample_mask 1 sample_global)) /\
  1 / Qnat (num_valid_frames sample_dy sample_mask) <= 3#4 /\
  3#4 <= 1 + 1 / Qnat (num_valid_frames sample_dy sample_mask) /\
  0 < 3#4.
Proof.
  assert (H : In (3#4) (fst (frame_pvalues sample_dy sample_mask 1 sample_global))).
  { vm_compute. left. reflexivity. }
  split; [exact H|].
  exact (proj1 frame_pvalues_range sample_dy sample_mask 1 sample_global (3#4) H).
Defined.

Lemma sample_usages_one_tied_pair : one_tied_pair sample_usages.
Proof.
  exists [1#10], (2#10), [3#10; 4#10], (2#10), [5#10; 6#10; 7#10; 8#10; 9#10].
  split; [reflexivity|]. split; [reflexivity|].
  apply distinct_values_NoDupA. reflexivity.
Qed.

Lemma get_tie_correction_formula_witness :
  (Z.of_nat (length sample_usages) <= 2097151)%Z /\
  exists t, get_tie_correction sample_usages 10 = Ok t /\
            t == (2 ^ 3 - 2) / (12 * 9).
Proof.
  assert (H : (Z.of_nat (length sample_usages) <= 2097151)%Z) by (simpl; lia).
  split; [exact H|].
  pose proof (get_tie_correction_formula sample_usages H) as F.
  change (length sample_usages) with 10%nat in F.
  destruct (get_tie_correction sample_usages 10) as [t|e].
  - exists t. split; [reflexivity|].
    exact (proj2 (proj2 (proj2 F)) eq_refl sample_usages_one_tied_pair).
  - exfalso. destruct F as [F _]. discriminate F.
Defined.

(** A single value is a vector whose values are all distinct, and
    [get_tie_correction] does not return 0 for it: [tie_sum] is the Python
    integer [0] and [0 / (12.0 * 0)] raises. *)
Lemma get_tie_correction_single_value_raises :
  NoDupA Qeq [1#2] /\
  get_tie_correction [1#2] (length [1#2]) = Raise ZeroDivisionError.
Proof.
  split.
  - constructor; [|constructor]. intro H. inversion H.
  - vm_compute. reflexivity.
Qed.

Lemma run_kruskal_few_groups_raises_witness :
  (length (unique String.eqb (map group sample_table_one_group)) < 2)%nat /\
  (run_kruskal (lib := sample_lib) sample_table_one_group 3 2 (1#2) sample_global
     = Raise ValueError
   \/ run_kruskal (lib := sample_lib) sample_table_one_group 3 2 (1#2) sample_global
     = Raise ZeroDivisionError).
Proof.
  assert (H : (length (unique String.eqb (map group sample_table_one_group)) < 2)%nat).
  { vm_compute. lia. }
  split; [exact H|].
  exact (@run_kruskal_few_groups_raises sample_lib sample_table_one_group 3 2 (1#2)
           sample_global H).
Defined.

(** With one group, [run_kruskal] raises instead of returning an empty
    result. *)
Lemma run_kruskal_one_group_raises :
  run_kruskal (lib := sample_lib) sample_table_one_group 3 2 (1#2) sample_global
  = Raise ValueError.
Proof. vm_compute. reflexivity. Qed.

Lemma manual_KW_H_statistic_witness :
  (0 < 3)%nat /\ (1 < snd (shape (map usages sample_table)))%nat /\
  nth 1 (nth 0 (fst (manual_KW (map usages sample_table) 2 [2; 2]%nat [0; 2; 4]%nat
                       (fst (rand_perms 3 4 (RandomState_of_seed (lib := sample_lib) 2)))))
            []) 0
  == kw_H (column 1 (map usages sample_table))
          (nth 0 (fst (rand_perms 3 4 (RandomState_of_seed (lib := sample_lib) 2))) [])
          2 [2; 2]%nat [0; 2; 4]%nat
     / kw_tie_factor (column 1 (map usages sample_table)).
Proof.
  assert (Hp : (0 < 3)%nat) by lia.
  assert (Hs : (1 < snd (shape (map usages sample_table)))%nat) by (simpl; lia).
  split; [exact Hp|]. split; [exact Hs|].
  exact (proj1 (@manual_KW_H_statistic sample_lib (map usages sample_table) 2
                  [2; 2]%nat [0; 2; 4]%nat 3 2 0%nat 1%nat Hp Hs)).
Defined.

(** The permuted H-statistic is not the quotient by [1 - tie_term]: on the
    sample table, for the first permutation (the sessions in the order 3,
    0, 1, 2) and the second syllable (which has a tied pair, ranks 3.5,
    3.5, 1, 2 and tie term 1/6), [run_manual_KW_test] returns
    [(12/20 * (5.5^2/2 + 4.5^2/2) - 15) / 0.9 = 1/6], and the quotient by
    [1 - 1/6] is [9/50]. *)
Lemma manual_KW_not_divided_by_tie_term :
  exists h_all real_ranks X_ties g',
    run_manual_KW_test (lib := sample_lib)
      (map usages sample_table) (map usages sample_table)
      2 [2; 2]%nat [0; 2; 4]%nat 3 2 sample_global
    = Ok (h_all, real_ranks, X_ties, g') /\
    nth 0 (fst (rand_perms 3 4 (RandomState_of_seed (lib := sample_lib) 2))) []
    = [3; 0; 1; 2]%nat /\
    nth 1 X_ties 0 == 1#6 /\
    nth 1 (nth 0 h_all []) 0 == 1#6 /\
    kw_H (column 1 (map usages sample_table))
         (nth 0 (fst (rand_perms 3 4 (RandomState_of_seed (lib := sample_lib) 2))) [])
         2 [2; 2]%nat [0; 2; 4]%nat
    / (1 - nth 1 X_ties 0) == 9#50 /\
    ~ nth 1 (nth 0 h_all []) 0
      == kw_H (column 1 (map usages sample_table))
              (nth 0 (fst (rand_perms 3 4 (RandomState_of_seed (lib := sample_lib) 2))) [])
              2 [2; 2]%nat [0; 2; 4]%nat
         / (1 - nth 1 X_ties 0).
Proof.
  do 4 eexists. split; [|split; [|split; [|split; [|split]]]].
  - vm_compute. reflexivity.
  - vm_compute. reflexivity.
  - vm_compute. reflexivity.
  - vm_compute. reflexivity.
  - vm_compute. reflexivity.
  - vm_compute. discriminate.
Qed.

Lemma run_manual_KW_test_spot_check_witness :
  exists X_ties g2,
    run_manual_KW_test (lib := sample_lib)
      (map usages sample_table) (map usages sample_table)
      2 [2; 2]%nat [0; 2; 4]%nat 3 2 sample_global
    = Ok (fst (manual_KW (map usages sample_table) 2 [2; 2]%nat [0; 2; 4]%nat
                 (fst (rand_perms 3 4 (RandomState_of_seed (lib := sample_lib) 2)))),
          snd (manual_KW (map usages sample_table) 2 [2; 2]%nat [0; 2; 4]%nat
                 (fst (rand_perms 3 4 (RandomState_of_seed (lib := sample_lib) 2)))),
          X_ties, g2).
Proof.
  do 2 eexists.
  eapply (proj2 (@run_manual_KW_test_spot_check sample_lib
                   (map usages sample_table) (map usages sample_table)
                   2 [2; 2]%nat [0; 2; 4]%nat 3 2 sample_global)).
  - split; [|split].
    + vm_compute. reflexivity.
    + eexists. split; vm_compute; reflexivity.
    + vm_compute. reflexivity.
  - intro H. apply H. vm_compute. reflexivity.
  - intro H. apply H. vm_compute. reflexivity.
Defined.

Lemma run_kruskal_significant_pairs_witness :
  exists df_k_real dunn_results_df intersect_sig_syllables g',
    run_kruskal (lib := sample_lib) sample_table 3 2 (9#10) sample_global
    = Ok (df_k_real, dunn_results_df, intersect_sig_syllables, g') /\
    map fst intersect_sig_syllables = [("a"%string, "b"%string)] /\
    forall pair sylls s,
      In (pair, sylls) intersect_sig_syllables -> In s sylls ->
      nth s (is_sig df_k_real) false = true.
Proof.
  assert (E : exists r, run_kruskal (lib := sample_lib) sample_table 3 2 (9#10)
                                    sample_global = Ok r).
  { eexists. vm_compute. reflexivity. }
  destruct E as ([[[df dunn] inter] g'] & E).
  exists df, dunn, inter, g'. split; [exact E|].
  pose proof (@run_kruskal_significant_pairs sample_lib sample_table 3 2 (9#10)
                sample_global g' df dunn inter E) as H.
  split; [exact (proj1 (proj2 H))|exact (proj1 H)].
Defined.

(** On the sample table the second permutation of the pair [(a, b)] is
    drawn from the variates 4 to 7 of the generator: it puts the first
    session last. *)
Lemma dunns_z_statistics_witness :
  let real_ranks := [[1; 7#2]; [2; 7#2]; [3; 1]; [4; 2]] in
  let X_ties := [0; 1#6] in
  let vc := value_counts String.eqb (map group sample_table) in
  length real_ranks = length sample_table /\
  Forall (fun r => length r = snd (shape real_ranks)) real_ranks /\
  length X_ties = snd (shape real_ranks) /\
  sorted_by_group sample_table (map fst vc) = true /\
  permuted_rows real_ranks (drawn_variates sample_global 4 4)
  = [[2; 7#2]; [3; 1]; [4; 2]; [1; 7#2]] /\
  exists null_zs real_zs null_z real_z,
    dunns_z_test_permute_within_group_pairs (lib := sample_lib)
      sample_table vc real_ranks X_ties 4 (map fst vc) sample_global 3
    = Ok (null_zs, real_zs, advance sample_global 12) /\
    dict_get pair_eqb null_zs ("a"%string, "b"%string) = Some null_z /\
    dict_get pair_eqb real_zs ("a"%string, "b"%string) = Some real_z /\
    nth 0 (nth 1 null_z []) 0
    = dunn_z (lib := sample_lib) [[2; 7#2]; [3; 1]] [[4; 2]; [1; 7#2]] 4 0 0 /\
    nth 0 real_z 0
    = dunn_z (lib := sample_lib) [[1; 7#2]; [2; 7#2]] [[3; 1]; [4; 2]] 4 0 0.
Proof.
  intros real_ranks X_ties vc.
  assert (H1 : length real_ranks = length sample_table) by reflexivity.
  assert (H2 : Forall (fun r => length r = snd (shape real_ranks)) real_ranks).
  { repeat constructor. }
  assert (H3 : length X_ties = snd (shape real_ranks)) by reflexivity.
  assert (H4 : sorted_by_group sample_table (map fst vc) = true) by reflexivity.
  split; [exact H1|]. split; [exact H2|]. split; [exact H3|]. split; [exact H4|].
  split; [reflexivity|].
  destruct (@dunns_z_statistics sample_lib sample_table real_ranks X_ties 4
              sample_global 3 H1 H2 H3 H4) as (null_zs & real_zs & E & H).
  destruct (H [] "a"%string "b"%string [] eq_refl)
    as (null_z & real_z & Hn & Hr & _ & Hnull & Hreal).
  exists null_zs, real_zs, null_z, real_z.
  split; [exact E|]. split; [exact Hn|]. split; [exact Hr|].
  split.
  - exact (proj2 (Hnull 1%nat 0%nat ltac:(lia) ltac:(simpl; lia))).
  - exact (Hreal 0%nat ltac:(simpl; lia)).
Defined.

(** On a table whose group [a] is not contiguous (sessions of the groups
    a, b, a, c) the real statistic of the pair [(a, b)] is not the one of
    the two groups: the code takes the first two of the three sessions of
    the pair, a session of [a] and the session of [b] (mean rank 2.25), as
    the first sub-group and the other session of [a] (rank 2) as the
    second, and returns [0.25 / 1.5 = 1/6], where the mean ranks of the
    groups (1.5 and 3.5) give [2 / 1.5 = 4/3]. *)
Lemma dunns_z_unsorted_table_differs :
  let real_ranks := [[1]; [7#2]; [2]; [7#2]] in
  let X_ties := [1#6] in
  let vc := value_counts String.eqb (map group sample_table_unsorted) in
  Forall2 Qeq (rankdata (column 0 (map usages sample_table_unsorted)))
              (concat real_ranks) /\
  (exists t, get_tie_correction (column 0 (map usages sample_table_unsorted)) 4 = Ok t /\
             t == 1#6) /\
  sorted_by_group sample_table_unsorted (map fst vc) = false /\
  exists null_zs real_zs rnd' real_z,
    dunns_z_test_permute_within_group_pairs (lib := sample_lib)
      sample_table_unsorted vc real_ranks X_ties 4 (map fst vc) sample_global 2
    = Ok (null_zs, real_zs, rnd') /\
    dict_get pair_eqb real_zs ("a"%string, "b"%string) = Some real_z /\
    nth 0 real_z 0 == 1#6 /\
    dunn_z (lib := sample_lib)
           (group_rows sample_table_unsorted real_ranks "a")
           (group_rows sample_table_unsorted real_ranks "b") 4 (1#6) 0 == 4#3 /\
    ~ nth 0 real_z 0
      == dunn_z (lib := sample_lib)
                (group_rows sample_table_unsorted real_ranks "a")
                (group_rows sample_table_unsorted real_ranks "b") 4 (1#6) 0.
Proof.
  intros real_ranks X_ties vc.
  split; [repeat (constructor; [vm_compute; reflexivity|]); constructor|].
  split; [eexists; split; vm_compute; reflexivity|].
  split; [vm_compute; reflexivity|].
  do 4 eexists. split; [|split; [|split; [|split]]].
  - vm_compute. reflexivity.
  - vm_compute. reflexivity.
  - vm_compute. reflexivity.
  - vm_compute. reflexivity.
  - vm_compute. discriminate.
Qed.



(* ------------------------------------------------------------------ *)
(** ** Transition matrices on sample sessions *)

Ltac all_labels := repeat (apply Forall_cons; [lia|]); apply Forall_nil.

Lemma get_transitions_no_repeat_witness :
  (2 < length (firstn 1 sample_session ++ fst (get_transitions sample_session)))%nat /\
  nth 1 (firstn 1 sample_session ++ fst (get_transitions sample_session)) 0%Z
  <> nth 2 (firstn 1 sample_session ++ fst (get_transitions sample_session)) 0%Z.
Proof.
  assert (H : (2 < length (firstn 1 sample_session
                           ++ fst (get_transitions sample_session)))%nat).
  { vm_compute. lia. }
  split; [exact H|].
  exact (get_transitions_no_repeat sample_session 1 H).
Defined.

Lemma n_gram_transition_matrix_counts_witness :
  Forall (fun l => 0 <= l)%Z [1; 2; 0; 2; 0]%Z /\
  exists m,
    n_gram_transition_matrix [1; 2; 0; 2; 0]%Z 3 = Return m /\
    entry m 2 0 = Fin 2 /\ entry m 0 2 = Fin 1.
Proof.
  assert (H : Forall (fun l => 0 <= l)%Z [1; 2; 0; 2; 0]%Z) by all_labels.
  split; [exact H|].
  destruct (n_gram_transition_matrix_counts [1; 2; 0; 2; 0]%Z 3 H) as (m & Hm & _ & Hent).
  exists m. split; [exact Hm|]. split.
  - exact (Hent 2%nat 0%nat ltac:(lia) ltac:(lia)).
  - exact (Hent 0%nat 2%nat ltac:(lia) ltac:(lia)).
Defined.

Lemma transition_counts_zero_diagonal_witness :
  Forall (fun l => 0 <= l)%Z sample_session /\
  exists m,
    n_gram_transition_matrix (fst (get_transitions sample_session)) 3 = Return m /\
    forall i, (i < 3)%nat -> entry m i i = Fin 0.
Proof.
  assert (H : Forall (fun l => 0 <= l)%Z sample_session) by all_labels.
  split; [exact H|].
  exact (transition_counts_zero_diagonal sample_session 3 H).
Defined.

Lemma transition_counts_total_witness :
  Forall (fun l => 0 <= l < Z.of_nat 3)%Z sample_session /\
  length (snd (get_transitions sample_session)) = 3%nat /\
  exists m,
    n_gram_transition_matrix (fst (get_transitions sample_session)) 3 = Return m /\
    sums_to (concat m) (Qnat (length (snd (get_transitions sample_session)) - 1)).
Proof.
  assert (H : Forall (fun l => 0 <= l < Z.of_nat 3)%Z sample_session) by all_labels.
  split; [exact H|]. split; [reflexivity|].
  exact (transition_counts_total sample_session 3 H).
Defined.

Lemma normalize_bigram_total_witness :
  sums_to (concat [[Fin 1; Fin 2]; [Fin 0; Fin 1]]) 4 /\ ~ 4 == 0 /\
  sums_to (concat (normalize_transition_matrix [[Fin 1; Fin 2]; [Fin 0; Fin 1]]
                     (Some "bigram"%string))) 1.
Proof.
  assert (H : sums_to (concat [[Fin 1; Fin 2]; [Fin 0; Fin 1]]) 4).
  { eexists. split; [reflexivity|]. reflexivity. }
  assert (H4 : ~ 4 == 0) by discriminate.
  split; [exact H|]. split; [exact H4|].
  exact (normalize_bigram_total _ 4 H H4).
Defined.

Lemma normalize_rows_witness :
  (1 < length [[Fin 1; Fin 3]; [Fin 0; Fin 0]])%nat /\
  sums_to [Fin 1; Fin 3] 4 /\ ~ 4 == 0 /\
  sums_to (nth 0 (normalize_transition_matrix [[Fin 1; Fin 3]; [Fin 0; Fin 0]]
                    (Some "rows"%string)) []) 1 /\
  Forall (fun x => x = NaN)
         (nth 1 (normalize_transition_matrix [[Fin 1; Fin 3]; [Fin 0; Fin 0]]
                   (Some "rows"%string)) []).
Proof.
  assert (H1 : (1 < length [[Fin 1; Fin 3]; [Fin 0; Fin 0]])%nat) by (simpl; lia).
  assert (H0 : (0 < length [[Fin 1; Fin 3]; [Fin 0; Fin 0]])%nat) by (simpl; lia).
  assert (Hs : sums_to [Fin 1; Fin 3] 4).
  { eexists. split; [reflexivity|]. reflexivity. }
  assert (H4 : ~ 4 == 0) by discriminate.
  assert (Hz : Forall (fun x => exists p, x = Fin p /\ p == 0) [Fin 0; Fin 0]).
  { repeat constructor; exists 0; split; reflexivity. }
  split; [exact H1|]. split; [exact Hs|]. split; [exact H4|]. split.
  - exact (proj1 (normalize_rows [[Fin 1; Fin 3]; [Fin 0; Fin 0]] 0 H0) 4 Hs H4).
  - exact (proj2 (proj2 (normalize_rows [[Fin 1; Fin 3]; [Fin 0; Fin 0]] 1 H1) Hz)).
Defined.

Lemma normalize_columns_witness :
  Forall (fun row => length row = 2%nat) [[Fin 1; Fin 3]; [Fin 3; Fin 0]] /\
  sums_to (map (fun row => nth 0 row (Fin 0)) [[Fin 1; Fin 3]; [Fin 3; Fin 0]]) 4 /\
  sums_to (map (fun row => nth 0 row (Fin 0))
               (normalize_transition_matrix [[Fin 1; Fin 3]; [Fin 3; Fin 0]]
                  (Some "columns"%string))) 1.
Proof.
  assert (Hr : Forall (fun row => length row = 2%nat) [[Fin 1; Fin 3]; [Fin 3; Fin 0]]).
  { repeat constructor. }
  assert (Hs : sums_to (map (fun row => nth 0 row (Fin 0))
                            [[Fin 1; Fin 3]; [Fin 3; Fin 0]]) 4).
  { eexists. split; [reflexivity|]. reflexivity. }
  assert (H4 : ~ 4 == 0) by discriminate.
  split; [exact Hr|]. split; [exact Hs|].
  exact (normalize_columns _ 2 0 4 Hr ltac:(lia) Hs H4).
Defined.

Lemma get_transition_matrix_sessions_witness :
  Forall (Forall (fun l => 0 <= l)%Z) [sample_session; sample_session_one_change] /\
  exists all_mats,
    get_transition_matrix (session_list [sample_session; sample_session_one_change])
                          3 (Some "rows"%string) 0 false
    = Return (inr all_mats) /\
    length all_mats = 2%nat /\ Forall (is_square 3) all_mats.
Proof.
  assert (H : Forall (Forall (fun l => 0 <= l)%Z)
                     [sample_session; sample_session_one_change]).
  { repeat (apply Forall_cons; [all_labels|]). apply Forall_nil. }
  split; [exact H|].
  pose proof (get_transition_matrix_sessions
                [sample_session; sample_session_one_change] 3 (Some "rows"%string) 0 H)
    as Hm.
  destruct (get_transition_matrix (session_list [sample_session; sample_session_one_change])
              3 (Some "rows"%string) 0 false) as [[m|all_mats]|e].
  - contradiction.
  - exists all_mats. split; [reflexivity|]. exact (proj2 Hm).
  - destruct Hm as [Hm _]. discriminate.
Defined.

Lemma get_transition_matrix_combined_witness :
  [sample_session; sample_session_one_change] <> [] /\
  Forall (Forall (fun l => 0 <= l)%Z) [sample_session; sample_session_one_change] /\
  exists m,
    get_transition_matrix (session_list [sample_session; sample_session_one_change])
                          3 None (1#2) true
    = Return (inl m) /\
    exists q, entry m 1 2 = Fin q /\ q == 3#2.
Proof.
  assert (Hne : [sample_session; sample_session_one_change] <> []) by discriminate.
  assert (H : Forall (Forall (fun l => 0 <= l)%Z)
                     [sample_session; sample_session_one_change]).
  { repeat (apply Forall_cons; [all_labels|]). apply Forall_nil. }
  split; [exact Hne|]. split; [exact H|].
  destruct (get_transition_matrix_combined
              [sample_session; sample_session_one_change] 3 (1#2) Hne H)
    as (m & Hm & _ & Hent).
  exists m. split; [exact Hm|].
  destruct (Hent 1%nat 2%nat ltac:(lia) ltac:(lia)) as (q & Hq & E).
  exists q. split; [exact Hq|]. rewrite E. reflexivity.
Defined.

Lemma get_transition_matrix_few_changes_witness :
  sample_session_one_change <> [] /\
  (length (snd (get_transitions sample_session_one_change)) <= 1)%nat /\
  exists m,
    get_transition_matrix (one_session sample_session_one_change) 2
                          (Some "bigram"%string) 0 false
    = Return (inr [m]) /\
    entry m 0 1 = NaN.
Proof.
  assert (Hne : sample_session_one_change <> []) by discriminate.
  assert (Hl : (length (snd (get_transitions sample_session_one_change)) <= 1)%nat).
  { vm_compute. lia. }
  split; [exact Hne|]. split; [exact Hl|].
  destruct (get_transition_matrix_few_changes sample_session_one_change 2
              "bigram"%string Hne Hl ltac:(now left)) as (m & Hm & _ & Hent).
  exists m. split; [exact Hm|].
  exact (Hent 0%nat 1%nat ltac:(lia) ltac:(lia)).
Defined.

Lemma get_transition_matrix_bigram_total_witness :
  Forall (fun l => 0 <= l < Z.of_nat 3)%Z sample_session /\
  (2 <= length (snd (get_transitions sample_session)))%nat /\
  exists m,
    get_transition_matrix (one_session sample_session) 3 (Some "bigram"%string) 0 false
    = Return (inr [m]) /\
    sums_to (concat m) 1.
Proof.
  assert (H : Forall (fun l => 0 <= l < Z.of_nat 3)%Z sample_session) by all_labels.
  assert (Hl : (2 <= length (snd (get_transitions sample_session)))%nat).
  { vm_compute. lia. }
  split; [exact H|]. split; [exact Hl|].
  exact (get_transition_matrix_bigram_total sample_session 3 H Hl).
Defined.

(* ------------------------------------------------------------------ *)
(** ** The configuration on sample inputs *)

Lemma generate_config_unknown_keyword_witness :
  generate_config (dict_set String.eqb [("kappa"%string, PNum 100)]
                            "colour"%string (PStr "red"))
  = generate_config [("kappa"%string, PNum 100)].
Proof.
  apply generate_config_unknown_keyword.
  - cbn. intro H.
    repeat (destruct H as [H|H]; [discriminate H|]). exact H.
  - intros g d Hin. cbn in Hin.
    repeat (destruct Hin as [Hin|Hin];
            [injection Hin as <- <-; cbn; intro H;
             repeat (destruct H as [H|H]; [discriminate H|]); exact H|]).
    contradiction.
  - intros g d Hin Hget. cbn in Hin.
    repeat (destruct Hin as [<-|Hin]; [discriminate Hget|]). contradiction.
Defined.

Lemma generate_config_hyperparameter_witness :
  exists sections hypperams group,
    generate_config [("kappa"%string, PNum 100)] = Return sections /\
    dict_get String.eqb sections "HYPER PARAMS"%string = Some hypperams /\
    dict_get String.eqb hypperams "trans_hypparams"%string = Some (PDict group) /\
    dict_get String.eqb group "kappa"%string = Some (PNum 100).
Proof.
  destruct (generate_config [("kappa"%string, PNum 100)]) as [sections|e] eqn:E;
    [|discriminate E].
  destruct (generate_config_hyperparameter [("kappa"%string, PNum 100)] sections
              "trans_hypparams"%string "kappa"%string
              [("num_states", PNum 100); ("gamma", PNum 1000);
               ("alpha", PNum (57#10)); ("kappa", PNum 1000000)]%string
              (PNum 1000000) E)
    as (hypperams & group & H1 & H2 & _ & H3).
  - cbn. auto 10.
  - reflexivity.
  - reflexivity.
  - exists sections, hypperams, group. auto.
Defined.

Lemma check_config_validity_iff_witness :
  anatomy_of sample_config_all
    [PStr "nose"; PStr "spine"; PStr "tail"] [PStr "nose"; PStr "spine"; PStr "tail"]
    [[PStr "nose"; PStr "spine"]; [PStr "spine"; PStr "paw"]]
    [PStr "nose"] [PStr "tail"] /\
  check_config_validity sample_config_all
  = Return (false, [("skeleton"%string, PStr "paw")]).
Proof.
  assert (H : anatomy_of sample_config_all
                [PStr "nose"; PStr "spine"; PStr "tail"]
                [PStr "nose"; PStr "spine"; PStr "tail"]
                [[PStr "nose"; PStr "spine"]; [PStr "spine"; PStr "paw"]]
                [PStr "nose"] [PStr "tail"]).
  { repeat split. }
  split; [exact H|].
  destruct (check_config_validity_iff _ _ _ _ _ _ H) as (validity & msgs & Hc & Hm & Hv).
  rewrite Hc. subst msgs. f_equal. f_equal.
  destruct validity; [|reflexivity].
  exfalso. apply proj1 in Hv. specialize (Hv eq_refl).
  rewrite Forall_forall in Hv.
  specialize (Hv (PStr "paw") ltac:(cbn; auto 10)). discriminate Hv.
Defined.

Lemma load_config_ignores_validity_witness :
  anatomy_of sample_config_all
    [PStr "nose"; PStr "spine"; PStr "tail"] [PStr "nose"; PStr "spine"; PStr "tail"]
    [[PStr "nose"; PStr "spine"]; [PStr "spine"; PStr "paw"]]
    [PStr "nose"] [PStr "tail"] /\
  load_config sample_config_all true true = load_config sample_config_all false true.
Proof.
  assert (H : anatomy_of sample_config_all
                [PStr "nose"; PStr "spine"; PStr "tail"]
                [PStr "nose"; PStr "spine"; PStr "tail"]
                [[PStr "nose"; PStr "spine"]; [PStr "spine"; PStr "paw"]]
                [PStr "nose"] [PStr "tail"]).
  { repeat split. }
  split; [exact H|].
  exact (load_config_ignores_validity _ _ _ _ _ _ true H).
Defined.

Lemma load_config_indexes_witness :
  (exists loaded,
     load_config sample_config_all false true = Return loaded /\
     dict_get String.eqb loaded "posterior_idxs"%string = Some (index_array [2%nat])) /\
  load_config sample_config false true = Throw (Builtin ValueError).
Proof.
  split.
  - pose proof (load_config_indexes sample_config_all
                  [PStr "nose"; PStr "spine"; PStr "tail"] [PStr "nose"] [PStr "tail"]
                  eq_refl eq_refl eq_refl) as H.
    destruct (load_config sample_config_all false true) as [loaded|e].
    + exists loaded. split; [reflexivity|].
      destruct H as (a_idxs & p_idxs & _ & Hp & _ & H2). rewrite Hp.
      inversion H2 as [|i bp l l' Hi Hl]; subst. inversion Hl; subst.
      destruct Hi as [(y & Hy & Ey) Hbefore].
      destruct i as [|[|[|i]]].
      * cbn in Hy. injection Hy as <-. discriminate Ey.
      * cbn in Hy. injection Hy as <-. discriminate Ey.
      * reflexivity.
      * destruct i; discriminate Hy.
    + destruct H as [_ (bp & Hin & Hbp)]. exfalso.
      destruct Hin as [<-|[<-|[]]].
      * specialize (Hbp (PStr "nose") ltac:(cbn; auto)). discriminate Hbp.
      * specialize (Hbp (PStr "tail") ltac:(cbn; auto)). discriminate Hbp.
  - pose proof (load_config_indexes sample_config
                  [PStr "spine"; PStr "tail"] [PStr "nose"] [PStr "tail"]
                  eq_refl eq_refl eq_refl) as H.
    destruct (load_config sample_config false true) as [loaded|e].
    + exfalso. destruct H as (a_idxs & p_idxs & _ & _ & H1 & _).
      inversion H1 as [|i bp l l' Hi Hl]; subst.
      destruct Hi as [(y & Hy & Ey) _].
      destruct i as [|[|i]].
      * cbn in Hy. injection Hy as <-. discriminate Ey.
      * cbn in Hy. injection Hy as <-. discriminate Ey.
      * destruct i; discriminate Hy.
    + destruct H as [-> _]. reflexivity.
Defined.

Lemma load_config_missing_skeleton_witness :
  dict_get String.eqb sample_config_no_skeleton "skeleton"%string = None /\
  load_config sample_config_no_skeleton true true = Throw (Builtin KeyError) /\
  load_config sample_config_no_skeleton false false
  = Return (dict_set String.eqb sample_config_no_skeleton "skeleton"%string (PList [])).
Proof.
  split; [reflexivity|].
  exact (proj1 (load_config_missing_skeleton sample_config_no_skeleton
                  [PStr "nose"; PStr "tail"] [PStr "nose"; PStr "tail"] true
                  eq_refl eq_refl) eq_refl).
Defined.

(* ------------------------------------------------------------------ *)
(** ** Loading files and naming them, on sample inputs *)

Lemma sample_loader_dicts (filepath name : string)
  (new_coords new_confs : list (string * nat)) (bps : list string) :
  sample_loader filepath name = Return (new_coords, new_confs, bps) ->
  NoDup (map fst new_coords) /\ NoDup (map fst new_confs).
Proof.
  unfold sample_loader. destruct (String.eqb filepath "broken.csv"); [discriminate|].
  intro H. injection H as <- <- _. split; repeat constructor; cbn; tauto.
Qed.

Lemma load_keypoints_first_file_fails_witness :
  load_result sample_loader false "-" true "broken.csv" = Throw (Builtin ValueError) /\
  load_keypoints_loop sample_loader "*.csv" ["broken.csv"%string; "a/m1.csv"%string] "-"
                      false true
  = Throw UnboundLocalError.
Proof.
  assert (H : load_result sample_loader false "-" true "broken.csv"
              = Throw (Builtin ValueError)) by reflexivity.
  split; [exact H|].
  exact (load_keypoints_first_file_fails sample_loader false true "-" "*.csv"
           "broken.csv" ["a/m1.csv"%string] (Builtin ValueError) H).
Defined.

Lemma load_keypoints_skips_failed_file_witness :
  ["a/m1.csv"%string] <> [] /\
  load_result sample_loader false "-" true "broken.csv" = Throw (Builtin ValueError) /\
  load_keypoints_loop sample_loader "*.csv"
                      (["a/m1.csv"%string] ++ "broken.csv"%string :: ["a/m2.csv"%string]) "-" false true
  = load_keypoints_loop sample_loader "*.csv" (["a/m1.csv"%string] ++ ["a/m2.csv"%string])
                        "-" false true.
Proof.
  assert (Hne : ["a/m1.csv"%string] <> []) by discriminate.
  assert (H : load_result sample_loader false "-" true "broken.csv"
              = Throw (Builtin ValueError)) by reflexivity.
  split; [exact Hne|]. split; [exact H|].
  exact (load_keypoints_skips_failed_file sample_loader false true "-"
           sample_loader_dicts "*.csv" "broken.csv" ["a/m1.csv"%string]
           ["a/m2.csv"%string] (Builtin ValueError) Hne H).
Defined.

Lemma load_keypoints_last_file_wins_witness :
  dict_get String.eqb
    (loaded_coordinates (load_result sample_loader false "-" true "b/c/m1.csv"))
    "m1"%string = Some 10%nat /\
  exists coords confs bps,
    load_keypoints_loop sample_loader "*.csv" (["a/m1.csv"%string] ++ "b/c/m1.csv"%string :: [])
                        "-" false true
    = Return (coords, confs, bps) /\
    dict_get String.eqb coords "m1"%string = Some 10%nat.
Proof.
  assert (H : dict_get String.eqb
                (loaded_coordinates (load_result sample_loader false "-" true "b/c/m1.csv"))
                "m1"%string = Some 10%nat) by reflexivity.
  split; [exact H|].
  apply (load_keypoints_last_file_wins sample_loader false true "-" sample_loader_dicts
           "*.csv" "b/c/m1.csv" ["a/m1.csv"%string] [] "m1" 10%nat).
  - intros f [<-|[<-|[]]]; eexists; reflexivity.
  - exact H.
  - intros f [].
Defined.

Lemma name_from_path_no_separator_witness :
  has_sep "-" = false /\
  has_sep (_name_from_path "data/day1/m1.csv" true "-" true) = false.
Proof.
  assert (H : has_sep "-" = false) by reflexivity.
  split; [exact H|].
  exact (name_from_path_no_separator "data/day1/m1.csv" "-" true true (fun _ => H)).
Defined.

Lemma name_from_path_stem_witness :
  is_directory_prefix "data/day1/" /\
  _name_from_path (String.append "data/day1/" (String.append "m1.v2" (String extsep "csv")))
                  false "-" true
  = "m1.v2"%string.
Proof.
  assert (H : is_directory_prefix "data/day1/").
  { right. exists "data/day1"%string. reflexivity. }
  split; [exact H|].
  apply (name_from_path_stem "data/day1/" "m1.v2" "csv" "-");
    try reflexivity; [|exact H].
  exists 0%nat. eexists. split; reflexivity.
Defined.

(* ------------------------------------------------------------------ *)
(** ** The manual test and its reference on the sample table *)

Lemma chi2_sf_standin_proper (a b : Q) (df : Z) :
  a == b -> chi2_sf_standin a df == chi2_sf_standin b df.
Proof. intro H. unfold chi2_sf_standin. now rewrite H. Qed.

Lemma run_manual_KW_test_agrees_witness :
  Forall (fun k => 0 < k)%nat [2; 2]%nat /\
  fold_right Nat.add 0%nat [2; 2]%nat = length (map usages sample_table) /\
  match run_manual_KW_test (lib := sample_lib)
          (map usages sample_table) (map usages sample_table)
          (length [2; 2]%nat) [2; 2]%nat (0%nat :: np_cumsum [2; 2]%nat)
          3 2 sample_global with
  | Ok (h_all, _, _, _) =>
      forall p s, (p < 3)%nat -> (s < snd (shape (map usages sample_table)))%nat ->
        forall kr,
          stats_kruskal (lib := sample_lib)
            (np_array_split
               (map (fun k => nth s (nth k (map usages sample_table) []) 0)
                    (nth p (fst (rand_perms 3 (length (map usages sample_table))
                                            (RandomState_of_seed (lib := sample_lib) 2)))
                         []))
               (np_cumsum (drop_last [2; 2]%nat))) = Ok kr ->
          float_eqb (statistic kr) (nth s (nth p h_all []) 0) = true
  | Raise e => e = ValueError \/ e = ZeroDivisionError
  end.
Proof.
  assert (H1 : Forall (fun k => 0 < k)%nat [2; 2]%nat) by (repeat constructor).
  assert (H2 : fold_right Nat.add 0%nat [2; 2]%nat = length (map usages sample_table))
    by reflexivity.
  split; [exact H1|]. split; [exact H2|].
  exact (@run_manual_KW_test_agrees sample_lib (map usages sample_table)
           (map usages sample_table) [2; 2]%nat 3 2 sample_global
           chi2_sf_standin_proper H1 H2).
Defined.


(** The pivot of the sample frame for [frequency]: the sessions of group
    [a], then those of group [b]. *)
Lemma pivot_table_sorted_by_group_witness :
  exists grouped_data,
    pivot_table sample_stats_df "frequency" = Ok grouped_data /\
    map (fun r => (group r, file_name r)) grouped_data
    = [("a", "s1"); ("a", "s2"); ("b", "s3"); ("b", "s4")]%string /\
    sorted_by_group grouped_data
      (map fst (value_counts String.eqb (map group grouped_data))) = true.
Proof.
  assert (E : exists grouped_data,
             pivot_table sample_stats_df "frequency" = Ok grouped_data /\
             map (fun r => (group r, file_name r)) grouped_data
             = [("a", "s1"); ("a", "s2"); ("b", "s3"); ("b", "s4")]%string).
  { eexists. split; vm_compute; reflexivity. }
  destruct E as (grouped_data & E & Hk).
  exists grouped_data. split; [exact E|]. split; [exact Hk|].
  exact (pivot_table_sorted_by_group sample_stats_df "frequency" grouped_data E).
Defined.
